(** * Bifrost: k-mer hash tables, unitig index, mutation kernel and colour sets

    A shallow embedding of [KmerHashTable.h], of the unitig mapper
    ([UnitigMapper::find], [empty], [mapRead], [addUnitig],
    [deleteUnitig], [swapUnitigs], [splitAllUnitigs], [checkJoin],
    [removeUnitigs], [writeGFA]) and of [ColoredCDBG.tcc] ([clear],
    [build], [mapColors], [write], [initColorSets], [buildColorSets]),
    with the properties the specification states about them and further
    properties of the code. *)

From Stdlib Require Import ZArith Lia List Bool.
From Stdlib Require String Ascii.
From stdpp Require Import base option list.
Import ListNotations.
Local Open Scope Z_scope.

(** ** Machine integers *)

(** [size_t] and [uint64_t] values are integers in [0, 2^64); arithmetic
    wraps around. *)
Definition wrap64 (z : Z) : Z := z mod 2 ^ 64.

(** ** Open-addressing hash tables ([KmerHashTable.h])

    [KmerHashTable] and [MinimizerHashTable] are the same code over two
    key types; the embedding is generic in the key type [K]. *)

Module HT.

(** What a table is instantiated with: the key type with its equality,
  the hash functor [hasher] (64-bit result), and the two sentinel
  pairs [empty_val] and [deleted] that the constructor sets up with
  [set_empty] and [set_deleted]. *)
Class TableOps (K T : Type) := {
key_eq :: EqDecision K;
hasher : K -> Z;
empty_val : K * T;
deleted : K * T
}.

Section OpenAddressing.
Context {K T : Type} `{TableOps K T}.

Record HashTable := mkHT {
  table : list (K * T);
  size_ : Z;
  pop : Z;
  num_empty : Z
}.

Definition key_eqb (a b : K) : bool := bool_decide (a = b).

(** [rndup]: next power of two, on 64 bits. *)
Definition rndup (v : Z) : Z :=
  let v := wrap64 (v - 1) in
  let v := Z.lor v (Z.shiftr v 1) in
  let v := Z.lor v (Z.shiftr v 2) in
  let v := Z.lor v (Z.shiftr v 4) in
  let v := Z.lor v (Z.shiftr v 8) in
  let v := Z.lor v (Z.shiftr v 16) in
  let v := Z.lor v (Z.shiftr v 32) in
  wrap64 (v + 1).

(** [clear] then [init_table]. *)
Definition clear (t : HashTable) : HashTable :=
  {| table := replicate (length (table t)) empty_val;
     size_ := size_ t; pop := 0; num_empty := size_ t |}.

Definition init_table (sz : Z) : HashTable :=
  let n := rndup sz in
  clear {| table := replicate (Z.to_nat n) empty_val;
           size_ := n; pop := 0; num_empty := 0 |}.

(** [size()] and [empty()]. *)
Definition size (t : HashTable) : Z := pop t.
Definition empty (t : HashTable) : bool := pop t =? 0.

(** An iterator is its slot index [h]; [end()] carries [h = size_]. *)
Definition it_end (t : HashTable) : Z := size_ t.

(** [h = (h+1 != size_ ? h+1 : 0)] *)
Definition next_slot (t : HashTable) (h : Z) : Z :=
  if wrap64 (h + 1) =? size_ t then 0 else wrap64 (h + 1).

(** [hasher(key) & (size_-1)] *)
Definition start_slot (t : HashTable) (key : K) : Z :=
  Z.land (wrap64 (hasher key)) (wrap64 (size_ t - 1)).

(** [find(const Kmer& key)]: the loop leaves through one of its three
    [return]s within [size_] rounds; reading outside the array is
    undefined ([None]). *)
Fixpoint find_loop (fuel : nat) (t : HashTable) (key : K) (h end_h : Z)
  : option Z :=
  match fuel with
  | O => None
  | S fuel' =>
      match table t !! Z.to_nat h with
      | None => None
      | Some (k, _) =>
          if key_eqb k empty_val.1 then Some (it_end t)
          else if key_eqb k key then Some h
          else if h =? end_h then Some (it_end t)
          else find_loop fuel' t key (next_slot t h) end_h
      end
  end.

Definition find (t : HashTable) (key : K) : option Z :=
  let h := start_slot t key in
  let end_h := if h =? 0 then wrap64 (size_ t - 1) else h - 1 in
  find_loop (length (table t)) t key h end_h.

(** [find(const size_t h)] *)
Definition find_h (t : HashTable) (h : Z) : Z :=
  match table t !! Z.to_nat h with
  | Some (k, _) =>
      if (h <? size_ t) && negb (key_eqb k empty_val.1)
         && negb (key_eqb k deleted.1)
      then h else it_end t
  | None => it_end t
  end.

(** [operator++] of the iterator: the next slot holding a live key. *)
Fixpoint skip_dead (slots : list (K * T)) (h : Z) : Z :=
  match slots with
  | [] => h
  | (k, _) :: rest =>
      if negb (key_eqb k empty_val.1) && negb (key_eqb k deleted.1)
      then h else skip_dead rest (h + 1)
  end.

Definition it_next (t : HashTable) (h : Z) : Z :=
  if h =? size_ t then h
  else skip_dead (drop (Z.to_nat (h + 1)) (table t)) (h + 1).

(** [begin()]: [find_first]. *)
Definition it_begin (t : HashTable) : Z :=
  match table t with
  | [] => 0
  | (k, _) :: _ =>
      if key_eqb k empty_val.1 || key_eqb k deleted.1
      then it_next t 0 else 0
  end.

(** [erase(const_iterator pos)] *)
Definition erase_it (t : HashTable) (pos : Z) : HashTable * Z :=
  if pos =? it_end t then (t, it_end t)
  else
    let t' := {| table := <[Z.to_nat pos := deleted]> (table t);
                 size_ := size_ t;
                 pop := wrap64 (pop t - 1);
                 num_empty := num_empty t |} in
    (t', it_next t' pos).

(** [erase(const size_t h)] *)
Definition erase_h (t : HashTable) (h : Z) : HashTable * Z :=
  if h >=? size_ t then (t, it_end t)
  else
    let t' := {| table := <[Z.to_nat h := deleted]> (table t);
                 size_ := size_ t;
                 pop := wrap64 (pop t - 1);
                 num_empty := num_empty t |} in
    (t', it_next t' h).

(** [erase(const Kmer& km)] *)
Definition erase_key (t : HashTable) (km : K) : option (HashTable * Z) :=
  match find t km with
  | None => None
  | Some pos =>
      let oldpop := pop t in
      let t' := if pos =? it_end t then t else fst (erase_it t pos) in
      Some (t', wrap64 (oldpop - pop t'))
  end.

(** The probing loop of [insert].  It has no exit besides an empty slot
    or the key itself: after [size_] rounds without either it revisits
    the same slots for ever ([None]).  [h_tmp] is uninitialised until
    [is_deleted] is set. *)
Fixpoint insert_loop (fuel : nat) (t : HashTable) (val : K * T)
    (h : Z) (is_deleted : bool) (h_tmp : Z)
  : option (HashTable * Z * bool) :=
  match fuel with
  | O => None
  | S fuel' =>
      match table t !! Z.to_nat h with
      | None => None
      | Some (k, _) =>
          if key_eqb k empty_val.1 then
            let h' := if is_deleted then h_tmp else h in
            Some ({| table := <[Z.to_nat h' := val]> (table t);
                     size_ := size_ t;
                     pop := wrap64 (pop t + 1);
                     num_empty := if is_deleted then num_empty t
                                  else wrap64 (num_empty t - 1) |},
                  h', true)
          else if key_eqb k val.1 then Some (t, h, false)
          else if negb is_deleted && key_eqb k deleted.1
          then insert_loop fuel' t val (next_slot t h) true h
          else insert_loop fuel' t val (next_slot t h) is_deleted h_tmp
      end
  end.

Definition insert_probe (t : HashTable) (val : K * T)
  : option (HashTable * Z * bool) :=
  insert_loop (length (table t)) t val (start_slot t val.1) false 0.

(** [new value_type[n]]: a slot takes at least 16 bytes, so beyond
    [2^60] slots the allocation throws [std::bad_alloc] ([None]). *)
Definition alloc_limit : Z := 2 ^ 60.

(** [reserve(sz)], with the [insert] it calls passed as [ins]. *)
Definition reserve_with (ins : HashTable -> K * T -> option (HashTable * Z * bool))
    (t : HashTable) (sz : Z) : option HashTable :=
  if sz <=? size_ t then Some t
  else
    let n := rndup sz in
    if n >? alloc_limit then None
    else
    let fresh := {| table := replicate (Z.to_nat n) empty_val;
                    size_ := n; pop := 0; num_empty := n |} in
    fold_left
      (fun acc slot =>
         match acc with
         | None => None
         | Some t' =>
             if negb (key_eqb slot.1 empty_val.1)
                && negb (key_eqb slot.1 deleted.1)
             then match ins t' slot with
                  | Some (t'', _, _) => Some t''
                  | None => None
                  end
             else Some t'
         end)
      (table t) (Some fresh).

(** The resize step at the head of [insert]. *)
Definition grow_with (ins : HashTable -> K * T -> option (HashTable * Z * bool))
    (t : HashTable) : option HashTable :=
  if wrap64 (5 * num_empty t) <? size_ t
  then reserve_with ins t (wrap64 (2 * size_ t))
  else Some t.

(** [insert] and [reserve] call each other; [d] bounds the nesting. *)
Fixpoint insert_d (d : nat) (t : HashTable) (val : K * T)
  : option (HashTable * Z * bool) :=
  match d with
  | O => None
  | S d' =>
      match grow_with (insert_d d') t with
      | None => None
      | Some t1 => insert_probe t1 val
      end
  end.

(** Every nested [reserve] at least doubles a capacity below [2^64],
    so the nesting is never deeper than 65. *)
Definition insert (t : HashTable) (val : K * T)
  : option (HashTable * Z * bool) := insert_d 66 t val.

Definition grow (t : HashTable) : option HashTable :=
  grow_with (insert_d 65) t.

Definition reserve (t : HashTable) (sz : Z) : option HashTable :=
  reserve_with insert t sz.

End OpenAddressing.

Arguments HashTable : clear implicits.

End HT.

(** *** Specification-side notions for the tables *)

Module HTSpec.
Import HT.
Section ProbePath.
Context {K T : Type} `{TableOps K T}.

(** The slots a probe visits, in order: [n] slots from [h] on. *)
Fixpoint path (t : HashTable K T) (h : Z) (n : nat) : list Z :=
  match n with
  | O => []
  | S n' => h :: path t (next_slot t h) n'
  end.

(** The probe path of a key: one full circuit from its start slot. *)
Definition probe_path (t : HashTable K T) (key : K) : list Z :=
  path t (start_slot t key) (length (table t)).

Definition slot_key (t : HashTable K T) (h : Z) : option K :=
  fst <$> table t !! Z.to_nat h.

Definition holds (t : HashTable K T) (key : K) (h : Z) : bool :=
  match slot_key t h with
  | Some k => key_eqb k key
  | None => false
  end.

Definition is_empty_slot (t : HashTable K T) (h : Z) : bool :=
  holds t empty_val.1 h.

Definition is_deleted_slot (t : HashTable K T) (h : Z) : bool :=
  holds t deleted.1 h.

(** Where a probe for [key] stops: the first slot of the path that is
    empty or holds [key]. *)
Definition stops (t : HashTable K T) (key : K) (h : Z) : bool :=
  is_empty_slot t h || holds t key h.

(** The first empty slot on the probe path of [key], with its rank. *)
Definition first_empty (t : HashTable K T) (key : K) : option (nat * Z) :=
  list_find (fun h => is_empty_slot t h = true) (probe_path t key).

(** The first deleted slot that precedes the first empty slot on the
    probe path of [key]. *)
Definition first_deleted_before_empty (t : HashTable K T) (key : K)
  : option Z :=
  match first_empty t key with
  | Some (i, _) =>
      snd <$> list_find (fun h => is_deleted_slot t h = true)
                        (take i (probe_path t key))
  | None => None
  end.

Definition is_live (k : K) : bool :=
  negb (key_eqb k empty_val.1) && negb (key_eqb k deleted.1).

Definition count_empty (t : HashTable K T) : Z :=
  Z.of_nat (length (filter (fun s => key_eqb s.1 empty_val.1 = true) (table t))).

(** The number of stored keys. *)
Definition count_live (t : HashTable K T) : Z :=
  Z.of_nat (length (filter (fun s => is_live s.1 = true) (table t))).

(** A table as the constructor and [insert] leave it: the capacity is a
    power of two [2^j] with [j <= J], the array has that many slots, and
    [num_empty] counts the slots holding the empty sentinel. *)
Definition wf_upto (J : Z) (t : HashTable K T) : Prop :=
  (exists j, 0 <= j <= J /\ size_ t = 2 ^ j) /\
  Z.of_nat (length (table t)) = size_ t /\
  num_empty t = count_empty t.

(** Every stored key is in the slot where [find] comes upon it. *)
Definition findable (t : HashTable K T) : Prop :=
  forall (h : nat) key v,
    table t !! h = Some (key, v) -> is_live key = true ->
    find t key = Some (Z.of_nat h).

(** The same, slot by slot, as a test. *)
Definition findable_b (t : HashTable K T) : bool :=
  forallb (fun he : nat * (K * T) =>
             negb (is_live he.2.1)
             || bool_decide (find t he.2.1 = Some (Z.of_nat he.1)))
          (imap pair (table t)).

(** A table in use: well formed, with every key findable. *)
Definition table_ok (t : HashTable K T) : Prop :=
  wf_upto 60 t /\ findable t.

(** The table after [table[h] = val; ++pop], with [num_empty] as given. *)
Definition stored (t : HashTable K T) (h : Z) (val : K * T) (ne : Z)
  : HashTable K T :=
  {| table := <[Z.to_nat h := val]> (table t);
     size_ := size_ t;
     pop := wrap64 (pop t + 1);
     num_empty := ne |}.

End ProbePath.
End HTSpec.

Module HTRead.
Import HT HTSpec.
Section Outcomes.
Context {K T : Type} `{TableOps K T}.

(** What the probing loop of [insert] yields, read off the slots [hs] it
    is about to visit: it stops at the first slot that is empty or holds
    the key; at an empty slot the value goes to the first deleted slot
    seen before ([h_tmp] when one was seen already). *)
Definition probe_result (t : HashTable K T) (val : K * T) (hs : list Z)
    (is_deleted : bool) (h_tmp : Z) : option (HashTable K T * Z * bool) :=
  match list_find (fun h => stops t val.1 h = true) hs with
  | None => None
  | Some (i, e) =>
      if is_empty_slot t e then
        let fd := list_find (fun h => is_deleted_slot t h = true) (take i hs) in
        let h' := if is_deleted then h_tmp
                  else match fd with Some (_, d) => d | None => e end in
        let ne := if is_deleted then num_empty t
                  else match fd with
                       | Some _ => num_empty t
                       | None => wrap64 (num_empty t - 1)
                       end in
        Some (stored t h' val ne, h', true)
      else Some (t, e, false)
  end.

(** What [find] yields, read off the slots it visits. *)
Definition find_result (t : HashTable K T) (key : K) (hs : list Z) : Z :=
  match list_find (fun h => stops t key h = true) hs with
  | Some (_, e) => if is_empty_slot t e then it_end t else e
  | None => it_end t
  end.

Definition in_range (t : HashTable K T) (h : Z) : Prop := 0 <= h < size_ t.

End Outcomes.
End HTRead.

(** *** A small table for the examples

    Keys are integers hashed by themselves; [-1] and [-2] stand for the
    empty and the deleted sentinel. *)

Module HTExample.
Import HT.

#[export] Instance z_ops : TableOps Z Z :=
  {| key_eq := Z.eq_dec; hasher := fun k => k;
     empty_val := (-1, 0); deleted := (-2, 0) |}.

(** Capacity 4: key 4 in slot 0, a deleted slot, two empty slots. *)
Definition ex_t : HashTable Z Z :=
  {| table := [(4, 40); (-2, 0); (-1, 0); (-1, 0)];
     size_ := 4; pop := 1; num_empty := 2 |}.

(** Capacity 4 with a single empty slot left: the next [insert] grows it. *)
Definition ex_full : HashTable Z Z :=
  {| table := [(4, 40); (5, 50); (-1, 0); (7, 70)];
     size_ := 4; pop := 3; num_empty := 1 |}.

End HTExample.


(** *** The tables as their callers use them *)

Module HTUse.
Import HT HTSpec.
Section Use.
Context {K T : Type} `{TableOps K T}.

(** [it = find(key)], then [it->second] when [it != end()]. *)
Definition lookup_value (t : HashTable K T) (key : K) : option T :=
  h ← find t key;
  if h =? it_end t then None else snd <$> table t !! Z.to_nat h.

(** The pair [e] is in a slot of the table, under a key that is not a
    sentinel. *)
Definition stores (t : HashTable K T) (e : K * T) : Prop :=
  e ∈ table t /\ is_live e.1 = true.

(** A table in use whose [size()] is the number of stored keys. *)
Definition in_use (t : HashTable K T) : Prop :=
  table_ok t /\ pop t = count_live t.

(** The calls that change a table. *)
Inductive op :=
| Insert (val : K * T)
| EraseKey (km : K)
| Clear
| Reserve (sz : Z).

Definition apply_op (t : HashTable K T) (o : op) : option (HashTable K T) :=
  match o with
  | Insert val => r ← insert t val; Some r.1.1
  | EraseKey km => r ← erase_key t km; Some r.1
  | Clear => Some (clear t)
  | Reserve sz => reserve t sz
  end.

Fixpoint apply_ops (t : HashTable K T) (l : list op) : option (HashTable K T) :=
  match l with
  | [] => Some t
  | o :: rest => t' ← apply_op t o; apply_ops t' rest
  end.

(** What the calls are to do to the table seen as a map from keys to
    values: [insert] adds a pair unless the key is there already. *)
Definition map_op (m : K -> option T) (o : op) : K -> option T :=
  match o with
  | Insert val =>
      fun key => if decide (key = val.1)
                 then match m key with Some v => Some v | None => Some val.2 end
                 else m key
  | EraseKey km => fun key => if decide (key = km) then None else m key
  | Clear => fun _ => None
  | Reserve _ => m
  end.

Definition map_ops (m : K -> option T) (l : list op) : K -> option T :=
  fold_left map_op l m.

(** An operation a caller may issue: its key is not a sentinel, and a
    requested capacity is a 64-bit value up to [2^63]. *)
Definition op_ok (o : op) : Prop :=
  match o with
  | Insert val => is_live val.1 = true
  | EraseKey km => is_live km = true
  | Clear => True
  | Reserve sz => 0 <= sz <= 2 ^ 63
  end.

(** [for (it = begin(); it != end(); ++it)]: the slots the iterator
    stops at, in order.  Each [++] moves on by at least one slot. *)
Fixpoint visit (fuel : nat) (t : HashTable K T) (it : Z) : option (list Z) :=
  if it =? it_end t then Some []
  else
    match fuel with
    | O => None
    | S fuel' => l ← visit fuel' t (it_next t it); Some (it :: l)
    end.

Definition traversal (t : HashTable K T) : option (list Z) :=
  visit (length (table t)) t (it_begin t).

(** The slots that hold a stored key, in increasing order; [h] is the
    index of the first of [slots]. *)
Fixpoint live_from (slots : list (K * T)) (h : Z) : list Z :=
  match slots with
  | [] => []
  | (k, _) :: rest =>
      if is_live k then h :: live_from rest (h + 1) else live_from rest (h + 1)
  end.

Definition live_slots (t : HashTable K T) : list Z := live_from (table t) 0.

End Use.

Arguments op : clear implicits.

End HTUse.

(** *** A sequence of calls for the examples *)

Module HTUseExample.
Import HT HTUse HTExample.

(** On [ex_t]: a new key, a key that is there, an erase, a resize and
    the erased key again. *)
Definition ex_ops : list (op Z Z) :=
  [Insert (8, 80); Insert (4, 41); EraseKey 4; Reserve 16; Insert (4, 42)].

End HTUseExample.
(** ** The driver of [ColoredCDBG.tcc]: [build], [mapColors], [write]

    [ColoredCDBG<U>] derives from [CompactedDBG<DataAccessor<U>,
    DataStorage<U>>] and adds the member [invalid].  The base class and
    the colour store are not part of these sources: the driver is
    embedded over an interface [BaseOps] of the calls it makes. *)

Module Driver.
Import String.

(** [G]: the base graph object (with its data store); [Opt]:
    [CCDBG_Build_opt]; [Disk]: the files read and written. *)
Class BaseOps (G Opt Disk : Type) := {
  (** [CompactedDBG::build(opt.getCDBG_Build_opt())] *)
  cdbg_build : Opt -> G -> Disk -> G * bool;
  (** [opt.filename_colors_in.size()] *)
  filename_colors_in_size : Opt -> Z;
  nb_threads : Opt -> Z;
  (** [initColorSets(opt)] then [buildColorSets(opt.nb_threads)] *)
  initColorSets : Opt -> G -> G;
  buildColorSets : Z -> G -> Disk -> G;
  readColorSets : Opt -> G -> Disk -> G * bool;
  (** [CompactedDBG::write(prefix, nb_threads, GFA_output, verbose)] *)
  cdbg_write : string -> Z -> bool -> bool -> G -> Disk -> Disk * bool;
  (** [getData()->write(prefix, nb_threads, verbose)] *)
  ds_write : string -> Z -> bool -> G -> Disk -> Disk * bool
}.

Section ColoredCDBG.
Context {G Opt Disk : Type} `{BaseOps G Opt Disk}.

Record ColoredCDBG := mkCCDBG {
  base : G;
  invalid : bool
}.

(** What a call leaves: the object, the files, what went to [cerr], and
    the returned boolean. *)
Record Outcome := mkOutcome {
  graph : ColoredCDBG;
  disk : Disk;
  cerr : list string;
  ret : bool
}.

Definition build (opt : Opt) (c : ColoredCDBG) (d : Disk) : Outcome :=
  if negb (invalid c) then
    let '(g', ok) := cdbg_build opt (base c) d in
    let c' := {| base := g'; invalid := negb ok |} in
    {| graph := c'; disk := d; cerr := []; ret := negb (invalid c') |}
  else
    {| graph := c; disk := d;
       cerr := ["ColoredCDBG::build(): Graph is invalid and cannot be built."%string];
       ret := negb (invalid c) |}.

Definition mapColors (opt : Opt) (c : ColoredCDBG) (d : Disk) : Outcome :=
  if negb (invalid c) then
    if filename_colors_in_size opt =? 0 then
      let g1 := initColorSets opt (base c) in
      let g2 := buildColorSets (nb_threads opt) g1 d in
      let c' := {| base := g2; invalid := invalid c |} in
      {| graph := c'; disk := d; cerr := []; ret := negb (invalid c') |}
    else
      let '(g', ok) := readColorSets opt (base c) d in
      let c' := {| base := g'; invalid := negb ok |} in
      {| graph := c'; disk := d; cerr := []; ret := negb (invalid c') |}
  else
    {| graph := c; disk := d;
       cerr := ["ColoredCDBG::mapColors(): Graph is invalid (maybe not built yet?) and colors cannot be mapped."%string];
       ret := negb (invalid c) |}.

Definition write (prefix_output_filename : string) (nb_thr : Z)
    (verbose : bool) (c : ColoredCDBG) (d : Disk) : Outcome :=
  let '(d1, ok1) := cdbg_write prefix_output_filename nb_thr true verbose (base c) d in
  if negb ok1 then {| graph := c; disk := d1; cerr := []; ret := false |}
  else
    let '(d2, ok2) := ds_write prefix_output_filename nb_thr verbose (base c) d1 in
    {| graph := c; disk := d2; cerr := []; ret := ok2 |}.

End ColoredCDBG.

Arguments ColoredCDBG : clear implicits.
Arguments Outcome : clear implicits.

(** A base graph whose [build] fails and whose writers succeed, writing
    one file each: a graph that failed to build while the base object
    itself is still in a state its [write] accepts. *)
#[export] Instance failing_build : BaseOps unit unit (list string) :=
  {| cdbg_build := fun _ g _ => (g, false);
     filename_colors_in_size := fun _ => 0;
     nb_threads := fun _ => 1;
     initColorSets := fun _ g => g;
     buildColorSets := fun _ g _ => g;
     readColorSets := fun _ g _ => (g, true);
     cdbg_write := fun p _ _ _ _ d => (d ++ [(p ++ ".gfa")%string], true);
     ds_write := fun p _ _ _ d => (d ++ [(p ++ ".bfg_colors")%string], true) |}.

End Driver.


(** *** [clear] and sequences of calls on a [ColoredCDBG] *)

Module DriverLife.
Import Driver String.

(** [CompactedDBG::clear()], the one further call of the base class
    that [ColoredCDBG::clear] makes. *)
Class BaseClear (G : Type) := {
  cdbg_clear : G -> G
}.

Section Life.
Context {G Opt Disk : Type} `{BaseOps G Opt Disk} `{BaseClear G}.

(** [clear()]: [invalid = true], then the base class clears itself. *)
Definition clear (c : ColoredCDBG G) : ColoredCDBG G :=
  {| base := cdbg_clear (base c); invalid := true |}.

(** The calls a user makes on a graph. *)
Inductive call :=
| CallBuild (opt : Opt)
| CallMapColors (opt : Opt)
| CallWrite (prefix_output_filename : string) (nb_thr : Z) (verbose : bool)
| CallClear.


(** What a sequence of calls leaves: the graph, the files, and the log
    of the calls with the boolean each returned ([clear] returns
    nothing). *)
Definition do_call (st : ColoredCDBG G * Disk * list (call * option bool))
    (x : call) : ColoredCDBG G * Disk * list (call * option bool) :=
  let '(c, d, log) := st in
  match x with
  | CallBuild opt =>
      let o := build opt c d in (graph o, disk o, log ++ [(x, Some (ret o))])
  | CallMapColors opt =>
      let o := mapColors opt c d in (graph o, disk o, log ++ [(x, Some (ret o))])
  | CallWrite p n v =>
      let o := write p n v c d in (graph o, disk o, log ++ [(x, Some (ret o))])
  | CallClear => (clear c, d, log ++ [(x, None)])
  end.

Definition do_calls (l : list call) (c : ColoredCDBG G) (d : Disk)
  : ColoredCDBG G * Disk * list (call * option bool) :=
  fold_left do_call l (c, d, []).

End Life.

Arguments call : clear implicits.

(** The base of the examples clears itself to the same object. *)
#[export] Instance unit_clear : BaseClear unit := {| cdbg_clear := fun g => g |}.

End DriverLife.
(** ** [buildColorSets]: the [reading_function] of [ColoredCDBG.tcc]

    The lambda captures [pos_read], [len_read], [s], [prev_file_id],
    [next_file] and the file parser [fp] by reference; they are the
    fields of [Reader].  [FileParser] is not part of these sources:
    [fp] is the list of records [fp.read(s, file_id)] is still to
    deliver, each with the index of its file. *)

Module Reading.
Import Ascii.

Definition str := list ascii.

Definition chunk_size : Z := 1000.

(** [std::string::substr(pos, n)]; it throws when [pos > size()]. *)
Definition substr (s : str) (pos n : Z) : option str :=
  if pos >? Z.of_nat (length s) then None
  else Some (take (Z.to_nat n) (drop (Z.to_nat pos) s)).

(** [::toupper] on one character. *)
Definition toupper (c : ascii) : ascii :=
  let n := nat_of_ascii c in
  if (97 <=? n)%nat && (n <=? 122)%nat then ascii_of_nat (n - 32) else c.

Definition upper_all (v : list (str * Z)) : list (str * Z) :=
  map (fun p => (map toupper p.1, p.2)) v.

Record Reader := mkReader {
  pos_read : Z;
  len_read : Z;
  s : str;
  prev_file_id : Z;
  next_file : bool;
  fp : list (str * Z)
}.

(** The slicing loop, which the lambda has twice:
    [while ((pos_read < len_read) && (reads_now < chunk_size))].
    Each round increments [reads_now], so [chunk_size] rounds are
    enough; [None] is [substr] throwing. *)
Fixpoint slice_loop (fuel : nat) (k_ : Z) (s : str) (len_read file_id : Z)
    (pos_read reads_now : Z) (v : list (str * Z))
  : option (Z * Z * list (str * Z)) :=
  if (pos_read <? len_read) && (reads_now <? chunk_size) then
    match fuel with
    | O => None
    | S fuel' =>
        let pos_read := wrap64 (pos_read - (k_ - 1)) in
        match substr s pos_read 1000 with
        | None => None
        | Some sl =>
            slice_loop fuel' k_ s len_read file_id
              (wrap64 (pos_read + 1000)) (reads_now + 1) (v ++ [(sl, file_id)])
        end
    end
  else Some (pos_read, reads_now, v).

(** [while (reads_now < chunk_size)]: one round per record read. *)
Fixpoint read_loop (k_ : Z) (recs : list (str * Z)) (rd : Reader)
    (file_id reads_now : Z) (v : list (str * Z))
  : option (Reader * list (str * Z) * bool) :=
  if reads_now <? chunk_size then
    match recs with
    | [] =>
        (* [fp.read] fails *)
        Some ({| pos_read := pos_read rd; len_read := len_read rd; s := s rd;
                 prev_file_id := prev_file_id rd; next_file := false;
                 fp := [] |},
              upper_all v, true)
    | (r, fid) :: recs' =>
        let len := Z.of_nat (length r) in
        if len >? 1000 then
          match slice_loop (Z.to_nat chunk_size) k_ r len fid
                           (wrap64 (k_ - 1)) reads_now v with
          | None => None
          | Some (pos', reads', v') =>
              read_loop k_ recs'
                {| pos_read := pos'; len_read := len; s := r;
                   prev_file_id := prev_file_id rd; next_file := next_file rd;
                   fp := recs' |}
                fid reads' v'
          end
        else
          read_loop k_ recs'
            {| pos_read := len; len_read := len; s := r;
               prev_file_id := prev_file_id rd; next_file := next_file rd;
               fp := recs' |}
            fid (reads_now + 1) (v ++ [(r, fid)])
    end
  else
    let prev := file_id in
    Some ({| pos_read := pos_read rd; len_read := len_read rd; s := s rd;
             prev_file_id := prev; next_file := true; fp := recs |},
          upper_all v,
          negb (file_id =? prev)).

(** [reading_function(v_read_color)] *)
Definition reading_function (k_ : Z) (rd : Reader) (v_read_color : list (str * Z))
  : option (Reader * list (str * Z) * bool) :=
  let file_id := prev_file_id rd in
  match slice_loop (Z.to_nat chunk_size) k_ (s rd) (len_read rd) file_id
                   (pos_read rd) 0 v_read_color with
  | None => None
  | Some (pos', reads', v') =>
      read_loop k_ (fp rd)
        {| pos_read := pos'; len_read := len_read rd; s := s rd;
           prev_file_id := prev_file_id rd; next_file := next_file rd;
           fp := fp rd |}
        file_id reads' v'
  end.

(** The state [buildColorSets] starts from. *)
Definition initial_reader (k_ : Z) (records : list (str * Z)) : Reader :=
  {| pos_read := wrap64 (k_ - 1); len_read := 0; s := [];
     prev_file_id := 0; next_file := true; fp := records |}.

(** *** What the slicing is to achieve *)

(** Consecutive slices start [1000 - (k-1)] characters apart. *)
Definition stride (k_ : Z) : Z := 1000 - (k_ - 1).

(** [n] slices of at most 1000 characters of [r], the first at [start]. *)
Fixpoint slices_at (r : str) (start step : Z) (n : nat) : list str :=
  match n with
  | O => []
  | S n' =>
      take 1000 (drop (Z.to_nat start) r) :: slices_at r (start + step) step n'
  end.

(** The slices still to come of a record of length [len] when the
    cursor is at [pos]: none once [pos >= len]. *)
Definition n_pending (k_ len pos : Z) : nat :=
  if pos <? len then Z.to_nat ((len - pos - 1) / stride k_ + 1) else O.

Definition pending (k_ : Z) (r : str) (pos : Z) : list str :=
  slices_at r (pos - (k_ - 1)) (stride k_)
            (n_pending k_ (Z.of_nat (length r)) pos).

(** The slices of one record: itself when it has at most 1000
    characters, else slices from position 0 on. *)
Definition slices_of (k_ : Z) (r : str) : list str :=
  if Z.of_nat (length r) >? 1000 then pending k_ r (k_ - 1) else [r].

Definition pairs_of (k_ : Z) (rec : str * Z) : list (str * Z) :=
  map (fun sl => (sl, rec.2)) (slices_of k_ rec.1).

Definition pending_pairs (k_ : Z) (rd : Reader) : list (str * Z) :=
  map (fun sl => (sl, prev_file_id rd)) (pending k_ (s rd) (pos_read rd)).

(** What holds of the captured variables between two calls. *)
Definition reader_ok (k_ : Z) (rd : Reader) : Prop :=
  len_read rd = Z.of_nat (length (s rd)) /\
  (pos_read rd < len_read rd -> k_ - 1 <= pos_read rd) /\
  0 <= pos_read rd /\
  Forall (fun rec => Z.of_nat (length rec.1) < 2 ^ 62) ((s rd, 0) :: fp rd).

(** An example: a record of 2500 characters, [k = 31]. *)
Definition ex_record : str := repeat "a"%char 2500.

Definition ex_reader : Reader := initial_reader 31 [(ex_record, 7)].

End Reading.


(** *** The chunks read one after the other *)

Module ReadingAll.
Import Reading.
Import Ascii.
Local Open Scope char_scope.
Local Open Scope Z_scope.

(** The loop of the worker threads of [buildColorSets]: under
    [mutex_file] a worker calls [reading_function] on its emptied
    vector and sets [stop] to what the call returns; the workers go on
    until [stop] is set.  The calls are serialised by the mutex: the
    result is the chunks in the order they are read, the last one being
    that of the call that returned true. *)
Fixpoint read_chunks (fuel : nat) (k_ : Z) (rd : Reader)
  : option (list (list (str * Z)) * Reader) :=
  match fuel with
  | O => None
  | S fuel' =>
      match reading_function k_ rd [] with
      | None => None
      | Some (rd', v, stop) =>
          if (stop : bool) then Some ([v], rd')
          else
            match read_chunks fuel' k_ rd' with
            | Some (vs, rd'') => Some (v :: vs, rd'')
            | None => None
            end
      end
  end.

(** The pairs still to be handed out: the slices pending of the current
    record and the slices of the records not read yet. *)
Definition to_come (k_ : Z) (rd : Reader) : list (str * Z) :=
  pending_pairs k_ rd ++ flat_map (pairs_of k_) (fp rd).

(** Two records from two files: 1500 and 700 characters. *)
Definition ex_two : Reader :=
  initial_reader 31 [(repeat "c" 1500, 0); (repeat "G" 700, 1)].

End ReadingAll.

(** ** [ColoredCDBG::initColorSets]: one colour-set slot per unitig

    The worker threads run interleaved: the embedding is a transition
    system.  A state holds the shared variables and one program point
    per worker; a step is one worker executing up to its next access to
    shared memory.  A worker spinning on an atomic flag, or blocked on
    the mutex, makes a step that changes nothing. *)

Module ColorInit.

(** What the function works on.  [heads]: the head k-mer of each unitig,
    in the order of the graph iterator; [hash]: [Kmer::hash(seed)];
    [seeds] and [nb_color_sets]: the members of [DataStorage] the
    constructor call [DataStorage<U>(max_nb_hash, this->size(), ...)]
    sets up. *)
Class Setup (K : Type) := {
  key_eq :: EqDecision K;
  heads : list K;
  hash : K -> Z -> Z;
  seeds : list Z;
  nb_color_sets : Z;
  max_nb_hash : Z;
  nb_threads : Z
}.

(** Where a worker stands inside [worker_function], with the locals
    [i], [h_v] and [id_lock] that are live there. *)
Inductive pc :=
| AtHash (i : Z)                     (* head of [for (i = 0; i < max_nb_hash; ++i)] *)
| AtProbe (i h_v id_lock : Z)        (* flag taken, before [isUnoccupied()] *)
| AtMutex                            (* before [unique_lock<mutex> lock(mutex_cs_overflow)] *)
| AtOvSpin                           (* head of [while (true)] *)
| AtOvProbe (id_lock : Z)            (* flag taken, before [isUnoccupied()] *)
| AtOvInsert (id_lock : Z)           (* before [h_v = last_empty_pos; overflow.insert(...)] *)
| AtSet (i h_v id_lock : Z)          (* before [setOccupied()] *)
| AtClear (i h_v id_lock : Z).       (* before the final [clear] of the flag *)

(** A worker thread: about to take a chunk, inside
    [worker_function(l_a, l_b)] with [l_a] the current unitig, or
    returned. *)
Inductive worker :=
| Fetch
| Work (l_a l_b : nat) (p : pc)
| Returned.

Section InitColorSets.
Context {K : Type} `{Setup K}.

(** Modelled from the spec: [overflow], "a secondary hash table mapping
    a unitig's head-kmer to a slot index"; [insert] leaves a key that is
    there as it is. *)
Fixpoint ov_lookup (ov : list (K * Z)) (key : K) : option Z :=
  match ov with
  | [] => None
  | (k', v) :: rest => if decide (k' = key) then Some v else ov_lookup rest key
  end.

Definition ov_insert (ov : list (K * Z)) (key : K) (v : Z) : list (K * Z) :=
  match ov_lookup ov key with
  | Some _ => ov
  | None => ov ++ [(key, v)]
  end.

(** The shared variables: [color_sets] by its occupancy flags,
    [overflow], [last_empty_pos], the flags [cs_locks], whether
    [mutex_cs_overflow] is held, the iterator [g_a], the [DataAccessor]
    byte of each unitig ([None] until the function assigns it), and the
    workers. *)
Record state := mkState {
  color_sets : list bool;
  overflow : list (K * Z);
  last_empty_pos : Z;
  cs_locks : list bool;
  mutex_cs_overflow : bool;
  g_a : nat;
  data : list (option Z);
  workers : list worker
}.

Definition nb_locks : Z := wrap64 (nb_threads * 256).

Definition chunk : nat := 1000.

Definition set_worker (s : state) (t : nat) (w : worker) : state :=
  {| color_sets := color_sets s; overflow := overflow s;
     last_empty_pos := last_empty_pos s; cs_locks := cs_locks s;
     mutex_cs_overflow := mutex_cs_overflow s; g_a := g_a s; data := data s;
     workers := <[t := w]> (workers s) |}.

Definition set_lock (s : state) (id_lock : Z) (b : bool) : state :=
  {| color_sets := color_sets s; overflow := overflow s;
     last_empty_pos := last_empty_pos s;
     cs_locks := <[Z.to_nat id_lock := b]> (cs_locks s);
     mutex_cs_overflow := mutex_cs_overflow s; g_a := g_a s; data := data s;
     workers := workers s |}.

Definition set_mutex (s : state) (b : bool) : state :=
  {| color_sets := color_sets s; overflow := overflow s;
     last_empty_pos := last_empty_pos s; cs_locks := cs_locks s;
     mutex_cs_overflow := b; g_a := g_a s; data := data s;
     workers := workers s |}.

Definition set_last_empty_pos (s : state) (p : Z) : state :=
  {| color_sets := color_sets s; overflow := overflow s;
     last_empty_pos := p; cs_locks := cs_locks s;
     mutex_cs_overflow := mutex_cs_overflow s; g_a := g_a s; data := data s;
     workers := workers s |}.

Definition set_overflow (s : state) (ov : list (K * Z)) : state :=
  {| color_sets := color_sets s; overflow := ov;
     last_empty_pos := last_empty_pos s; cs_locks := cs_locks s;
     mutex_cs_overflow := mutex_cs_overflow s; g_a := g_a s; data := data s;
     workers := workers s |}.

Definition set_occupied (s : state) (h_v : Z) : state :=
  {| color_sets := <[Z.to_nat h_v := true]> (color_sets s);
     overflow := overflow s;
     last_empty_pos := last_empty_pos s; cs_locks := cs_locks s;
     mutex_cs_overflow := mutex_cs_overflow s; g_a := g_a s; data := data s;
     workers := workers s |}.

Definition set_data (s : state) (u : nat) (b : Z) : state :=
  {| color_sets := color_sets s; overflow := overflow s;
     last_empty_pos := last_empty_pos s; cs_locks := cs_locks s;
     mutex_cs_overflow := mutex_cs_overflow s; g_a := g_a s;
     data := <[u := Some b]> (data s);
     workers := workers s |}.

Definition set_g_a (s : state) (n : nat) : state :=
  {| color_sets := color_sets s; overflow := overflow s;
     last_empty_pos := last_empty_pos s; cs_locks := cs_locks s;
     mutex_cs_overflow := mutex_cs_overflow s; g_a := n; data := data s;
     workers := workers s |}.

(** [static_cast<uint8_t>] *)
Definition uint8 (z : Z) : Z := z mod 256.

(** [head.hash(ds->seeds[i]) % ds->nb_color_sets]; undefined when [i]
    is outside [seeds] or there is no colour set. *)
Definition slot_hash (head : K) (i : Z) : option Z :=
  if i <? 0 then None
  else
    seed ← seeds !! Z.to_nat i;
    if nb_color_sets =? 0 then None
    else Some (wrap64 (hash head seed) mod nb_color_sets).

(** [cs_locks[id_lock].test_and_set()]: the flag as it was; reading
    outside the array is undefined. *)
Definition flag (s : state) (id_lock : Z) : option bool :=
  if id_lock <? 0 then None else cs_locks s !! Z.to_nat id_lock.

(** [ds->color_sets[h_v].isUnoccupied()] *)
Definition isUnoccupied (s : state) (h_v : Z) : option bool :=
  if h_v <? 0 then None else negb <$> color_sets s !! Z.to_nat h_v.

(** One step of worker [t], which is inside [worker_function] at the
    unitig [l_a] of its chunk [.. l_b), at program point [p]. *)
Definition step_work (s : state) (t : nat) (l_a l_b : nat) (p : pc)
  : option state :=
  head ← heads !! l_a;
  match p with
  | AtHash i =>
      if i <? max_nb_hash then
        h_v ← slot_hash head i;
        if nb_locks =? 0 then None
        else
          let id_lock := h_v mod nb_locks in
          locked ← flag s id_lock;
          if (locked : bool) then Some s
          else Some (set_worker (set_lock s id_lock true) t
                       (Work l_a l_b (AtProbe i h_v id_lock)))
      else Some (set_worker s t (Work l_a l_b AtMutex))
  | AtProbe i h_v id_lock =>
      free ← isUnoccupied s h_v;
      if (free : bool)
      then Some (set_worker s t (Work l_a l_b (AtSet i h_v id_lock)))
      else Some (set_worker (set_lock s id_lock false) t
                   (Work l_a l_b (AtHash (i + 1))))
  | AtMutex =>
      if mutex_cs_overflow s then Some s
      else Some (set_worker (set_mutex s true) t (Work l_a l_b AtOvSpin))
  | AtOvSpin =>
      if nb_locks =? 0 then None
      else
        let id_lock := last_empty_pos s mod nb_locks in
        locked ← flag s id_lock;
        if (locked : bool) then Some s
        else Some (set_worker (set_lock s id_lock true) t
                     (Work l_a l_b (AtOvProbe id_lock)))
  | AtOvProbe id_lock =>
      free ← isUnoccupied s (last_empty_pos s);
      if (free : bool)
      then Some (set_worker s t (Work l_a l_b (AtOvInsert id_lock)))
      else
        let s1 := set_lock s id_lock false in
        let p' := if wrap64 (last_empty_pos s + 1) =? nb_color_sets then 0
                  else wrap64 (last_empty_pos s + 1) in
        Some (set_worker (set_last_empty_pos s1 p') t (Work l_a l_b AtOvSpin))
  | AtOvInsert id_lock =>
      let h_v := last_empty_pos s in
      let s1 := set_overflow s (ov_insert (overflow s) head (last_empty_pos s)) in
      (* the scope of [lock] ends: the mutex is released *)
      Some (set_worker (set_mutex s1 false) t
              (Work l_a l_b (AtSet max_nb_hash h_v id_lock)))
  | AtSet i h_v id_lock =>
      if (h_v <? 0) || (Z.of_nat (length (color_sets s)) <=? h_v) then None
      else Some (set_worker (set_occupied s h_v) t
                   (Work l_a l_b (AtClear i h_v id_lock)))
  | AtClear i h_v id_lock =>
      let s1 := set_lock s id_lock false in
      let s2 := set_data s1 l_a (uint8 (if i =? max_nb_hash then 0 else i + 1)) in
      Some (set_worker s2 t
              (if decide (S l_a = l_b) then Fetch else Work (S l_a) l_b (AtHash 0)))
  end.

(** One step of worker [t].  Taking a chunk happens under [mutex_it],
    which guards nothing but [g_a]: it is one step. *)
Definition step (s : state) (t : nat) : option state :=
  match workers s !! t with
  | None => Some s
  | Some Returned => Some s
  | Some Fetch =>
      if decide (g_a s = length heads) then Some (set_worker s t Returned)
      else
        let l_b := Nat.min (g_a s + chunk) (length heads) in
        Some (set_worker (set_g_a s l_b) t (Work (g_a s) l_b (AtHash 0)))
  | Some (Work l_a l_b p) => step_work s t l_a l_b p
  end.

(** A run under a schedule: the list of the workers that move, in
    order. *)
Fixpoint run (sched : list nat) (s : state) : option state :=
  match sched with
  | [] => Some s
  | t :: rest => s' ← step s t; run rest s'
  end.

(** The state in which the workers are started. *)
Definition init : state :=
  {| color_sets := replicate (Z.to_nat nb_color_sets) false;
     overflow := [];
     last_empty_pos := 0;
     cs_locks := replicate (Z.to_nat nb_locks) false;
     mutex_cs_overflow := false;
     g_a := 0;
     data := replicate (length heads) None;
     workers := replicate (Z.to_nat nb_threads) Fetch |}.

(** All workers have returned: the [join]s go through. *)
Definition completed (s : state) : bool :=
  forallb (fun w => match w with Returned => true | _ => false end) (workers s).

(** The slot a unitig with head [head] and accessor byte [b] has, as
    [getHash] resolves it: [hash(head, seeds[b-1]) mod nb_color_sets]
    for [b > 0], the entry of [overflow] for [b = 0]. *)
Definition slot_of (s : state) (head : K) (b : Z) : option Z :=
  if 0 <? b then slot_hash head (b - 1) else ov_lookup (overflow s) head.

(** What the claim says of the unitig [u] in state [s]. *)
Definition has_slot (s : state) (u : nat) (h_v : Z) : Prop :=
  exists head b,
    heads !! u = Some head /\ data s !! u = Some (Some b) /\
    0 <= b <= max_nb_hash /\
    slot_of s head b = Some h_v /\
    0 <= h_v /\ color_sets s !! Z.to_nat h_v = Some true.

End InitColorSets.

Arguments state : clear implicits.

End ColorInit.

(** *** The invariant of the workers of [initColorSets] *)

Module ColorInitSpec.
Import ColorInit.

Section Invariant.
Context {K : Type} `{Setup K}.

(** The flag a worker holds, and whether it holds the mutex. *)
Definition lock_of (p : pc) : option Z :=
  match p with
  | AtProbe _ _ l | AtOvProbe l | AtOvInsert l | AtSet _ _ l | AtClear _ _ l => Some l
  | _ => None
  end.

Definition lock_held (w : worker) : option Z :=
  match w with Work _ _ p => lock_of p | _ => None end.

Definition mutex_of (p : pc) : bool :=
  match p with AtOvSpin | AtOvProbe _ | AtOvInsert _ => true | _ => false end.

Definition mutex_held (w : worker) : bool :=
  match w with Work _ _ p => mutex_of p | _ => false end.

(** Two workers never hold the same flag, never both hold the mutex,
    and work on disjoint ranges of unitigs. *)
Definition compat (w1 w2 : worker) : Prop :=
  (forall l1 l2, lock_held w1 = Some l1 -> lock_held w2 = Some l2 -> l1 <> l2) /\
  (mutex_held w1 = true -> mutex_held w2 = true -> False) /\
  (forall a1 b1 p1 a2 b2 p2,
     w1 = Work a1 b1 p1 -> w2 = Work a2 b2 p2 -> (b1 <= a2 \/ b2 <= a1)%nat).

Definition absent (s : state K) (head : K) : Prop :=
  ov_lookup (overflow s) head = None.

(** How the slot [h_v] was found: by the hash number [i], or by the scan
    of the overflow path, which has entered it in [overflow]. *)
Definition chosen (s : state K) (head : K) (i h_v : Z) : Prop :=
  (0 <= i < max_nb_hash /\ slot_hash head i = Some h_v /\ absent s head) \/
  (i = max_nb_hash /\ ov_lookup (overflow s) head = Some h_v).

(** What holds at each program point of a worker busy with the unitig
    of head [head]. *)
Definition pc_ok (s : state K) (head : K) (p : pc) : Prop :=
  match p with
  | AtHash i => 0 <= i <= max_nb_hash /\ absent s head
  | AtProbe i h_v l =>
      0 <= i < max_nb_hash /\ slot_hash head i = Some h_v /\
      l = h_v mod nb_locks /\ flag s l = Some true /\ absent s head
  | AtMutex => absent s head
  | AtOvSpin => mutex_cs_overflow s = true /\ absent s head
  | AtOvProbe l =>
      mutex_cs_overflow s = true /\ l = last_empty_pos s mod nb_locks /\
      flag s l = Some true /\ absent s head
  | AtOvInsert l =>
      mutex_cs_overflow s = true /\ l = last_empty_pos s mod nb_locks /\
      flag s l = Some true /\ 0 <= last_empty_pos s /\
      color_sets s !! Z.to_nat (last_empty_pos s) = Some false /\
      absent s head
  | AtSet i h_v l =>
      0 <= h_v /\ l = h_v mod nb_locks /\ flag s l = Some true /\
      color_sets s !! Z.to_nat h_v = Some false /\ chosen s head i h_v
  | AtClear i h_v l =>
      0 <= h_v /\ l = h_v mod nb_locks /\ flag s l = Some true /\
      color_sets s !! Z.to_nat h_v = Some true /\ chosen s head i h_v
  end.

Definition local_ok (s : state K) (w : worker) : Prop :=
  match w with
  | Fetch => True
  | Returned => g_a s = length heads
  | Work l_a l_b p =>
      (l_a < l_b <= g_a s)%nat /\
      exists head, heads !! l_a = Some head /\ pc_ok s head p
  end.

(** The unitigs of the chunk of a worker that it is not through
    with. *)
Definition in_range (w : worker) (u : nat) : Prop :=
  match w with Work a b _ => (a <= u < b)%nat | _ => False end.

Definition is_clearing (w : worker) (u : nat) (h_v : Z) : Prop :=
  match w with
  | Work a _ (AtClear _ h _) => a = u /\ h = h_v
  | _ => False
  end.

Definition not_clear (p : pc) : Prop :=
  match p with AtClear _ _ _ => False | _ => True end.

(** The unitigs no worker has come to yet. *)
Definition pending (s : state K) (u : nat) : Prop :=
  (g_a s <= u)%nat \/
  exists t a b p, workers s !! t = Some (Work a b p) /\ (a < u < b)%nat.

(** The unitigs the workers are through with. *)
Definition finished (s : state K) (u : nat) : Prop :=
  (u < g_a s)%nat /\
  forall t a b p, workers s !! t = Some (Work a b p) -> ~ (a <= u < b)%nat.

(** The unitig [u] has taken the slot [h_v]: it is through and has it,
    or its worker is about to release the flag of the slot. *)
Definition claim (s : state K) (u : nat) (h_v : Z) : Prop :=
  (finished s u /\ has_slot s u h_v) \/
  (exists t b i l, workers s !! t = Some (Work u b (AtClear i h_v l))).

Record Inv (s : state K) : Prop := mkInv {
  inv_len_cs : length (color_sets s) = Z.to_nat nb_color_sets;
  inv_len_locks : length (cs_locks s) = Z.to_nat nb_locks;
  inv_len_data : length (data s) = length heads;
  inv_len_workers : length (workers s) = Z.to_nat nb_threads;
  inv_g_a : (g_a s <= length heads)%nat;
  inv_lep : 0 <= last_empty_pos s /\
            (last_empty_pos s < nb_color_sets \/ heads = []);
  inv_fresh : forall u head,
      pending s u -> heads !! u = Some head -> absent s head;
  inv_local : forall t w, workers s !! t = Some w -> local_ok s w;
  inv_compat : forall t1 t2 w1 w2,
      t1 <> t2 -> workers s !! t1 = Some w1 -> workers s !! t2 = Some w2 ->
      compat w1 w2;
  inv_done : forall u, finished s u -> exists h_v, has_slot s u h_v;
  inv_inj : forall u1 u2 h_v, claim s u1 h_v -> claim s u2 h_v -> u1 = u2
}.

(** What is assumed of the call: at most 255 hash functions, one seed
    for each; unitigs have distinct heads; a colour set for every
    unitig; at least one thread. *)
Record Assumptions : Prop := mkAssumptions {
  as_max : 0 <= max_nb_hash <= 255;
  as_seeds : Z.of_nat (length seeds) = max_nb_hash;
  as_heads : NoDup heads;
  as_sets : Z.of_nat (length heads) <= nb_color_sets < 2 ^ 64;
  as_threads : 1 <= nb_threads < 2 ^ 56
}.

End Invariant.
End ColorInitSpec.

(** *** Two set-ups for [initColorSets] *)

Module ColorInitExample.
Import ColorInit.

(** 1200 unitigs with heads 0 .. 1199, two hash functions under which
    the unitigs [3j], [3j+1], [3j+2] compete for the slots [3j] and
    [3j+1], and two threads: the first chunk has 1000 unitigs, the
    second 200. *)
Definition two_workers : Setup Z :=
  {| key_eq := Z.eq_dec;
     heads := seqZ 0 1200;
     hash := fun head seed => head / 3 * 3 + seed;
     seeds := [0; 1];
     nb_color_sets := 1200;
     max_nb_hash := 2;
     nb_threads := 2 |}.

(** The schedule in which the workers 0 and 1 take turns. *)
Definition alternate (n : nat) : list nat := concat (replicate n [0; 1]%nat).

Definition turns : list nat := alternate (Z.to_nat 20000).

(** 256 unitigs and 256 hash functions, one thread.  The unitig [j]
    below 255 hashes to the slot [j]; the unitig 255 hashes to the slot
    [i] under the hash function number [i]. *)
Definition wide : Setup Z :=
  {| key_eq := Z.eq_dec;
     heads := seqZ 0 256;
     hash := fun head seed => if head <? 255 then head else seed;
     seeds := seqZ 0 256;
     nb_color_sets := 256;
     max_nb_hash := 256;
     nb_threads := 1 |}.

(** The schedule of the one worker. *)
Definition alone : list nat := replicate (Z.to_nat 2000) 0%nat.

End ColorInitExample.

(** *** What the workers of [initColorSets] do to each other *)

Module ColorInitUse.
Import ColorInit ColorInitSpec.

Section Use.
Context {K : Type} `{Setup K}.

(** The colour set the next step of a worker reads ([isUnoccupied]) or
    writes ([setOccupied]). *)
Definition accesses (s : state K) (w : worker) : option Z :=
  match w with
  | Work _ _ (AtProbe _ h_v _) => Some h_v
  | Work _ _ (AtSet _ h_v _) => Some h_v
  | Work _ _ (AtOvProbe _) => Some (last_empty_pos s)
  | _ => None
  end.

(** Every flag that is set is held by a worker, and so is the mutex when
    it is locked. *)
Definition owned (s : state K) : Prop :=
  (forall n : nat, cs_locks s !! n = Some true ->
     exists t w, workers s !! t = Some w /\ lock_held w = Some (Z.of_nat n)) /\
  (mutex_cs_overflow s = true ->
     exists t w, workers s !! t = Some w /\ mutex_held w = true).

(** The next step of worker [t] takes it to another program point: it
    is neither spinning on a flag nor waiting for the mutex, and has not
    returned. *)
Definition moves (s : state K) (t : nat) : Prop :=
  exists s', step s t = Some s' /\ workers s' !! t <> workers s !! t.

End Use.
End ColorInitUse.
(** ** K-mers, minimizers, coverage

    [Kmer.hpp], [minHashIterator.hpp], [CompressedSequence.hpp],
    [CompressedCoverage.hpp], [Unitig.hpp], [UnitigMap.hpp] and
    [tiny_vector.hpp] are not part of these sources.  What the unitig
    mapper uses of them is modelled here from the specification (its
    sections 3 and 4.D). *)

Module Dna.

Inductive base := dA | dC | dG | dT.

#[export] Instance base_eq_dec : EqDecision base.
Proof. solve_decision. Defined.

(** [alpha[4] = {'A','C','G','T'}] *)
Definition alpha : list base := [dA; dC; dG; dT].

Definition complement (b : base) : base :=
  match b with dA => dT | dC => dG | dG => dC | dT => dA end.

Definition code (b : base) : Z :=
  match b with dA => 0 | dC => 1 | dG => 2 | dT => 3 end.

(** A string over the alphabet. *)
Definition dna := list base.

(** The reverse complement. *)
Definition twin_s (s : dna) : dna := rev (map complement s).

(** The bit-packed value, first base in the highest bits: the order of
    packed words of one length is the lexicographic order. *)
Definition encode (s : dna) : Z :=
  fold_left (fun acc b => 4 * acc + code b) s 0.

(** Modelled from the spec: the canonical form, "the lexicographically
    smaller of the two" ([km < km_twin ? km : km_twin] in [find]). *)
Definition rep_s (s : dna) : dna :=
  if encode s <? encode (twin_s s) then s else twin_s s.

(** Modelled from the spec: [Kmer], a packed k-mer or one of the two
    bit patterns that [set_empty] and [set_deleted] write. *)
Inductive Kmer := Km (s : dna) | KmEmpty | KmDeleted.

#[export] Instance Kmer_eq_dec : EqDecision Kmer.
Proof. solve_decision. Defined.

(** Modelled from the spec: [Minimizer], likewise for g-mers. *)
Inductive Minimizer := Mz (s : dna) | MzEmpty | MzDeleted.

#[export] Instance Minimizer_eq_dec : EqDecision Minimizer.
Proof. solve_decision. Defined.

Definition toString (km : Kmer) : dna :=
  match km with Km s => s | _ => [] end.

Definition twin (km : Kmer) : Kmer :=
  match km with Km s => Km (twin_s s) | other => other end.

Definition rep (km : Kmer) : Kmer :=
  match km with Km s => Km (rep_s s) | other => other end.

(** [forwardBase(b)]: drop the first base, append [b]. *)
Definition forwardBase (km : Kmer) (b : base) : Kmer :=
  match km with Km s => Km (drop 1 s ++ [b]) | other => other end.

(** [backwardBase(b)]: put [b] in front, drop the last base. *)
Definition backwardBase (km : Kmer) (b : base) : Kmer :=
  match km with Km s => Km (b :: take (length s - 1) s) | other => other end.

(** What the mapper is configured with.  [k] and [g] are [Kmer::k] and
    [Minimizer::g]; [kmer_hash] and [minz_hash] are the hash functors of
    the two tables; [rep_hash] is [RepHash] on a canonical g-mer, the
    order by which minimizers are chosen; the abundance limits and
    [cov_full] are the constants of the absent headers. *)
Class Params := {
  k : Z;
  g : Z;
  kmer_hash : dna -> Z;
  minz_hash : dna -> Z;
  rep_hash : dna -> Z;
  min_abundance_lim : Z;
  max_abundance_lim : Z;
  cov_full : Z
}.

Section Minimizers.
Context `{Params}.

(** [Minimizer(&s[q]).rep()] *)
Definition gmer (s : dna) (q : Z) : dna := take (Z.to_nat g) (drop (Z.to_nat q) s).

Definition minz_rep_at (s : dna) (q : Z) : Minimizer := Mz (rep_s (gmer s q)).

Record minHashResult := mkMHR { mhr_hash : Z; mhr_pos : Z }.

(** Modelled from the spec: the g-mers of the k-mer at position [p] of
    [s], each with the hash of its canonical form. *)
Definition window (s : dna) (p : Z) : list minHashResult :=
  map (fun q => {| mhr_hash := rep_hash (rep_s (gmer s q)); mhr_pos := q |})
      (seqZ p (k - g + 1)).

Definition least_hash (w : list minHashResult) : Z :=
  match w with
  | [] => 0
  | r :: rest => fold_left Z.min (map mhr_hash rest) (mhr_hash r)
  end.

(** Modelled from the spec: [*it_min], the positions of the window that
    carry its smallest hash, in positional order. *)
Definition min_results (s : dna) (p : Z) : list minHashResult :=
  let w := window s p in
  filter (fun r => mhr_hash r = least_hash w) w.

(** [it_min.getPosition()] *)
Definition getPosition (s : dna) (p : Z) : Z :=
  match min_results s p with
  | r :: _ => mhr_pos r
  | [] => 0
  end.

(** Modelled from the spec: [it_min.getNewMin(mhr)], "the next distinct
    minimizer": the first position of the window carrying the smallest
    hash above [mhr]'s; [mhr] itself when there is none. *)
Definition getNewMin (s : dna) (p : Z) (mhr : minHashResult) : minHashResult :=
  let above := filter (fun r => mhr_hash mhr < mhr_hash r) (window s p) in
  match filter (fun r => mhr_hash r = least_hash above) above with
  | r :: _ => r
  | [] => mhr
  end.

(** The k-mer positions a [minHashIterator] over [s] runs through. *)
Definition kmer_positions (s : dna) : list Z :=
  seqZ 0 (Z.of_nat (length s) - k + 1).

(** How often a loop that follows [getNewMin] can move on. *)
Definition window_fuel : nat := Z.to_nat (k - g + 2).

End Minimizers.

(** *** Coverage *)

Section Coverage.
Context `{Params}.

(** Modelled from the spec: [CompressedCoverage], a counter per k-mer
    that saturates at [cov_full], and the flag [isFull()] tests. *)
Record CompressedCoverage := mkCov {
  cc_counts : list Z;
  cc_full : bool
}.

(** [CompressedCoverage(sz, full)]; [CompressedCoverage()] has size 0. *)
Definition newCov (sz : Z) (full : bool) : CompressedCoverage :=
  {| cc_counts := replicate (Z.to_nat sz) 0; cc_full := full |}.

Definition cov_size (c : CompressedCoverage) : Z := Z.of_nat (length (cc_counts c)).
Definition isFull (c : CompressedCoverage) : bool := cc_full c.
Definition setFull (c : CompressedCoverage) : CompressedCoverage :=
  {| cc_counts := cc_counts c; cc_full := true |}.

Definition covAt (c : CompressedCoverage) (i : Z) : Z :=
  if cc_full c then cov_full
  else match cc_counts c !! Z.to_nat i with Some x => x | None => 0 end.

(** [cover(start, end)]: one more observation of each k-mer of the
    range; the object turns full when every counter has reached
    [cov_full]. *)
Definition cover (c : CompressedCoverage) (a b : Z) : CompressedCoverage :=
  if cc_full c then c
  else
    let counts :=
      imap (fun i x => if (a <=? Z.of_nat i) && (Z.of_nat i <=? b)
                       then Z.min cov_full (x + 1) else x) (cc_counts c) in
    {| cc_counts := counts;
       cc_full := negb (bool_decide (counts = []))
                  && forallb (fun x => cov_full <=? x) counts |}.

(** [splittingVector()]: the maximal ranges [(start, end)] of k-mers
    whose counter is full, [end] exclusive. *)
Fixpoint splitting_from (counts : list Z) (i : Z) (open : option Z)
  : list (Z * Z) :=
  match counts with
  | [] => match open with Some a => [(a, i)] | None => [] end
  | x :: rest =>
      if cov_full <=? x then
        splitting_from rest (i + 1) (match open with Some a => Some a | None => Some i end)
      else
        match open with
        | Some a => (a, i) :: splitting_from rest (i + 1) None
        | None => splitting_from rest (i + 1) None
        end
  end.

Definition splittingVector (c : CompressedCoverage) : list (Z * Z) :=
  splitting_from (cc_counts c) 0 None.

(** [lowCoverageInfo()]: how many k-mers are below [cov_full], and the
    sum of their counters. *)
Definition lowCoverageInfo (c : CompressedCoverage) : Z * Z :=
  let low := filter (fun x => x < cov_full) (cc_counts c) in
  (Z.of_nat (length low), fold_left Z.add low 0).

(** Modelled from the spec: [Unitig], a long unitig with its sequence,
    coverage and coverage sum. *)
Record Unitig := mkUnitig {
  seq : dna;
  ccov : CompressedCoverage;
  coveragesum : Z
}.

Definition numKmers (u : Unitig) : Z := Z.of_nat (length (seq u)) - k + 1.

(** [new Unitig(str)] *)
Definition newUnitig (s : dna) : Unitig :=
  {| seq := s; ccov := newCov (Z.of_nat (length s) - k + 1) false; coveragesum := 0 |}.

(** [initializeCoverage(full)] *)
Definition initializeCoverage (u : Unitig) (full : bool) : Unitig :=
  {| seq := seq u; ccov := newCov (numKmers u) full; coveragesum := coveragesum u |}.

(** [seq.getKmer(pos)] and [seq.compareKmer(pos, km)] *)
Definition getKmer (s : dna) (pos : Z) : Kmer :=
  Km (take (Z.to_nat k) (drop (Z.to_nat pos) s)).

Definition compareKmer (s : dna) (pos : Z) (km : Kmer) : bool :=
  bool_decide (getKmer s pos = km).

End Coverage.

(** Modelled from the spec: [UnitigMap], the result of a lookup. *)
Record UnitigMap := mkUM {
  pos_unitig : Z;
  pos_min : Z;
  dist : Z;
  len : Z;
  size : Z;
  isShort : bool;
  isAbundant : bool;
  strand : bool;
  isEmpty : bool
}.

(** [UnitigMap(p_unitig, p_min, i, l, sz, short, abundance, strd)] and
    the empty [UnitigMap(p_min)]. *)
Definition UnitigMap_found (p_unitig p_min i l sz : Z) (short abundance strd : bool)
  : UnitigMap :=
  mkUM p_unitig p_min i l sz short abundance strd false.

Definition UnitigMap_empty (p_min : Z) : UnitigMap :=
  mkUM 0 p_min 0 0 0 false false true true.

(** *** Entries of a minimizer bin

    Modelled from the spec: a 64-bit word, the unitig id in the upper 32
    bits, the type flag in bit 31, the position below. *)
Definition MASK_CONTIG_ID : Z := 0xffffffff00000000.
Definition MASK_CONTIG_TYPE : Z := 0x80000000.
Definition MASK_CONTIG_POS : Z := 0x7fffffff.
Definition RESERVED_ID : Z := 0xffffffff.

(** [tiny_vector<size_t>]: [insert(x, pos)] puts [x] before index [pos],
    [remove(i)] drops index [i]. *)
Definition tv_insert (v : list Z) (x : Z) (pos : Z) : list Z :=
  take (Z.to_nat pos) v ++ x :: drop (Z.to_nat pos) v.

Definition tv_remove (v : list Z) (i : Z) : list Z := delete (Z.to_nat i) v.

(** A loop body either returns from the function or goes on. *)
Inductive ctl (R S : Type) := Return (r : R) | Continue (s : S).
Arguments Return {R S} r.
Arguments Continue {R S} s.

End Dna.

(** ** The unitig mapper ([UnitigMapper], part_000) *)

Module UM.
Import Dna.

Section Mapper.
Context `{Params}.

(** The two tables: [hmap_min_unitigs] maps a minimizer to its bin,
    [h_kmers_ccov] an abundant k-mer to its coverage. *)
#[export] Instance minz_ops : HT.TableOps Minimizer (list Z) :=
  {| HT.key_eq := Minimizer_eq_dec;
     HT.hasher := fun m => match m with Mz s => minz_hash s | _ => 0 end;
     HT.empty_val := (MzEmpty, []);
     HT.deleted := (MzDeleted, []) |}.

#[export] Instance kmer_ops : HT.TableOps Kmer CompressedCoverage :=
  {| HT.key_eq := Kmer_eq_dec;
     HT.hasher := fun km => match km with Km s => kmer_hash s | _ => 0 end;
     HT.empty_val := (KmEmpty, newCov 0 false);
     HT.deleted := (KmDeleted, newCov 0 false) |}.

(** The members of [UnitigMapper]; a deleted long unitig leaves [NULL]
    ([None]) in [v_unitigs]. *)
Record UnitigMapper := mkMapper {
  hmap_min_unitigs : HT.HashTable Minimizer (list Z);
  h_kmers_ccov : HT.HashTable Kmer CompressedCoverage;
  v_unitigs : list (option Unitig);
  v_kmers : list (Kmer * CompressedCoverage)
}.

(** The mapper as constructed: two tables of 1024 slots, no unitig. *)
Definition empty_mapper : UnitigMapper :=
  {| hmap_min_unitigs := HT.init_table 1024;
     h_kmers_ccov := HT.init_table 1024;
     v_unitigs := [];
     v_kmers := [] |}.

(** [unitigCount()] *)
Definition unitigCount (m : UnitigMapper) : Z :=
  wrap64 (Z.of_nat (length (v_unitigs m)) + Z.of_nat (length (v_kmers m))
          + HT.size (h_kmers_ccov m)).

(** Reading and writing through an iterator of a table. *)
Definition slot_at {K V} (t : HT.HashTable K V) (h : Z) : option (K * V) :=
  HT.table t !! Z.to_nat h.

Definition set_value {K V} (t : HT.HashTable K V) (h : Z) (v : V)
  : HT.HashTable K V :=
  match HT.table t !! Z.to_nat h with
  | Some (key, _) =>
      {| HT.table := <[Z.to_nat h := (key, v)]> (HT.table t);
         HT.size_ := HT.size_ t; HT.pop := HT.pop t;
         HT.num_empty := HT.num_empty t |}
  | None => t
  end.

(** [v[i]] of a vector; reading outside it is undefined. *)
Definition at_ {E} (v : list E) (i : Z) : option E :=
  if i <? 0 then None else v !! Z.to_nat i.

(** *** [find(km, extremities_only)] *)

(** The state of the scan of one bin: the minimizer in use and the
    iterator [it] into the bin table ([end()] when there is no bin to
    turn to next). *)
Record scan := mkScan { sc_mhr : minHashResult; sc_it : Z }.

(** One entry [unitig_id_pos] of the bin. *)
Definition find_entry (m : UnitigMapper) (km km_twin km_rep : Kmer)
    (km_tmp : dna) (extremities_only : bool) (it_h : Z)
    (min_h_res : minHashResult) (sc : scan) (unitig_id_pos : Z)
  : option (ctl UnitigMap scan) :=
  let diff := k - g in
  let unitig_id := Z.shiftr unitig_id_pos 32 in
  if unitig_id =? RESERVED_ID then
    (* this minimizer has abundant k-mers *)
    it_km ← (if negb (Z.land unitig_id_pos RESERVED_ID =? 0)
             then HT.find (h_kmers_ccov m) km_rep
             else Some (HT.it_end (h_kmers_ccov m)));
    if negb (it_km =? HT.it_end (h_kmers_ccov m)) then
      Some (Return (UnitigMap_found it_km it_h 0 1 k false true
                      (bool_decide (km = km_rep))))
    else if Z.land unitig_id_pos MASK_CONTIG_TYPE =? MASK_CONTIG_TYPE then
      (* this minimizer is unitig overcrowded *)
      let mhr_tmp := getNewMin km_tmp 0 (sc_mhr sc) in
      if negb (mhr_hash mhr_tmp =? mhr_hash (sc_mhr sc)) then
        it ← HT.find (hmap_min_unitigs m) (minz_rep_at km_tmp (mhr_pos mhr_tmp));
        Some (Continue {| sc_mhr := mhr_tmp; sc_it := it |})
      else Some (Continue sc)
    else Some (Continue sc)
  else
    let isShort := negb (Z.land unitig_id_pos MASK_CONTIG_TYPE =? 0) in
    let unitig_id_pos := Z.land unitig_id_pos MASK_CONTIG_POS in
    if isShort then
      if mhr_pos min_h_res =? unitig_id_pos then
        p ← at_ (v_kmers m) unitig_id;
        if bool_decide (p.1 = km_rep)
        then Some (Return (UnitigMap_found unitig_id it_h 0 1 k true false true))
        else Some (Continue sc)
      else if mhr_pos min_h_res =? diff - unitig_id_pos then
        p ← at_ (v_kmers m) unitig_id;
        if bool_decide (p.1 = km_rep)
        then Some (Return (UnitigMap_found unitig_id it_h 0 1 k true false false))
        else Some (Continue sc)
      else Some (Continue sc)
    else
      ou ← at_ (v_unitigs m) unitig_id;
      u ← ou;
      let len := Z.of_nat (length (seq u)) - k in
      let pos_match := unitig_id_pos - mhr_pos min_h_res in
      let pos_match' := unitig_id_pos - diff + mhr_pos min_h_res in
      if extremities_only then
        if ((pos_match =? 0) || (pos_match =? len))
           && compareKmer (seq u) pos_match km
        then Some (Return (UnitigMap_found unitig_id it_h pos_match 1 (len + k)
                             false false true))
        else if ((pos_match' =? 0) || (pos_match' =? len))
                && compareKmer (seq u) pos_match' km_twin
        then Some (Return (UnitigMap_found unitig_id it_h pos_match' 1 (len + k)
                             false false false))
        else Some (Continue sc)
      else
        if (0 <=? pos_match) && (pos_match <=? len)
           && compareKmer (seq u) pos_match km
        then Some (Return (UnitigMap_found unitig_id it_h pos_match 1 (len + k)
                             false false true))
        else if (0 <=? pos_match') && (pos_match' <=? len)
                && compareKmer (seq u) pos_match' km_twin
        then Some (Return (UnitigMap_found unitig_id it_h pos_match' 1 (len + k)
                             false false false))
        else Some (Continue sc).

(** [for (size_t i = 0; i < v_sz; i++)] over the entries of one bin. *)
Fixpoint find_bin (m : UnitigMapper) (km km_twin km_rep : Kmer)
    (km_tmp : dna) (extremities_only : bool) (it_h : Z)
    (min_h_res : minHashResult) (sc : scan) (v : list Z)
  : option (ctl UnitigMap scan) :=
  match v with
  | [] => Some (Continue sc)
  | x :: rest =>
      r ← find_entry m km km_twin km_rep km_tmp extremities_only it_h
            min_h_res sc x;
      match r with
      | Return um => Some (Return um)
      | Continue sc' =>
          find_bin m km km_twin km_rep km_tmp extremities_only it_h
                   min_h_res sc' rest
      end
  end.

(** [while (it != hmap_min_unitigs.end())]: each round turns to a bin
    of a minimizer with a larger hash. *)
Fixpoint find_bins (fuel : nat) (m : UnitigMapper) (km km_twin km_rep : Kmer)
    (km_tmp : dna) (extremities_only : bool) (it_h : Z)
    (min_h_res : minHashResult) (sc : scan)
  : option (ctl UnitigMap Z) :=
  if sc_it sc =? HT.it_end (hmap_min_unitigs m) then Some (Continue it_h)
  else
    match fuel with
    | O => None
    | S fuel' =>
        let it_h := sc_it sc in
        bin ← slot_at (hmap_min_unitigs m) (sc_it sc);
        let sc0 := {| sc_mhr := sc_mhr sc;
                      sc_it := HT.it_end (hmap_min_unitigs m) |} in
        r ← find_bin m km km_twin km_rep km_tmp extremities_only it_h
              min_h_res sc0 bin.2;
        match r with
        | Return um => Some (Return um)
        | Continue sc' =>
            find_bins fuel' m km km_twin km_rep km_tmp extremities_only it_h
                      min_h_res sc'
        end
    end.

(** [while (it_it_min != it_it_min_end)] over the minimizers of [km]. *)
Fixpoint find_results (m : UnitigMapper) (km km_twin km_rep : Kmer)
    (km_tmp : dna) (extremities_only : bool) (it_h : Z)
    (results : list minHashResult) : option UnitigMap :=
  match results with
  | [] => Some (UnitigMap_empty it_h)
  | min_h_res :: rest =>
      it ← HT.find (hmap_min_unitigs m) (minz_rep_at km_tmp (mhr_pos min_h_res));
      r ← find_bins window_fuel m km km_twin km_rep km_tmp extremities_only
            it_h min_h_res {| sc_mhr := min_h_res; sc_it := it |};
      match r with
      | Return um => Some um
      | Continue it_h' =>
          find_results m km km_twin km_rep km_tmp extremities_only it_h' rest
      end
  end.

Definition find (m : UnitigMapper) (km : Kmer) (extremities_only : bool)
  : option UnitigMap :=
  let km_twin := twin km in
  let km_rep := if encode (toString km) <? encode (toString km_twin)
                then km else km_twin in
  let km_tmp := toString km in
  find_results m km km_twin km_rep km_tmp extremities_only 0
               (min_results km_tmp 0).



(** *** [addUnitig(str_unitig, id_unitig)] *)

Definition mask : Z := Z.lor MASK_CONTIG_ID MASK_CONTIG_TYPE.

(** [v_sz - 1]-th and [v_sz - 2]-th entry of a bin. *)
Definition last_entry (v : list Z) : option Z := at_ v (Z.of_nat (length v) - 1).

(** What the loop over the minimizers carries along. *)
Record add_state := mkAdd {
  a_hmap : HT.HashTable Minimizer (list Z);
  a_pos_id_unitig : Z;
  a_isShort : bool;
  a_isAbundant : bool;
  a_isForbidden : bool;
  a_last_pos_min : Z;
  a_done : bool
}.

(** [while ((v_sz >= max_abundance_lim) || ...)]: the bin at [h] is
    full or marked overcrowded; mark it and turn to the bin of the next
    distinct minimizer of the k-mer at [p]. Returns the table, the
    iterator [p.first] and [isForbidden]. *)
Fixpoint crowded_loop (fuel : nat) (c_str : dna) (p : Z)
    (hm : HT.HashTable Minimizer (list Z)) (h : Z) (mhr : minHashResult)
    (isForbidden : bool)
  : option (HT.HashTable Minimizer (list Z) * Z * bool) :=
  bin ← slot_at hm h;
  let v := bin.2 in
  let v_sz := Z.of_nat (length v) in
  let marked := match last_entry v with
                | Some x => Z.land x mask =? mask
                | None => false
                end in
  if (v_sz >=? max_abundance_lim) || ((0 <? v_sz) && marked) then
    match fuel with
    | O => None
    | S fuel' =>
        let mhr_tmp := getNewMin c_str p mhr in
        if negb (mhr_hash mhr_tmp =? mhr_hash mhr) then
          x ← last_entry v;
          let hm1 :=
            if negb (Z.land x mask =? mask) then
              (* never signaled before as overcrowded *)
              if Z.land x MASK_CONTIG_ID =? MASK_CONTIG_ID
              then set_value hm h (<[Z.to_nat (v_sz - 1) := Z.lor x MASK_CONTIG_TYPE]> v)
              else set_value hm h (v ++ [mask])
            else hm in
          '(hm2, h2, _) ← HT.insert hm1 (minz_rep_at c_str (mhr_pos mhr_tmp), []);
          crowded_loop fuel' c_str p hm2 h2 mhr_tmp true
        else Some (hm, h, true)
    end
  else Some (hm, h, isForbidden).

(** One minimizer [min_h_res] of the k-mer at [p]: the body of
    [while (it_it_min != it_it_min_end)]. [Return] is the [break]. *)
Definition add_result (c_str : dna) (p : Z) (a : add_state)
    (min_h_res : minHashResult) : option (ctl add_state add_state) :=
  '(hm, h, _) ← HT.insert (a_hmap a) (minz_rep_at c_str (mhr_pos min_h_res), []);
  let pos := mhr_pos min_h_res in
  let pos_id_unitig := Z.lor (Z.land (a_pos_id_unitig a) mask) pos in
  '(hm, h, isForbidden) ←
     (if negb (a_isShort a)
      then crowded_loop window_fuel c_str p hm h min_h_res (a_isForbidden a)
      else Some (hm, h, a_isForbidden a));
  bin ← slot_at hm h;
  let v := bin.2 in
  let v_sz := Z.of_nat (length v) in
  let a1 := {| a_hmap := hm; a_pos_id_unitig := pos_id_unitig;
               a_isShort := a_isShort a; a_isAbundant := a_isAbundant a;
               a_isForbidden := isForbidden; a_last_pos_min := pos;
               a_done := a_done a |} in
  let put v' := Some (Continue {| a_hmap := set_value hm h v';
                                  a_pos_id_unitig := pos_id_unitig;
                                  a_isShort := a_isShort a;
                                  a_isAbundant := a_isAbundant a;
                                  a_isForbidden := isForbidden;
                                  a_last_pos_min := pos;
                                  a_done := a_done a |}) in
  if v_sz =? 0 then put (v ++ [pos_id_unitig])
  else if a_isShort a && (v_sz >=? min_abundance_lim) then
    (* the minimizer (is/might be) too abundant *)
    Some (Return {| a_hmap := hm; a_pos_id_unitig := pos_id_unitig;
                    a_isShort := false; a_isAbundant := true;
                    a_isForbidden := isForbidden;
                    a_last_pos_min := a_last_pos_min a;
                    a_done := true |})
  else
    x ← last_entry v;
    if Z.land x MASK_CONTIG_ID =? MASK_CONTIG_ID then
      (* the minimizer is abundant or crowded *)
      if v_sz =? 1 then put (tv_insert v pos_id_unitig (v_sz - 1))
      else
        y ← at_ v (v_sz - 2);
        if negb (y =? pos_id_unitig)
        then put (tv_insert v pos_id_unitig (v_sz - 1))
        else Some (Continue a1)
    else if negb (x =? pos_id_unitig) then put (v ++ [pos_id_unitig])
    else Some (Continue a1).

Fixpoint add_results (c_str : dna) (p : Z) (a : add_state)
    (results : list minHashResult) : option add_state :=
  match results with
  | [] => Some a
  | r :: rest =>
      o ← add_result c_str p a r;
      match o with
      | Return a' => Some a'
      | Continue a' => add_results c_str p a' rest
      end
  end.

(** [for (int64_t last_pos_min = -1; it_min != it_min_end; it_min++)] *)
Fixpoint add_positions (c_str : dna) (a : add_state) (ps : list Z)
  : option add_state :=
  match ps with
  | [] => Some a
  | p :: rest =>
      if a_done a then Some a
      else if (a_last_pos_min a <? getPosition c_str p) || a_isForbidden a then
        a' ← add_results c_str p
               {| a_hmap := a_hmap a; a_pos_id_unitig := a_pos_id_unitig a;
                  a_isShort := a_isShort a; a_isAbundant := a_isAbundant a;
                  a_isForbidden := false; a_last_pos_min := a_last_pos_min a;
                  a_done := a_done a |}
               (min_results c_str p);
        add_positions c_str a' rest
      else add_positions c_str a rest
  end.

(** The second pass of an abundant k-mer: one more reference in the
    bookkeeping entry of each of its minimizers. *)
Fixpoint abundant_results (c_str : dna)
    (hm : HT.HashTable Minimizer (list Z)) (last_pos_min : Z)
    (results : list minHashResult)
  : option (HT.HashTable Minimizer (list Z) * Z) :=
  match results with
  | [] => Some (hm, last_pos_min)
  | r :: rest =>
      '(hm1, h, _) ← HT.insert hm (minz_rep_at c_str (mhr_pos r), []);
      bin ← slot_at hm1 h;
      let v := bin.2 in
      let v_sz := Z.of_nat (length v) in
      let v' := match last_entry v with
                | Some x =>
                    if (0 <? v_sz) && (Z.land x MASK_CONTIG_ID =? MASK_CONTIG_ID)
                    then <[Z.to_nat (v_sz - 1) := wrap64 (x + 1)]> v
                    else v ++ [MASK_CONTIG_ID + 1]
                | None => v ++ [MASK_CONTIG_ID + 1]
                end in
      abundant_results c_str (set_value hm1 h v') (mhr_pos r) rest
  end.

Fixpoint abundant_positions (c_str : dna)
    (hm : HT.HashTable Minimizer (list Z)) (last_pos_min : Z) (ps : list Z)
  : option (HT.HashTable Minimizer (list Z)) :=
  match ps with
  | [] => Some hm
  | p :: rest =>
      if last_pos_min <? getPosition c_str p then
        '(hm', lpm) ← abundant_results c_str hm last_pos_min (min_results c_str p);
        abundant_positions c_str hm' lpm rest
      else abundant_positions c_str hm last_pos_min rest
  end.

(** A vector of pointers or pairs holds at most [2^60] elements:
    [push_back] beyond [max_size()] throws. *)
Definition vec_limit : Z := 2 ^ 60.

(** [v[id] = x], or [push_back(x)] when [id] is the size. *)
Definition assign_or_push {E} (v : list E) (id : Z) (x : E) : option (list E) :=
  if id =? Z.of_nat (length v) then
    if Z.of_nat (length v) <? vec_limit then Some (v ++ [x]) else None
  else if (0 <=? id) && (id <? Z.of_nat (length v)) then Some (<[Z.to_nat id := x]> v)
  else None.


(** *** [deleteUnitig(isShort, isAbundant, id_unitig)] *)

(** The abundant case, one minimizer: one reference less in its
    bookkeeping entry; the entry goes when it counts nothing and marks
    no overcrowding. *)
Fixpoint del_abundant_results (km_str : dna)
    (hm : HT.HashTable Minimizer (list Z)) (last_pos_min : Z)
    (results : list minHashResult)
  : option (HT.HashTable Minimizer (list Z) * Z) :=
  match results with
  | [] => Some (hm, last_pos_min)
  | r :: rest =>
      let minz_rep := minz_rep_at km_str (mhr_pos r) in
      it_h ← HT.find hm minz_rep;
      hm' ← (if negb (it_h =? HT.it_end hm) then
               bin ← slot_at hm it_h;
               let v := bin.2 in
               let last_pos_v := Z.of_nat (length v) - 1 in
               x ← at_ v last_pos_v;
               let x' := wrap64 (x - 1) in
               let hm1 := set_value hm it_h (<[Z.to_nat last_pos_v := x']> v) in
               if (Z.land x' RESERVED_ID =? 0)
                  && negb (Z.land x' MASK_CONTIG_TYPE =? MASK_CONTIG_TYPE)
               then
                 if last_pos_v =? 0 then fst <$> HT.erase_key hm1 minz_rep
                 else Some (set_value hm1 it_h
                              (tv_remove (<[Z.to_nat last_pos_v := x']> v)
                                         (Z.of_nat (length v) - 1)))
               else Some hm1
             else Some hm);
      del_abundant_results km_str hm' (mhr_pos r) rest
  end.

Fixpoint del_abundant_positions (km_str : dna)
    (hm : HT.HashTable Minimizer (list Z)) (last_pos_min : Z) (ps : list Z)
  : option (HT.HashTable Minimizer (list Z)) :=
  match ps with
  | [] => Some hm
  | p :: rest =>
      if last_pos_min <? getPosition km_str p then
        '(hm', lpm) ← del_abundant_results km_str hm last_pos_min
                         (min_results km_str p);
        del_abundant_positions km_str hm' lpm rest
      else del_abundant_positions km_str hm last_pos_min rest
  end.

(** [for (size_t i = 0; i < v_sz; i++) if ((v[i] & mask) == pos_id_unitig)
    { v.remove(i); break; }] *)
Fixpoint remove_first_match (v : list Z) (pos_id_unitig : Z) : list Z :=
  match v with
  | [] => []
  | x :: rest =>
      if Z.land x mask =? pos_id_unitig then rest
      else x :: remove_first_match rest pos_id_unitig
  end.

(** [while (it_h != hmap_min_unitigs.end())]: remove the entry of the
    unitig from the bin; when the bin is overcrowded go on to the bin of
    the next distinct minimizer.  The test [v[v_sz-1]] reads the cell
    that held the last entry before the removal. *)
Fixpoint del_bins (fuel : nat) (s : dna) (p : Z) (isShort : bool)
    (pos_id_unitig : Z) (hm : HT.HashTable Minimizer (list Z))
    (minz_rep : Minimizer) (it_h : Z) (mhr : minHashResult) (isForbidden : bool)
  : option (HT.HashTable Minimizer (list Z) * bool) :=
  if it_h =? HT.it_end hm then Some (hm, isForbidden)
  else
    match fuel with
    | O => None
    | S fuel' =>
        bin ← slot_at hm it_h;
        let v := bin.2 in
        let v' := remove_first_match v pos_id_unitig in
        let hm1 := set_value hm it_h v' in
        if Z.of_nat (length v') =? 0 then
          hm2 ← fst <$> HT.erase_key hm1 minz_rep;
          Some (hm2, isForbidden)
        else
          x ← last_entry v;
          if negb isShort && (Z.land x mask =? mask) then
            (* the bin is overcrowded *)
            let mhr_tmp := getNewMin s p mhr in
            if negb (mhr_hash mhr_tmp =? mhr_hash mhr) then
              let minz_rep' := minz_rep_at s (mhr_pos mhr_tmp) in
              it_h' ← HT.find hm1 minz_rep';
              del_bins fuel' s p isShort pos_id_unitig hm1 minz_rep' it_h'
                       mhr_tmp true
            else Some (hm1, true)
          else Some (hm1, isForbidden)
    end.

Fixpoint del_results (s : dna) (p : Z) (isShort : bool) (pos_id_unitig : Z)
    (hm : HT.HashTable Minimizer (list Z)) (isForbidden : bool)
    (last_pos_min : Z) (results : list minHashResult)
  : option (HT.HashTable Minimizer (list Z) * bool * Z) :=
  match results with
  | [] => Some (hm, isForbidden, last_pos_min)
  | r :: rest =>
      let minz_rep := minz_rep_at s (mhr_pos r) in
      it_h ← HT.find hm minz_rep;
      '(hm', isForbidden') ← del_bins window_fuel s p isShort pos_id_unitig hm
                                minz_rep it_h r isForbidden;
      del_results s p isShort pos_id_unitig hm' isForbidden' (mhr_pos r) rest
  end.

Fixpoint del_positions (s : dna) (isShort : bool) (pos_id_unitig : Z)
    (hm : HT.HashTable Minimizer (list Z)) (isForbidden : bool)
    (last_pos_min : Z) (ps : list Z)
  : option (HT.HashTable Minimizer (list Z)) :=
  match ps with
  | [] => Some hm
  | p :: rest =>
      if (last_pos_min <? getPosition s p) || isForbidden then
        '(hm', isForbidden', lpm) ←
           del_results s p isShort pos_id_unitig hm false last_pos_min
                       (min_results s p);
        del_positions s isShort pos_id_unitig hm' isForbidden' lpm rest
      else del_positions s isShort pos_id_unitig hm isForbidden last_pos_min rest
  end.

Definition deleteUnitig (m : UnitigMapper) (isShort isAbundant : bool)
    (id_unitig : Z) : option UnitigMapper :=
  if isAbundant then
    let it := HT.find_h (h_kmers_ccov m) id_unitig in
    if it =? HT.it_end (h_kmers_ccov m) then None
    else
      entry ← slot_at (h_kmers_ccov m) it;
      let km := entry.1 in
      let km_str := toString km in
      hm ← del_abundant_positions km_str (hmap_min_unitigs m) (-1)
             (kmer_positions km_str);
      hk ← fst <$> HT.erase_key (h_kmers_ccov m) km;
      Some {| hmap_min_unitigs := hm; h_kmers_ccov := hk;
              v_unitigs := v_unitigs m; v_kmers := v_kmers m |}
  else
    let pos_id_unitig := wrap64 (Z.shiftl id_unitig 32) in
    if isShort then
      p ← at_ (v_kmers m) id_unitig;
      let str := toString p.1 in
      hm ← del_positions str true (Z.lor pos_id_unitig MASK_CONTIG_TYPE)
             (hmap_min_unitigs m) false (-1) (kmer_positions str);
      Some {| hmap_min_unitigs := hm; h_kmers_ccov := h_kmers_ccov m;
              v_unitigs := v_unitigs m;
              v_kmers := <[Z.to_nat id_unitig := (KmDeleted, p.2)]> (v_kmers m) |}
    else
      ou ← at_ (v_unitigs m) id_unitig;
      u ← ou;
      let str := seq u in
      hm ← del_positions str false pos_id_unitig
             (hmap_min_unitigs m) false (-1) (kmer_positions str);
      Some {| hmap_min_unitigs := hm; h_kmers_ccov := h_kmers_ccov m;
              v_unitigs := <[Z.to_nat id_unitig := None]> (v_unitigs m);
              v_kmers := v_kmers m |}.

(** *** [addUnitig], the whole *)

Definition addUnitig (m : UnitigMapper) (str_unitig : dna) (id_unitig : Z)
  : option (UnitigMapper * bool) :=
  let len := Z.of_nat (length str_unitig) in
  let isShort := len =? k in
  let pos_id_unitig :=
    if isShort then Z.lor (wrap64 (Z.shiftl id_unitig 32)) MASK_CONTIG_TYPE
    else wrap64 (Z.shiftl id_unitig 32) in
  let km_rep := rep (Km str_unitig) in
  let c_str := if isShort then toString km_rep else str_unitig in
  a ← add_positions c_str
        {| a_hmap := hmap_min_unitigs m; a_pos_id_unitig := pos_id_unitig;
           a_isShort := isShort; a_isAbundant := false; a_isForbidden := false;
           a_last_pos_min := -1; a_done := false |}
        (kmer_positions c_str);
  let m1 := {| hmap_min_unitigs := a_hmap a; h_kmers_ccov := h_kmers_ccov m;
               v_unitigs := v_unitigs m; v_kmers := v_kmers m |} in
  if a_isAbundant a then
    vk ← assign_or_push (v_kmers m1) id_unitig (km_rep, newCov 1 false);
    m2 ← deleteUnitig {| hmap_min_unitigs := hmap_min_unitigs m1;
                         h_kmers_ccov := h_kmers_ccov m1;
                         v_unitigs := v_unitigs m1; v_kmers := vk |}
                      true false id_unitig;
    let vk' := if id_unitig =? wrap64 (Z.of_nat (length (v_kmers m2)) - 1)
               then take (length (v_kmers m2) - 1) (v_kmers m2)
               else v_kmers m2 in
    hm ← abundant_positions c_str (hmap_min_unitigs m2) (-1) (kmer_positions c_str);
    '(hk, _, _) ← HT.insert (h_kmers_ccov m2) (km_rep, newCov 1 false);
    Some ({| hmap_min_unitigs := hm; h_kmers_ccov := hk;
             v_unitigs := v_unitigs m2; v_kmers := vk' |}, true)
  else if a_isShort a then
    vk ← assign_or_push (v_kmers m1) id_unitig (km_rep, newCov 1 false);
    Some ({| hmap_min_unitigs := hmap_min_unitigs m1;
             h_kmers_ccov := h_kmers_ccov m1;
             v_unitigs := v_unitigs m1; v_kmers := vk |}, false)
  else
    vu ← assign_or_push (v_unitigs m1) id_unitig (Some (newUnitig c_str));
    Some ({| hmap_min_unitigs := hmap_min_unitigs m1;
             h_kmers_ccov := h_kmers_ccov m1;
             v_unitigs := vu; v_kmers := v_kmers m1 |}, false).


(** *** [swapUnitigs(isShort, id_a, id_b)] *)

(** [Minimizer::operator<] on packed g-mers, and [std::sort] by it. *)
Definition minz_code (x : Minimizer) : Z :=
  match x with Mz s => encode s | _ => 0 end.

Definition minz_lt (x y : Minimizer) : bool := minz_code x <? minz_code y.

Fixpoint sort_insert (x : Minimizer) (l : list Minimizer) : list Minimizer :=
  match l with
  | [] => [x]
  | y :: rest => if minz_lt y x then y :: sort_insert x rest else x :: l
  end.

Definition sort (l : list Minimizer) : list Minimizer :=
  fold_right sort_insert [] l.

(** [while ((it_h->second[v_sz-1] & mask) == mask)] of the collecting
    pass: follow an overcrowded bin to the next distinct minimizer. *)
Fixpoint swap_collect_bins (fuel : nat) (s : dna) (p : Z)
    (hm : HT.HashTable Minimizer (list Z)) (it_h : Z) (mhr : minHashResult)
    (isForbidden : bool) (acc : list Minimizer)
  : option (bool * list Minimizer) :=
  bin ← slot_at hm it_h;
  x ← last_entry bin.2;
  if Z.land x mask =? mask then
    match fuel with
    | O => None
    | S fuel' =>
        let mhr_tmp := getNewMin s p mhr in
        if negb (mhr_hash mhr_tmp =? mhr_hash mhr) then
          let minz_rep := minz_rep_at s (mhr_pos mhr_tmp) in
          it_h' ← HT.find hm minz_rep;
          if it_h' =? HT.it_end hm then Some (true, acc)
          else swap_collect_bins fuel' s p hm it_h' mhr_tmp true (acc ++ [minz_rep])
        else Some (true, acc)
    end
  else Some (isForbidden, acc).

Fixpoint swap_collect_results (s : dna) (p : Z) (isShort : bool)
    (hm : HT.HashTable Minimizer (list Z)) (isForbidden : bool)
    (last_pos_min : Z) (acc : list Minimizer) (results : list minHashResult)
  : option (bool * Z * list Minimizer) :=
  match results with
  | [] => Some (isForbidden, last_pos_min, acc)
  | r :: rest =>
      let minz_rep := minz_rep_at s (mhr_pos r) in
      '(isForbidden', acc') ←
         (if negb isShort then
            it_h ← HT.find hm minz_rep;
            if negb (it_h =? HT.it_end hm)
            then swap_collect_bins window_fuel s p hm it_h r isForbidden
                                   (acc ++ [minz_rep])
            else Some (isForbidden, acc)
          else Some (isForbidden, acc ++ [minz_rep]));
      swap_collect_results s p isShort hm isForbidden' (mhr_pos r) acc' rest
  end.

Fixpoint swap_collect (s : dna) (isShort : bool)
    (hm : HT.HashTable Minimizer (list Z)) (isForbidden : bool)
    (last_pos_min : Z) (acc : list Minimizer) (ps : list Z)
  : option (list Minimizer) :=
  match ps with
  | [] => Some acc
  | p :: rest =>
      if (last_pos_min <? getPosition s p) || isForbidden then
        '(isForbidden', lpm, acc') ←
           swap_collect_results s p isShort hm false last_pos_min acc
                                (min_results s p);
        swap_collect s isShort hm isForbidden' lpm acc' rest
      else swap_collect s isShort hm isForbidden last_pos_min acc rest
  end.

(** The rewriting passes: in the bin of each minimizer that differs
    from the one before it in the sorted vector, [rewrite] every entry. *)
Fixpoint swap_rewrite (rewrite : Z -> Z)
    (hm : HT.HashTable Minimizer (list Z)) (prev : option Minimizer)
    (mins : list Minimizer) : option (HT.HashTable Minimizer (list Z)) :=
  match mins with
  | [] => Some hm
  | x :: rest =>
      hm' ← (if bool_decide (prev = Some x) then Some hm
             else
               it_h ← HT.find hm x;
               if negb (it_h =? HT.it_end hm) then
                 bin ← slot_at hm it_h;
                 Some (set_value hm it_h (map rewrite bin.2))
               else Some hm);
      swap_rewrite rewrite hm' (Some x) rest
  end.

(** [std::remove_if] with the lambda that walks [it_a] along the sorted
    [v_min_a]: drops from [v_min_b] what [v_min_a] holds. *)
Fixpoint drop_below (it_a : list Minimizer) (x : Minimizer) : list Minimizer :=
  match it_a with
  | y :: rest => if minz_lt y x then drop_below rest x else it_a
  | [] => []
  end.

Fixpoint remove_seen (it_a : list Minimizer) (v_min_b : list Minimizer)
  : list Minimizer :=
  match v_min_b with
  | [] => []
  | x :: rest =>
      let it_a' := drop_below it_a x in
      match it_a' with
      | y :: _ => if bool_decide (y = x) then remove_seen it_a' rest
                  else x :: remove_seen it_a' rest
      | [] => x :: remove_seen it_a' rest
      end
  end.

Definition swap_entries {E} (v : list E) (a b : Z) : option (list E) :=
  x ← at_ v a;
  y ← at_ v b;
  Some (<[Z.to_nat b := x]> (<[Z.to_nat a := y]> v)).

Definition swapUnitigs (m : UnitigMapper) (isShort : bool) (id_a id_b : Z)
  : option UnitigMapper :=
  let shift_a0 := wrap64 (Z.shiftl id_a 32) in
  let shift_b0 := wrap64 (Z.shiftl id_b 32) in
  let shift_id_unitig_a := if isShort then Z.lor shift_a0 MASK_CONTIG_TYPE else shift_a0 in
  let shift_id_unitig_b := if isShort then Z.lor shift_b0 MASK_CONTIG_TYPE else shift_b0 in
  '(vu, vk) ←
     (if isShort then vk ← swap_entries (v_kmers m) id_a id_b; Some (v_unitigs m, vk)
      else vu ← swap_entries (v_unitigs m) id_a id_b; Some (vu, v_kmers m));
  let str_of id :=
    if isShort then p ← at_ vk id; Some (toString p.1)
    else ou ← at_ vu id; u ← ou; Some (seq u) in
  str ← str_of id_a;
  v_min_a ← swap_collect str isShort (hmap_min_unitigs m) false (-1) []
              (kmer_positions str);
  let v_min_a := sort v_min_a in
  hm1 ← swap_rewrite
          (fun c => if Z.land c mask =? shift_id_unitig_b
                    then Z.lor shift_id_unitig_a (Z.land c MASK_CONTIG_POS)
                    else if Z.land c mask =? shift_id_unitig_a
                    then Z.lor shift_id_unitig_b (Z.land c MASK_CONTIG_POS)
                    else c)
          (hmap_min_unitigs m) None v_min_a;
  str ← str_of id_b;
  v_min_b ← swap_collect str isShort hm1 false (-1) [] (kmer_positions str);
  let v_min_b := remove_seen v_min_a (sort v_min_b) in
  hm2 ← swap_rewrite
          (fun c => if Z.land c mask =? shift_id_unitig_a
                    then Z.lor shift_id_unitig_b (Z.land c MASK_CONTIG_POS)
                    else c)
          hm1 None v_min_b;
  Some {| hmap_min_unitigs := hm2; h_kmers_ccov := h_kmers_ccov m;
          v_unitigs := vu; v_kmers := vk |}.


(** *** [splitUnitig] and [splitAllUnitigs] *)

(** The variables [splitUnitig] takes by reference. *)
Record cursors := mkCursors {
  pos_v_unitigs : Z;
  nxt_pos_insert_v_unitigs : Z;
  v_unitigs_sz : Z;
  v_kmers_sz : Z
}.

Definition update_unitig (m : UnitigMapper) (id : Z) (f : Unitig -> Unitig)
  : option UnitigMapper :=
  ou ← at_ (v_unitigs m) id;
  u ← ou;
  Some {| hmap_min_unitigs := hmap_min_unitigs m; h_kmers_ccov := h_kmers_ccov m;
          v_unitigs := <[Z.to_nat id := Some (f u)]> (v_unitigs m);
          v_kmers := v_kmers m |}.

(** [mapRead(cc)]: the k-mers [dist .. dist + len - 1] of the unitig
    [cc] maps to have been seen once more. *)
Definition mapRead (m : UnitigMapper) (cc : UnitigMap) : option UnitigMapper :=
  if isEmpty cc then Some m
  else if isShort cc then
    p ← at_ (v_kmers m) (pos_unitig cc);
    Some {| hmap_min_unitigs := hmap_min_unitigs m; h_kmers_ccov := h_kmers_ccov m;
            v_unitigs := v_unitigs m;
            v_kmers := <[Z.to_nat (pos_unitig cc) :=
                          (p.1, cover p.2 (dist cc) (dist cc + len cc - 1))]> (v_kmers m) |}
  else if isAbundant cc then
    let it := HT.find_h (h_kmers_ccov m) (pos_unitig cc) in
    if it =? HT.it_end (h_kmers_ccov m) then None
    else
      entry ← slot_at (h_kmers_ccov m) it;
      Some {| hmap_min_unitigs := hmap_min_unitigs m;
              h_kmers_ccov := set_value (h_kmers_ccov m) it
                                (cover entry.2 (dist cc) (dist cc + len cc - 1));
              v_unitigs := v_unitigs m; v_kmers := v_kmers m |}
  else
    update_unitig m (pos_unitig cc)
      (fun u => {| seq := seq u;
                   ccov := cover (ccov u) (dist cc) (dist cc + len cc - 1);
                   coveragesum := coveragesum u |}).

(** [initializeCoverage(true); coveragesum = cov_tmp] *)
Definition full_with (cov_tmp : Z) (u : Unitig) : Unitig :=
  {| seq := seq (initializeCoverage u true);
     ccov := ccov (initializeCoverage u true);
     coveragesum := cov_tmp |}.

(** [str.substr(pos, n)]; it throws when [pos] is beyond the end. *)
Definition substr (str : dna) (pos n : Z) : option dna :=
  if (pos <? 0) || (Z.of_nat (length str) <? pos) then None
  else Some (take (Z.to_nat n) (drop (Z.to_nat pos) str)).

(** One range [(first, second)] of the splitting vector. *)
Definition split_piece (str : dna) (totalcoverage ccov_size low_count : Z)
    (st : UnitigMapper * cursors * bool) (range : Z * Z)
  : option (UnitigMapper * cursors * bool) :=
  let '(m, c, first_long_unitig) := st in
  let pos := wrap64 range.1 in
  let len := wrap64 (range.2 - pos) in
  split_str ← substr str pos (wrap64 (len + k - 1));
  if wrap64 (ccov_size - low_count) =? 0 then None
  else
    let cov_tmp := wrap64 (totalcoverage * len) / wrap64 (ccov_size - low_count) in
    if Z.of_nat (length split_str) =? k then
      '(m1, abundant) ← addUnitig m split_str (v_kmers_sz c);
      if (abundant : bool) then
        it ← HT.find (h_kmers_ccov m1) (rep (Km split_str));
        if it =? HT.it_end (h_kmers_ccov m1) then None
        else
          entry ← slot_at (h_kmers_ccov m1) it;
          Some ({| hmap_min_unitigs := hmap_min_unitigs m1;
                   h_kmers_ccov := set_value (h_kmers_ccov m1) it (setFull entry.2);
                   v_unitigs := v_unitigs m1; v_kmers := v_kmers m1 |},
                c, first_long_unitig)
      else
        p ← at_ (v_kmers m1) (v_kmers_sz c);
        Some ({| hmap_min_unitigs := hmap_min_unitigs m1;
                 h_kmers_ccov := h_kmers_ccov m1;
                 v_unitigs := v_unitigs m1;
                 v_kmers := <[Z.to_nat (v_kmers_sz c) := (p.1, setFull p.2)]> (v_kmers m1) |},
              {| pos_v_unitigs := pos_v_unitigs c;
                 nxt_pos_insert_v_unitigs := nxt_pos_insert_v_unitigs c;
                 v_unitigs_sz := v_unitigs_sz c;
                 v_kmers_sz := wrap64 (v_kmers_sz c + 1) |},
              first_long_unitig)
    else if first_long_unitig then
      m1 ← deleteUnitig m false false (pos_v_unitigs c);
      '(m2, _) ← addUnitig m1 split_str (pos_v_unitigs c);
      m3 ← update_unitig m2 (pos_v_unitigs c) (full_with cov_tmp);
      Some (m3, c, false)
    else
      '(m1, _) ← addUnitig m split_str (nxt_pos_insert_v_unitigs c);
      m2 ← update_unitig m1 (nxt_pos_insert_v_unitigs c) (full_with cov_tmp);
      Some (m2,
            {| pos_v_unitigs := pos_v_unitigs c;
               nxt_pos_insert_v_unitigs := wrap64 (nxt_pos_insert_v_unitigs c + 1);
               v_unitigs_sz := v_unitigs_sz c;
               v_kmers_sz := v_kmers_sz c |},
            false).

Fixpoint split_pieces (str : dna) (totalcoverage ccov_size low_count : Z)
    (st : UnitigMapper * cursors * bool) (sp : list (Z * Z))
  : option (UnitigMapper * cursors * bool) :=
  match sp with
  | [] => Some st
  | range :: rest =>
      st' ← split_piece str totalcoverage ccov_size low_count st range;
      split_pieces str totalcoverage ccov_size low_count st' rest
  end.

(** [splitUnitig(pos_v_unitigs, nxt_pos_insert_v_unitigs, v_unitigs_sz,
    v_kmers_sz, sp)]; the boolean is the returned [deleted]. *)
Definition splitUnitig (m : UnitigMapper) (c : cursors) (sp : list (Z * Z))
  : option (UnitigMapper * cursors * bool) :=
  ou ← at_ (v_unitigs m) (pos_v_unitigs c);
  unitig ← ou;
  '(m1, c1, first_long_unitig, deleted) ←
     (match sp with
      | [] => Some (m, c, true, true)
      | _ =>
          let lowpair := lowCoverageInfo (ccov unitig) in
          let totalcoverage := wrap64 (coveragesum unitig - lowpair.2) in
          let ccov_size := cov_size (ccov unitig) in
          '(m1, c1, fl) ← split_pieces (seq unitig) totalcoverage ccov_size
                             lowpair.1 (m, c, true) sp;
          Some (m1, c1, fl, false)
      end);
  if (first_long_unitig : bool) then
    (* position of the last unitig in the vector which is not NULL *)
    let nxt := wrap64 (nxt_pos_insert_v_unitigs c1 - 1) in
    '(m2, pos', sz') ←
       (if negb (pos_v_unitigs c1 =? nxt) then
          m2 ← swapUnitigs m1 false (pos_v_unitigs c1) nxt;
          if nxt >=? v_unitigs_sz c1
          then Some (m2, wrap64 (pos_v_unitigs c1 + 1), v_unitigs_sz c1)
          else Some (m2, pos_v_unitigs c1, wrap64 (v_unitigs_sz c1 - 1))
        else Some (m1, pos_v_unitigs c1, wrap64 (v_unitigs_sz c1 - 1)));
    m3 ← deleteUnitig m2 false false nxt;
    Some (m3,
          {| pos_v_unitigs := pos'; nxt_pos_insert_v_unitigs := nxt;
             v_unitigs_sz := sz'; v_kmers_sz := v_kmers_sz c1 |},
          deleted)
  else
    Some (m1,
          {| pos_v_unitigs := wrap64 (pos_v_unitigs c1 + 1);
             nxt_pos_insert_v_unitigs := nxt_pos_insert_v_unitigs c1;
             v_unitigs_sz := v_unitigs_sz c1; v_kmers_sz := v_kmers_sz c1 |},
          deleted).

(** [for (it = h_kmers_ccov.begin(); it != h_kmers_ccov.end(); it++)]:
    the iterator passes the slots in order and stops at each one that
    holds a stored key when it gets there; the body erases at most the
    slot it is at and the table is not resized meanwhile. *)
Fixpoint split_abundant (m : UnitigMapper) (deleted : Z) (slots : list nat)
  : option (UnitigMapper * Z) :=
  match slots with
  | [] => Some (m, deleted)
  | h :: rest =>
      match HT.table (h_kmers_ccov m) !! h with
      | Some (key, cov) =>
          if HTSpec.is_live (T:=CompressedCoverage) key && negb (isFull cov) then
            m' ← deleteUnitig m false true (Z.of_nat h);
            split_abundant m' (wrap64 (deleted + 1)) rest
          else split_abundant m deleted rest
      | None => None
      end
  end.

(** [for (i = 0; i < v_kmers_sz;)] *)
Fixpoint split_short (fuel : nat) (m : UnitigMapper) (i v_kmers_sz deleted : Z)
  : option (UnitigMapper * Z * Z) :=
  if i <? v_kmers_sz then
    match fuel with
    | O => None
    | S fuel' =>
        p ← at_ (v_kmers m) i;
        if negb (isFull p.2) then
          let v_kmers_sz := wrap64 (v_kmers_sz - 1) in
          m1 ← (if negb (i =? v_kmers_sz) then swapUnitigs m true i v_kmers_sz
                else Some m);
          m2 ← deleteUnitig m1 true false v_kmers_sz;
          split_short fuel' m2 i v_kmers_sz (wrap64 (deleted + 1))
        else split_short fuel' m (wrap64 (i + 1)) v_kmers_sz deleted
    end
  else Some (m, v_kmers_sz, deleted).

(** [for (i = 0; i < v_unitigs_sz;)] *)
Fixpoint split_long (fuel : nat) (m : UnitigMapper) (c : cursors)
    (split deleted : Z) : option (UnitigMapper * cursors * Z * Z) :=
  if pos_v_unitigs c <? v_unitigs_sz c then
    match fuel with
    | O => None
    | S fuel' =>
        ou ← at_ (v_unitigs m) (pos_v_unitigs c);
        u ← ou;
        if negb (isFull (ccov u)) then
          let sp := splittingVector (ccov u) in
          '(m', c', del) ← splitUnitig m c sp;
          if (del : bool) then split_long fuel' m' c' split (wrap64 (deleted + 1))
          else split_long fuel' m' c' (wrap64 (split + 1)) deleted
        else
          split_long fuel' m
            {| pos_v_unitigs := wrap64 (pos_v_unitigs c + 1);
               nxt_pos_insert_v_unitigs := nxt_pos_insert_v_unitigs c;
               v_unitigs_sz := v_unitigs_sz c; v_kmers_sz := v_kmers_sz c |}
            split deleted
    end
  else Some (m, c, split, deleted).

(** [v.resize(n)] for [n] below the size. *)
Definition shrink {E} (v : list E) (n : Z) : list E :=
  if n <? Z.of_nat (length v) then take (Z.to_nat n) v else v.

Definition splitAllUnitigs (m : UnitigMapper)
  : option (UnitigMapper * (Z * Z)) :=
  let v_kmers_sz0 := Z.of_nat (length (v_kmers m)) in
  let v_unitigs_sz0 := Z.of_nat (length (v_unitigs m)) in
  '(m1, deleted) ← split_abundant m 0
                     (List.seq 0 (length (HT.table (h_kmers_ccov m))));
  '(m2, v_kmers_sz1, deleted) ←
     split_short (length (v_kmers m)) m1 0 v_kmers_sz0 deleted;
  '(m3, c, split, deleted) ←
     split_long (length (v_unitigs m)) m2
       {| pos_v_unitigs := 0; nxt_pos_insert_v_unitigs := v_unitigs_sz0;
          v_unitigs_sz := v_unitigs_sz0; v_kmers_sz := v_kmers_sz1 |}
       0 deleted;
  Some ({| hmap_min_unitigs := hmap_min_unitigs m3;
           h_kmers_ccov := h_kmers_ccov m3;
           v_unitigs := shrink (v_unitigs m3) (nxt_pos_insert_v_unitigs c);
           v_kmers := shrink (v_kmers m3) (v_kmers_sz c) |},
        (split, deleted)).


(** *** [checkJoin(a, cm_a, b)] *)

(** The head k-mer of the unitig a [UnitigMap] points to. *)
Definition head_of (m : UnitigMapper) (cm : UnitigMap) : option Kmer :=
  if isShort cm then p ← at_ (v_kmers m) (pos_unitig cm); Some p.1
  else if isAbundant cm then
    let it := HT.find_h (h_kmers_ccov m) (pos_unitig cm) in
    if it =? HT.it_end (h_kmers_ccov m) then None
    else entry ← slot_at (h_kmers_ccov m) it; Some entry.1
  else
    ou ← at_ (v_unitigs m) (pos_unitig cm);
    u ← ou;
    Some (getKmer (seq u) 0).

(** [for (size_t i = 0; i < 4; i++)] over the forward extensions of
    [a]: counts those [find(fw, true)] finds, stops at the second, and
    keeps the first as the candidate. *)
Fixpoint count_fw (m : UnitigMapper) (a : Kmer) (bases : list base)
    (fw_count : Z) (cand : Kmer * UnitigMap) : option (Z * (Kmer * UnitigMap)) :=
  match bases with
  | [] => Some (fw_count, cand)
  | c :: rest =>
      let fw := forwardBase a c in
      cm_cand_tmp ← find m fw true;
      if negb (isEmpty cm_cand_tmp) then
        let fw_count := fw_count + 1 in
        if fw_count >? 1 then Some (fw_count, cand)
        else count_fw m a rest fw_count (fw, cm_cand_tmp)
      else count_fw m a rest fw_count cand
  end.

(** The same loop over the forward extensions of [fw_cand.twin()]. *)
Fixpoint count_bw (m : UnitigMapper) (fw_cpy : Kmer) (bases : list base)
    (bw_count : Z) : option Z :=
  match bases with
  | [] => Some bw_count
  | c :: rest =>
      let fw := forwardBase fw_cpy c in
      cm_cand_tmp ← find m fw true;
      if negb (isEmpty cm_cand_tmp) then
        let bw_count := bw_count + 1 in
        if bw_count >? 1 then Some bw_count
        else count_bw m fw_cpy rest bw_count
      else count_bw m fw_cpy rest bw_count
  end.

(** [b] is passed by reference: the result is the returned boolean and
    what [b] holds afterwards. *)
Definition checkJoin (m : UnitigMapper) (a : Kmer) (cm_a : UnitigMap) (b : Kmer)
  : option (bool * Kmer) :=
  '(fw_count, (fw_cand, cm_cand)) ←
     count_fw m a alpha 0 (Km [], UnitigMap_empty 0);
  if fw_count =? 1 then
    cand_head ← head_of m cm_cand;
    ac_head ← head_of m cm_a;
    if negb (bool_decide (cand_head = ac_head)) then
      let fw_cpy := twin fw_cand in
      bw_count ← count_bw m fw_cpy alpha 0;
      if bw_count =? 1 then
        (* join up *)
        if bool_decide (cand_head = fw_cand) then Some (true, fw_cand)
        else
          candLast ←
            (if isShort cm_cand || isAbundant cm_cand then Some cand_head
             else
               ou ← at_ (v_unitigs m) (pos_unitig cm_cand);
               u ← ou;
               Some (getKmer (seq u) (Z.of_nat (length (seq u)) - k)));
          if bool_decide (twin candLast = fw_cand) then Some (true, fw_cand)
          else Some (true, b)
      else Some (false, b)
    else Some (false, b)
  else Some (false, b).

(** *** [removeUnitigs(rmIsolated, clipTips, v)] *)

(** [for (i = 0; (i != 4) && (nb <= lim); ++i)]: counts the neighbours
    [next km alpha[i]] that [find(., true)] finds, and keeps the last
    one in [km] when tips are clipped. *)
Fixpoint count_neighbours (m : UnitigMapper) (next : base -> Kmer)
    (clipTips : bool) (lim : Z) (bases : list base) (nb : Z) (km : Kmer)
  : option (Z * Kmer) :=
  match bases with
  | [] => Some (nb, km)
  | c :: rest =>
      if nb <=? lim then
        cm ← find m (next c) true;
        if negb (isEmpty cm)
        then count_neighbours m next clipTips lim rest (nb + 1)
                              (if clipTips then next c else km)
        else count_neighbours m next clipTips lim rest nb km
      else Some (nb, km)
  end.

(** What is decided for a unitig with head [head] and tail [tail]:
    whether it is removed, whether a neighbour goes to [v], and the
    value [km] is left with. *)
Definition examine (m : UnitigMapper) (rmIsolated clipTips : bool)
    (head tail km : Kmer) : option (bool * bool * Kmer) :=
  let rm_and_clip := rmIsolated && clipTips in
  let lim := if clipTips then 1 else 0 in
  '(nb_pred, km) ← count_neighbours m (backwardBase head) clipTips lim alpha 0 km;
  if nb_pred <=? lim then
    '(nb_succ, km) ← count_neighbours m (forwardBase tail) clipTips lim alpha 0 km;
    if (rm_and_clip && (nb_pred + nb_succ <=? lim))
       || (negb rm_and_clip && (nb_pred + nb_succ =? lim))
    then Some (true, clipTips && (nb_pred + nb_succ =? lim), km)
    else Some (false, false, km)
  else Some (false, false, km).

(** What the three loops carry: the mapper, the current [j], the number
    of entries kept, [removed], [km] and the output vector [v]. *)
Record rm_state := mkRm {
  r_m : UnitigMapper;
  r_sz : Z;
  r_removed : Z;
  r_km : Kmer;
  r_v : list Kmer
}.

(** [for (j = 0; j < v_unitigs_sz; j++)] over the long unitigs. *)
Fixpoint remove_long (fuel : nat) (rmIsolated clipTips : bool) (j : Z)
    (r : rm_state) : option rm_state :=
  if j <? r_sz r then
    match fuel with
    | O => None
    | S fuel' =>
        ou ← at_ (v_unitigs (r_m r)) j;
        unitig ← ou;
        if numKmers unitig <? k then
          let head := getKmer (seq unitig) 0 in
          let tail := getKmer (seq unitig) (Z.of_nat (length (seq unitig)) - k) in
          '(rm, push, km) ← examine (r_m r) rmIsolated clipTips head tail (r_km r);
          if (rm : bool) then
            let sz := wrap64 (r_sz r - 1) in
            m' ← (if negb (j =? sz) then swapUnitigs (r_m r) false j sz
                  else Some (r_m r));
            remove_long fuel' rmIsolated clipTips
              (if negb (j =? sz) then j else j + 1)
              {| r_m := m'; r_sz := sz; r_removed := wrap64 (r_removed r + 1);
                 r_km := km;
                 r_v := if (push : bool) then r_v r ++ [km] else r_v r |}
          else
            remove_long fuel' rmIsolated clipTips (j + 1)
              {| r_m := r_m r; r_sz := r_sz r; r_removed := r_removed r;
                 r_km := km; r_v := r_v r |}
        else remove_long fuel' rmIsolated clipTips (j + 1) r
    end
  else Some r.

(** [for (j = 0; j < v_kmers_sz; j++)] over the short unitigs. *)
Fixpoint remove_short (fuel : nat) (rmIsolated clipTips : bool) (j : Z)
    (r : rm_state) : option rm_state :=
  if j <? r_sz r then
    match fuel with
    | O => None
    | S fuel' =>
        p ← at_ (v_kmers (r_m r)) j;
        '(rm, push, km) ← examine (r_m r) rmIsolated clipTips p.1 p.1 (r_km r);
        if (rm : bool) then
          let sz := wrap64 (r_sz r - 1) in
          m' ← (if negb (j =? sz) then swapUnitigs (r_m r) true j sz
                else Some (r_m r));
          remove_short fuel' rmIsolated clipTips
            (if negb (j =? sz) then j else j + 1)
            {| r_m := m'; r_sz := sz; r_removed := wrap64 (r_removed r + 1);
               r_km := km;
               r_v := if (push : bool) then r_v r ++ [km] else r_v r |}
        else
          remove_short fuel' rmIsolated clipTips (j + 1)
            {| r_m := r_m r; r_sz := r_sz r; r_removed := r_removed r;
               r_km := km; r_v := r_v r |}
    end
  else Some r.

(** The loop over the abundant k-mers: one to remove gets the coverage
    [CompressedCoverage()], of size 0. *)
Fixpoint remove_abundant (rmIsolated clipTips : bool) (r : rm_state)
    (slots : list nat) : option rm_state :=
  match slots with
  | [] => Some r
  | h :: rest =>
      match HT.table (h_kmers_ccov (r_m r)) !! h with
      | Some (key, cov) =>
          if HTSpec.is_live (T:=CompressedCoverage) key then
            '(rm, push, km) ← examine (r_m r) rmIsolated clipTips key key (r_km r);
            if (rm : bool) then
              remove_abundant rmIsolated clipTips
                {| r_m := {| hmap_min_unitigs := hmap_min_unitigs (r_m r);
                             h_kmers_ccov := set_value (h_kmers_ccov (r_m r))
                                               (Z.of_nat h) (newCov 0 false);
                             v_unitigs := v_unitigs (r_m r);
                             v_kmers := v_kmers (r_m r) |};
                   r_sz := r_sz r; r_removed := wrap64 (r_removed r + 1);
                   r_km := km;
                   r_v := if (push : bool) then r_v r ++ [km] else r_v r |}
                rest
            else
              remove_abundant rmIsolated clipTips
                {| r_m := r_m r; r_sz := r_sz r; r_removed := r_removed r;
                   r_km := km; r_v := r_v r |}
                rest
          else remove_abundant rmIsolated clipTips r rest
      | None => None
      end
  end.

(** [for (j = sz; j < v.size(); j++) deleteUnitig(isShort, false, j)] *)
Fixpoint delete_from (m : UnitigMapper) (isShort : bool) (ids : list Z)
  : option UnitigMapper :=
  match ids with
  | [] => Some m
  | j :: rest => m' ← deleteUnitig m isShort false j; delete_from m' isShort rest
  end.

(** The last loop: delete the abundant k-mers whose coverage has size 0. *)
Fixpoint delete_marked (m : UnitigMapper) (slots : list nat)
  : option UnitigMapper :=
  match slots with
  | [] => Some m
  | h :: rest =>
      match HT.table (h_kmers_ccov m) !! h with
      | Some (key, cov) =>
          if HTSpec.is_live (T:=CompressedCoverage) key && (cov_size cov =? 0) then
            m' ← deleteUnitig m false true (Z.of_nat h);
            delete_marked m' rest
          else delete_marked m rest
      | None => None
      end
  end.

Definition removeUnitigs (m : UnitigMapper) (rmIsolated clipTips : bool)
    (v : list Kmer) : option (UnitigMapper * Z * list Kmer) :=
  if negb rmIsolated && negb clipTips then Some (m, 0, v)
  else
    let n_long := Z.of_nat (length (v_unitigs m)) in
    let n_short := Z.of_nat (length (v_kmers m)) in
    r1 ← remove_long (2 * length (v_unitigs m)) rmIsolated clipTips 0
           {| r_m := m; r_sz := n_long; r_removed := 0; r_km := Km [];
              r_v := v |};
    let v_unitigs_sz := r_sz r1 in
    r2 ← remove_short (2 * length (v_kmers m)) rmIsolated clipTips 0
           {| r_m := r_m r1; r_sz := n_short; r_removed := r_removed r1;
              r_km := r_km r1; r_v := r_v r1 |};
    let v_kmers_sz := r_sz r2 in
    r3 ← remove_abundant rmIsolated clipTips r2
           (List.seq 0 (length (HT.table (h_kmers_ccov (r_m r2)))));
    let m3 := r_m r3 in
    m4 ← delete_from m3 false (seqZ v_unitigs_sz (n_long - v_unitigs_sz));
    let m4 := {| hmap_min_unitigs := hmap_min_unitigs m4;
                 h_kmers_ccov := h_kmers_ccov m4;
                 v_unitigs := take (Z.to_nat v_unitigs_sz) (v_unitigs m4);
                 v_kmers := v_kmers m4 |} in
    m5 ← delete_from m4 true (seqZ v_kmers_sz (n_short - v_kmers_sz));
    let m5 := {| hmap_min_unitigs := hmap_min_unitigs m5;
                 h_kmers_ccov := h_kmers_ccov m5;
                 v_unitigs := v_unitigs m5;
                 v_kmers := take (Z.to_nat v_kmers_sz) (v_kmers m5) |} in
    m6 ← delete_marked m5 (List.seq 0 (length (HT.table (h_kmers_ccov m5))));
    Some (m6, r_removed r3, r_v r3).


(** *** [writeGFA(graphfilename)] *)

(** The lines written: the header, [S id seq LN:i:ln XC:i:xc] and
    [L a sign_a b sign_b ovl M] ([true] is [+]). *)
Inductive gfa_line :=
| HLine
| SLine (id : Z) (sequence : dna) (ln : Z) (xc : Z)
| LLine (labelA : Z) (signA : bool) (labelB : Z) (signB : bool) (overlap : Z).

(** [KmerHashTable<size_t> idmap]. *)
#[export] Instance idmap_ops : HT.TableOps Kmer Z :=
  {| HT.key_eq := Kmer_eq_dec;
     HT.hasher := fun km => match km with Km s => kmer_hash s | _ => 0 end;
     HT.empty_val := (KmEmpty, 0);
     HT.deleted := (KmDeleted, 0) |}.

(** [p.second.isFull() ? p.second.cov_full : p.second.covAt(0)] *)
Definition kmer_cov (c : CompressedCoverage) : Z :=
  if isFull c then cov_full else covAt c 0.

(** The S-lines of the long unitigs, [labelA = 1 .. v_unitigs_sz]. *)
Fixpoint gfa_long (vu : list (option Unitig)) (labelA : Z) : option (list gfa_line) :=
  match vu with
  | [] => Some []
  | ou :: rest =>
      unitig ← ou;
      lines ← gfa_long rest (labelA + 1);
      Some (SLine labelA (seq unitig) (Z.of_nat (length (seq unitig)))
                  (coveragesum unitig) :: lines)
  end.

(** The S-lines of the short unitigs, [labelA + v_unitigs_sz]. *)
Fixpoint gfa_short (vk : list (Kmer * CompressedCoverage)) (label : Z)
  : list gfa_line :=
  match vk with
  | [] => []
  | p :: rest =>
      SLine label (toString p.1) k (kmer_cov p.2) :: gfa_short rest (label + 1)
  end.

(** The loop over [h_kmers_ccov]: [id++], [idmap.insert({it->first,
    id})], the S-line. *)
Fixpoint gfa_abundant (slots : list (Kmer * CompressedCoverage)) (id : Z)
    (idmap : HT.HashTable Kmer Z)
  : option (list gfa_line * HT.HashTable Kmer Z) :=
  match slots with
  | [] => Some ([], idmap)
  | (key, cov) :: rest =>
      if HTSpec.is_live (T:=CompressedCoverage) key then
        let id := wrap64 (id + 1) in
        '(idmap1, _, _) ← HT.insert idmap (key, id);
        '(lines, idmap2) ← gfa_abundant rest id idmap1;
        Some (SLine id (toString key) k (kmer_cov cov) :: lines, idmap2)
      else gfa_abundant rest id idmap
  end.

(** The label of the unitig [cand] points to, for the end k-mer [b]. *)
Definition label_of (idmap : HT.HashTable Kmer Z) (v_unitigs_sz : Z)
    (b : Kmer) (cand : UnitigMap) : option Z :=
  if isAbundant cand then
    it ← HT.find idmap b;
    entry ← slot_at idmap it;
    Some entry.2
  else Some (wrap64 (pos_unitig cand + 1 + (if isShort cand then v_unitigs_sz else 0))).

(** [for (i = 0; i < 4; ++i)] over the neighbours [next alpha[i]] of an
    end k-mer: one L-line per neighbour found. *)
Fixpoint gfa_links (m : UnitigMapper) (idmap : HT.HashTable Kmer Z)
    (v_unitigs_sz : Z) (labelA : Z) (signA : bool) (next : base -> Kmer)
    (bases : list base) : option (list gfa_line) :=
  match bases with
  | [] => Some []
  | c :: rest =>
      let b := next c in
      cand ← find m b true;
      lines ← gfa_links m idmap v_unitigs_sz labelA signA next rest;
      if negb (isEmpty cand) then
        labelB ← label_of idmap v_unitigs_sz b cand;
        Some (LLine labelA signA labelB (strand cand) (k - 1) :: lines)
      else Some lines
  end.

(** The L-lines of a unitig with ends [head] and [tail]. *)
Definition gfa_unitig_links (m : UnitigMapper) (idmap : HT.HashTable Kmer Z)
    (v_unitigs_sz : Z) (labelA : Z) (head tail : Kmer) : option (list gfa_line) :=
  bw ← gfa_links m idmap v_unitigs_sz labelA false (backwardBase head) alpha;
  fw ← gfa_links m idmap v_unitigs_sz labelA true (forwardBase tail) alpha;
  Some (bw ++ fw).

Fixpoint gfa_long_links (m : UnitigMapper) (idmap : HT.HashTable Kmer Z)
    (v_unitigs_sz : Z) (vu : list (option Unitig)) (labelA : Z)
  : option (list gfa_line) :=
  match vu with
  | [] => Some []
  | ou :: rest =>
      unitig ← ou;
      here ← gfa_unitig_links m idmap v_unitigs_sz labelA
               (getKmer (seq unitig) 0)
               (getKmer (seq unitig) (Z.of_nat (length (seq unitig)) - k));
      more ← gfa_long_links m idmap v_unitigs_sz rest (labelA + 1);
      Some (here ++ more)
  end.

Fixpoint gfa_short_links (m : UnitigMapper) (idmap : HT.HashTable Kmer Z)
    (v_unitigs_sz : Z) (vk : list (Kmer * CompressedCoverage)) (labelA : Z)
  : option (list gfa_line) :=
  match vk with
  | [] => Some []
  | p :: rest =>
      here ← gfa_unitig_links m idmap v_unitigs_sz labelA p.1 p.1;
      more ← gfa_short_links m idmap v_unitigs_sz rest (labelA + 1);
      Some (here ++ more)
  end.

Fixpoint gfa_abundant_links (m : UnitigMapper) (idmap : HT.HashTable Kmer Z)
    (v_unitigs_sz : Z) (slots : list (Kmer * Z)) : option (list gfa_line) :=
  match slots with
  | [] => Some []
  | (key, labelA) :: rest =>
      if HTSpec.is_live (T:=Z) key then
        here ← gfa_unitig_links m idmap v_unitigs_sz labelA key key;
        more ← gfa_abundant_links m idmap v_unitigs_sz rest;
        Some (here ++ more)
      else gfa_abundant_links m idmap v_unitigs_sz rest
  end.

(** The S-lines alone, as the three loops write them. *)
Definition writeGFA_segments (m : UnitigMapper)
  : option (list gfa_line * HT.HashTable Kmer Z) :=
  let v_unitigs_sz := Z.of_nat (length (v_unitigs m)) in
  let v_kmers_sz := Z.of_nat (length (v_kmers m)) in
  let id := wrap64 (v_unitigs_sz + v_kmers_sz + 1) in
  (* [idmap(h_kmers_ccov.size())]: a table of [(size_t)(1.2 * sz)] slots *)
  let idmap := HT.init_table (12 * HT.size (h_kmers_ccov m) / 10) in
  long ← gfa_long (v_unitigs m) 1;
  '(abundant, idmap') ← gfa_abundant (HT.table (h_kmers_ccov m)) id idmap;
  Some (long ++ gfa_short (v_kmers m) (v_unitigs_sz + 1) ++ abundant, idmap').

Definition writeGFA (m : UnitigMapper) : option (list gfa_line) :=
  let v_unitigs_sz := Z.of_nat (length (v_unitigs m)) in
  '(segments, idmap) ← writeGFA_segments m;
  l1 ← gfa_long_links m idmap v_unitigs_sz (v_unitigs m) 1;
  l2 ← gfa_short_links m idmap v_unitigs_sz (v_kmers m) (v_unitigs_sz + 1);
  l3 ← gfa_abundant_links m idmap v_unitigs_sz (HT.table idmap);
  Some (HLine :: segments ++ l1 ++ l2 ++ l3).

End Mapper.
End UM.

(** *** Specification-side notions for the mapper *)

Module UMSpec.
Import Dna UM.

Section Notions.
Context `{Params}.

(** Whether [km] is an end k-mer of some unitig of the graph, as
    [find(km, true)] tells. *)
Definition present (m : UnitigMapper) (km : Kmer) : option bool :=
  cm ← find m km true;
  Some (negb (isEmpty cm)).

(** The neighbours [next c] that are present, [c] ranging over
    [bases]. *)
Fixpoint neighbours (m : UnitigMapper) (next : base -> Kmer) (bases : list base)
  : option (list Kmer) :=
  match bases with
  | [] => Some []
  | c :: rest =>
      p ← present m (next c);
      l ← neighbours m next rest;
      Some (if (p : bool) then next c :: l else l)
  end.





Definition abundant_full (e : Kmer * CompressedCoverage) : bool :=
  negb (HTSpec.is_live (T:=CompressedCoverage) e.1) || isFull e.2.


(** What [splitAllUnitigs] is run on: the table of the abundant k-mers
    is in use, and the vectors are within the size a vector can have. *)
Definition mapper_ok (m : UnitigMapper) : Prop :=
  HTSpec.table_ok (h_kmers_ccov m) /\
  Z.of_nat (length (v_unitigs m)) <= vec_limit /\
  Z.of_nat (length (v_kmers m)) <= vec_limit.

(** The short unitigs below the cursor [v_kmers_sz] are full. *)
Definition short_ok (vk : list (Kmer * CompressedCoverage)) (ksz : Z) : Prop :=
  0 <= ksz <= Z.of_nat (length vk) /\ Z.of_nat (length vk) <= vec_limit /\
  forall (j : nat) p, Z.of_nat j < ksz -> vk !! j = Some p -> isFull p.2 = true.

(** The long unitigs the third loop is through with, and the pieces it
    has added, are there and full. *)
Definition long_ok (vu : list (option Unitig)) (c : cursors) : Prop :=
  0 <= pos_v_unitigs c <= v_unitigs_sz c /\
  v_unitigs_sz c <= nxt_pos_insert_v_unitigs c <= Z.of_nat (length vu) /\
  Z.of_nat (length vu) <= vec_limit /\
  forall j : nat,
    Z.of_nat j < pos_v_unitigs c \/
    v_unitigs_sz c <= Z.of_nat j < nxt_pos_insert_v_unitigs c ->
    exists u, vu !! j = Some (Some u) /\ isFull (ccov u) = true.

Definition abundant_ok (t : HT.HashTable Kmer CompressedCoverage) : Prop :=
  HTSpec.table_ok t /\ Forall (fun e => abundant_full e = true) (HT.table t).

(** The invariant of the third loop of [splitAllUnitigs]. *)
Definition split_inv (m : UnitigMapper) (c : cursors) : Prop :=
  abundant_ok (h_kmers_ccov m) /\
  short_ok (v_kmers m) (v_kmers_sz c) /\
  long_ok (v_unitigs m) c.

(** The invariant of the loop over the pieces in [splitUnitig]: the
    unitig at [pos_v_unitigs] is being split, and holds the first long
    piece once there is one. *)
Definition piece_inv (m : UnitigMapper) (c : cursors) (first_long_unitig : bool)
  : Prop :=
  split_inv m c /\ pos_v_unitigs c < v_unitigs_sz c /\
  (first_long_unitig = false ->
   exists u, v_unitigs m !! Z.to_nat (pos_v_unitigs c) = Some (Some u) /\
             isFull (ccov u) = true).

(** [addUnitig] turns abundant only a k-mer that came as a short
    unitig, and keeps [isShort] otherwise. *)
Definition flags_ok (s0 : bool) (a : add_state) : Prop :=
  (a_isAbundant a = false /\ a_isShort a = s0) \/
  (a_isAbundant a = true /\ s0 = true).


End Notions.
End UMSpec.

(** *** The mapper as its callers use it *)

Module UMUse.
Import Dna UM.

Section Use.
Context `{Params}.

(** [km < km_twin ? km : km_twin], as [find] has it. *)
Definition km_rep_of (km : Kmer) : Kmer :=
  if encode (toString km) <? encode (toString (twin km)) then km else twin km.

(** What a non-empty result of [find(km, extremities_only)] tells, as a
    statement about the three containers: the abundant k-mer, the short
    unitig or the position in the long unitig it names holds [km] or
    its reverse complement. *)
Definition found_ok (m : UnitigMapper) (km : Kmer) (extremities_only : bool)
    (cm : UnitigMap) : Prop :=
  if isEmpty cm then True
  else
    len cm = 1 /\
    if isAbundant cm then
      isShort cm = false /\
      HT.find (h_kmers_ccov m) (km_rep_of km) = Some (pos_unitig cm) /\
      pos_unitig cm <> HT.it_end (h_kmers_ccov m) /\
      strand cm = bool_decide (km = km_rep_of km) /\
      dist cm = 0 /\ size cm = k
    else if isShort cm then
      (exists p, at_ (v_kmers m) (pos_unitig cm) = Some p /\ p.1 = km_rep_of km) /\
      dist cm = 0 /\ size cm = k
    else
      exists u,
        at_ (v_unitigs m) (pos_unitig cm) = Some (Some u) /\
        size cm = Z.of_nat (length (seq u)) /\
        getKmer (seq u) (dist cm) = (if strand cm then km else twin km) /\
        if extremities_only
        then dist cm = 0 \/ dist cm = Z.of_nat (length (seq u)) - k
        else 0 <= dist cm <= Z.of_nat (length (seq u)) - k.

(** [empty()] *)
Definition empty (m : UnitigMapper) : UnitigMapper :=
  {| hmap_min_unitigs := HT.clear (hmap_min_unitigs m);
     h_kmers_ccov := HT.clear (h_kmers_ccov m);
     v_unitigs := [];
     v_kmers := [] |}.


(** *** The lines of [writeGFA] *)

(** The S-line of the long unitig [u], the [i]-th from [label] on, and
    that of a short unitig or an abundant k-mer [p]. *)
Definition s_long (label : Z) (i : nat) (u : Unitig) : gfa_line :=
  SLine (label + Z.of_nat i) (seq u) (Z.of_nat (length (seq u))) (coveragesum u).

Definition s_kmer (label : Z) (i : nat) (p : Kmer * CompressedCoverage) : gfa_line :=
  SLine (label + Z.of_nat i) (toString p.1) k (kmer_cov p.2).

(** The abundant k-mers, in the order of their slots. *)
Definition abundant_kmers (m : UnitigMapper) : list (Kmer * CompressedCoverage) :=
  filter (fun e => HTSpec.is_live (T:=CompressedCoverage) e.1 = true)
         (HT.table (h_kmers_ccov m)).

Definition is_link (x : gfa_line) : Prop :=
  match x with LLine _ _ _ _ _ => True | _ => False end.

(** *** [removeUnitigs] *)

(** A long unitig that [removeUnitigs] looks at: one of fewer than [k]
    k-mers. *)
Definition small (ou : option Unitig) : Prop :=
  exists u, ou = Some u /\ numKmers u < k.

(** [v'] is [v] with k-mers pushed at its back, none when tips are not
    clipped. *)
Definition grows (clipTips : bool) (v v' : list Kmer) : Prop :=
  exists added, v' = v ++ added /\ (clipTips = false -> added = []).

(** *** [mapRead] *)

(** The sequences of the long unitigs. *)
Definition seqs (v : list (option Unitig)) : list (option dna) :=
  (fun ou : option Unitig => seq <$> ou) <$> v.

(** Two mappers that index the same sequences: they differ at most in
    the coverage kept with the unitigs and k-mers. *)
Definition same_index (m m' : UnitigMapper) : Prop :=
  hmap_min_unitigs m' = hmap_min_unitigs m /\
  (HT.table (h_kmers_ccov m')).*1 = (HT.table (h_kmers_ccov m)).*1 /\
  HT.size_ (h_kmers_ccov m') = HT.size_ (h_kmers_ccov m) /\
  HT.num_empty (h_kmers_ccov m') = HT.num_empty (h_kmers_ccov m) /\
  HT.pop (h_kmers_ccov m') = HT.pop (h_kmers_ccov m) /\
  (v_kmers m').*1 = (v_kmers m).*1 /\
  seqs (v_unitigs m') = seqs (v_unitigs m).

End Use.
End UMUse.
(** *** A configuration for the examples

    [k = 5], [g = 3] as in the scenarios of the specification; the three
    hash functions are the packed value, so that the minimizer of a
    window is its lexicographically smallest canonical g-mer; the
    abundance limits are 15 and a k-mer counts as covered from 2
    observations on. *)

Module UMExample.
Import Dna UM.
Import Ascii String.

#[export] Instance ex_params : Params :=
  {| k := 5; g := 3;
     kmer_hash := encode; minz_hash := encode; rep_hash := encode;
     min_abundance_lim := 15; max_abundance_lim := 15;
     cov_full := 2 |}.

Definition base_of (c : Ascii.ascii) : base :=
  match c with
  | "C"%char => dC
  | "G"%char => dG
  | "T"%char => dT
  | _ => dA
  end.

(** The string of bases written as text. *)
Definition dna_of (s : string) : dna :=
  map base_of (list_ascii_of_string s).

Definition km_of (s : string) : Kmer := Km (dna_of s).

End UMExample.


(** *** Example graphs

    Graphs are built the way [addUnitigSequence] calls [addUnitig]
    (lines 110 and 122): a string of [k] letters goes to the next free
    cell of [v_kmers], a longer one to the next free cell of
    [v_unitigs]. *)

Module UMCases.
Import Dna UM UMExample.
Import String.
Local Open Scope string_scope.
Local Open Scope Z_scope.

Definition add_next (om : option UnitigMapper) (s : string) : option UnitigMapper :=
  m ← om;
  let str := dna_of s in
  let id := if Z.of_nat (List.length str) =? k
            then Z.of_nat (List.length (v_kmers m))
            else Z.of_nat (List.length (v_unitigs m)) in
  r ← addUnitig m str id;
  Some r.1.

Definition graph_of (l : list string) : option UnitigMapper :=
  fold_left add_next l (Some empty_mapper).

(** The minimizer bins in use, in table order. *)
Definition live_bins (m : UnitigMapper) : list (Minimizer * list Z) :=
  filter (fun s => HTSpec.is_live (T:=list Z) s.1 = true)
         (HT.table (hmap_min_unitigs m)).

(** One short unitig whose minimizer [AAA] sits in the middle of the
    k-mer; it is stored in canonical form, [CTTTA]. *)
Definition g_centre : option UnitigMapper := graph_of ["TAAAG"].

(** A long unitig of three k-mers, and a short unitig whose forward
    extension by [C] is the last k-mer [TGGAC] of the long one. *)
Definition g_tail : option UnitigMapper := graph_of ["ACTGGAC"; "GTGGA"].

(** A single short unitig without neighbours. *)
Definition g_isolated : option UnitigMapper := graph_of ["GTGTG"].

(** A long unitig and the sixteen k-mers [AAAxy]; these all have the
    minimizer [AAA], whose bin takes fewer than [min_abundance_lim = 15]
    entries, so that the last three become abundant k-mers. *)
Definition g_abundant : option UnitigMapper :=
  graph_of ["ACTGGAC";
            "AAACA"; "AAACC"; "AAACG"; "AAACT";
            "AAAGA"; "AAAGC"; "AAAGG"; "AAAGT";
            "AAATA"; "AAATC"; "AAATG"; "AAATT";
            "AAAAC"; "AAAAG"; "AAAAT"; "AAAAA"].

(** The reads mapped onto a graph, one [mapRead] each. *)
Fixpoint mapReads (om : option UnitigMapper) (l : list UnitigMap)
  : option UnitigMapper :=
  match l with
  | [] => om
  | cc :: rest => mapReads (m ← om; mapRead m cc) rest
  end.

(** A match of [l] k-mers from position [d] on. *)
Definition hit (pos d l sz : Z) (short abundant : bool) : UnitigMap :=
  UnitigMap_found pos 0 d l sz short abundant true.

(** A long unitig of nine k-mers seen twice except at its fourth and
    sixth k-mer; the short unitig [GTGGA] seen twice and the short
    unitig [GTGTG] once; the sixteen k-mers [AAAxy], of which only the
    abundant k-mer [AAAAG] (slot 2 of the table) was seen twice. *)
Definition g_covered : option UnitigMapper :=
  mapReads
    (graph_of ["ACTGGACGTTCAG"; "GTGGA"; "GTGTG";
               "AAACA"; "AAACC"; "AAACG"; "AAACT";
               "AAAGA"; "AAAGC"; "AAAGG"; "AAAGT";
               "AAATA"; "AAATC"; "AAATG"; "AAATT";
               "AAAAC"; "AAAAG"; "AAAAT"; "AAAAA"])
    [hit 0 0 3 13 false false; hit 0 0 3 13 false false;
     hit 0 4 1 13 false false; hit 0 4 1 13 false false;
     hit 0 6 3 13 false false; hit 0 6 3 13 false false;
     hit 0 0 1 5 true false; hit 0 0 1 5 true false;
     hit 1 0 1 5 true false;
     hit 2 0 1 5 false true; hit 2 0 1 5 false true].

(** The abundant k-mers in the table, with their slots. *)
Definition live_abundant (m : UnitigMapper) : list (nat * (Kmer * CompressedCoverage)) :=
  filter (fun e => HTSpec.is_live (T:=CompressedCoverage) e.2.1 = true)
         (imap pair (HT.table (h_kmers_ccov m))).

(** What is in the graph: the long unitigs, the short ones, and the
    abundant k-mers. *)
Definition content (m : UnitigMapper) :=
  (v_unitigs m, v_kmers m, (live_abundant m).*2).

(** A coverage set full at its creation. *)
Definition full (sz : nat) : CompressedCoverage :=
  {| cc_counts := replicate sz 0; cc_full := true |}.

(** The S-lines of a GFA text. *)
Definition s_lines (l : list gfa_line) : list gfa_line :=
  filter (fun x => match x with SLine _ _ _ _ => true | _ => false end = true) l.

Definition s_id (x : gfa_line) : Z :=
  match x with SLine id _ _ _ => id | _ => 0 end.

End UMCases.
(** * Verification *)

(** ** Machine integers *)

Lemma wrap64_small z : 0 <= z < 2 ^ 64 -> wrap64 z = z.
Proof. intros H. unfold wrap64. apply Z.mod_small. exact H. Qed.

(** ** Facts about the open-addressing tables *)

Module HTFacts.
Import HT HTSpec HTRead.
Section Facts.
Context {K T : Type} `{TableOps K T}.
Implicit Types (t : HashTable K T) (key : K) (val : K * T) (h : Z).

Lemma key_eqb_true (a b : K) : key_eqb a b = true <-> a = b.
Proof. unfold key_eqb. rewrite bool_decide_eq_true. tauto. Qed.

Lemma key_eqb_false (a b : K) : key_eqb a b = false <-> a <> b.
Proof. unfold key_eqb. rewrite bool_decide_eq_false. tauto. Qed.

Lemma key_eqb_refl (a : K) : key_eqb a a = true.
Proof. apply key_eqb_true. reflexivity. Qed.

(** *** Arithmetic of slots *)

Lemma wf_size_bounds J t : J <= 61 -> wf_upto J t -> 1 <= size_ t <= 2 ^ 61.
Proof.
  intros HJ [[j [Hj Hs]] _]. rewrite Hs. split.
  - assert (0 < 2 ^ j) by (apply Z.pow_pos_nonneg; lia). lia.
  - apply Z.pow_le_mono_r; lia.
Qed.

Lemma wf_length J t : wf_upto J t -> length (table t) = Z.to_nat (size_ t).
Proof. intros [_ [Hl _]]. lia. Qed.

Lemma next_slot_range t h :
  1 <= size_ t <= 2 ^ 61 -> in_range t h ->
  next_slot t h = (if h + 1 =? size_ t then 0 else h + 1) /\
  in_range t (next_slot t h).
Proof.
  intros Hn Hh. unfold in_range in *. unfold next_slot.
  rewrite wrap64_small by lia.
  split; [reflexivity|]. destruct (h + 1 =? size_ t) eqn:E; lia.
Qed.

Lemma start_slot_range J t key :
  J <= 61 -> wf_upto J t -> in_range t (start_slot t key).
Proof.
  intros HJ Hwf. pose proof (wf_size_bounds _ _ HJ Hwf) as Hn.
  destruct Hwf as [[j [Hj Hs]] _].
  unfold in_range, start_slot. rewrite (wrap64_small (size_ t - 1)) by lia.
  rewrite Hs. replace (2 ^ j - 1) with (Z.ones j)
    by (rewrite Z.ones_equiv; lia).
  rewrite Z.land_ones by lia. apply Z.mod_pos_bound.
  apply Z.pow_pos_nonneg; lia.
Qed.

Lemma slot_key_in_range t h :
  Z.of_nat (length (table t)) = size_ t -> in_range t h ->
  is_Some (slot_key t h).
Proof.
  intros Hl Hh. unfold slot_key, in_range in *.
  destruct (table t !! Z.to_nat h) eqn:E; [eauto|].
  apply lookup_ge_None in E. lia.
Qed.

Lemma path_in_range t f : forall h,
  1 <= size_ t <= 2 ^ 61 -> in_range t h ->
  Forall (in_range t) (path t h f).
Proof.
  induction f as [|f IH]; intros h Hn Hh; simpl; constructor; auto.
  apply IH; auto. apply next_slot_range; auto.
Qed.

Lemma path_complete_gen t f : forall h e,
  1 <= size_ t <= 2 ^ 61 -> in_range t h -> in_range t e ->
  (h <= e < h + Z.of_nat f \/ e + size_ t < h + Z.of_nat f) ->
  e ∈ path t h f.
Proof.
  induction f as [|f IH]; intros h e Hn Hh He Hc.
  - unfold in_range in *. lia.
  - simpl. destruct (Z.eq_dec e h) as [->|Hne]; [left|right].
    destruct (next_slot_range t h Hn Hh) as [Hnx Hr].
    apply IH; auto. rewrite Hnx. unfold in_range in *.
    destruct (h + 1 =? size_ t) eqn:E; lia.
Qed.

Lemma probe_path_complete J t key e :
  J <= 61 -> wf_upto J t -> in_range t e -> e ∈ probe_path t key.
Proof.
  intros HJ Hwf He. pose proof (wf_size_bounds _ _ HJ Hwf) as Hn.
  pose proof (start_slot_range _ _ key HJ Hwf) as Hs.
  unfold probe_path. apply path_complete_gen; auto.
  rewrite (wf_length _ _ Hwf). unfold in_range in *. lia.
Qed.

(** *** The loops, read off the probe path *)

Lemma list_find_cons_hit {A} (P : A -> Prop) `{forall x, Decision (P x)} x l :
  P x -> list_find P (x :: l) = Some (0%nat, x).
Proof. intros Hx. simpl. rewrite decide_True by done. reflexivity. Qed.

Lemma list_find_cons_miss {A} (P : A -> Prop) `{forall x, Decision (P x)} x l :
  ~ P x -> list_find P (x :: l) = prod_map S id <$> list_find P l.
Proof. intros Hx. simpl. rewrite decide_False by done. reflexivity. Qed.

Lemma insert_loop_read t val f : forall h d ht,
  Forall (fun x => is_Some (slot_key t x)) (path t h f) ->
  insert_loop f t val h d ht = probe_result t val (path t h f) d ht.
Proof.
  induction f as [|f IH]; intros h d ht Hr; [reflexivity|].
  simpl path in *. apply Forall_cons in Hr as [[k Hk] Hr].
  unfold probe_result. simpl insert_loop.
  unfold slot_key in Hk. destruct (table t !! Z.to_nat h) as [[k' v']|] eqn:E;
    simpl in Hk; [|discriminate]. injection Hk as ->.
  destruct (key_eqb k empty_val.1) eqn:Ee.
  { rewrite list_find_cons_hit.
    2:{ unfold stops, is_empty_slot, holds, slot_key. rewrite E. simpl.
        rewrite Ee. reflexivity. }
    unfold is_empty_slot at 1. unfold holds, slot_key. rewrite E. simpl.
    rewrite Ee. simpl. unfold stored. destruct d; reflexivity. }
  destruct (key_eqb k val.1) eqn:Ek.
  { rewrite list_find_cons_hit.
    2:{ unfold stops, is_empty_slot, holds, slot_key. rewrite E. simpl.
        rewrite Ee, Ek. reflexivity. }
    unfold is_empty_slot at 1. unfold holds, slot_key. rewrite E. simpl.
    rewrite Ee. reflexivity. }
  rewrite list_find_cons_miss.
  2:{ unfold stops, is_empty_slot, holds, slot_key. rewrite E. simpl.
      rewrite Ee, Ek. discriminate. }
  assert (Hdel : is_deleted_slot t h = key_eqb k deleted.1).
  { unfold is_deleted_slot, holds, slot_key. rewrite E. reflexivity. }
  destruct (negb d && key_eqb k deleted.1) eqn:Ed.
  - apply andb_true_iff in Ed as [Hd Hkd]. apply negb_true_iff in Hd. subst d.
    rewrite IH by exact Hr. unfold probe_result.
    destruct (list_find _ (path t (next_slot t h) f)) as [[i e]|]; [|reflexivity].
    simpl. destruct (is_empty_slot t e); [|reflexivity].
    rewrite decide_True by (rewrite Hdel; exact Hkd). reflexivity.
  - rewrite IH by exact Hr. unfold probe_result.
    destruct (list_find _ (path t (next_slot t h) f)) as [[i e]|]; [|reflexivity].
    simpl. destruct (is_empty_slot t e); [|reflexivity].
    destruct d; [reflexivity|]. simpl in Ed.
    rewrite decide_False by (rewrite Hdel, Ed; discriminate).
    destruct (list_find _ (take i _)) as [[i' e']|]; reflexivity.
Qed.

Lemma find_loop_read t key h0 : forall f h,
  1 <= size_ t <= 2 ^ 61 ->
  Z.of_nat (length (table t)) = size_ t ->
  in_range t h0 -> in_range t h ->
  (1 <= f)%nat -> Z.of_nat f <= size_ t ->
  (h + Z.of_nat f = h0 \/ h + Z.of_nat f = h0 + size_ t) ->
  find_loop f t key h (if h0 =? 0 then wrap64 (size_ t - 1) else h0 - 1)
  = Some (find_result t key (path t h f)).
Proof.
  intros f. induction f as [|f IH]; intros h Hn Hl Hh0 Hh Hf1 Hfn Hinv; [lia|].
  destruct (slot_key_in_range t h Hl Hh) as [k Hk].
  unfold slot_key in Hk. destruct (table t !! Z.to_nat h) as [[k' v']|] eqn:E;
    simpl in Hk; [|discriminate]. injection Hk as ->.
  simpl find_loop. rewrite E. unfold find_result. simpl path.
  destruct (key_eqb k empty_val.1) eqn:Ee.
  { rewrite list_find_cons_hit.
    2:{ unfold stops, is_empty_slot, holds, slot_key. rewrite E. simpl.
        rewrite Ee. reflexivity. }
    unfold is_empty_slot, holds, slot_key. rewrite E. simpl. rewrite Ee.
    reflexivity. }
  destruct (key_eqb k key) eqn:Ek.
  { rewrite list_find_cons_hit.
    2:{ unfold stops, is_empty_slot, holds, slot_key. rewrite E. simpl.
        rewrite Ee, Ek. reflexivity. }
    unfold is_empty_slot, holds, slot_key. rewrite E. simpl. rewrite Ee.
    reflexivity. }
  rewrite list_find_cons_miss.
  2:{ unfold stops, is_empty_slot, holds, slot_key. rewrite E. simpl.
      rewrite Ee, Ek. discriminate. }
  rewrite (wrap64_small (size_ t - 1)) by lia.
  destruct (next_slot_range t h Hn Hh) as [Hnx Hr].
  unfold in_range in *.
  destruct f as [|f].
  - (* last slot of the circuit *)
    replace (h =? (if h0 =? 0 then size_ t - 1 else h0 - 1)) with true.
    2:{ symmetry. apply Z.eqb_eq. destruct (h0 =? 0) eqn:E0; lia. }
    reflexivity.
  - replace (h =? (if h0 =? 0 then size_ t - 1 else h0 - 1)) with false.
    2:{ symmetry. apply Z.eqb_neq. destruct (h0 =? 0) eqn:E0; lia. }
    specialize (IH (next_slot t h) Hn Hl Hh0 Hr).
    rewrite (wrap64_small (size_ t - 1)) in IH by lia.
    rewrite IH.
    + unfold find_result.
      destruct (list_find _ (path t (next_slot t h) (S f))) as [[i e]|];
        reflexivity.
    + lia.
    + lia.
    + rewrite Hnx. destruct (h + 1 =? size_ t) eqn:E1; lia.
Qed.

Lemma find_read J t key :
  J <= 61 -> wf_upto J t ->
  find t key = Some (find_result t key (probe_path t key)).
Proof.
  intros HJ Hwf. pose proof (wf_size_bounds _ _ HJ Hwf) as Hn.
  pose proof (start_slot_range _ _ key HJ Hwf) as Hs.
  pose proof (wf_length _ _ Hwf) as Hl.
  unfold find, probe_path.
  apply find_loop_read; auto; unfold in_range in *; try lia.
Qed.

Lemma insert_probe_read J t val :
  J <= 61 -> wf_upto J t ->
  insert_probe t val = probe_result t val (probe_path t val.1) false 0.
Proof.
  intros HJ Hwf. pose proof (wf_size_bounds _ _ HJ Hwf) as Hn.
  pose proof (start_slot_range _ _ val.1 HJ Hwf) as Hs.
  pose proof (wf_length _ _ Hwf) as Hl.
  unfold insert_probe, probe_path. apply insert_loop_read.
  eapply Forall_impl; [apply path_in_range; auto|].
  intros x Hx. apply slot_key_in_range; auto. lia.
Qed.


(** *** Counting slots *)

Lemma filter_length_insert {A} (P : A -> Prop) `{forall x, Decision (P x)}
    (l : list A) (i : nat) (x y : A) :
  l !! i = Some y ->
  (length (filter P (<[i:=x]> l)) + (if decide (P y) then 1 else 0)
   = length (filter P l) + (if decide (P x) then 1 else 0))%nat.
Proof.
  revert i. induction l as [|a l IH]; intros i Hi; [discriminate|].
  destruct i as [|i]; simpl in *.
  - injection Hi as ->. rewrite !filter_cons.
    destruct (decide (P x)), (decide (P y)); simpl; lia.
  - rewrite !filter_cons. specialize (IH i Hi).
    destruct (decide (P a)); simpl; lia.
Qed.

Lemma count_empty_stored t h val ne k :
  in_range t h -> slot_key t h = Some k -> val.1 <> empty_val.1 ->
  count_empty (stored t h val ne) =
  count_empty t - (if key_eqb k empty_val.1 then 1 else 0).
Proof.
  intros Hh Hk Hv. unfold count_empty, stored. simpl.
  unfold slot_key in Hk. destruct (table t !! Z.to_nat h) as [[k' v']|] eqn:E;
    simpl in Hk; [|discriminate]. injection Hk as ->.
  pose proof (filter_length_insert
    (fun s : K * T => key_eqb s.1 empty_val.1 = true) (table t) (Z.to_nat h)
    val (k, v') E) as Hc.
  simpl in Hc. rewrite (decide_False (P := key_eqb val.1 empty_val.1 = true)) in Hc.
  2:{ intros Hf. apply key_eqb_true in Hf. contradiction. }
  destruct (key_eqb k empty_val.1) eqn:Ee.
  - rewrite decide_True in Hc by reflexivity. lia.
  - rewrite decide_False in Hc by discriminate. lia.
Qed.

Lemma count_empty_bounds t : 0 <= count_empty t <= Z.of_nat (length (table t)).
Proof.
  unfold count_empty. split; [lia|].
  apply inj_le. apply length_filter.
Qed.

Lemma empty_slot_exists t :
  1 <= count_empty t -> Z.of_nat (length (table t)) = size_ t ->
  exists e, in_range t e /\ is_empty_slot t e = true.
Proof.
  unfold count_empty. intros Hc Hl.
  destruct (filter (fun s : K * T => key_eqb s.1 empty_val.1 = true) (table t))
    as [|s l] eqn:E; [simpl in Hc; lia|].
  assert (Hs : s ∈ filter (fun s : K * T => key_eqb s.1 empty_val.1 = true) (table t))
    by (rewrite E; left).
  apply list_elem_of_filter in Hs as [Hp Hin].
  apply list_elem_of_lookup in Hin as [i Hi].
  exists (Z.of_nat i). split.
  - apply lookup_lt_Some in Hi. unfold in_range. lia.
  - unfold is_empty_slot, holds, slot_key. rewrite Nat2Z.id, Hi. simpl.
    exact Hp.
Qed.

(** *** The probe of [insert] on a table with room *)

Lemma probe_path_stored t h val ne key :
  probe_path (stored t h val ne) key = probe_path t key.
Proof.
  unfold probe_path, stored, start_slot. simpl. rewrite length_insert.
  generalize (Z.land (wrap64 (hasher key)) (wrap64 (size_ t - 1))).
  generalize (length (table t)). intros n. induction n as [|n IH]; intros z.
  - reflexivity.
  - simpl. f_equal. apply IH.
Qed.

Lemma slot_key_stored_eq t h val ne :
  in_range t h -> Z.of_nat (length (table t)) = size_ t ->
  slot_key (stored t h val ne) h = Some val.1.
Proof.
  intros Hh Hl. unfold slot_key, stored. simpl.
  rewrite list_lookup_insert_eq; [reflexivity|]. unfold in_range in Hh. lia.
Qed.

Lemma slot_key_stored_ne t h val ne y :
  0 <= h -> 0 <= y -> y <> h ->
  slot_key (stored t h val ne) y = slot_key t y.
Proof.
  intros Hh Hy Hne. unfold slot_key, stored. simpl.
  rewrite list_lookup_insert_ne; [reflexivity|]. lia.
Qed.

Lemma find_result_stored t val h' ne i :
  Z.of_nat (length (table t)) = size_ t ->
  Forall (in_range t) (probe_path t val.1) ->
  val.1 <> empty_val.1 ->
  probe_path t val.1 !! i = Some h' ->
  (forall j y, probe_path t val.1 !! j = Some y -> (j < i)%nat ->
     stops t val.1 y = false /\ y <> h') ->
  find_result (stored t h' val ne) val.1 (probe_path t val.1) = h'.
Proof.
  intros Hl Hr Hv Hi Hbefore.
  assert (Hh' : in_range t h').
  { eapply Forall_lookup_1 in Hr; eauto. }
  unfold find_result.
  assert (Hf : list_find (fun h => stops (stored t h' val ne) val.1 h = true)
                 (probe_path t val.1) = Some (i, h')).
  { apply list_find_Some. split; [exact Hi|]. split.
    - unfold stops, holds. rewrite slot_key_stored_eq by auto.
      rewrite key_eqb_refl. apply orb_true_r.
    - intros j y Hj Hlt. destruct (Hbefore j y Hj Hlt) as [Hs Hne].
      assert (Hy : in_range t y) by (eapply Forall_lookup_1 in Hr; eauto).
      unfold stops, is_empty_slot, holds in *.
      rewrite slot_key_stored_ne by (unfold in_range in *; lia).
      rewrite Hs. discriminate. }
  rewrite Hf. unfold is_empty_slot, holds.
  rewrite slot_key_stored_eq by auto.
  destruct (key_eqb val.1 empty_val.1) eqn:E; [|reflexivity].
  apply key_eqb_true in E. contradiction.
Qed.

(** The full account of a probe on a well-formed table that has an
    empty slot. *)
Lemma insert_probe_spec J t val :
  J <= 61 -> wf_upto J t -> 1 <= num_empty t ->
  val.1 <> empty_val.1 -> val.1 <> deleted.1 ->
  empty_val.1 <> deleted.1 ->
  exists t2 h b,
    insert_probe t val = Some (t2, h, b) /\
    wf_upto J t2 /\ size_ t2 = size_ t /\
    num_empty t - 1 <= num_empty t2 <= num_empty t /\
    in_range t h /\
    (b = false -> t2 = t /\ find t val.1 = Some h /\ h <> it_end t) /\
    (b = true ->
       find t val.1 = Some (it_end t) /\
       find t2 val.1 = Some h /\
       table t2 !! Z.to_nat h = Some val /\
       pop t2 = wrap64 (pop t + 1) /\
       match first_deleted_before_empty t val.1 with
       | Some d => h = d /\ t2 = stored t d val (num_empty t)
       | None => (exists i, first_empty t val.1 = Some (i, h)) /\
                 t2 = stored t h val (num_empty t - 1)
       end).
Proof.
  intros HJ Hwf Hne Hv1 Hv2 Hsd.
  pose proof (wf_size_bounds _ _ HJ Hwf) as Hn.
  pose proof (wf_length _ _ Hwf) as Hlen.
  assert (Hl : Z.of_nat (length (table t)) = size_ t) by (destruct Hwf as [_ [? _]]; auto).
  assert (Hcnt : num_empty t = count_empty t) by (destruct Hwf as [_ [_ ?]]; auto).
  assert (Hr : Forall (in_range t) (probe_path t val.1)).
  { apply path_in_range; auto. eapply start_slot_range; eauto. }
  rewrite (insert_probe_read J) by auto.
  rewrite !(find_read J t) by auto.
  destruct (empty_slot_exists t) as [e0 [He0 Hee0]]; [lia|auto|].
  assert (Hex : is_Some (list_find (fun h => stops t val.1 h = true)
                                   (probe_path t val.1))).
  { eapply list_find_elem_of; [eapply probe_path_complete; eauto|].
    unfold stops. rewrite Hee0. reflexivity. }
  destruct Hex as [[i e] Hfind].
  pose proof Hfind as Hfind'.
  apply list_find_Some in Hfind' as (Hi & Hstop & Hbefore).
  assert (He : in_range t e) by (eapply Forall_lookup_1 in Hr; eauto).
  unfold probe_result, find_result. rewrite Hfind.
  destruct (is_empty_slot t e) eqn:Eemp.
  2:{ (* the key is there *)
    exists t, e, false. split; [reflexivity|].
    split; [exact Hwf|]. split; [reflexivity|]. split; [lia|].
    split; [exact He|]. split; [|discriminate].
    intros _. split; [reflexivity|]. split; [reflexivity|].
    unfold it_end, in_range in *. lia. }
  (* the key is absent *)
  unfold first_deleted_before_empty, first_empty.
  assert (Hfe : list_find (fun h => is_empty_slot t h = true) (probe_path t val.1)
                = Some (i, e)).
  { apply list_find_Some. split; [exact Hi|]. split; [exact Eemp|].
    intros j y Hj Hlt Hy. apply (Hbefore j y Hj Hlt).
    unfold stops. rewrite Hy. reflexivity. }
  rewrite Hfe.
  destruct (list_find (fun h => is_deleted_slot t h = true)
              (take i (probe_path t val.1))) as [[i' d]|] eqn:Efd; simpl.
  - (* a deleted slot comes first *)
    apply list_find_Some in Efd as (Hi' & Hdel & Hbefd).
    assert (Hlt' : (i' < i)%nat).
    { apply lookup_lt_Some in Hi'. rewrite length_take in Hi'. lia. }
    rewrite lookup_take_lt in Hi' by exact Hlt'.
    assert (Hd : in_range t d) by (eapply Forall_lookup_1 in Hr; eauto).
    destruct (slot_key_in_range t d Hl Hd) as [kd Hkd].
    assert (Hkd' : kd = deleted.1).
    { unfold is_deleted_slot, holds in Hdel. rewrite Hkd in Hdel.
      apply key_eqb_true in Hdel. exact Hdel. }
    assert (Hwf2 : wf_upto J (stored t d val (num_empty t))).
    { destruct Hwf as [Hp [_ _]]. split; [exact Hp|]. split.
      - unfold stored. simpl. rewrite length_insert. exact Hl.
      - unfold stored at 1. simpl num_empty.
        rewrite (count_empty_stored t d val (num_empty t) kd); auto.
        rewrite Hkd'.
        replace (key_eqb deleted.1 empty_val.1) with false; [lia|].
        symmetry. apply key_eqb_false. congruence. }
    exists (stored t d val (num_empty t)), d, true.
    split; [reflexivity|]. split; [exact Hwf2|].
    split; [reflexivity|]. split; [simpl; lia|]. split; [exact Hd|].
    split; [discriminate|]. intros _.
    split; [reflexivity|]. split.
    { rewrite (find_read J) by auto.
      rewrite probe_path_stored. f_equal.
      apply (find_result_stored t val d (num_empty t) i'); auto.
      intros j y Hj Hlt. split.
      - destruct (stops t val.1 y) eqn:Es; [|reflexivity].
        exfalso. apply (Hbefore j y Hj); [lia|exact Es].
      - intros ->. apply (Hbefd j d); [|exact Hlt|exact Hdel].
        rewrite lookup_take_lt by lia. exact Hj. }
    split.
    { unfold stored. simpl. apply list_lookup_insert_eq.
      unfold in_range in Hd. lia. }
    split; [reflexivity|]. split; reflexivity.
  - (* no deleted slot before the empty one *)
    destruct (slot_key_in_range t e Hl He) as [ke Hke].
    assert (Hke' : key_eqb ke empty_val.1 = true).
    { unfold is_empty_slot, holds in Eemp. rewrite Hke in Eemp. exact Eemp. }
    assert (Hw : wrap64 (num_empty t - 1) = num_empty t - 1).
    { apply wrap64_small. pose proof (count_empty_bounds t). lia. }
    rewrite Hw.
    assert (Hwf2 : wf_upto J (stored t e val (num_empty t - 1))).
    { destruct Hwf as [Hp [_ _]]. split; [exact Hp|]. split.
      - unfold stored. simpl. rewrite length_insert. exact Hl.
      - unfold stored at 1. simpl num_empty.
        rewrite (count_empty_stored t e val _ ke); auto.
        rewrite Hke'. lia. }
    exists (stored t e val (num_empty t - 1)), e, true.
    split; [reflexivity|]. split; [exact Hwf2|].
    split; [reflexivity|]. split; [simpl; lia|]. split; [exact He|].
    split; [discriminate|]. intros _.
    split; [reflexivity|]. split.
    { rewrite (find_read J) by auto.
      rewrite probe_path_stored. f_equal.
      apply (find_result_stored t val e _ i); auto.
      intros j y Hj Hlt. split.
      - destruct (stops t val.1 y) eqn:Es; [|reflexivity].
        exfalso. apply (Hbefore j y Hj); [lia|exact Es].
      - intros ->. apply (Hbefore j e Hj Hlt). exact Hstop. }
    split.
    { unfold stored. simpl. apply list_lookup_insert_eq.
      unfold in_range in He. lia. }
    split; [reflexivity|]. split; [eauto|reflexivity].
Qed.


(** *** Growing the table *)

Lemma rndup_pow2 j : 0 <= j <= 63 -> rndup (2 ^ j) = 2 ^ j.
Proof.
  intros Hj.
  assert (Hall : forallb (fun n => rndup (2 ^ Z.of_nat n) =? 2 ^ Z.of_nat n)
                   (seq 0 64) = true) by (vm_compute; reflexivity).
  rewrite forallb_forall in Hall.
  specialize (Hall (Z.to_nat j)).
  rewrite Z2Nat.id in Hall by lia.
  apply Z.eqb_eq. apply Hall. apply in_seq. lia.
Qed.

Lemma count_empty_fresh (n : nat) (sz p ne : Z) :
  count_empty (mkHT (replicate n empty_val) sz p ne) = Z.of_nat n.
Proof.
  unfold count_empty. simpl. f_equal.
  induction n as [|n IH]; [reflexivity|].
  simpl. rewrite filter_cons, decide_True by apply key_eqb_refl.
  simpl. f_equal. exact IH.
Qed.

Lemma wrap64_5ne J t :
  J <= 61 -> wf_upto J t -> wrap64 (5 * num_empty t) = 5 * num_empty t.
Proof.
  intros HJ Hwf. pose proof (wf_size_bounds _ _ HJ Hwf) as Hn.
  destruct Hwf as [_ [Hl Hc]]. pose proof (count_empty_bounds t).
  apply wrap64_small. change (2 ^ 61) with 2305843009213693952 in Hn.
  change (2 ^ 64) with 18446744073709551616. lia.
Qed.

Lemma insert_d_no_grow J d t val :
  J <= 61 -> wf_upto J t -> size_ t <= 5 * num_empty t ->
  insert_d (S d) t val = insert_probe t val.
Proof.
  intros HJ Hwf Hc. simpl. unfold grow_with.
  rewrite (wrap64_5ne J) by auto.
  destruct (5 * num_empty t <? size_ t) eqn:E; [lia|reflexivity].
Qed.



Lemma insert_unfold t val :
  insert t val = match grow t with
                 | Some t1 => insert_probe t1 val
                 | None => None
                 end.
Proof. reflexivity. Qed.



(** *** [erase(const size_t h)] and [size()] *)

Lemma is_live_deleted : is_live (K:=K) (T:=T) deleted.1 = false.
Proof. unfold is_live. rewrite key_eqb_refl, andb_false_r. reflexivity. Qed.

Lemma count_live_bounds t : 0 <= count_live t <= Z.of_nat (length (table t)).
Proof.
  unfold count_live. split; [lia|]. apply inj_le. apply length_filter.
Qed.

Lemma count_live_erase t h k :
  slot_key t h = Some k ->
  count_live (fst (erase_h t h)) =
  if h >=? size_ t then count_live t
  else count_live t - (if is_live k then 1 else 0).
Proof.
  intros Hk. unfold erase_h. destruct (h >=? size_ t); [reflexivity|].
  unfold count_live. simpl.
  unfold slot_key in Hk. destruct (table t !! Z.to_nat h) as [[k' v']|] eqn:E;
    simpl in Hk; [|discriminate]. injection Hk as ->.
  pose proof (filter_length_insert
    (fun s : K * T => is_live s.1 = true) (table t) (Z.to_nat h)
    deleted (k, v') E) as Hc.
  simpl in Hc.
  rewrite (decide_False (P := is_live deleted.1 = true)) in Hc
    by (rewrite is_live_deleted; discriminate).
  destruct (is_live k) eqn:El.
  - rewrite decide_True in Hc by reflexivity. lia.
  - rewrite decide_False in Hc by discriminate. lia.
Qed.

(** C10. [erase(const size_t h)] with [h < size_] writes the deleted
    sentinel into slot [h] and decrements [pop] whatever the slot held;
    so when [size()] was the number of stored keys before the call, it
    still is afterwards exactly when slot [h] held a stored key. *)
Theorem erase_h_unconditional (t : HashTable K T) (h : Z) :
  Z.of_nat (length (table t)) = size_ t -> size_ t < 2 ^ 64 ->
  0 <= h < size_ t ->
  table (fst (erase_h t h)) !! Z.to_nat h = Some deleted /\
  pop (fst (erase_h t h)) = wrap64 (pop t - 1) /\
  (size t = count_live t ->
   (size (fst (erase_h t h)) = count_live (fst (erase_h t h)) <->
    exists k, slot_key t h = Some k /\ is_live k = true)).
Proof.
  intros Hl Hsz Hh.
  destruct (slot_key_in_range t h Hl Hh) as [k Hk].
  pose proof (count_live_erase t h k Hk) as Hc.
  unfold erase_h in *. replace (h >=? size_ t) with false in *
    by (symmetry; rewrite Z.geb_leb; apply Z.leb_gt; lia).
  simpl in *. split; [apply list_lookup_insert_eq; lia|].
  split; [reflexivity|].
  intros Hpop. unfold size in *. simpl. rewrite Hc.
  pose proof (count_live_bounds t) as Hb.
  destruct (is_live k) eqn:El.
  - split; [intros _; eauto|]. intros _.
    assert (1 <= count_live t).
    { unfold count_live. unfold slot_key in Hk.
      destruct (table t !! Z.to_nat h) as [[k' v']|] eqn:E; simpl in Hk;
        [|discriminate]. injection Hk as ->.
      assert (Hin : (k, v') ∈ filter (fun s : K * T => is_live s.1 = true) (table t)).
      { apply list_elem_of_filter. split; [exact El|].
        eapply list_elem_of_lookup_2; eauto. }
      destruct (filter _ (table t)); [inversion Hin|simpl; lia]. }
    rewrite wrap64_small by lia. lia.
  - split.
    + intros Heq. exfalso. unfold wrap64 in Heq.
      destruct (Z.eq_dec (pop t) 0) as [E0|E0].
      * rewrite E0 in Heq. change ((0 - 1) mod 2 ^ 64) with (2 ^ 64 - 1) in Heq. lia.
      * rewrite Z.mod_small in Heq by lia. lia.
    + intros [k' [Hk' El']]. congruence.
Qed.

End Facts.

End HTFacts.

Module HTExampleFacts.
Import HT HTSpec HTRead HTExample.


(** Key 8 hashes to slot 0, which holds key 4; slot 1 is deleted and
    slot 2 is the first empty one: the pair goes to slot 1. *)
Example ex_insert_reuses_deleted :
  insert ex_t (8, 80) =
  Some ({| table := [(4, 40); (8, 80); (-1, 0); (-1, 0)];
           size_ := 4; pop := 2; num_empty := 2 |}, 1, true).
Proof. vm_compute. reflexivity. Qed.

Example ex_insert_present :
  insert ex_t (4, 41) = Some (ex_t, 0, false).
Proof. vm_compute. reflexivity. Qed.

(** With one empty slot in four, [5 * 1 < 4] fails: no resize yet; with
    none in four the capacity doubles and the keys are rehashed. *)
Example ex_insert_grows :
  (let r := insert ex_full (6, 60) in
   option_map (fun x => size_ (fst (fst x))) r = Some 4) /\
  (let r := match insert ex_full (6, 60) with
            | Some (t, _, _) => insert t (9, 90)
            | None => None
            end in
   option_map (fun x => (size_ (fst (fst x)), table (fst (fst x)))) r =
   Some (8, [(-1, 0); (9, 90); (-1, 0); (-1, 0); (4, 40); (5, 50); (6, 60); (7, 70)])).
Proof. vm_compute. split; reflexivity. Qed.


(** Slot 2 of [ex_t] is empty: erasing it still decrements [pop]. *)
Example ex_erase_empty_slot :
  fst (erase_h ex_t 2) =
  {| table := [(4, 40); (-2, 0); (-2, 0); (-1, 0)];
     size_ := 4; pop := 0; num_empty := 2 |} /\
  count_live (fst (erase_h ex_t 2)) = 1.
Proof. vm_compute. split; reflexivity. Qed.

Lemma erase_h_unconditional_witness :
  table (fst (erase_h ex_t 2)) !! Z.to_nat 2 = Some deleted /\
  pop (fst (erase_h ex_t 2)) = wrap64 (pop ex_t - 1) /\
  (size ex_t = count_live ex_t ->
   (size (fst (erase_h ex_t 2)) = count_live (fst (erase_h ex_t 2)) <->
    exists k, slot_key ex_t 2 = Some k /\ is_live k = true)).
Proof.
  apply (HTFacts.erase_h_unconditional ex_t 2).
  - reflexivity.
  - simpl. lia.
  - simpl. lia.
Defined.

End HTExampleFacts.


(** ** Tables in use: what [erase] and [insert] keep *)

Module HTContent.
Import HT HTSpec HTRead HTFacts.

Section Content.
Context {K T : Type} `{TableOps K T}.
Hypothesis Hsd : empty_val.1 <> deleted.1.
Implicit Types (t : HashTable K T) (key : K) (val : K * T).

Lemma is_live_iff key :
  is_live key = true <-> key <> empty_val.1 /\ key <> deleted.1.
Proof.
  unfold is_live. rewrite andb_true_iff, !negb_true_iff, !key_eqb_false. tauto.
Qed.

(** What [find] returns when it finds: the first slot of the probe path
    that stops the probe, which holds the key. *)
Lemma find_result_hit t key path (h : Z) :
  find_result t key path = h -> h <> it_end t ->
  exists i, list_find (fun y => stops t key y = true) path = Some (i, h) /\
            is_empty_slot t h = false.
Proof.
  unfold find_result. destruct (list_find _ path) as [[i e]|]; [|congruence].
  destruct (is_empty_slot t e) eqn:Ee; [congruence|].
  intros <- _. eauto.
Qed.

(** A probe that stops at [h] still does after a change of the table
    that makes no slot stop it earlier. *)
Lemma find_result_kept t t' key path i (h : Z) :
  list_find (fun y => stops t key y = true) path = Some (i, h) ->
  (forall y, y ∈ path -> stops t key y = false -> stops t' key y = false) ->
  stops t' key h = true -> is_empty_slot t' h = false ->
  find_result t' key path = h.
Proof.
  intros Hf Hkeep Hstop Hne.
  apply list_find_Some in Hf as (Hi & _ & Hbefore).
  assert (Hf' : list_find (fun y => stops t' key y = true) path = Some (i, h)).
  { apply list_find_Some. split; [exact Hi|]. split; [exact Hstop|].
    intros j y Hj Hlt Hy.
    assert (Hs : stops t key y = false).
    { destruct (stops t key y) eqn:E; [|reflexivity].
      exfalso. apply (Hbefore j y Hj Hlt E). }
    rewrite (Hkeep y) in Hy; [discriminate| |exact Hs].
    eapply list_elem_of_lookup_2; eauto. }
  unfold find_result. rewrite Hf', Hne. reflexivity.
Qed.

Lemma stops_slot t key (y : Z) k :
  slot_key t y = Some k ->
  stops t key y = key_eqb k empty_val.1 || key_eqb k key.
Proof. intros Hk. unfold stops, is_empty_slot, holds. rewrite Hk. reflexivity. Qed.

Lemma slot_key_lookup t (h : nat) key v :
  table t !! h = Some (key, v) -> slot_key t (Z.of_nat h) = Some key.
Proof. intros Hl. unfold slot_key. rewrite Nat2Z.id, Hl. reflexivity. Qed.

Lemma findable_find t (h : nat) key v J :
  J <= 61 -> wf_upto J t -> findable t ->
  table t !! h = Some (key, v) -> is_live key = true ->
  exists i, list_find (fun y => stops t key y = true) (probe_path t key)
            = Some (i, Z.of_nat h).
Proof.
  intros HJ Hwf Hf Hl Hlive.
  pose proof (Hf h key v Hl Hlive) as Hfind.
  rewrite (find_read J) in Hfind by auto. injection Hfind as Hfind.
  destruct (find_result_hit t key _ _ Hfind) as (i & Hi & _); [|eauto].
  apply lookup_lt_Some in Hl. destruct Hwf as (_ & Hlen & _).
  unfold it_end. lia.
Qed.

(** Two slots with the same stored key are one slot. *)
Lemma findable_inj t (h1 h2 : nat) key v1 v2 :
  findable t -> table t !! h1 = Some (key, v1) -> table t !! h2 = Some (key, v2) ->
  is_live key = true -> h1 = h2.
Proof.
  intros Hf H1 H2 Hl. pose proof (Hf h1 key v1 H1 Hl). pose proof (Hf h2 key v2 H2 Hl).
  assert (Z.of_nat h1 = Z.of_nat h2) by congruence. lia.
Qed.


(** *** Tables with the same keys *)

Lemma count_empty_keys t t' :
  (table t').*1 = (table t).*1 -> count_empty t' = count_empty t.
Proof.
  unfold count_empty. intros Hk. f_equal.
  assert (Hgen : forall l : list (K * T),
            length (filter (fun s : K * T => key_eqb s.1 empty_val.1 = true) l)
            = length (filter (fun k => key_eqb k empty_val.1 = true) l.*1)).
  { induction l as [|a l IH]; [reflexivity|].
    rewrite fmap_cons, !filter_cons.
    destruct (decide (key_eqb a.1 empty_val.1 = true)); simpl; rewrite IH; reflexivity. }
  rewrite !Hgen, Hk. reflexivity.
Qed.

Lemma slot_key_keys t t' (y : Z) :
  (table t').*1 = (table t).*1 -> slot_key t' y = slot_key t y.
Proof.
  intros Hk. unfold slot_key. rewrite <- !list_lookup_fmap, Hk. reflexivity.
Qed.

Lemma path_size t t' n : forall h : Z,
  size_ t' = size_ t -> path t' h n = path t h n.
Proof.
  induction n as [|n IH]; intros h Hs; [reflexivity|].
  simpl. f_equal. rewrite IH by exact Hs. f_equal.
  unfold next_slot. rewrite Hs. reflexivity.
Qed.

Lemma probe_path_keys t t' key :
  (table t').*1 = (table t).*1 -> size_ t' = size_ t ->
  probe_path t' key = probe_path t key.
Proof.
  intros Hk Hs. unfold probe_path, start_slot.
  assert (Hl : length (table t') = length (table t)).
  { rewrite <- (length_fmap fst (table t')), Hk, length_fmap. reflexivity. }
  rewrite Hl, Hs. apply path_size. exact Hs.
Qed.

Lemma find_result_keys t t' key path :
  (table t').*1 = (table t).*1 -> size_ t' = size_ t ->
  find_result t' key path = find_result t key path.
Proof.
  intros Hk Hs. unfold find_result, stops, is_empty_slot, holds, it_end.
  rewrite Hs.
  assert (He : forall y : Z, slot_key t' y = slot_key t y)
    by (intros y; apply slot_key_keys; exact Hk).
  rewrite (list_find_ext _
             (fun y => match slot_key t y with
                       | Some k => key_eqb k empty_val.1
                       | None => false
                       end
                       || match slot_key t y with
                          | Some k => key_eqb k key
                          | None => false
                          end = true)).
  2:{ intros y. rewrite !He. reflexivity. }
  destruct (list_find _ path) as [[i e]|]; [|reflexivity].
  rewrite He. reflexivity.
Qed.

Lemma same_keys_wf J t t' :
  (table t').*1 = (table t).*1 -> size_ t' = size_ t ->
  num_empty t' = num_empty t -> wf_upto J t -> wf_upto J t'.
Proof.
  intros Hk Hs Hn (Hp & Hl & Hc). split; [|split].
  - rewrite Hs. exact Hp.
  - rewrite Hs, <- Hl. rewrite <- (length_fmap fst (table t')), Hk, length_fmap.
    reflexivity.
  - rewrite Hn, Hc. symmetry. apply count_empty_keys. exact Hk.
Qed.

Lemma same_keys_find J t t' key :
  J <= 61 -> (table t').*1 = (table t).*1 -> size_ t' = size_ t ->
  num_empty t' = num_empty t -> wf_upto J t -> find t' key = find t key.
Proof.
  intros HJ Hk Hs Hn Hwf.
  pose proof (same_keys_wf J t t' Hk Hs Hn Hwf) as Hwf'.
  rewrite (find_read J t') by auto. rewrite (find_read J t) by auto.
  rewrite (probe_path_keys t t' key Hk Hs).
  rewrite (find_result_keys t t' key _ Hk Hs). reflexivity.
Qed.

Lemma same_keys_ok t t' :
  (table t').*1 = (table t).*1 -> size_ t' = size_ t ->
  num_empty t' = num_empty t -> table_ok t -> table_ok t'.
Proof.
  intros Hk Hs Hn [Hwf Hf]. split; [eapply same_keys_wf; eauto|].
  intros h key v Hl Hlive.
  rewrite (same_keys_find 60 t t') by (auto; lia).
  assert (Hl' : (table t').*1 !! h = Some key).
  { rewrite list_lookup_fmap, Hl. reflexivity. }
  rewrite Hk, list_lookup_fmap in Hl'.
  destruct (table t !! h) as [[k0 v0]|] eqn:E; simpl in Hl'; [|discriminate].
  injection Hl' as ->. apply (Hf h key v0 E Hlive).
Qed.

(** *** Erasing a stored key *)

Lemma erased_ok t (pos : nat) kp vp p' :
  table_ok t -> table t !! pos = Some (kp, vp) -> is_live kp = true ->
  table_ok {| table := <[pos := deleted]> (table t); size_ := size_ t;
              pop := p'; num_empty := num_empty t |}.
Proof.
  intros [Hwf Hf] Hpos Hlive.
  set (t' := {| table := <[pos := deleted]> (table t); size_ := size_ t;
                pop := p'; num_empty := num_empty t |}).
  apply is_live_iff in Hlive as [Hk1 Hk2].
  assert (Hwf' : wf_upto 60 t').
  { destruct Hwf as (Hp & Hl & Hc). split; [exact Hp|]. split.
    - simpl. rewrite length_insert. exact Hl.
    - simpl. rewrite Hc. unfold count_empty. simpl.
      pose proof (filter_length_insert
        (fun s : K * T => key_eqb s.1 empty_val.1 = true) (table t) pos
        deleted (kp, vp) Hpos) as Hcnt.
      simpl in Hcnt.
      rewrite (decide_False (P := key_eqb kp empty_val.1 = true)) in Hcnt
        by (intros Hx; apply key_eqb_true in Hx; contradiction).
      rewrite (decide_False (P := key_eqb deleted.1 empty_val.1 = true)) in Hcnt
        by (intros Hx; apply key_eqb_true in Hx; congruence).
      lia. }
  split; [exact Hwf'|].
  intros h key v Hl Hkl.
  assert (Hposlt : (pos < length (table t))%nat) by (eapply lookup_lt_Some; eauto).
  assert (Hne : h <> pos).
  { intros ->. simpl in Hl. rewrite list_lookup_insert_eq in Hl by exact Hposlt.
    injection Hl as Hl. apply is_live_iff in Hkl as [_ Hd]. apply Hd.
    rewrite Hl. reflexivity. }
  simpl in Hl. rewrite list_lookup_insert_ne in Hl by congruence.
  destruct (findable_find t h key v 60 ltac:(lia) Hwf Hf Hl Hkl) as [i Hi].
  rewrite (find_read 60) by (auto; lia). f_equal.
  assert (Hpath : probe_path t' key = probe_path t key).
  { unfold probe_path, start_slot. simpl. rewrite length_insert.
    apply path_size. reflexivity. }
  rewrite Hpath.
  assert (Hkey : key <> kp).
  { intros ->. apply Hne.
    apply (findable_inj t h pos kp v vp Hf Hl Hpos). apply is_live_iff; auto. }
  assert (Hslot : forall y : Z, 0 <= y -> y <> Z.of_nat pos ->
                    slot_key t' y = slot_key t y).
  { intros y Hy Hyp. unfold slot_key. simpl.
    rewrite list_lookup_insert_ne by lia. reflexivity. }
  assert (Hr : Forall (in_range t) (probe_path t key)).
  { apply path_in_range; [eapply wf_size_bounds; eauto; lia|].
    eapply start_slot_range; eauto. lia. }
  apply (find_result_kept t t' key _ i); auto.
  - intros y Hy Hs. rewrite Forall_forall in Hr. specialize (Hr y Hy).
    destruct (decide (y = Z.of_nat pos)) as [->|Hyp].
    + erewrite stops_slot; [|unfold slot_key; simpl; rewrite Nat2Z.id;
        rewrite list_lookup_insert_eq by exact Hposlt; reflexivity].
      apply is_live_iff in Hkl as [_ Hd].
      apply orb_false_iff. split; apply key_eqb_false; congruence.
    + unfold stops, is_empty_slot, holds in *. unfold in_range in Hr.
      rewrite Hslot by lia. exact Hs.
  - erewrite stops_slot; [|rewrite Hslot by lia; eapply slot_key_lookup; eauto].
    rewrite key_eqb_refl. apply orb_true_r.
  - unfold is_empty_slot, holds. rewrite Hslot by lia.
    rewrite (slot_key_lookup t h key v Hl).
    apply key_eqb_false. apply is_live_iff in Hkl. tauto.
Qed.


(** *** Storing a new key *)

Lemma stored_findable J t (h' : Z) val ne :
  J <= 61 -> wf_upto J t -> wf_upto J (stored t h' val ne) -> findable t ->
  in_range t h' ->
  is_empty_slot t h' = true \/ is_deleted_slot t h' = true ->
  is_live val.1 = true ->
  find t val.1 = Some (it_end t) ->
  find (stored t h' val ne) val.1 = Some h' ->
  findable (stored t h' val ne).
Proof.
  intros HJ Hwf Hwf' Hf Hh' Hdead Hlive Habs Hnew h key v Hl Hkl.
  assert (Hlen : Z.of_nat (length (table t)) = size_ t) by (destruct Hwf as (_ & ? & _); auto).
  unfold in_range in Hh'.
  destruct (decide (h = Z.to_nat h')) as [->|Hne].
  - simpl in Hl. rewrite list_lookup_insert_eq in Hl by lia.
    injection Hl as Hl. rewrite Z2Nat.id by lia.
    replace key with val.1 by (rewrite Hl; reflexivity). exact Hnew.
  - simpl in Hl. rewrite list_lookup_insert_ne in Hl by congruence.
    destruct (findable_find t h key v J HJ Hwf Hf Hl Hkl) as [i Hi].
    assert (Hkey : key <> val.1).
    { intros ->. pose proof (Hf h val.1 v Hl Hkl) as Hfound.
      rewrite Habs in Hfound. injection Hfound as Hfound.
      apply lookup_lt_Some in Hl. unfold it_end in Hfound. lia. }
    rewrite (find_read J) by auto. f_equal.
    rewrite probe_path_stored.
    assert (Hr : Forall (in_range t) (probe_path t key)).
    { apply path_in_range; [eapply wf_size_bounds; eauto|].
      eapply start_slot_range; eauto. }
    assert (Hslot : forall y : Z, 0 <= y -> y <> h' ->
                      slot_key (stored t h' val ne) y = slot_key t y).
    { intros y Hy Hyp. apply slot_key_stored_ne; lia. }
    apply is_live_iff in Hlive as [Hv1 Hv2].
    assert (Hhz : Z.of_nat h <> h') by lia.
    apply (find_result_kept t _ key _ i); auto.
    + intros y Hy Hs. rewrite Forall_forall in Hr. specialize (Hr y Hy).
      destruct (decide (y = h')) as [->|Hyp].
      * erewrite stops_slot; [|apply slot_key_stored_eq; auto].
        apply orb_false_iff. split; apply key_eqb_false; congruence.
      * unfold stops, is_empty_slot, holds in *. unfold in_range in Hr.
        rewrite Hslot by lia. exact Hs.
    + erewrite stops_slot; [|rewrite Hslot by lia; eapply slot_key_lookup; eauto].
      rewrite key_eqb_refl. apply orb_true_r.
    + unfold is_empty_slot, holds. rewrite Hslot by lia.
      rewrite (slot_key_lookup t h key v Hl).
      apply key_eqb_false. apply is_live_iff in Hkl. tauto.
Qed.

Lemma first_deleted_is_deleted t key d :
  first_deleted_before_empty t key = Some d -> is_deleted_slot t d = true.
Proof.
  unfold first_deleted_before_empty.
  destruct (first_empty t key) as [[i e]|]; [|discriminate].
  destruct (list_find _ (take i (probe_path t key))) as [[i' d']|] eqn:E;
    simpl; [|discriminate].
  intros [= <-]. apply list_find_Some in E. tauto.
Qed.

Lemma first_empty_is_empty t key i e :
  first_empty t key = Some (i, e) -> is_empty_slot t e = true.
Proof. unfold first_empty. intros E. apply list_find_Some in E. tauto. Qed.

(** The probe of [insert] on a table in use: the table stays in use,
    and its entries are the old ones and the new one. *)
Lemma insert_probe_ok J t val :
  J <= 61 -> wf_upto J t -> findable t -> 1 <= num_empty t ->
  is_live val.1 = true ->
  exists t2 (h : Z) b,
    insert_probe t val = Some (t2, h, b) /\
    wf_upto J t2 /\ findable t2 /\ size_ t2 = size_ t /\
    num_empty t - 1 <= num_empty t2 <= num_empty t /\
    in_range t h /\ find t2 val.1 = Some h /\
    (table t2 !! Z.to_nat h = Some val \/
     exists v, table t2 !! Z.to_nat h = Some (val.1, v) /\
               table t !! Z.to_nat h = Some (val.1, v)) /\
    (forall (i : nat) e, table t2 !! i = Some e -> Z.of_nat i <> h ->
       table t !! i = Some e).
Proof.
  intros HJ Hwf Hf Hne Hlive.
  pose proof Hlive as Hlive'. apply is_live_iff in Hlive' as [Hv1 Hv2].
  destruct (insert_probe_spec J t val HJ Hwf Hne Hv1 Hv2 Hsd) as
    (t2 & h & b & Hins & Hwf2 & Hsz & Hne2 & Hh & Hold & Hnew).
  exists t2, h, b. split; [exact Hins|]. split; [exact Hwf2|].
  assert (Hlen : Z.of_nat (length (table t)) = size_ t) by (destruct Hwf as (_ & ? & _); auto).
  destruct b.
  - destruct (Hnew eq_refl) as (Habs & Hfound & Hat & _ & Hwhere).
    assert (Hst : exists ne, t2 = stored t h val ne /\
                  (is_empty_slot t h = true \/ is_deleted_slot t h = true)).
    { destruct (first_deleted_before_empty t val.1) as [d|] eqn:Ed.
      - destruct Hwhere as [-> ->]. eexists. split; [reflexivity|].
        right. eapply first_deleted_is_deleted; eauto.
      - destruct Hwhere as [[i Hi] ->]. eexists. split; [reflexivity|].
        left. eapply first_empty_is_empty; eauto. }
    destruct Hst as (ne & -> & Hdead).
    split; [eapply (stored_findable J); eauto|].
    split; [exact Hsz|]. split; [exact Hne2|]. split; [exact Hh|].
    split; [exact Hfound|]. split.
    + left. exact Hat.
    + intros i e Hi Hih. simpl in Hi. unfold in_range in Hh.
      rewrite list_lookup_insert_ne in Hi by lia. exact Hi.
  - destruct (Hold eq_refl) as (-> & Hfound & Hend).
    split; [exact Hf|]. split; [reflexivity|]. split; [lia|]. split; [exact Hh|].
    split; [exact Hfound|]. split; [|auto].
    rewrite (find_read J) in Hfound by auto. injection Hfound as Hfound.
    destruct (find_result_hit t val.1 _ _ Hfound Hend) as (i & Hi & Hnemp).
    apply list_find_Some in Hi as (_ & Hstop & _).
    unfold stops in Hstop. rewrite Hnemp in Hstop. simpl in Hstop.
    unfold holds, slot_key in Hstop.
    destruct (table t !! Z.to_nat h) as [[k0 v0]|] eqn:E; simpl in Hstop;
      [|discriminate].
    apply key_eqb_true in Hstop. subst k0. right. eauto.
Qed.


(** *** Growing and inserting *)

Lemma reserve_fold_ok J d (slots : list (K * T)) : forall acc M,
  J <= 61 -> wf_upto J acc -> findable acc ->
  1 <= M -> size_ acc <= 5 * M ->
  Z.of_nat (length slots) + M <= num_empty acc ->
  exists t1,
    fold_left
      (fun acc slot =>
         match acc with
         | None => None
         | Some t' =>
             if negb (key_eqb slot.1 empty_val.1)
                && negb (key_eqb slot.1 deleted.1)
             then match insert_d (S d) t' slot with
                  | Some (t'', _, _) => Some t''
                  | None => None
                  end
             else Some t'
         end) slots (Some acc) = Some t1 /\
    wf_upto J t1 /\ findable t1 /\ size_ t1 = size_ acc /\ M <= num_empty t1 /\
    (forall e, e ∈ table t1 -> is_live e.1 = true -> e ∈ table acc \/ e ∈ slots).
Proof.
  induction slots as [|slot slots IH]; intros acc M HJ Hwf Hf HM H5 Hne.
  - exists acc. simpl in Hne. split; [reflexivity|]. split; [exact Hwf|].
    split; [exact Hf|]. split; [reflexivity|]. split; [lia|]. auto.
  - cbn [fold_left]. simpl length in Hne.
    destruct (negb (key_eqb slot.1 empty_val.1)
              && negb (key_eqb slot.1 deleted.1)) eqn:Elive.
    + rewrite (insert_d_no_grow J) by (auto; lia).
      destruct (insert_probe_ok J acc slot) as
        (t2 & h & b & Hins & Hwf2 & Hf2 & Hsz & Hne2 & Hh & Hfound & Hat & Hrest);
        auto; [lia|].
      rewrite Hins.
      destruct (IH t2 M) as (t1 & Hfold & Hwf1 & Hf1 & Hsz1 & HM1 & Hc1);
        auto; try lia.
      exists t1. split; [exact Hfold|]. split; [exact Hwf1|]. split; [exact Hf1|].
      split; [lia|]. split; [lia|].
      intros e He Hl. destruct (Hc1 e He Hl) as [Hin|Hin];
        [|right; apply elem_of_cons; right; exact Hin].
      apply list_elem_of_lookup in Hin as [i Hi].
      destruct (decide (Z.of_nat i = h)) as [Hih|Hih].
      * rewrite <- Hih, Nat2Z.id in Hat.
        destruct Hat as [Hat|(v & Hat & Hold)].
        -- right. apply elem_of_cons. left. congruence.
        -- left. apply list_elem_of_lookup. exists i. congruence.
      * left. apply list_elem_of_lookup. exists i. apply Hrest; auto.
    + destruct (IH acc M) as (t1 & Hfold & Hwf1 & Hf1 & Hsz1 & HM1 & Hc1);
        auto; try lia.
      exists t1. split; [exact Hfold|]. split; [exact Hwf1|]. split; [exact Hf1|].
      split; [lia|]. split; [lia|].
      intros e He Hl. destruct (Hc1 e He Hl) as [Hin|Hin];
        [left|right; apply elem_of_cons; right]; auto.
Qed.

Lemma fresh_findable (n : nat) (sz p ne : Z) :
  findable (mkHT (replicate n empty_val) sz p ne).
Proof.
  intros h key v Hl Hlive. simpl in Hl. apply lookup_replicate in Hl as [Hl _].
  apply is_live_iff in Hlive as [He _]. exfalso. apply He.
  rewrite <- Hl. reflexivity.
Qed.

Lemma findable_b_ok (t : HashTable K T) : findable_b t = true -> findable t.
Proof.
  intros Hb h key v Hl Hlive. unfold findable_b in Hb.
  rewrite forallb_forall in Hb.
  specialize (Hb (h, (key, v))). simpl in Hb. rewrite Hlive in Hb. simpl in Hb.
  apply bool_decide_eq_true in Hb; [exact Hb|].
  apply list_elem_of_In, elem_of_lookup_imap.
  exists h, (key, v). auto.
Qed.

Lemma wf_upto_mono J J' t : J <= J' -> wf_upto J t -> wf_upto J' t.
Proof.
  intros HJ [[j [Hj Hs]] Hrest]. split; [|exact Hrest].
  exists j. split; [lia|exact Hs].
Qed.

(** The resize step on a table in use, when it goes through. *)
Lemma grow_ok t t1 :
  table_ok t -> grow t = Some t1 ->
  table_ok t1 /\ 1 <= num_empty t1 /\
  (forall e, e ∈ table t1 -> is_live e.1 = true -> e ∈ table t).
Proof.
  intros [Hwf Hf] Hg.
  pose proof (wf_size_bounds 60 t ltac:(lia) Hwf) as Hn.
  unfold grow, grow_with in Hg. rewrite (wrap64_5ne 60) in Hg by (auto; lia).
  destruct (5 * num_empty t <? size_ t) eqn:Ec.
  2:{ injection Hg as <-. apply Z.ltb_ge in Ec.
      split; [split; assumption|]. split; [lia|]. auto. }
  apply Z.ltb_lt in Ec.
  destruct Hwf as [[j [Hj Hs]] [Hl Hcnt]].
  assert (H2 : 2 * size_ t = 2 ^ (j + 1)) by (rewrite Z.pow_add_r by lia; lia).
  unfold reserve_with in Hg.
  assert (Hp61 : 2 ^ (j + 1) <= 2 ^ 61) by (apply Z.pow_le_mono_r; lia).
  rewrite (wrap64_small (2 * size_ t)) in Hg.
  2:{ change (2 ^ 61) with 2305843009213693952 in *.
      change (2 ^ 64) with 18446744073709551616. lia. }
  replace (2 * size_ t <=? size_ t) with false in Hg
    by (symmetry; apply Z.leb_gt; lia).
  rewrite H2, rndup_pow2 in Hg by lia.
  destruct (2 ^ (j + 1) >? alloc_limit) eqn:Ea; [discriminate|].
  assert (Hj59 : j + 1 <= 60).
  { rewrite Z.gtb_ltb in Ea. apply Z.ltb_ge in Ea. unfold alloc_limit in Ea.
    destruct (Z_le_gt_dec (j + 1) 60) as [?|Hgt]; [assumption|].
    assert (2 ^ 61 <= 2 ^ (j + 1)) by (apply Z.pow_le_mono_r; lia).
    change (2 ^ 61) with 2305843009213693952 in *.
    change (2 ^ 60) with 1152921504606846976 in *. lia. }
  set (fresh := {| table := replicate (Z.to_nat (2 ^ (j + 1))) empty_val;
                   size_ := 2 ^ (j + 1); pop := 0;
                   num_empty := 2 ^ (j + 1) |}) in *.
  assert (Hwff : wf_upto 60 fresh).
  { split; [exists (j + 1); split; [lia|reflexivity]|]. split.
    - unfold fresh. simpl. rewrite length_replicate. lia.
    - unfold fresh. rewrite count_empty_fresh. simpl. lia. }
  destruct (reserve_fold_ok 60 64 (table t) fresh (size_ t)) as
    (t1' & Hfold & Hwf1 & Hf1 & Hsz1 & HM1 & Hc1); auto; try lia.
  { apply fresh_findable. }
  { unfold fresh. simpl. lia. }
  { unfold fresh. simpl. lia. }
  change (insert_d 65) with (insert_d (S 64)) in Hg.
  rewrite Hfold in Hg. injection Hg as <-.
  split; [split; assumption|]. split; [lia|].
  intros e He Hlive. destruct (Hc1 e He Hlive) as [Hin|Hin]; [|exact Hin].
  unfold fresh in Hin. simpl in Hin. apply elem_of_replicate in Hin as [-> _].
  apply is_live_iff in Hlive. tauto.
Qed.

(** [insert] on a table in use, when it goes through. *)
Lemma insert_ok t val t2 (h : Z) b :
  table_ok t -> is_live val.1 = true ->
  insert t val = Some (t2, h, b) ->
  table_ok t2 /\ find t2 val.1 = Some h /\ 0 <= h < size_ t2 /\
  (exists v, table t2 !! Z.to_nat h = Some (val.1, v)) /\
  (forall (i : nat) e, table t2 !! i = Some e -> is_live e.1 = true ->
     Z.of_nat i <> h -> e ∈ table t).
Proof.
  intros Hok Hlive Hins. rewrite insert_unfold in Hins.
  destruct (grow t) as [t1|] eqn:Hg; [|discriminate].
  destruct (grow_ok t t1 Hok Hg) as ([Hwf1 Hf1] & Hne1 & Hc1).
  destruct (insert_probe_ok 60 t1 val) as
    (t2' & h' & b' & Hins' & Hwf2 & Hf2 & Hsz & Hne2 & Hh & Hfound & Hat & Hrest);
    auto; [lia|].
  rewrite Hins' in Hins. injection Hins as <- <- <-.
  split; [split; assumption|]. split; [exact Hfound|].
  split; [unfold in_range in Hh; lia|]. split.
  - destruct Hat as [Hat|(v & Hat & _)]; [|eauto].
    exists val.2. rewrite Hat. destruct val; reflexivity.
  - intros i e Hi Hl Hih. apply Hc1; [|exact Hl].
    apply list_elem_of_lookup. exists i. apply Hrest; auto.
Qed.

End Content.

End HTContent.

(** ** The tables as maps: lookups after [insert], [erase], [reserve] *)

Module HTMore.
Import HT HTSpec HTRead HTFacts HTUse.

(** *** [rndup] *)

(** One step [v |= v >> n] of the smearing. *)
Lemma smear_step (x y n m : Z) :
  0 <= x -> 0 <= y -> 0 < n -> n = m ->
  (forall i, 0 <= i -> (Z.testbit y i = true <-> exists d, 0 <= d < m /\ Z.testbit x (i + d) = true)) ->
  forall i, 0 <= i ->
    (Z.testbit (Z.lor y (Z.shiftr y n)) i = true <->
     exists d, 0 <= d < 2 * m /\ Z.testbit x (i + d) = true).
Proof.
  intros Hx Hy Hn -> Hy_bits i Hi.
  rewrite Z.lor_spec, Z.shiftr_spec by lia.
  rewrite orb_true_iff, !Hy_bits by lia. split.
  - intros [(d & Hd & Hb)|(d & Hd & Hb)].
    + exists d. split; [lia|exact Hb].
    + exists (m + d). split; [lia|]. replace (i + (m + d)) with (i + m + d) by lia. exact Hb.
  - intros (d & Hd & Hb). destruct (Z_lt_ge_dec d m) as [Hlt|Hge].
    + left. exists d. split; [lia|exact Hb].
    + right. exists (d - m). split; [lia|].
      replace (i + m + (d - m)) with (i + d) by lia. exact Hb.
Qed.

Lemma lor_shiftr_nonneg (y n : Z) : 0 <= y -> 0 <= Z.lor y (Z.shiftr y n).
Proof. intros Hy. apply Z.lor_nonneg. split; [exact Hy|]. apply Z.shiftr_nonneg. exact Hy. Qed.

(** The six steps set every bit below the highest set bit. *)
Lemma smear_bits (x : Z) :
  0 <= x ->
  let v1 := Z.lor x (Z.shiftr x 1) in
  let v2 := Z.lor v1 (Z.shiftr v1 2) in
  let v3 := Z.lor v2 (Z.shiftr v2 4) in
  let v4 := Z.lor v3 (Z.shiftr v3 8) in
  let v5 := Z.lor v4 (Z.shiftr v4 16) in
  let v6 := Z.lor v5 (Z.shiftr v5 32) in
  0 <= v6 /\
  forall i, 0 <= i ->
    (Z.testbit v6 i = true <-> exists d, 0 <= d < 64 /\ Z.testbit x (i + d) = true).
Proof.
  intros Hx v1 v2 v3 v4 v5 v6.
  assert (H0 : forall i, 0 <= i ->
            (Z.testbit x i = true <-> exists d, 0 <= d < 1 /\ Z.testbit x (i + d) = true)).
  { intros i Hi. split.
    - intros Hb. exists 0. split; [lia|]. rewrite Z.add_0_r. exact Hb.
    - intros (d & Hd & Hb). replace (i + d) with i in Hb by lia. exact Hb. }
  pose proof (smear_step x x 1 1 Hx Hx ltac:(lia) eq_refl H0) as H1.
  assert (N1 : 0 <= v1) by (apply lor_shiftr_nonneg; lia).
  pose proof (smear_step x v1 2 2 Hx N1 ltac:(lia) eq_refl H1) as H2.
  assert (N2 : 0 <= v2) by (apply lor_shiftr_nonneg; lia).
  pose proof (smear_step x v2 4 4 Hx N2 ltac:(lia) eq_refl H2) as H3.
  assert (N3 : 0 <= v3) by (apply lor_shiftr_nonneg; lia).
  pose proof (smear_step x v3 8 8 Hx N3 ltac:(lia) eq_refl H3) as H4.
  assert (N4 : 0 <= v4) by (apply lor_shiftr_nonneg; lia).
  pose proof (smear_step x v4 16 16 Hx N4 ltac:(lia) eq_refl H4) as H5.
  assert (N5 : 0 <= v5) by (apply lor_shiftr_nonneg; lia).
  pose proof (smear_step x v5 32 32 Hx N5 ltac:(lia) eq_refl H5) as H6.
  split; [apply lor_shiftr_nonneg; lia|exact H6].
Qed.

Lemma smear_ones (x : Z) :
  0 < x < 2 ^ 64 ->
  let v1 := Z.lor x (Z.shiftr x 1) in
  let v2 := Z.lor v1 (Z.shiftr v1 2) in
  let v3 := Z.lor v2 (Z.shiftr v2 4) in
  let v4 := Z.lor v3 (Z.shiftr v3 8) in
  let v5 := Z.lor v4 (Z.shiftr v4 16) in
  let v6 := Z.lor v5 (Z.shiftr v5 32) in
  v6 = Z.ones (Z.log2 x + 1).
Proof.
  intros Hx v1 v2 v3 v4 v5 v6.
  destruct (smear_bits x ltac:(lia)) as [Hn Hb]. fold v1 v2 v3 v4 v5 v6 in Hn, Hb.
  pose proof (Z.log2_nonneg x) as Hl0.
  assert (Hl : Z.log2 x < 64) by (apply Z.log2_lt_pow2; lia).
  apply Z.bits_inj'. intros i Hi.
  destruct (Z_lt_ge_dec i (Z.log2 x + 1)) as [Hlt|Hge].
  - rewrite Z.ones_spec_low by lia. apply Hb; [lia|].
    exists (Z.log2 x - i). split; [lia|].
    replace (i + (Z.log2 x - i)) with (Z.log2 x) by lia.
    apply Z.bit_log2. lia.
  - rewrite Z.ones_spec_high by lia.
    destruct (Z.testbit v6 i) eqn:E; [|reflexivity].
    apply Hb in E; [|lia]. destruct E as (d & Hd & E).
    rewrite Z.bits_above_log2 in E by lia. discriminate.
Qed.

Lemma rndup_eq (v : Z) :
  2 <= v <= 2 ^ 64 -> rndup v = wrap64 (2 ^ (Z.log2 (v - 1) + 1)).
Proof.
  intros Hv. unfold rndup. rewrite (wrap64_small (v - 1)) by lia.
  rewrite (smear_ones (v - 1)) by lia.
  rewrite Z.ones_equiv. f_equal. lia.
Qed.

(** X1. [rndup(v)] is the least power of two that is at least [v], for
    [1 <= v <= 2^63]; for [v = 0] and for [v] beyond [2^63] the
    increment wraps and the result is 0. *)
Theorem rndup_least_power (v : Z) :
  0 <= v < 2 ^ 64 ->
  (1 <= v <= 2 ^ 63 ->
     exists j, 0 <= j <= 63 /\ rndup v = 2 ^ j /\ v <= 2 ^ j /\ 2 ^ j < 2 * v) /\
  (v = 0 \/ 2 ^ 63 < v -> rndup v = 0).
Proof.
  intros Hv. split.
  - intros Hr. destruct (Z.eq_dec v 1) as [->|Hne].
    + exists 0. split; [lia|]. split; [reflexivity|]. simpl. lia.
    + assert (Hx : 0 < v - 1 < 2 ^ 63) by lia.
      pose proof (Z.log2_nonneg (v - 1)) as Hl0.
      assert (Hl : Z.log2 (v - 1) < 63) by (apply Z.log2_lt_pow2; lia).
      destruct (Z.log2_spec (v - 1)) as [Hlo Hhi]; [lia|].
      rewrite Z.pow_succ_r in Hhi by lia.
      exists (Z.log2 (v - 1) + 1). split; [lia|].
      assert (Hp : 2 ^ (Z.log2 (v - 1) + 1) <= 2 ^ 63)
        by (apply Z.pow_le_mono_r; lia).
      rewrite rndup_eq by lia.
      rewrite Z.pow_add_r by lia. rewrite Z.pow_add_r in Hp by lia.
      change (2 ^ 1) with 2 in *.
      rewrite wrap64_small.
      2:{ change (2 ^ 64) with 18446744073709551616.
          change (2 ^ 63) with 9223372036854775808 in Hp. lia. }
      split; [reflexivity|]. lia.
  - intros [->|Hbig]; [reflexivity|].
    rewrite rndup_eq by lia.
    assert (Hl : Z.log2 (v - 1) = 63).
    { apply Z.log2_unique; [lia|]. change (Z.succ 63) with 64. lia. }
    rewrite Hl. reflexivity.
Qed.

(** [rndup(1000) = 1024]. *)
Lemma rndup_least_power_witness :
  exists j, 0 <= j <= 63 /\ rndup 1000 = 2 ^ j /\ 1000 <= 2 ^ j /\ 2 ^ j < 2 * 1000.
Proof.
  apply (rndup_least_power 1000); simpl; lia.
Defined.

(** *** The table as a map *)

Section Map.
Context {K T : Type} `{TableOps K T}.
Hypothesis Hsd : empty_val.1 <> deleted.1.
Implicit Types (t : HashTable K T) (key : K) (val e : K * T).

Lemma find_hit J t key (h : Z) :
  J <= 61 -> wf_upto J t -> find t key = Some h -> h <> it_end t ->
  in_range t h /\ key <> empty_val.1 /\
  exists v, table t !! Z.to_nat h = Some (key, v).
Proof.
  intros HJ Hwf Hf Hne. rewrite (find_read J) in Hf by auto.
  injection Hf as Hf.
  destruct (HTContent.find_result_hit t key _ _ Hf Hne) as (i & Hi & Hemp).
  apply list_find_Some in Hi as (Hi & Hstop & _).
  assert (Hr : in_range t h).
  { assert (Hall : Forall (in_range t) (probe_path t key)).
    { apply path_in_range; [eapply wf_size_bounds; eauto|].
      eapply start_slot_range; eauto. }
    eapply Forall_lookup_1 in Hall; eauto. }
  split; [exact Hr|].
  unfold stops in Hstop. rewrite Hemp in Hstop. simpl in Hstop.
  unfold is_empty_slot, holds, slot_key in *.
  destruct (table t !! Z.to_nat h) as [[k0 v0]|] eqn:E; simpl in *; [|discriminate].
  apply key_eqb_true in Hstop. subst k0.
  split; [apply key_eqb_false; exact Hemp|]. eauto.
Qed.

Lemma stores_lookup t e :
  stores t e <-> is_live e.1 = true /\ exists i : nat, table t !! i = Some e.
Proof.
  unfold stores. rewrite list_elem_of_lookup. tauto.
Qed.

(** On a table in use a lookup returns what is stored under the key. *)
Lemma lookup_value_stores t key v :
  table_ok t -> is_live key = true ->
  (lookup_value t key = Some v <-> stores t (key, v)).
Proof.
  intros [Hwf Hf] Hlive. unfold lookup_value. split.
  - intros Hl. apply bind_Some in Hl as (h & Hfind & Hl).
    destruct (h =? it_end t) eqn:E; [discriminate|]. apply Z.eqb_neq in E.
    destruct (find_hit 60 t key h ltac:(lia) Hwf Hfind E) as (_ & _ & v0 & Hv0).
    rewrite Hv0 in Hl. simpl in Hl. injection Hl as ->.
    split; [|exact Hlive]. eapply list_elem_of_lookup_2; eauto.
  - intros [Hin _]. apply list_elem_of_lookup in Hin as [i Hi].
    rewrite (Hf i key v Hi Hlive). cbn [mbind option_bind].
    pose proof (lookup_lt_Some _ _ _ Hi) as Hlt.
    destruct Hwf as (_ & Hlen & _).
    replace (Z.of_nat i =? it_end t) with false
      by (symmetry; apply Z.eqb_neq; unfold it_end; lia).
    rewrite Nat2Z.id, Hi. reflexivity.
Qed.

(** No key is stored twice. *)
Lemma stores_functional t key v1 v2 :
  table_ok t -> stores t (key, v1) -> stores t (key, v2) -> v1 = v2.
Proof.
  intros Hok H1 H2. pose proof H1 as [_ Hlive]. simpl in Hlive.
  apply (lookup_value_stores t key v1 Hok Hlive) in H1.
  apply (lookup_value_stores t key v2 Hok Hlive) in H2. congruence.
Qed.

Lemma count_live_stored t (h : Z) val ne k :
  in_range t h -> slot_key t h = Some k -> is_live k = false ->
  is_live val.1 = true ->
  count_live (stored t h val ne) = count_live t + 1.
Proof.
  intros Hh Hk Hdead Hlive. unfold count_live, stored. simpl.
  unfold slot_key in Hk. destruct (table t !! Z.to_nat h) as [[k' v']|] eqn:E;
    simpl in Hk; [|discriminate]. injection Hk as ->.
  pose proof (filter_length_insert
    (fun s : K * T => is_live s.1 = true) (table t) (Z.to_nat h)
    val (k, v') E) as Hc.
  simpl in Hc.
  rewrite (decide_True (P := is_live val.1 = true)) in Hc by exact Hlive.
  rewrite (decide_False (P := is_live k = true)) in Hc by (rewrite Hdead; discriminate).
  lia.
Qed.

Lemma dead_slot t (h : Z) :
  is_empty_slot t h = true \/ is_deleted_slot t h = true ->
  exists k, slot_key t h = Some k /\ is_live k = false.
Proof.
  unfold is_empty_slot, is_deleted_slot, holds.
  destruct (slot_key t h) as [k|]; [|intros [?|?]; discriminate].
  intros Hd. exists k. split; [reflexivity|]. unfold is_live.
  destruct Hd as [Hd|Hd]; rewrite Hd; simpl; [reflexivity|apply andb_false_r].
Qed.

(** The probe of [insert] on a table in use: what is stored afterwards
    is what was stored before and, when the key was absent, the new
    pair. *)
Lemma insert_probe_stores J t val t2 (h : Z) b :
  J <= 60 -> wf_upto J t -> findable t -> pop t = count_live t ->
  1 <= num_empty t -> is_live val.1 = true ->
  insert_probe t val = Some (t2, h, b) ->
  wf_upto J t2 /\ findable t2 /\ pop t2 = count_live t2 /\
  size_ t2 = size_ t /\ num_empty t - 1 <= num_empty t2 <= num_empty t /\
  (forall e, e ∈ table t2 -> e ∈ table t \/ e = val) /\
  in_range t h /\ find t2 val.1 = Some h /\
  (b = false <-> exists v, stores t (val.1, v)) /\
  (forall e, stores t2 e <-> stores t e \/ (b = true /\ e = val)).
Proof.
  intros HJ Hwf Hf Hpop Hne Hlive Hins.
  assert (HJ61 : J <= 61) by lia.
  assert (Hok : table_ok t).
  { split; [|exact Hf]. eapply HTContent.wf_upto_mono; [|exact Hwf]. lia. }
  pose proof Hlive as Hlive'. apply HTContent.is_live_iff in Hlive' as [Hv1 Hv2].
  destruct (HTContent.insert_probe_ok Hsd J t val HJ61 Hwf Hf Hne Hlive) as
    (t2' & h' & b' & Hins' & Hwf2 & Hf2 & Hsz & Hne2 & Hh & Hfound & _ & _).
  rewrite Hins in Hins'. injection Hins' as <- <- <-.
  destruct (insert_probe_spec J t val HJ61 Hwf Hne Hv1 Hv2 Hsd) as
    (t2' & h' & b' & Hins' & _ & _ & _ & _ & Hold & Hnew).
  rewrite Hins in Hins'. injection Hins' as <- <- <-.
  pose proof (wf_size_bounds J t HJ61 Hwf) as Hn.
  assert (Hlen : Z.of_nat (length (table t)) = size_ t) by (destruct Hwf as (_ & ? & _); auto).
  split; [exact Hwf2|]. split; [exact Hf2|].
  destruct b.
  - destruct (Hnew eq_refl) as (Habs & _ & Hat & Hp2 & Hwhere).
    assert (Hst : exists ne, t2 = stored t h val ne /\
                  (is_empty_slot t h = true \/ is_deleted_slot t h = true) /\
                  ne = num_empty t - (if is_empty_slot t h then 1 else 0)).
    { destruct (first_deleted_before_empty t val.1) as [d|] eqn:Ed.
      - destruct Hwhere as [-> ->]. eexists. split; [reflexivity|].
        pose proof (HTContent.first_deleted_is_deleted t _ _ Ed) as Hd.
        split; [right; exact Hd|].
        unfold is_deleted_slot, is_empty_slot, holds in *.
        destruct (slot_key t d) as [k0|]; [|discriminate].
        apply key_eqb_true in Hd. subst k0.
        replace (key_eqb deleted.1 empty_val.1) with false
          by (symmetry; apply key_eqb_false; congruence). lia.
      - destruct Hwhere as [[i Hi] ->]. eexists. split; [reflexivity|].
        pose proof (HTContent.first_empty_is_empty t _ _ _ Hi) as He.
        split; [left; exact He|]. rewrite He. reflexivity. }
    destruct Hst as (ne & -> & Hdead & Hneq).
    destruct (dead_slot t h Hdead) as (k0 & Hk0 & Hk0d).
    assert (Hcl : count_live (stored t h val ne) = count_live t + 1)
      by (eapply count_live_stored; eauto).
    pose proof (count_live_bounds t) as Hb.
    assert (Hpop2 : pop (stored t h val ne) = count_live (stored t h val ne)).
    { rewrite Hcl. simpl. rewrite wrap64_small; [lia|].
      change (2 ^ 61) with 2305843009213693952 in Hn.
      change (2 ^ 64) with 18446744073709551616. lia. }
    split; [exact Hpop2|]. split; [exact Hsz|]. split; [exact Hne2|].
    split.
    { intros e Hin. simpl in Hin. apply list_elem_of_lookup in Hin as [i Hi].
      unfold in_range in Hh.
      destruct (decide (i = Z.to_nat h)) as [->|Hne'].
      - rewrite list_lookup_insert_eq in Hi by lia. injection Hi as <-. right. reflexivity.
      - rewrite list_lookup_insert_ne in Hi by congruence. left.
        eapply list_elem_of_lookup_2; eauto. }
    split; [exact Hh|]. split; [exact Hfound|]. split.
    + split; [discriminate|]. intros [v Hst]. exfalso.
      apply (lookup_value_stores t val.1 v Hok Hlive) in Hst.
      unfold lookup_value in Hst. rewrite Habs in Hst. cbn [mbind option_bind] in Hst.
      rewrite Z.eqb_refl in Hst. discriminate.
    + intros e. unfold stores. simpl. unfold in_range in Hh. split.
      * intros [Hin Hl]. apply list_elem_of_lookup in Hin as [i Hi].
        destruct (decide (i = Z.to_nat h)) as [->|Hne'].
        -- rewrite list_lookup_insert_eq in Hi by lia. injection Hi as <-. right. auto.
        -- rewrite list_lookup_insert_ne in Hi by congruence. left.
           split; [eapply list_elem_of_lookup_2; eauto|exact Hl].
      * intros [[Hin Hl]|[_ ->]].
        -- split; [|exact Hl]. apply list_elem_of_lookup in Hin as [i Hi].
           apply list_elem_of_lookup. exists i.
           rewrite list_lookup_insert_ne; [exact Hi|].
           intros <-. unfold slot_key in Hk0. rewrite Hi in Hk0. simpl in Hk0.
           injection Hk0 as <-. congruence.
        -- split; [|exact Hlive]. apply list_elem_of_lookup. exists (Z.to_nat h).
           apply list_lookup_insert_eq. lia.
  - destruct (Hold eq_refl) as (-> & Hfind & Hend).
    split; [exact Hpop|]. split; [reflexivity|]. split; [lia|]. split; [auto|].
    split; [exact Hh|]. split; [exact Hfound|]. split.
    + split; [|reflexivity]. intros _.
      destruct (find_hit J t val.1 h HJ61 Hwf Hfind Hend) as (_ & _ & v & Hv).
      exists v. split; [eapply list_elem_of_lookup_2; eauto|exact Hlive].
    + intros e. split; [auto|]. intros [?|[? _]]; [assumption|discriminate].
Qed.

(** The rehashing loop of [reserve] on the slots of a table in use. *)
Lemma reserve_fold_stores J d (slots : list (K * T)) : forall acc M,
  J <= 60 -> wf_upto J acc -> findable acc -> pop acc = count_live acc ->
  1 <= M -> size_ acc <= 5 * M ->
  Z.of_nat (length slots) + M <= num_empty acc ->
  (forall (i j : nat) e1 e2, slots !! i = Some e1 -> slots !! j = Some e2 ->
     is_live e1.1 = true -> e1.1 = e2.1 -> i = j) ->
  (forall e v, e ∈ slots -> is_live e.1 = true -> ~ stores acc (e.1, v)) ->
  exists t1,
    fold_left
      (fun acc slot =>
         match acc with
         | None => None
         | Some t' =>
             if negb (key_eqb slot.1 empty_val.1)
                && negb (key_eqb slot.1 deleted.1)
             then match insert_d (S d) t' slot with
                  | Some (t'', _, _) => Some t''
                  | None => None
                  end
             else Some t'
         end) slots (Some acc) = Some t1 /\
    wf_upto J t1 /\ findable t1 /\ pop t1 = count_live t1 /\
    size_ t1 = size_ acc /\ M <= num_empty t1 /\
    (forall e, stores t1 e <-> stores acc e \/ (e ∈ slots /\ is_live e.1 = true)) /\
    (forall e, e ∈ table t1 -> e ∈ table acc \/ (e ∈ slots /\ is_live e.1 = true)).
Proof.
  induction slots as [|slot slots IH]; intros acc M HJ Hwf Hf Hpop HM H5 Hne Hinj Hfresh.
  - exists acc. simpl in Hne. split; [reflexivity|]. split; [exact Hwf|].
    split; [exact Hf|]. split; [exact Hpop|]. split; [reflexivity|]. split; [lia|].
    split.
    + intros e. split; [auto|]. intros [?|[Hin _]]; [assumption|]. inversion Hin.
    + auto.
  - cbn [fold_left]. simpl length in Hne.
    assert (Hinj' : forall (i j : nat) e1 e2, slots !! i = Some e1 -> slots !! j = Some e2 ->
              is_live e1.1 = true -> e1.1 = e2.1 -> i = j).
    { intros i j e1 e2 H1 H2 Hl He.
      assert (S i = S j) by (eapply (Hinj (S i) (S j)); eauto). lia. }
    destruct (negb (key_eqb slot.1 empty_val.1)
              && negb (key_eqb slot.1 deleted.1)) eqn:Elive.
    + assert (Hlive : is_live slot.1 = true) by exact Elive.
      rewrite (insert_d_no_grow J) by (auto; lia).
      destruct (HTContent.insert_probe_ok Hsd J acc slot) as
        (t2 & h & b & Hins & _); auto; [lia|lia|].
      rewrite Hins.
      destruct (insert_probe_stores J acc slot t2 h b HJ Hwf Hf Hpop ltac:(lia) Hlive Hins)
        as (Hwf2 & Hf2 & Hpop2 & Hsz2 & Hne2 & Hraw2 & _ & _ & Hb & Hst2).
      assert (Hbt : b = true).
      { destruct b; [reflexivity|]. exfalso.
        destruct (proj1 Hb eq_refl) as [v Hv].
        apply (Hfresh slot v); [left|exact Hlive|exact Hv]. }
      subst b.
      destruct (IH t2 M) as (t1 & Hfold & Hwf1 & Hf1 & Hpop1 & Hsz1 & HM1 & Hst1 & Hraw1);
        auto; try lia.
      { intros e v Hin Hl Hst. apply Hst2 in Hst as [Hst|[_ Heq]].
        - apply (Hfresh e v); [right; exact Hin|exact Hl|exact Hst].
        - apply list_elem_of_lookup in Hin as [j Hj].
          assert (0%nat = S j); [|discriminate].
          apply (Hinj 0%nat (S j) slot e); auto.
          rewrite <- Heq. reflexivity. }
      exists t1. split; [exact Hfold|]. split; [exact Hwf1|]. split; [exact Hf1|].
      split; [exact Hpop1|]. split; [lia|]. split; [lia|]. split.
      * intros e. rewrite Hst1, Hst2. rewrite elem_of_cons. split.
        -- intros [[?|[_ ->]] | [? ?]]; auto.
        -- intros [?|[[-> | ?] ?]]; auto.
      * intros e He. destruct (Hraw1 e He) as [Hin|[Hin Hl]].
        -- destruct (Hraw2 e Hin) as [? | ->]; [left; assumption|].
           right. split; [left|exact Hlive].
        -- right. split; [right; exact Hin|exact Hl].
    + destruct (IH acc M) as (t1 & Hfold & Hwf1 & Hf1 & Hpop1 & Hsz1 & HM1 & Hst1 & Hraw1);
        auto; try lia.
      { intros e v Hin Hl. apply Hfresh; [right; exact Hin|exact Hl]. }
      exists t1. split; [exact Hfold|]. split; [exact Hwf1|]. split; [exact Hf1|].
      split; [exact Hpop1|]. split; [lia|]. split; [lia|]. split.
      * intros e. rewrite Hst1, elem_of_cons. split.
        -- intros [?|[? ?]]; auto.
        -- intros [?|[[-> | ?] Hl]]; auto.
           unfold is_live in Hl. rewrite Hl in Elive. discriminate.
      * intros e He. destruct (Hraw1 e He) as [Hin|[Hin Hl]]; [left; assumption|].
        right. split; [right; exact Hin|exact Hl].
Qed.

Lemma count_live_fresh (n : nat) (sz p ne : Z) :
  count_live (mkHT (replicate n (empty_val (K:=K) (T:=T))) sz p ne) = 0.
Proof.
  unfold count_live. simpl. change 0 with (Z.of_nat 0). f_equal.
  induction n as [|n IH]; [reflexivity|].
  simpl. rewrite filter_cons, decide_False; [exact IH|].
  unfold is_live. rewrite key_eqb_refl. simpl. discriminate.
Qed.

Lemma fresh_in_use (j : Z) :
  0 <= j <= 60 ->
  let fresh := {| table := replicate (Z.to_nat (2 ^ j)) (empty_val (K:=K) (T:=T));
                  size_ := 2 ^ j; pop := 0; num_empty := 2 ^ j |} in
  wf_upto 60 fresh /\ findable fresh /\ pop fresh = count_live fresh /\
  forall e, ~ stores fresh e.
Proof.
  intros Hj fresh.
  assert (Hp : 0 < 2 ^ j) by (apply Z.pow_pos_nonneg; lia).
  split; [|split; [|split]].
  - split; [exists j; split; [lia|reflexivity]|]. split.
    + unfold fresh. simpl. rewrite length_replicate. lia.
    + unfold fresh. rewrite count_empty_fresh. simpl. lia.
  - apply HTContent.fresh_findable.
  - unfold fresh. rewrite count_live_fresh. reflexivity.
  - intros e [He Hl]. unfold fresh in He. simpl in He.
    apply elem_of_replicate in He as [-> _].
    unfold is_live in Hl. rewrite key_eqb_refl in Hl. discriminate.
Qed.

(** Rehashing a table in use into a fresh one of at least twice the
    capacity. *)
Lemma rehash_stores d t (j : Z) :
  table_ok t -> 0 <= j <= 60 -> 2 * size_ t <= 2 ^ j ->
  exists t1,
    fold_left
      (fun acc slot =>
         match acc with
         | None => None
         | Some t' =>
             if negb (key_eqb slot.1 empty_val.1)
                && negb (key_eqb slot.1 deleted.1)
             then match insert_d (S d) t' slot with
                  | Some (t'', _, _) => Some t''
                  | None => None
                  end
             else Some t'
         end) (table t)
      (Some {| table := replicate (Z.to_nat (2 ^ j)) empty_val;
               size_ := 2 ^ j; pop := 0; num_empty := 2 ^ j |}) = Some t1 /\
    in_use t1 /\ size_ t1 = 2 ^ j /\ 1 <= num_empty t1 /\
    (forall e, stores t1 e <-> stores t e) /\
    (forall e, e ∈ table t1 -> e.1 <> deleted.1).
Proof.
  intros [Hwf Hf] Hj Hsz.
  pose proof (wf_size_bounds 60 t ltac:(lia) Hwf) as Hn.
  destruct (fresh_in_use j Hj) as (Hwff & Hff & Hpf & Hnone).
  set (fresh := {| table := replicate (Z.to_nat (2 ^ j)) empty_val;
                   size_ := 2 ^ j; pop := 0; num_empty := 2 ^ j |}) in *.
  assert (Hlen : Z.of_nat (length (table t)) = size_ t) by (destruct Hwf as (_ & ? & _); auto).
  assert (H5 : size_ fresh <= 5 * (2 ^ j - size_ t)) by (unfold fresh; simpl; lia).
  assert (Hroom : Z.of_nat (length (table t)) + (2 ^ j - size_ t) <= num_empty fresh)
    by (unfold fresh; simpl; lia).
  assert (Hinj : forall (i i' : nat) e1 e2, table t !! i = Some e1 -> table t !! i' = Some e2 ->
            is_live e1.1 = true -> e1.1 = e2.1 -> i = i').
  { intros i i' e1 e2 H1 H2 Hl He. destruct e1 as [k1 v1], e2 as [k2 v2].
    simpl in *. subst k2.
    eapply (HTContent.findable_inj t i i' k1 v1 v2); eauto. }
  assert (Hfr : forall e v, e ∈ table t -> is_live e.1 = true -> ~ stores fresh (e.1, v)).
  { intros e v _ _ Hst. exact (Hnone _ Hst). }
  destruct (reserve_fold_stores 60 d (table t) fresh (2 ^ j - size_ t)
              ltac:(lia) Hwff Hff Hpf ltac:(lia) H5 Hroom Hinj Hfr)
    as (t1 & Hfold & Hwf1 & Hf1 & Hpop1 & Hsz1 & HM1 & Hst1 & Hraw1).
  exists t1. split; [exact Hfold|]. split; [split; [split|]; assumption|].
  split; [exact Hsz1|]. split; [lia|]. split.
  - intros e. rewrite Hst1. unfold stores. split.
    + intros [Hst|?]; [|assumption]. destruct (Hnone _ Hst).
    + auto.
  - intros e He Hd. destruct (Hraw1 e He) as [Hin|[_ Hl]].
    + unfold fresh in Hin. simpl in Hin. apply elem_of_replicate in Hin as [-> _].
      contradiction.
    + apply HTContent.is_live_iff in Hl. tauto.
Qed.

(** The resize step at the head of [insert]. *)
Lemma grow_stores t t1 :
  in_use t -> grow t = Some t1 ->
  in_use t1 /\ 1 <= num_empty t1 /\ (forall e, stores t1 e <-> stores t e).
Proof.
  intros [[Hwf Hf] Hpop] Hg.
  pose proof (wf_size_bounds 60 t ltac:(lia) Hwf) as Hn.
  unfold grow, grow_with in Hg. rewrite (wrap64_5ne 60) in Hg by (auto; lia).
  destruct (5 * num_empty t <? size_ t) eqn:Ec.
  2:{ injection Hg as <-. apply Z.ltb_ge in Ec.
      split; [split; [split|]; assumption|]. split; [lia|]. tauto. }
  apply Z.ltb_lt in Ec.
  pose proof Hwf as [[j [Hj Hs]] [Hl Hcnt]].
  assert (H2 : 2 * size_ t = 2 ^ (j + 1)) by (rewrite Z.pow_add_r by lia; lia).
  unfold reserve_with in Hg.
  assert (Hp61 : 2 ^ (j + 1) <= 2 ^ 61) by (apply Z.pow_le_mono_r; lia).
  rewrite (wrap64_small (2 * size_ t)) in Hg.
  2:{ change (2 ^ 61) with 2305843009213693952 in *.
      change (2 ^ 64) with 18446744073709551616. lia. }
  replace (2 * size_ t <=? size_ t) with false in Hg
    by (symmetry; apply Z.leb_gt; lia).
  rewrite H2, rndup_pow2 in Hg by lia.
  destruct (2 ^ (j + 1) >? alloc_limit) eqn:Ea; [discriminate|].
  assert (Hj59 : j + 1 <= 60).
  { rewrite Z.gtb_ltb in Ea. apply Z.ltb_ge in Ea. unfold alloc_limit in Ea.
    destruct (Z_le_gt_dec (j + 1) 60) as [?|Hgt]; [assumption|].
    assert (2 ^ 61 <= 2 ^ (j + 1)) by (apply Z.pow_le_mono_r; lia).
    change (2 ^ 61) with 2305843009213693952 in *.
    change (2 ^ 60) with 1152921504606846976 in *. lia. }
  destruct (rehash_stores 64 t (j + 1)) as (t1' & Hfold & Hin1 & Hsz1 & Hne1 & Hst1 & _);
    [split; assumption|lia|lia|].
  change (insert_d 65) with (insert_d (S 64)) in Hg.
  rewrite Hfold in Hg. injection Hg as <-.
  split; [exact Hin1|]. split; [exact Hne1|exact Hst1].
Qed.

(** [insert] on a table in use. *)
Lemma insert_stores t val t2 (h : Z) b :
  in_use t -> is_live val.1 = true ->
  insert t val = Some (t2, h, b) ->
  in_use t2 /\ find t2 val.1 = Some h /\ 0 <= h < size_ t2 /\
  (b = false <-> exists v, stores t (val.1, v)) /\
  (forall e, stores t2 e <-> stores t e \/ (b = true /\ e = val)).
Proof.
  intros Hin Hlive Hins. rewrite insert_unfold in Hins.
  destruct (grow t) as [t1|] eqn:Hg; [|discriminate].
  destruct (grow_stores t t1 Hin Hg) as ([[Hwf1 Hf1] Hpop1] & Hne1 & Hst1).
  destruct (insert_probe_stores 60 t1 val t2 h b ltac:(lia) Hwf1 Hf1 Hpop1 Hne1 Hlive Hins)
    as (Hwf2 & Hf2 & Hpop2 & Hsz2 & _ & _ & Hh & Hfound & Hb & Hst2).
  split; [split; [split|]; assumption|]. split; [exact Hfound|].
  split; [unfold in_range in Hh; lia|]. split.
  - rewrite Hb. split; intros [v Hv]; exists v; apply Hst1; exact Hv.
  - intros e. rewrite Hst2, Hst1. reflexivity.
Qed.

(** [erase(km)] on a table in use. *)
Lemma erase_key_stores t km :
  in_use t -> is_live km = true ->
  exists t' n,
    erase_key t km = Some (t', n) /\ in_use t' /\ size_ t' = size_ t /\
    pop t' = pop t - n /\
    ((exists v, stores t (km, v)) -> n = 1) /\
    ((forall v, ~ stores t (km, v)) -> n = 0 /\ t' = t) /\
    (forall e, stores t' e <-> stores t e /\ e.1 <> km).
Proof.
  intros [[Hwf Hf] Hpop] Hlive.
  pose proof (wf_size_bounds 60 t ltac:(lia) Hwf) as Hn.
  assert (Hlen : Z.of_nat (length (table t)) = size_ t) by (destruct Hwf as (_ & ? & _); auto).
  pose proof (find_read 60 t km ltac:(lia) Hwf) as Hfind.
  set (h := find_result t km (probe_path t km)) in *.
  unfold erase_key. rewrite Hfind.
  destruct (h =? it_end t) eqn:Eend.
  - apply Z.eqb_eq in Eend.
    assert (Hnone : forall v, ~ stores t (km, v)).
    { intros v [Hin _]. apply list_elem_of_lookup in Hin as [i Hi].
      pose proof (Hf i km v Hi Hlive) as Hfi. rewrite Hfind in Hfi.
      injection Hfi as Hfi. apply lookup_lt_Some in Hi. unfold it_end in Eend. lia. }
    exists t, 0. rewrite Z.sub_diag. split; [reflexivity|].
    split; [split; [split|]; assumption|]. split; [reflexivity|]. split; [lia|].
    split; [intros [v Hv]; destruct (Hnone v Hv)|]. split; [auto|].
    intros e. split; [|tauto]. intros Hst. split; [exact Hst|].
    intros Hk. destruct e as [k v]. simpl in Hk. subst k. exact (Hnone v Hst).
  - pose proof Eend as Eend'. apply Z.eqb_neq in Eend'.
    destruct (find_hit 60 t km h ltac:(lia) Hwf Hfind Eend') as (Hr & _ & v0 & Hv0).
    unfold in_range in Hr.
    unfold erase_it. rewrite Eend. simpl.
    set (t' := {| table := <[Z.to_nat h := deleted]> (table t); size_ := size_ t;
                  pop := wrap64 (pop t - 1); num_empty := num_empty t |}).
    assert (Hok' : table_ok t').
    { apply (HTContent.erased_ok Hsd t (Z.to_nat h) km v0); [split; assumption|exact Hv0|exact Hlive]. }
    assert (Hcl : count_live t' = count_live t - 1).
    { unfold count_live, t'. simpl.
      pose proof (filter_length_insert
        (fun s : K * T => is_live s.1 = true) (table t) (Z.to_nat h)
        deleted (km, v0) Hv0) as Hc.
      simpl in Hc.
      rewrite (decide_False (P := is_live deleted.1 = true)) in Hc
        by (rewrite is_live_deleted; discriminate).
      rewrite (decide_True (P := is_live km = true)) in Hc by exact Hlive. lia. }
    assert (Hge : 1 <= count_live t).
    { unfold count_live.
      assert (Hin : (km, v0) ∈ filter (fun s : K * T => is_live s.1 = true) (table t)).
      { apply list_elem_of_filter. split; [exact Hlive|].
        eapply list_elem_of_lookup_2; eauto. }
      destruct (filter _ (table t)); [inversion Hin|simpl; lia]. }
    pose proof (count_live_bounds t) as Hb.
    assert (Hw : wrap64 (pop t - 1) = pop t - 1).
    { apply wrap64_small. change (2 ^ 61) with 2305843009213693952 in Hn.
      change (2 ^ 64) with 18446744073709551616. lia. }
    exists t', (wrap64 (pop t - wrap64 (pop t - 1))).
    rewrite Hw. replace (pop t - (pop t - 1)) with 1 by lia.
    change (wrap64 1) with 1.
    split; [reflexivity|].
    split; [split; [exact Hok'|]|].
    { unfold t' at 1. simpl. rewrite Hw, Hcl. lia. }
    split; [reflexivity|]. split; [unfold t'; simpl; lia|].
    split; [reflexivity|]. split.
    { intros Hnone. exfalso. apply (Hnone v0).
      split; [eapply list_elem_of_lookup_2; eauto|exact Hlive]. }
    intros e. unfold stores, t'. simpl. split.
    + intros [Hin Hl]. apply list_elem_of_lookup in Hin as [i Hi].
      destruct (decide (i = Z.to_nat h)) as [->|Hne].
      * rewrite list_lookup_insert_eq in Hi by lia. injection Hi as <-.
        rewrite is_live_deleted in Hl. discriminate.
      * rewrite list_lookup_insert_ne in Hi by congruence.
        split; [split; [eapply list_elem_of_lookup_2; eauto|exact Hl]|].
        intros Hk. destruct e as [k v]. simpl in Hk. subst k. apply Hne.
        apply (HTContent.findable_inj t i (Z.to_nat h) km v v0 Hf Hi Hv0 Hlive).
    + intros [[Hin Hl] Hk]. split; [|exact Hl].
      apply list_elem_of_lookup in Hin as [i Hi].
      apply list_elem_of_lookup. exists i.
      rewrite list_lookup_insert_ne; [exact Hi|].
      intros <-. rewrite Hv0 in Hi. injection Hi as <-. apply Hk. reflexivity.
Qed.

(** [clear()] and [init_table(sz)]. *)
Lemma clear_stores t :
  wf_upto 60 t ->
  in_use (clear t) /\ size_ (clear t) = size_ t /\ size (clear t) = 0 /\
  forall e, ~ stores (clear t) e.
Proof.
  intros Hwf. pose proof Hwf as [[j [Hj Hs]] [Hl Hcnt]].
  unfold clear.
  replace (length (table t)) with (Z.to_nat (2 ^ j)) by lia.
  rewrite Hs.
  destruct (fresh_in_use j Hj) as (Hwff & Hff & Hpf & Hnone).
  split; [split; [split|]; assumption|]. split; [reflexivity|].
  split; [reflexivity|exact Hnone].
Qed.

Lemma init_table_stores (sz : Z) :
  1 <= sz <= 2 ^ 60 ->
  in_use (init_table (K:=K) (T:=T) sz) /\ size_ (init_table (K:=K) (T:=T) sz) = rndup sz /\
  sz <= rndup sz /\
  forall e, ~ stores (init_table sz) e.
Proof.
  intros Hsz.
  assert (H60 : 2 ^ 60 < 2 ^ 63) by reflexivity.
  assert (H64 : 2 ^ 63 < 2 ^ 64) by reflexivity.
  destruct (rndup_least_power sz ltac:(lia)) as [Hpow _].
  destruct (Hpow ltac:(lia)) as (j & Hj & Hr & Hle & Hlt).
  assert (Hj60 : j <= 60).
  { destruct (Z_le_gt_dec j 60) as [?|Hgt]; [assumption|].
    assert (2 ^ 61 <= 2 ^ j) by (apply Z.pow_le_mono_r; lia).
    change (2 ^ 61) with 2305843009213693952 in *.
    change (2 ^ 60) with 1152921504606846976 in *. lia. }
  unfold init_table, clear. simpl. rewrite length_replicate, Hr.
  destruct (fresh_in_use j ltac:(lia)) as (Hwff & Hff & Hpf & Hnone).
  split; [split; [split|]; assumption|]. split; [reflexivity|].
  split; [exact Hle|exact Hnone].
Qed.

(** [reserve(sz)] on a table in use. *)
Lemma reserve_stores t (sz : Z) t1 :
  in_use t -> 0 <= sz <= 2 ^ 63 -> reserve t sz = Some t1 ->
  in_use t1 /\ (forall e, stores t1 e <-> stores t e) /\
  (sz <= size_ t -> t1 = t) /\
  (size_ t < sz -> size_ t1 = rndup sz /\ sz <= size_ t1 /\
                   forall e, e ∈ table t1 -> e.1 <> deleted.1).
Proof.
  intros Hin Hsz Hres. pose proof Hin as [[Hwf Hf] Hpop].
  pose proof (wf_size_bounds 60 t ltac:(lia) Hwf) as Hn.
  unfold reserve, reserve_with in Hres.
  destruct (sz <=? size_ t) eqn:Ele.
  - injection Hres as <-. apply Z.leb_le in Ele.
    split; [exact Hin|]. split; [tauto|]. split; [auto|]. lia.
  - apply Z.leb_gt in Ele.
    assert (H64 : 2 ^ 63 < 2 ^ 64) by reflexivity.
    destruct (rndup_least_power sz ltac:(lia)) as [Hpow _].
    destruct (Hpow ltac:(lia)) as (j & Hj & Hr & Hle & Hlt).
    rewrite Hr in Hres.
    destruct (2 ^ j >? alloc_limit) eqn:Ea; [discriminate|].
    assert (Hj60 : j <= 60).
    { rewrite Z.gtb_ltb in Ea. apply Z.ltb_ge in Ea. unfold alloc_limit in Ea.
      destruct (Z_le_gt_dec j 60) as [?|Hgt]; [assumption|].
      assert (2 ^ 61 <= 2 ^ j) by (apply Z.pow_le_mono_r; lia).
      change (2 ^ 61) with 2305843009213693952 in *.
      change (2 ^ 60) with 1152921504606846976 in *. lia. }
    assert (H2 : 2 * size_ t <= 2 ^ j).
    { destruct Hwf as [[j0 [Hj0 Hs0]] _]. rewrite Hs0 in *.
      assert (Hlt0 : j0 < j).
      { apply (Z.pow_lt_mono_r_iff 2); lia. }
      replace (2 * 2 ^ j0) with (2 ^ (j0 + 1)) by (rewrite Z.pow_add_r by lia; lia).
      apply Z.pow_le_mono_r; lia. }
    destruct (rehash_stores 65 t j) as (t1' & Hfold & Hin1 & Hsz1 & Hne1 & Hst1 & Hnd);
      [split; assumption|lia|exact H2|].
    change insert with (insert_d (K:=K) (T:=T) (S 65)) in Hres.
    rewrite Hfold in Hres. injection Hres as <-.
    split; [exact Hin1|]. split; [exact Hst1|]. split; [lia|].
    intros _. rewrite Hr, Hsz1. split; [reflexivity|]. split; [exact Hle|exact Hnd].
Qed.

(** Two tables in use that store the same pairs answer every lookup
    alike and have the same number of keys. *)
Lemma lookup_value_same t t' key :
  table_ok t -> table_ok t' -> is_live key = true ->
  (forall v, stores t' (key, v) <-> stores t (key, v)) ->
  lookup_value t' key = lookup_value t key.
Proof.
  intros Hok Hok' Hlive Hsame.
  destruct (lookup_value t' key) as [v'|] eqn:E'.
  - apply (lookup_value_stores t' key v' Hok' Hlive), Hsame in E'.
    apply (lookup_value_stores t key v' Hok Hlive) in E'. congruence.
  - destruct (lookup_value t key) as [v|] eqn:E; [|reflexivity].
    apply (lookup_value_stores t key v Hok Hlive), Hsame in E.
    apply (lookup_value_stores t' key v Hok' Hlive) in E. congruence.
Qed.

Lemma lookup_value_none t key :
  table_ok t -> is_live key = true ->
  (lookup_value t key = None <-> forall v, ~ stores t (key, v)).
Proof.
  intros Hok Hlive. split.
  - intros Hn v Hst. apply (lookup_value_stores t key v Hok Hlive) in Hst. congruence.
  - intros Hn. destruct (lookup_value t key) as [v|] eqn:E; [|reflexivity].
    apply (lookup_value_stores t key v Hok Hlive) in E. destruct (Hn v E).
Qed.

Lemma NoDup_filter_inj {A} (P : A -> Prop) `{forall x, Decision (P x)} (l : list A) :
  (forall (i j : nat) x, l !! i = Some x -> l !! j = Some x -> P x -> i = j) ->
  NoDup (filter P l).
Proof.
  induction l as [|a l IH]; intros Hinj; [rewrite filter_nil; constructor|].
  rewrite filter_cons. destruct (decide (P a)) as [Ha|Ha].
  - constructor.
    + intros Hin. apply list_elem_of_filter in Hin as [_ Hin].
      apply list_elem_of_lookup in Hin as [i Hi].
      assert (0%nat = S i); [|discriminate].
      apply (Hinj 0%nat (S i) a); auto.
    + apply IH. intros i j x Hi Hj Hx.
      assert (S i = S j) by (apply (Hinj (S i) (S j) x); auto). lia.
  - apply IH. intros i j x Hi Hj Hx.
    assert (S i = S j) by (apply (Hinj (S i) (S j) x); auto). lia.
Qed.

Lemma count_live_same t t' :
  table_ok t -> table_ok t' -> (forall e, stores t' e <-> stores t e) ->
  count_live t' = count_live t.
Proof.
  intros [_ Hf] [_ Hf'] Hsame. unfold count_live. f_equal.
  apply Permutation_length. apply NoDup_Permutation.
  - apply NoDup_filter_inj. intros i j [k v] Hi Hj Hl.
    exact (HTContent.findable_inj t' i j k v v Hf' Hi Hj Hl).
  - apply NoDup_filter_inj. intros i j [k v] Hi Hj Hl.
    exact (HTContent.findable_inj t i j k v v Hf Hi Hj Hl).
  - intros e. rewrite !list_elem_of_filter. specialize (Hsame e).
    unfold stores in Hsame. tauto.
Qed.

Lemma count_empty_zero t (i : nat) e :
  count_empty t = 0 -> table t !! i = Some e -> key_eqb e.1 empty_val.1 = false.
Proof.
  unfold count_empty. intros Hc Hi.
  destruct (key_eqb e.1 empty_val.1) eqn:E; [|reflexivity]. exfalso.
  assert (Hin : e ∈ filter (fun s : K * T => key_eqb s.1 empty_val.1 = true) (table t)).
  { apply list_elem_of_filter. split; [exact E|]. eapply list_elem_of_lookup_2; eauto. }
  destruct (filter _ (table t)); [inversion Hin|simpl in Hc; lia].
Qed.

(** X2. [find(key)] on a table whose capacity is a power of two: the
    probe ends, also when no slot is empty; what it returns is [end()]
    or a slot that holds the key, never an empty slot; and on a table
    without an empty slot it returns [end()] only for a key that is in
    no slot. *)
Theorem find_sound t key :
  wf_upto 61 t ->
  exists h,
    find t key = Some h /\
    (h <> it_end t ->
       0 <= h < size_ t /\ key <> empty_val.1 /\
       exists v, table t !! Z.to_nat h = Some (key, v)) /\
    (num_empty t = 0 -> h = it_end t -> forall v, (key, v) ∉ table t).
Proof.
  intros Hwf.
  pose proof (find_read 61 t key ltac:(lia) Hwf) as Hfind.
  set (h := find_result t key (probe_path t key)) in *.
  exists h. split; [exact Hfind|]. split.
  - intros Hne.
    destruct (find_hit 61 t key h ltac:(lia) Hwf Hfind Hne) as (Hr & Hk & Hv).
    unfold in_range in Hr. auto.
  - intros Hfull Hend v Hin.
    pose proof Hwf as (_ & Hlen & Hcnt). rewrite Hfull in Hcnt.
    apply list_elem_of_lookup in Hin as [i Hi].
    pose proof (lookup_lt_Some _ _ _ Hi) as Hlt.
    assert (Hpath : Z.of_nat i ∈ probe_path t key).
    { apply (probe_path_complete 61); [lia|exact Hwf|unfold in_range; lia]. }
    assert (Hstop : stops t key (Z.of_nat i) = true).
    { unfold stops, holds, slot_key. rewrite Nat2Z.id, Hi. simpl.
      rewrite key_eqb_refl. apply orb_true_r. }
    destruct (list_find_elem_of (fun y => stops t key y = true) _ _ Hpath Hstop)
      as [[j e] Hje].
    unfold h, find_result in Hend. rewrite Hje in Hend.
    pose proof Hje as Hje'. apply list_find_Some in Hje' as (Hj & _ & _).
    assert (Hr : in_range t e).
    { assert (Hall : Forall (in_range t) (probe_path t key)).
      { apply path_in_range; [eapply wf_size_bounds; eauto; lia|].
        eapply start_slot_range; eauto. lia. }
      eapply Forall_lookup_1 in Hall; eauto. }
    unfold in_range in Hr.
    destruct (is_empty_slot t e) eqn:Ee.
    + unfold is_empty_slot, holds, slot_key in Ee.
      destruct (table t !! Z.to_nat e) as [e0|] eqn:E0; simpl in Ee; [|discriminate].
      rewrite (count_empty_zero t (Z.to_nat e) e0 (eq_sym Hcnt) E0) in Ee. discriminate.
    + unfold it_end in Hend. lia.
Qed.

(** [insert] on a table in use, seen from the lookups. *)
Lemma insert_lookup t val t2 (h : Z) b :
  in_use t -> is_live val.1 = true -> insert t val = Some (t2, h, b) ->
  in_use t2 /\
  (b = true <-> lookup_value t val.1 = None) /\
  size t2 = size t + (if b then 1 else 0) /\
  lookup_value t2 val.1 =
    match lookup_value t val.1 with Some v0 => Some v0 | None => Some val.2 end /\
  (forall key, is_live key = true -> key <> val.1 ->
     lookup_value t2 key = lookup_value t key).
Proof.
  intros Hin Hlive Hins. pose proof Hin as [[Hwf Hf] Hpop].
  destruct (insert_stores t val t2 h b Hin Hlive Hins) as (Hin2 & Hfound & Hh & Hb & Hst).
  pose proof Hin2 as [Hok2 Hpop2].
  split; [exact Hin2|].
  assert (Hbn : b = true <-> lookup_value t val.1 = None).
  { rewrite (lookup_value_none t val.1 (conj Hwf Hf) Hlive). split.
    - intros -> v Hv. assert (true = false); [|discriminate]. apply Hb. eauto.
    - intros Hn. destruct b; [reflexivity|]. destruct (proj1 Hb eq_refl) as [v Hv].
      destruct (Hn v Hv). }
  split; [exact Hbn|]. split; [|split].
  - unfold size. destruct b.
    + assert (Hkey : forall v, ~ stores t (val.1, v)).
      { apply (lookup_value_none t val.1 (conj Hwf Hf) Hlive). apply Hbn. reflexivity. }
      rewrite Hpop2, Hpop. unfold count_live.
      assert (Hperm : filter (fun s : K * T => is_live s.1 = true) (table t2)
                      ≡ₚ val :: filter (fun s : K * T => is_live s.1 = true) (table t)).
      { apply NoDup_Permutation.
        - apply NoDup_filter_inj. intros i j [k v] Hi Hj Hl.
          exact (HTContent.findable_inj t2 i j k v v (proj2 Hok2) Hi Hj Hl).
        - constructor.
          + intros Hx. apply list_elem_of_filter in Hx as [_ Hx].
            apply (Hkey val.2). split; [|exact Hlive]. destruct val; exact Hx.
          + apply NoDup_filter_inj. intros i j [k v] Hi Hj Hl.
            exact (HTContent.findable_inj t i j k v v Hf Hi Hj Hl).
        - intros e. rewrite elem_of_cons, !list_elem_of_filter.
          specialize (Hst e). unfold stores in Hst. split.
          + intros [Hl He]. destruct (proj1 Hst (conj He Hl)) as [[? ?]|[_ ->]]; auto.
          + intros [->|[Hl He]]; [|apply and_comm, Hst; left; split; assumption].
            apply and_comm, Hst. right. auto. }
      rewrite (Permutation_length Hperm). simpl. lia.
    + rewrite Hpop2, Hpop, Z.add_0_r.
      apply (count_live_same t t2 (conj Hwf Hf) Hok2).
      intros e. rewrite Hst. split; [|auto]. intros [?|[? _]]; [assumption|discriminate].
  - destruct (lookup_value t val.1) as [v0|] eqn:E0.
    + apply (lookup_value_stores t2 val.1 v0 Hok2 Hlive), Hst. left.
      apply (lookup_value_stores t val.1 v0 (conj Hwf Hf) Hlive). exact E0.
    + apply (lookup_value_stores t2 val.1 val.2 Hok2 Hlive), Hst. right.
      split; [apply Hbn; reflexivity|destruct val; reflexivity].
  - intros key Hkl Hne.
    apply (lookup_value_same t t2 key (conj Hwf Hf) Hok2 Hkl).
    intros v. rewrite Hst. split; [|auto].
    intros [?|[_ Heq]]; [assumption|]. exfalso. apply Hne. rewrite <- Heq. reflexivity.
Qed.


(** [erase(km)] on a table in use, seen from the lookups. *)
Lemma erase_key_lookup t km :
  in_use t -> is_live km = true ->
  exists t' n,
    erase_key t km = Some (t', n) /\ in_use t' /\
    n = match lookup_value t km with Some _ => 1 | None => 0 end /\
    size t' = size t - n /\ size_ t' = size_ t /\
    lookup_value t' km = None /\
    (forall key, is_live key = true -> key <> km ->
       lookup_value t' key = lookup_value t key).
Proof.
  intros Hin Hlive. pose proof Hin as [Hok Hpop].
  destruct (erase_key_stores t km Hin Hlive)
    as (t' & n & Her & Hin' & Hsz & Hp & Hone & Hzero & Hst).
  pose proof Hin' as [Hok' Hpop'].
  exists t', n. split; [exact Her|]. split; [exact Hin'|]. split; [|split; [|split; [|split]]].
  - destruct (lookup_value t km) as [v|] eqn:E.
    + apply Hone. exists v. apply (lookup_value_stores t km v Hok Hlive). exact E.
    + apply Hzero. apply (lookup_value_none t km Hok Hlive). exact E.
  - exact Hp.
  - exact Hsz.
  - apply (lookup_value_none t' km Hok' Hlive). intros v Hv.
    apply Hst in Hv as [_ Hk]. apply Hk. reflexivity.
  - intros key Hkl Hne.
    apply (lookup_value_same t t' key Hok Hok' Hkl).
    intros v. rewrite Hst. simpl. tauto.
Qed.

(** X4. [erase(km)] on a table in use: it returns 1 when the key was
    stored and 0 when it was not, [size()] goes down by that number,
    the key is not found afterwards and every other key keeps its
    value. *)
Theorem erase_key_as_map t km :
  in_use t -> is_live km = true ->
  exists t' n,
    erase_key t km = Some (t', n) /\ in_use t' /\
    n = match lookup_value t km with Some _ => 1 | None => 0 end /\
    size t' = size t - n /\ size_ t' = size_ t /\
    lookup_value t' km = None /\
    (forall key, is_live key = true -> key <> km ->
       lookup_value t' key = lookup_value t key).
Proof. exact (erase_key_lookup t km). Qed.

(** X5. [reserve(sz)] on a table in use, for [sz <= 2^60]: nothing
    changes when the capacity is [sz] already; otherwise the capacity
    becomes [rndup(sz)], no deleted slot is left, and in both cases
    every key keeps its value and [size()] is as before. *)
Theorem reserve_as_map t (sz : Z) :
  in_use t -> 0 <= sz <= 2 ^ 60 ->
  exists t1,
    reserve t sz = Some t1 /\ in_use t1 /\
    (sz <= size_ t -> t1 = t) /\
    (size_ t < sz -> size_ t1 = rndup sz /\ sz <= size_ t1 /\
                     forall e, e ∈ table t1 -> e.1 <> deleted.1) /\
    size t1 = size t /\
    (forall key, is_live key = true -> lookup_value t1 key = lookup_value t key).
Proof.
  intros Hin Hsz. pose proof Hin as [[Hwf Hf] Hpop].
  pose proof (wf_size_bounds 60 t ltac:(lia) Hwf) as Hn.
  assert (H60 : 2 ^ 60 < 2 ^ 63) by reflexivity.
  assert (H64 : 2 ^ 63 < 2 ^ 64) by reflexivity.
  assert (Hex : exists t1, reserve t sz = Some t1).
  { unfold reserve, reserve_with. destruct (sz <=? size_ t) eqn:Ele; [eauto|].
    apply Z.leb_gt in Ele.
    destruct (rndup_least_power sz ltac:(lia)) as [Hpow _].
    destruct (Hpow ltac:(lia)) as (j & Hj & Hr & Hle & Hlt).
    rewrite Hr.
    assert (Hj60 : j <= 60).
    { destruct (Z_le_gt_dec j 60) as [?|Hgt]; [assumption|].
      assert (2 ^ 61 <= 2 ^ j) by (apply Z.pow_le_mono_r; lia).
      change (2 ^ 61) with 2305843009213693952 in *.
      change (2 ^ 60) with 1152921504606846976 in *. lia. }
    assert (Hp : 2 ^ j <= 2 ^ 60) by (apply Z.pow_le_mono_r; lia).
    replace (2 ^ j >? alloc_limit) with false
      by (symmetry; rewrite Z.gtb_ltb; apply Z.ltb_ge; unfold alloc_limit; lia).
    assert (H2 : 2 * size_ t <= 2 ^ j).
    { destruct Hwf as [[j0 [Hj0 Hs0]] _]. rewrite Hs0 in *.
      assert (Hlt0 : j0 < j) by (apply (Z.pow_lt_mono_r_iff 2); lia).
      replace (2 * 2 ^ j0) with (2 ^ (j0 + 1)) by (rewrite Z.pow_add_r by lia; lia).
      apply Z.pow_le_mono_r; lia. }
    destruct (rehash_stores 65 t j) as (t1' & Hfold & _);
      [split; assumption|lia|exact H2|].
    exists t1'. change insert with (insert_d (K:=K) (T:=T) (S 65)). exact Hfold. }
  destruct Hex as [t1 Hres]. exists t1. split; [exact Hres|].
  destruct (reserve_stores t sz t1 Hin ltac:(lia) Hres) as (Hin1 & Hst & Hsame & Hnew).
  pose proof Hin1 as [Hok1 Hpop1].
  split; [exact Hin1|]. split; [exact Hsame|]. split; [exact Hnew|]. split.
  - unfold size. rewrite Hpop1, Hpop.
    apply (count_live_same t t1 (conj Hwf Hf) Hok1 Hst).
  - intros key Hkl.
    apply (lookup_value_same t t1 key (conj Hwf Hf) Hok1 Hkl).
    intros v. apply Hst.
Qed.

Lemma lookup_value_fresh t key :
  wf_upto 60 t -> (forall e, e ∈ table t -> e.1 = empty_val.1) ->
  lookup_value t key = None.
Proof.
  intros Hwf Hall. unfold lookup_value.
  pose proof (find_read 60 t key ltac:(lia) Hwf) as Hfind. rewrite Hfind.
  cbn [mbind option_bind].
  destruct (_ =? it_end t) eqn:E; [reflexivity|]. apply Z.eqb_neq in E.
  destruct (find_hit 60 t key _ ltac:(lia) Hwf Hfind E) as (_ & Hk & v & Hv).
  exfalso. apply Hk. apply (Hall (key, v)). eapply list_elem_of_lookup_2; eauto.
Qed.

(** X6. A table as the constructor sets it up with [init_table(sz)],
    [1 <= sz <= 2^60], has the capacity [rndup(sz)], at least [sz]; it
    and a table after [clear()] are in use with [size() = 0], and no
    key is found in them. *)
Theorem fresh_tables (sz : Z) t :
  1 <= sz <= 2 ^ 60 -> wf_upto 60 t ->
  (in_use (init_table (K:=K) (T:=T) sz) /\
   size_ (init_table (K:=K) (T:=T) sz) = rndup sz /\ sz <= rndup sz /\
   size (init_table (K:=K) (T:=T) sz) = 0 /\
   forall key, lookup_value (init_table (K:=K) (T:=T) sz) key = None) /\
  (in_use (clear t) /\ size_ (clear t) = size_ t /\ size (clear t) = 0 /\
   forall key, lookup_value (clear t) key = None).
Proof.
  intros Hsz Hwf. split.
  - destruct (init_table_stores sz Hsz) as (Hin & Hcap & Hle & _).
    split; [exact Hin|]. split; [exact Hcap|]. split; [exact Hle|].
    split; [reflexivity|].
    intros key. apply lookup_value_fresh; [apply Hin|].
    intros e He. unfold init_table, clear in He. simpl in He.
    apply elem_of_replicate in He as [-> _]. reflexivity.
  - destruct (clear_stores t Hwf) as (Hin & Hcap & Hz & _).
    split; [exact Hin|]. split; [exact Hcap|]. split; [exact Hz|].
    intros key. apply lookup_value_fresh; [apply Hin|].
    intros e He. unfold clear in He. simpl in He.
    apply elem_of_replicate in He as [-> _]. reflexivity.
Qed.

(** X8. Any sequence of [insert], [erase(key)], [clear] and [reserve]
    calls on a table in use leaves a table in use, on which a lookup
    returns what the same sequence of updates on a map returns:
    [insert] adds a pair unless its key is there, [erase] removes a
    key, [clear] removes all, [reserve] changes nothing. *)
Theorem ops_as_map (l : list (op K T)) : forall t (m : K -> option T) t',
  in_use t ->
  (forall key, is_live key = true -> lookup_value t key = m key) ->
  Forall op_ok l -> apply_ops t l = Some t' ->
  in_use t' /\
  forall key, is_live key = true -> lookup_value t' key = map_ops m l key.
Proof.
  induction l as [|o l IH]; intros t m t' Hin Hm Hok Hrun.
  - injection Hrun as <-. auto.
  - apply Forall_cons in Hok as [Ho Hok]. cbn [apply_ops] in Hrun.
    apply bind_Some in Hrun as (t1 & Hstep & Hrun).
    unfold map_ops. cbn [fold_left]. fold (map_ops (map_op m o) l).
    apply (IH t1 (map_op m o) t'); [| |exact Hok|exact Hrun].
    + destruct o as [val|km| |sz]; simpl in Hstep, Ho.
      * apply bind_Some in Hstep as ([[t2 h] b] & Hins & Heq). injection Heq as <-.
        apply (insert_lookup t val t2 h b Hin Ho Hins).
      * apply bind_Some in Hstep as ([t2 n] & Her & Heq). injection Heq as <-.
        destruct (erase_key_stores t km Hin Ho) as (t2' & n' & Her' & Hin' & _).
        rewrite Her in Her'. injection Her' as <- <-. exact Hin'.
      * injection Hstep as <-. apply clear_stores. apply Hin.
      * apply (reserve_stores t sz t1 Hin Ho Hstep).
    + intros key Hkl. destruct o as [val|km| |sz]; simpl in Hstep, Ho; simpl.
      * apply bind_Some in Hstep as ([[t2 h] b] & Hins & Heq). injection Heq as <-.
        destruct (insert_lookup t val t2 h b Hin Ho Hins) as (_ & _ & _ & Hsame & Hother).
        destruct (decide (key = val.1)) as [->|Hne].
        -- rewrite Hsame, (Hm val.1 Ho). reflexivity.
        -- rewrite (Hother key Hkl Hne). apply Hm. exact Hkl.
      * apply bind_Some in Hstep as ([t2 n] & Her & Heq). injection Heq as <-.
        destruct (erase_key_lookup t km Hin Ho)
          as (t2' & n' & Her' & _ & _ & _ & _ & Hgone & Hother).
        rewrite Her in Her'. injection Her' as <- <-.
        destruct (decide (key = km)) as [->|Hne]; [exact Hgone|].
        rewrite (Hother key Hkl Hne). apply Hm. exact Hkl.
      * injection Hstep as <-. apply lookup_value_fresh.
        -- apply clear_stores. apply Hin.
        -- intros e He. unfold clear in He. simpl in He.
           apply elem_of_replicate in He as [-> _]. reflexivity.
      * destruct (reserve_stores t sz t1 Hin Ho Hstep) as (Hin1 & Hst & _).
        rewrite <- (Hm key Hkl).
        apply (lookup_value_same t t1 key (proj1 Hin) (proj1 Hin1) Hkl).
        intros v. apply Hst.
Qed.

(** *** The iterator *)

Lemma skip_dead_spec (l : list (K * T)) : forall n : Z,
  let h := skip_dead l n in
  n <= h <= n + Z.of_nat (length l) /\
  live_from l n = live_from (drop (Z.to_nat (h - n)) l) h /\
  (h < n + Z.of_nat (length l) ->
   exists k v, l !! Z.to_nat (h - n) = Some (k, v) /\ is_live k = true).
Proof.
  induction l as [|[k v] l IH]; intros n h.
  - unfold h. simpl. split; [lia|]. split; [rewrite drop_nil; reflexivity|]. lia.
  - unfold h. cbn [skip_dead live_from]. fold (is_live k).
    destruct (is_live k) eqn:El.
    + rewrite Z.sub_diag. simpl. rewrite El. split; [lia|]. split; [reflexivity|].
      intros _. eauto.
    + destruct (IH (n + 1)) as (Hr & Hl & Hlive). simpl in *.
      set (h' := skip_dead l (n + 1)) in *.
      split; [lia|]. split.
      * rewrite Hl. replace (Z.to_nat (h' - n)) with (S (Z.to_nat (h' - (n + 1)))) by lia.
        reflexivity.
      * intros Hlt. destruct Hlive as (k' & v' & Hk & Hkl); [lia|].
        exists k', v'. split; [|exact Hkl].
        replace (Z.to_nat (h' - n)) with (S (Z.to_nat (h' - (n + 1)))) by lia.
        exact Hk.
Qed.

Lemma visit_spec t (fuel : nat) : forall h : Z,
  Z.of_nat (length (table t)) = size_ t -> 0 <= h <= size_ t ->
  (h < size_ t -> exists k v, table t !! Z.to_nat h = Some (k, v) /\ is_live k = true) ->
  size_ t - h <= Z.of_nat fuel ->
  visit fuel t h = Some (live_from (drop (Z.to_nat h) (table t)) h).
Proof.
  induction fuel as [|fuel IH]; intros h Hlen Hh Hlive Hfuel.
  - assert (h = size_ t) by lia. subst h. cbn [visit]. unfold it_end.
    rewrite Z.eqb_refl, drop_ge by lia. reflexivity.
  - cbn [visit]. unfold it_end. destruct (h =? size_ t) eqn:E.
    + apply Z.eqb_eq in E. subst h. rewrite drop_ge by lia. reflexivity.
    + apply Z.eqb_neq in E. destruct Hlive as (k & v & Hk & Hkl); [lia|].
      unfold it_next. replace (h =? size_ t) with false by (symmetry; apply Z.eqb_neq; lia).
      pose proof (skip_dead_spec (drop (Z.to_nat (h + 1)) (table t)) (h + 1))
        as (Hr & Hl & Hnext).
      set (h' := skip_dead (drop (Z.to_nat (h + 1)) (table t)) (h + 1)) in *.
      rewrite length_drop in Hr, Hnext.
      rewrite (IH h'); [| exact Hlen | lia | | lia].
      * cbn [mbind option_bind]. f_equal.
        rewrite (drop_S _ (k, v) _ Hk). cbn [live_from]. rewrite Hkl. f_equal.
        replace (h + 1) with (h + 1) in Hl by lia.
        replace (S (Z.to_nat h)) with (Z.to_nat (h + 1)) by lia.
        rewrite Hl, drop_drop. f_equal. f_equal. lia.
      * intros Hlt. destruct Hnext as (k' & v' & Hk' & Hkl'); [lia|].
        exists k', v'. split; [|exact Hkl'].
        rewrite lookup_drop in Hk'. rewrite <- Hk'. f_equal. lia.
Qed.

(** X7. [for (it = begin(); it != end(); ++it)] stops at every slot
    that holds a stored key, once each and in increasing order, and at
    no other slot; on a table without keys [begin()] is [end()]. *)
Theorem traversal_live_slots t :
  Z.of_nat (length (table t)) = size_ t ->
  traversal t = Some (live_slots t) /\
  (live_slots t = [] -> it_begin t = it_end t).
Proof.
  intros Hlen. unfold traversal, live_slots.
  assert (Hb : 0 <= it_begin t <= size_ t /\
               live_from (table t) 0 = live_from (drop (Z.to_nat (it_begin t)) (table t)) (it_begin t) /\
               (it_begin t < size_ t ->
                exists k v, table t !! Z.to_nat (it_begin t) = Some (k, v) /\ is_live k = true)).
  { unfold it_begin. destruct (table t) as [|[k v] rest] eqn:Et.
    - simpl in Hlen. split; [lia|]. split; [reflexivity|]. lia.
    - simpl length in Hlen.
      destruct (key_eqb k empty_val.1 || key_eqb k deleted.1) eqn:Ed.
      + assert (El : is_live k = false).
        { unfold is_live. apply orb_true_iff in Ed as [-> | ->]; simpl;
            [reflexivity|apply andb_false_r]. }
        unfold it_next. replace (0 =? size_ t) with false by (symmetry; apply Z.eqb_neq; lia).
        rewrite Et. change (Z.to_nat (0 + 1)) with 1%nat. cbn [drop].
        rewrite drop_0.
        pose proof (skip_dead_spec rest (0 + 1)) as (Hr & Hl & Hnext).
        set (h' := skip_dead rest (0 + 1)) in *.
        split; [lia|]. split.
        * cbn [live_from]. rewrite El. change (0 + 1) with 1 in *. rewrite Hl.
          replace (Z.to_nat h') with (S (Z.to_nat (h' - 1))) by lia. reflexivity.
        * intros Hlt. destruct Hnext as (k' & v' & Hk' & Hkl'); [lia|].
          exists k', v'. split; [|exact Hkl'].
          replace (Z.to_nat h') with (S (Z.to_nat (h' - (0 + 1)))) by lia. exact Hk'.
      + apply orb_false_iff in Ed as [E1 E2].
        assert (El : is_live k = true) by (unfold is_live; rewrite E1, E2; reflexivity).
        split; [lia|]. split; [reflexivity|]. intros _. exists k, v. auto. }
  destruct Hb as (Hr & Hl & Hlive). split.
  - rewrite Hl. apply visit_spec; [exact Hlen|exact Hr|exact Hlive|lia].
  - intros Hnil. unfold it_end. destruct (Z.eq_dec (it_begin t) (size_ t)) as [?|Hne]; [assumption|].
    destruct Hlive as (k & v & Hk & Hkl); [lia|].
    rewrite Hl, (drop_S _ (k, v) _ Hk) in Hnil. cbn [live_from] in Hnil.
    rewrite Hkl in Hnil. discriminate.
Qed.

End Map.

End HTMore.

Module HTMoreExamples.
Import HT HTSpec HTUse HTExample HTUseExample.

Lemma z_sentinels : (empty_val (K:=Z) (T:=Z)).1 <> (deleted (K:=Z) (T:=Z)).1.
Proof. simpl. lia. Qed.

Lemma ex_t_in_use : in_use ex_t.
Proof.
  split; [split|reflexivity].
  - split; [exists 2; split; [lia|reflexivity]|]. split; reflexivity.
  - apply HTContent.findable_b_ok. reflexivity.
Qed.

(** Key 4 is in slot 0 of [ex_t]. *)
Lemma find_sound_witness :
  exists h,
    find ex_t 4 = Some h /\
    (h <> it_end ex_t ->
       0 <= h < size_ ex_t /\ 4 <> (empty_val (K:=Z) (T:=Z)).1 /\
       exists v, table ex_t !! Z.to_nat h = Some (4, v)) /\
    (num_empty ex_t = 0 -> h = it_end ex_t -> forall v, (4, v) ∉ table ex_t).
Proof.
  apply (HTMore.find_sound ex_t 4).
  split; [exists 2; split; [lia|reflexivity]|]. split; reflexivity.
Defined.


Lemma erase_key_as_map_witness :
  exists t' n,
    erase_key ex_t 4 = Some (t', n) /\ in_use t' /\
    n = match lookup_value ex_t 4 with Some _ => 1 | None => 0 end /\
    size t' = size ex_t - n /\ size_ t' = size_ ex_t /\
    lookup_value t' 4 = None /\
    (forall key, is_live (T:=Z) key = true -> key <> 4 ->
       lookup_value t' key = lookup_value ex_t key).
Proof.
  apply (HTMore.erase_key_as_map z_sentinels ex_t 4).
  - exact ex_t_in_use.
  - reflexivity.
Defined.

Lemma reserve_as_map_witness :
  exists t1,
    reserve ex_t 16 = Some t1 /\ in_use t1 /\
    (16 <= size_ ex_t -> t1 = ex_t) /\
    (size_ ex_t < 16 -> size_ t1 = rndup 16 /\ 16 <= size_ t1 /\
                        forall e, e ∈ table t1 -> e.1 <> (deleted (K:=Z) (T:=Z)).1) /\
    size t1 = size ex_t /\
    (forall key, is_live (T:=Z) key = true -> lookup_value t1 key = lookup_value ex_t key).
Proof.
  apply (HTMore.reserve_as_map z_sentinels ex_t 16).
  - exact ex_t_in_use.
  - simpl. lia.
Defined.

Lemma fresh_tables_witness :
  (in_use (init_table (K:=Z) (T:=Z) 5) /\
   size_ (init_table (K:=Z) (T:=Z) 5) = rndup 5 /\ 5 <= rndup 5 /\
   size (init_table (K:=Z) (T:=Z) 5) = 0 /\
   forall key, lookup_value (init_table (K:=Z) (T:=Z) 5) key = None) /\
  (in_use (clear ex_t) /\ size_ (clear ex_t) = size_ ex_t /\ size (clear ex_t) = 0 /\
   forall key, lookup_value (clear ex_t) key = None).
Proof.
  apply (HTMore.fresh_tables 5 ex_t).
  - simpl. lia.
  - apply ex_t_in_use.
Defined.

Lemma traversal_live_slots_witness :
  traversal ex_full = Some (live_slots ex_full) /\
  (live_slots ex_full = [] -> it_begin ex_full = it_end ex_full).
Proof.
  apply (HTMore.traversal_live_slots ex_full). reflexivity.
Defined.

(** The iterator passes the slots 0, 1 and 3 of [ex_full]. *)
Example ex_traversal : traversal ex_full = Some [0; 1; 3].
Proof. reflexivity. Qed.

Lemma ops_as_map_witness :
  exists t',
    apply_ops ex_t ex_ops = Some t' /\ in_use t' /\
    forall key, is_live (T:=Z) key = true ->
      lookup_value t' key = map_ops (lookup_value ex_t) ex_ops key.
Proof.
  eexists. split; [vm_compute; reflexivity|].
  apply (HTMore.ops_as_map z_sentinels ex_ops ex_t (lookup_value ex_t)).
  - exact ex_t_in_use.
  - intros key _. reflexivity.
  - repeat constructor; simpl; lia.
  - vm_compute. reflexivity.
Defined.

(** After [ex_ops], key 8 has the value 80 and key 4 the value 42; the
    capacity is 16. *)
Example ex_ops_result :
  (t ← apply_ops ex_t ex_ops;
   Some (lookup_value t 8, lookup_value t 4, lookup_value t 5, size_ t, size t))
  = Some (Some 80, Some 42, None, 16, 2).
Proof. vm_compute. reflexivity. Qed.

End HTMoreExamples.
(** ** The driver: the [invalid] flag *)

Module DriverFacts.
Import Driver.
Import String.

Section Facts.
Context {G Opt Disk : Type} `{BaseOps G Opt Disk}.




End Facts.



End DriverFacts.


(** ** The driver: a cleared graph *)

Module DriverLifeFacts.
Import Driver DriverLife String.

Section Facts.
Context {G Opt Disk : Type} `{BaseOps G Opt Disk} `{BaseClear G}.




End Facts.

(** A cleared graph is refused by [build] and by [mapColors]. *)
Example build_after_clear :
  let c0 := {| base := tt; invalid := false |} in
  do_calls (G:=unit) (Disk:=list string)
    [CallClear; CallBuild tt; CallMapColors tt] c0 []
  = ({| base := tt; invalid := true |}, [],
     [(CallClear, None); (CallBuild tt, Some false); (CallMapColors tt, Some false)]).
Proof. reflexivity. Qed.

End DriverLifeFacts.
(** ** [reading_function]: chunks and slices *)

Module ReadingFacts.
Import Reading.

Lemma stride_pos k_ : 1 <= k_ <= 1000 -> 1 <= stride k_ <= 1000.
Proof. unfold stride. lia. Qed.

Lemma n_pending_step k_ len pos :
  1 <= k_ <= 1000 -> pos < len ->
  n_pending k_ len pos = S (n_pending k_ len (pos + stride k_)).
Proof.
  intros Hk Hp. pose proof (stride_pos k_ Hk) as Hs.
  unfold n_pending. rewrite (proj2 (Z.ltb_lt _ _) Hp).
  destruct (pos + stride k_ <? len) eqn:E.
  - apply Z.ltb_lt in E.
    replace (len - pos - 1) with (len - (pos + stride k_) - 1 + 1 * stride k_) by lia.
    rewrite Z.div_add by lia.
    assert (0 <= (len - (pos + stride k_) - 1) / stride k_)
      by (apply Z.div_pos; lia).
    lia.
  - apply Z.ltb_ge in E. rewrite Z.div_small by lia. reflexivity.
Qed.

Lemma pending_nil k_ r pos :
  Z.of_nat (length r) <= pos -> pending k_ r pos = [].
Proof.
  intros H. unfold pending, n_pending.
  rewrite (proj2 (Z.ltb_ge _ _) H). reflexivity.
Qed.

Lemma pending_cons k_ r pos :
  1 <= k_ <= 1000 -> pos < Z.of_nat (length r) ->
  pending k_ r pos =
  take 1000 (drop (Z.to_nat (pos - (k_ - 1))) r) :: pending k_ r (pos + stride k_).
Proof.
  intros Hk Hp. unfold pending. rewrite n_pending_step by auto.
  simpl. f_equal. f_equal. unfold stride. lia.
Qed.

Lemma slice_loop_S fuel k_ (r : str) len fid pos reads v :
  slice_loop (S fuel) k_ r len fid pos reads v =
  if (pos <? len) && (reads <? chunk_size) then
    match substr r (wrap64 (pos - (k_ - 1))) 1000 with
    | None => None
    | Some sl =>
        slice_loop fuel k_ r len fid (wrap64 (wrap64 (pos - (k_ - 1)) + 1000))
          (reads + 1) (v ++ [(sl, fid)])
    end
  else Some (pos, reads, v).
Proof. reflexivity. Qed.

Lemma slice_loop_spec k_ (r : str) len fid : forall fuel pos reads v,
  1 <= k_ <= 1000 -> len = Z.of_nat (length r) -> len < 2 ^ 62 ->
  0 <= reads <= 1000 -> (1000 - reads <= Z.of_nat fuel) ->
  (pos < len -> k_ - 1 <= pos) -> 0 <= pos ->
  exists pos' emitted,
    slice_loop fuel k_ r len fid pos reads v =
      Some (pos', reads + Z.of_nat (length emitted),
            v ++ map (fun sl => (sl, fid)) emitted) /\
    emitted ++ pending k_ r pos' = pending k_ r pos /\
    reads + Z.of_nat (length emitted) <= 1000 /\
    (pos' < len -> reads + Z.of_nat (length emitted) = 1000) /\
    (pos' < len -> k_ - 1 <= pos') /\ 0 <= pos'.
Proof.
  induction fuel as [|fuel IH]; intros pos reads v Hk Hl Hlen Hr Hf Hp Hp0.
  - simpl. unfold chunk_size.
    assert (reads = 1000) by lia. subst reads.
    rewrite andb_false_r. exists pos, []. simpl.
    rewrite app_nil_r, Z.add_0_r. repeat split; auto; lia.
  - rewrite slice_loop_S. unfold chunk_size.
    destruct (pos <? len) eqn:E1; simpl andb; cbv iota.
    2:{ apply Z.ltb_ge in E1. exists pos, []. simpl.
        rewrite app_nil_r, Z.add_0_r. repeat split; auto; lia. }
    apply Z.ltb_lt in E1.
    destruct (reads <? 1000) eqn:E2.
    2:{ apply Z.ltb_ge in E2. exists pos, []. simpl.
        rewrite app_nil_r, Z.add_0_r. repeat split; auto; lia. }
    apply Z.ltb_lt in E2. specialize (Hp E1).
    assert (H62 : 2 ^ 62 + 1000 < 2 ^ 64) by (vm_compute; reflexivity).
    rewrite (wrap64_small (pos - (k_ - 1))) by lia.
    unfold substr.
    replace (pos - (k_ - 1) >? Z.of_nat (length r)) with false
      by (symmetry; rewrite Z.gtb_ltb; apply Z.ltb_ge; lia).
    rewrite (wrap64_small (pos - (k_ - 1) + 1000)) by lia.
    destruct (IH (pos - (k_ - 1) + 1000) (reads + 1)
                 (v ++ [(take (Z.to_nat 1000) (drop (Z.to_nat (pos - (k_ - 1))) r), fid)]))
      as (pos' & em & Hrun & Hpend & Hle & Hfull & Hk' & Hb); auto; try lia.
    exists pos', (take 1000 (drop (Z.to_nat (pos - (k_ - 1))) r) :: em).
    split.
    { etransitivity; [exact Hrun|]. f_equal. f_equal; [f_equal|].
      - simpl length. lia.
      - rewrite <- app_assoc. reflexivity. }
    split.
    { rewrite (pending_cons k_ r pos) by (auto; lia). simpl. f_equal.
      rewrite Hpend. f_equal. unfold stride. lia. }
    simpl length. repeat split; try lia.
Qed.


Lemma slices_of_long k_ (r : str) :
  Z.of_nat (length r) > 1000 -> slices_of k_ r = pending k_ r (k_ - 1).
Proof.
  intros H. unfold slices_of.
  replace (Z.of_nat (length r) >? 1000) with true; [reflexivity|].
  symmetry. rewrite Z.gtb_ltb. apply Z.ltb_lt. lia.
Qed.

Lemma slices_of_short k_ (r : str) :
  Z.of_nat (length r) <= 1000 -> slices_of k_ r = [r].
Proof.
  intros H. unfold slices_of.
  replace (Z.of_nat (length r) >? 1000) with false; [reflexivity|].
  symmetry. rewrite Z.gtb_ltb. apply Z.ltb_ge. lia.
Qed.

Lemma upper_all_app v w : upper_all (v ++ w) = upper_all v ++ upper_all w.
Proof. unfold upper_all. apply map_app. Qed.

Lemma read_loop_spec k_ : forall recs rd fid reads v,
  1 <= k_ <= 1000 ->
  len_read rd = Z.of_nat (length (s rd)) ->
  Forall (fun rec => Z.of_nat (length rec.1) < 2 ^ 62) ((s rd, 0) :: recs) ->
  0 <= reads <= 1000 ->
  (pos_read rd < len_read rd -> reads = 1000 /\ k_ - 1 <= pos_read rd) ->
  0 <= pos_read rd ->
  exists rd' new stop consumed,
    read_loop k_ recs rd fid reads v = Some (rd', upper_all (v ++ new), stop) /\
    recs = consumed ++ fp rd' /\
    new ++ pending_pairs k_ rd' =
      map (fun sl => (sl, fid)) (pending k_ (s rd) (pos_read rd))
      ++ flat_map (pairs_of k_) consumed /\
    reads + Z.of_nat (length new) <= 1000 /\
    reader_ok k_ rd' /\
    (stop = true -> fp rd' = [] /\ pending k_ (s rd') (pos_read rd') = []) /\
    (stop = false -> reads + Z.of_nat (length new) = 1000).
Proof.
  induction recs as [|[r rfid] recs IH]; intros rd fid reads v Hk Hl Hb Hr Hp Hp0.
  - simpl. unfold chunk_size. destruct (reads <? 1000) eqn:E.
    + apply Z.ltb_lt in E.
      assert (Hge : Z.of_nat (length (s rd)) <= pos_read rd).
      { destruct (Z.lt_ge_cases (pos_read rd) (len_read rd)) as [Hlt|Hge]; [|lia].
        destruct (Hp Hlt). lia. }
      eexists _, [], true, []. rewrite app_nil_r. split; [reflexivity|].
      unfold reader_ok, pending_pairs. simpl.
      rewrite pending_nil by exact Hge. simpl.
      split; [reflexivity|]. split; [reflexivity|]. split; [lia|].
      split; [split; [exact Hl|split; [lia|split; [exact Hp0|exact Hb]]]|].
      split; [auto|discriminate].
    + apply Z.ltb_ge in E. assert (reads = 1000) by lia. subst reads.
      eexists _, [], false, []. rewrite app_nil_r. rewrite Z.eqb_refl. simpl.
      split; [reflexivity|]. unfold reader_ok, pending_pairs. simpl.
      rewrite app_nil_r.
      split; [reflexivity|]. split; [reflexivity|]. split; [lia|].
      split; [split; [exact Hl|split; [intros H; destruct (Hp H); lia|
                                        split; [exact Hp0|exact Hb]]]|].
      split; [discriminate|reflexivity].
  - cbn [read_loop]. unfold chunk_size. destruct (reads <? 1000) eqn:E.
    2:{ apply Z.ltb_ge in E. assert (reads = 1000) by lia. subst reads.
        eexists _, [], false, []. rewrite app_nil_r. rewrite Z.eqb_refl. simpl.
        split; [reflexivity|]. unfold reader_ok, pending_pairs. simpl.
        rewrite app_nil_r.
        split; [reflexivity|]. split; [reflexivity|]. split; [lia|].
        split; [split; [exact Hl|split; [intros H; destruct (Hp H); lia|
                                          split; [exact Hp0|exact Hb]]]|].
        split; [discriminate|reflexivity]. }
    apply Z.ltb_lt in E.
    assert (Hge : Z.of_nat (length (s rd)) <= pos_read rd).
    { destruct (Z.lt_ge_cases (pos_read rd) (len_read rd)) as [Hlt|Hge]; [|lia].
      destruct (Hp Hlt). lia. }
    rewrite (pending_nil _ _ _ Hge). simpl map. simpl app.
    pose proof Hb as Hb'. apply Forall_cons in Hb' as [_ Hb'].
    apply Forall_cons in Hb' as [Hrl Hrecs]. simpl in Hrl.
    destruct (Z.of_nat (length r) >? 1000) eqn:Elong.
    + (* a record of more than 1000 characters *)
      rewrite Z.gtb_ltb in Elong. apply Z.ltb_lt in Elong.
      rewrite (wrap64_small (k_ - 1))
        by (change (2 ^ 64) with 18446744073709551616; lia).
      destruct (slice_loop_spec k_ r (Z.of_nat (length r)) rfid
                  (Z.to_nat 1000) (k_ - 1) reads v)
        as (pos' & em & Hrun & Hpend & Hle & Hfull & Hk' & Hb2); auto;
        try (unfold chunk_size; lia).
      rewrite Hrun.
      destruct (IH {| pos_read := pos'; len_read := Z.of_nat (length r); s := r;
                      prev_file_id := prev_file_id rd; next_file := next_file rd;
                      fp := recs |} rfid (reads + Z.of_nat (length em))
                   (v ++ map (fun sl => (sl, rfid)) em))
        as (rd' & new & stop & consumed & Hrun2 & Hrecs2 & Heq & Hle2 & Hok & Hstop & Hns);
        auto; simpl; try lia.
      exists rd', (map (fun sl => (sl, rfid)) em ++ new), stop, ((r, rfid) :: consumed).
      split; [rewrite Hrun2, app_assoc; reflexivity|].
      split; [simpl; f_equal; exact Hrecs2|].
      split.
      { rewrite <- app_assoc, Heq. simpl.
        rewrite app_assoc. f_equal. unfold pairs_of. simpl.
        rewrite slices_of_long by lia. rewrite <- Hpend, map_app. reflexivity. }
      rewrite length_app, length_map.
      split; [lia|]. split; [exact Hok|]. split; [exact Hstop|].
      intros H. specialize (Hns H). lia.
    + (* a record of at most 1000 characters *)
      rewrite Z.gtb_ltb in Elong. apply Z.ltb_ge in Elong.
      destruct (IH {| pos_read := Z.of_nat (length r); len_read := Z.of_nat (length r);
                      s := r; prev_file_id := prev_file_id rd;
                      next_file := next_file rd; fp := recs |} rfid (reads + 1)
                   (v ++ [(r, rfid)]))
        as (rd' & new & stop & consumed & Hrun2 & Hrecs2 & Heq & Hle2 & Hok & Hstop & Hns);
        auto; simpl; try lia.
      exists rd', ((r, rfid) :: new), stop, ((r, rfid) :: consumed).
      split; [rewrite Hrun2, <- app_assoc; reflexivity|].
      split; [simpl; f_equal; exact Hrecs2|].
      split.
      { simpl. rewrite Heq. simpl. rewrite pending_nil by (simpl; lia).
        unfold pairs_of at 2. simpl. rewrite slices_of_short by lia. reflexivity. }
      simpl length.
      split; [lia|]. split; [exact Hok|]. split; [exact Hstop|].
      intros H. specialize (Hns H). lia.
Qed.


Lemma reading_function_spec k_ rd :
  1 <= k_ <= 1000 -> reader_ok k_ rd ->
  exists rd' v stop consumed,
    reading_function k_ rd [] = Some (rd', v, stop) /\
    Z.of_nat (length v) <= 1000 /\
    fp rd = consumed ++ fp rd' /\
    v ++ upper_all (pending_pairs k_ rd') =
      upper_all (pending_pairs k_ rd ++ flat_map (pairs_of k_) consumed) /\
    reader_ok k_ rd' /\
    (stop = true -> fp rd' = [] /\ pending_pairs k_ rd' = []) /\
    (stop = false -> Z.of_nat (length v) = 1000).
Proof.
  intros Hk (Hl & Hp & Hp0 & Hb).
  pose proof Hb as Hb'. apply Forall_cons in Hb' as [Hs _]. simpl in Hs.
  unfold reading_function.
  destruct (slice_loop_spec k_ (s rd) (len_read rd) (prev_file_id rd)
              (Z.to_nat chunk_size) (pos_read rd) 0 [])
    as (pos' & em & Hrun & Hpend & Hle & Hfull & Hk' & Hb2); auto;
    try (unfold chunk_size; lia).
  rewrite Hrun. simpl app.
  destruct (read_loop_spec k_ (fp rd)
              {| pos_read := pos'; len_read := len_read rd; s := s rd;
                 prev_file_id := prev_file_id rd; next_file := next_file rd;
                 fp := fp rd |} (prev_file_id rd) (0 + Z.of_nat (length em))
              (map (fun sl => (sl, prev_file_id rd)) em))
    as (rd' & new & stop & consumed & Hrun2 & Hrecs2 & Heq & Hle2 & Hok & Hstop & Hns);
    auto; simpl; try lia.
  exists rd', (upper_all (map (fun sl => (sl, prev_file_id rd)) em ++ new)),
    stop, consumed.
  split; [exact Hrun2|].
  assert (Hlen : length (upper_all (map (fun sl => (sl, prev_file_id rd)) em ++ new))
                 = (length em + length new)%nat).
  { unfold upper_all. rewrite length_map, length_app, length_map. reflexivity. }
  rewrite Hlen.
  split; [lia|]. split; [exact Hrecs2|].
  split.
  { rewrite <- upper_all_app. f_equal. rewrite <- app_assoc, Heq. simpl.
    rewrite app_assoc. f_equal. unfold pending_pairs.
    rewrite <- Hpend, map_app. reflexivity. }
  split; [exact Hok|].
  split.
  { intros H. destruct (Hstop H) as [H1 H2]. split; [exact H1|].
    unfold pending_pairs. rewrite H2. reflexivity. }
  intros H. specialize (Hns H). lia.
Qed.

(** *** The slices of a long record *)











(** The record of 2500 characters gives three slices, starting at 0,
    970 and 1940. *)
Example ex_reading :
  option_map (fun x => (map (fun p => (length p.1, p.2)) x.1.2, x.2))
             (reading_function 31 ex_reader [])
  = Some ([(1000%nat, 7); (1000%nat, 7); (560%nat, 7)], true).
Proof. vm_compute. reflexivity. Qed.


End ReadingFacts.


(** ** [buildColorSets]: all chunks *)

Module ReadingAllFacts.
Import Reading ReadingAll ReadingFacts.
Import Ascii.

Lemma length_upper_all v : length (upper_all v) = length v.
Proof. unfold upper_all. apply length_map. Qed.

Lemma read_chunks_spec k_ (fuel : nat) : forall rd,
  1 <= k_ <= 1000 -> reader_ok k_ rd ->
  (length (to_come k_ rd) < fuel)%nat ->
  exists chunks rd',
    read_chunks fuel k_ rd = Some (chunks, rd') /\
    concat chunks = upper_all (to_come k_ rd) /\
    fp rd' = [] /\ pending_pairs k_ rd' = [] /\
    (exists full last, chunks = full ++ [last] /\
       Forall (fun v => length v = 1000%nat) full /\ (length last <= 1000)%nat).
Proof.
  induction fuel as [|fuel IH]; intros rd Hk Hok Hfuel; [lia|].
  destruct (reading_function_spec k_ rd Hk Hok)
    as (rd1 & v & stop & consumed & Hrun & Hle & Hfp & Heq & Hok1 & Hstop & Hgo).
  cbn [read_chunks]. rewrite Hrun.
  assert (Hsplit : upper_all (to_come k_ rd) = v ++ upper_all (to_come k_ rd1)).
  { unfold to_come. rewrite Hfp at 1. rewrite flat_map_app, app_assoc.
    rewrite (upper_all_app (pending_pairs k_ rd ++ flat_map (pairs_of k_) consumed)).
    rewrite <- Heq, <- app_assoc, <- upper_all_app. reflexivity. }
  destruct stop.
  - destruct (Hstop eq_refl) as [Hnil Hpend].
    exists [v], rd1. split; [reflexivity|]. split.
    + rewrite Hsplit. unfold to_come. rewrite Hnil, Hpend. simpl. reflexivity.
    + split; [exact Hnil|]. split; [exact Hpend|].
      exists [], v. split; [reflexivity|]. split; [constructor|lia].
  - specialize (Hgo eq_refl).
    assert (Hlen : length (to_come k_ rd) = (length v + length (to_come k_ rd1))%nat).
    { rewrite <- (length_upper_all (to_come k_ rd)), Hsplit, length_app, length_upper_all.
      reflexivity. }
    destruct (IH rd1 Hk Hok1) as (chunks & rd' & Hrec & Hcat & Hnil & Hpend & full & last & Hch & Hfull & Hlast);
      [lia|].
    rewrite Hrec. exists (v :: chunks), rd'. split; [reflexivity|]. split.
    + simpl. rewrite Hcat, Hsplit. reflexivity.
    + split; [exact Hnil|]. split; [exact Hpend|].
      exists (v :: full), last. split; [rewrite Hch; reflexivity|].
      split; [constructor; [lia|exact Hfull]|exact Hlast].
Qed.

(** X13. The chunks that the successive calls of [reading_function]
    hand to the workers, up to the call that returns true, are
    together the upper-cased slices of all records, each once and in
    the order of the records; every chunk but the last has 1000 pairs,
    and nothing is left to read. *)
Theorem read_chunks_all k_ rd :
  1 <= k_ <= 1000 -> reader_ok k_ rd ->
  exists chunks rd',
    read_chunks (S (length (to_come k_ rd))) k_ rd = Some (chunks, rd') /\
    concat chunks = upper_all (to_come k_ rd) /\
    fp rd' = [] /\ pending_pairs k_ rd' = [] /\
    (exists full last, chunks = full ++ [last] /\
       Forall (fun v => length v = 1000%nat) full /\ (length last <= 1000)%nat).
Proof.
  intros Hk Hok. apply read_chunks_spec; [exact Hk|exact Hok|lia].
Qed.

Lemma ex_two_ok : reader_ok 31 ex_two.
Proof.
  unfold reader_ok, ex_two, initial_reader. simpl.
  split; [reflexivity|]. split; [intros H; vm_compute in H; discriminate|].
  split; [vm_compute; discriminate|].
  repeat constructor; vm_compute; reflexivity.
Qed.

Lemma read_chunks_all_witness :
  exists chunks rd',
    read_chunks (S (length (to_come 31 ex_two))) 31 ex_two = Some (chunks, rd') /\
    concat chunks = upper_all (to_come 31 ex_two) /\
    fp rd' = [] /\ pending_pairs 31 rd' = [] /\
    (exists full last, chunks = full ++ [last] /\
       Forall (fun v => length v = 1000%nat) full /\ (length last <= 1000)%nat).
Proof.
  apply (read_chunks_all 31 ex_two).
  - lia.
  - exact ex_two_ok.
Defined.

(** The two records give one chunk of three pairs: two slices of the
    first record, upper-cased, and the second record. *)
Example ex_two_chunks :
  option_map (fun x => map (map (fun p => (length p.1, hd " "%char p.1, p.2))) x.1)
             (read_chunks 4 31 ex_two)
  = Some [[(1000%nat, "C"%char, 0); (530%nat, "C"%char, 0); (700%nat, "G"%char, 1)]].
Proof. vm_compute. reflexivity. Qed.

End ReadingAllFacts.

(** ** [initColorSets]: every unitig gets a slot of its own *)

Module ColorInitFacts.
Import ColorInit ColorInitSpec ColorInitExample.

Section Proofs.
Context {K : Type} `{Setup K}.
Hypothesis HA : Assumptions.

Lemma nb_locks_val : nb_locks = nb_threads * 256 /\ 256 <= nb_locks.
Proof.
  destruct HA as [_ _ _ _ Ht]. unfold nb_locks.
  rewrite wrap64_small; [lia|].
  change (2 ^ 56) with 72057594037927936 in Ht.
  change (2 ^ 64) with 18446744073709551616. lia.
Qed.

Lemma nb_locks_pos : 0 < nb_locks.
Proof. pose proof nb_locks_val. lia. Qed.

(** *** The overflow table *)

Lemma ov_lookup_app ov1 ov2 (key : K) :
  ov_lookup (ov1 ++ ov2) key =
  match ov_lookup ov1 key with Some v => Some v | None => ov_lookup ov2 key end.
Proof.
  induction ov1 as [|[k' v] ov1 IH]; [reflexivity|].
  simpl. destruct (decide (k' = key)); [reflexivity|exact IH].
Qed.

Lemma ov_lookup_insert_new ov (key : K) v :
  ov_lookup ov key = None -> ov_lookup (ov_insert ov key v) key = Some v.
Proof.
  intros Hn. unfold ov_insert. rewrite Hn, ov_lookup_app, Hn. simpl.
  rewrite decide_True by reflexivity. reflexivity.
Qed.

Lemma ov_lookup_insert_ne ov (key key' : K) v :
  key <> key' -> ov_lookup (ov_insert ov key v) key' = ov_lookup ov key'.
Proof.
  intros Hne. unfold ov_insert. destruct (ov_lookup ov key); [reflexivity|].
  rewrite ov_lookup_app. destruct (ov_lookup ov key'); [reflexivity|].
  simpl. rewrite decide_False by exact Hne. reflexivity.
Qed.

(** *** Flags *)

Lemma flag_nonneg (s : state K) l b : flag s l = Some b -> 0 <= l.
Proof. unfold flag. destruct (l <? 0) eqn:E; [discriminate|]. lia. Qed.

Lemma flag_set_eq (s s' : state K) l b b0 :
  cs_locks s' = <[Z.to_nat l := b]> (cs_locks s) ->
  flag s l = Some b0 -> flag s' l = Some b.
Proof.
  unfold flag. intros ->. destruct (l <? 0); [discriminate|]. intros Hl.
  apply list_lookup_insert_eq. eapply lookup_lt_Some; eauto.
Qed.

Lemma flag_set_ne (s s' : state K) l l2 b b2 :
  cs_locks s' = <[Z.to_nat l := b]> (cs_locks s) ->
  l <> l2 -> 0 <= l -> flag s l2 = Some b2 -> flag s' l2 = Some b2.
Proof.
  intros Hs Hne Hl Hf. pose proof (flag_nonneg _ _ _ Hf) as Hl2.
  unfold flag in *. rewrite Hs. destruct (l2 <? 0); [discriminate|].
  rewrite list_lookup_insert_ne by lia. exact Hf.
Qed.

Lemma flag_same (s s' : state K) l :
  cs_locks s' = cs_locks s -> flag s' l = flag s l.
Proof. unfold flag. intros ->. reflexivity. Qed.

Lemma heads_inj u1 u2 (head : K) :
  heads !! u1 = Some head -> heads !! u2 = Some head -> u1 = u2.
Proof. intros H1 H2. eapply NoDup_lookup; eauto. apply HA. Qed.


(** *** Workers seen by one another *)

Lemma compat_sym w1 w2 : compat w1 w2 -> compat w2 w1.
Proof.
  intros (Hl & Hm & Hr). split; [|split].
  - intros l1 l2 H1 H2 He. apply (Hl l2 l1 H2 H1). congruence.
  - intros H1 H2. apply Hm; assumption.
  - intros a1 b1 p1 a2 b2 p2 H1 H2.
    destruct (Hr a2 b2 p2 a1 b1 p1 H2 H1); [right|left]; assumption.
Qed.

(** A step of worker [t] re-establishes the invariant when it does for
    [t] itself, for each other worker, and for the unitigs that are
    through. *)
Lemma inv_intro (s s' : state K) t w w' :
  Inv s -> workers s !! t = Some w ->
  workers s' = <[t := w']> (workers s) ->
  length (color_sets s') = length (color_sets s) ->
  length (cs_locks s') = length (cs_locks s) ->
  length (data s') = length (data s) ->
  (g_a s' <= length heads)%nat ->
  (0 <= last_empty_pos s' /\
   (last_empty_pos s' < nb_color_sets \/ heads = [])) ->
  (forall u head, pending s' u -> heads !! u = Some head -> absent s' head) ->
  local_ok s' w' ->
  (forall t2 w2, t2 <> t -> workers s !! t2 = Some w2 ->
     local_ok s' w2 /\ compat w' w2) ->
  (forall u, finished s' u -> exists h_v, has_slot s' u h_v) ->
  (forall u1 u2 h_v, claim s' u1 h_v -> claim s' u2 h_v -> u1 = u2) ->
  Inv s'.
Proof.
  intros HI Hw Hws Hcs Hlk Hd Hga Hlep Hfr Hloc Hoth Hdone Hinj.
  assert (Hlt : (t < length (workers s))%nat) by (eapply lookup_lt_Some; eauto).
  split; try assumption.
  - rewrite Hcs. apply HI.
  - rewrite Hlk. apply HI.
  - rewrite Hd. apply HI.
  - rewrite Hws, length_insert. apply HI.
  - intros t2 w2. rewrite Hws. destruct (decide (t2 = t)) as [->|Hne].
    + rewrite list_lookup_insert_eq by exact Hlt. intros [= <-]. exact Hloc.
    + rewrite list_lookup_insert_ne by congruence. intros Hw2.
      apply (Hoth t2 w2 Hne Hw2).
  - intros t1 t2 w1 w2 Hne. rewrite Hws.
    destruct (decide (t1 = t)) as [->|Hne1].
    + rewrite list_lookup_insert_eq by exact Hlt.
      rewrite list_lookup_insert_ne by congruence.
      intros [= <-] Hw2. apply (Hoth t2 w2); [congruence|exact Hw2].
    + rewrite list_lookup_insert_ne by congruence.
      destruct (decide (t2 = t)) as [->|Hne2].
      * rewrite list_lookup_insert_eq by exact Hlt. intros Hw1 [= <-].
        apply compat_sym. apply (Hoth t1 w1 Hne1 Hw1).
      * rewrite list_lookup_insert_ne by congruence.
        intros Hw1 Hw2. apply (inv_compat s HI t1 t2); assumption.
Qed.

(** *** The unitigs that are through, seen from one worker *)

Lemma finished_split (s : state K) t w u :
  workers s !! t = Some w ->
  finished s u <->
  (u < g_a s)%nat /\ ~ in_range w u /\
  (forall t2 a b p, t2 <> t -> workers s !! t2 = Some (Work a b p) ->
     ~ (a <= u < b)%nat).
Proof.
  intros Hw. unfold finished. split.
  - intros [Hu Hr]. split; [exact Hu|]. split.
    + destruct w as [|a b p|]; simpl; auto. apply (Hr t a b p Hw).
    + intros t2 a b p _. apply Hr.
  - intros (Hu & Hin & Hr). split; [exact Hu|].
    intros t2 a b p Hw2. destruct (decide (t2 = t)) as [->|Hne].
    + rewrite Hw in Hw2. injection Hw2 as ->. exact Hin.
    + apply (Hr t2 a b p Hne Hw2).
Qed.

Lemma finished_update (s s' : state K) t w w' u :
  workers s !! t = Some w ->
  workers s' = <[t := w']> (workers s) ->
  ((u < g_a s')%nat /\ ~ in_range w' u <-> (u < g_a s)%nat /\ ~ in_range w u) ->
  finished s' u <-> finished s u.
Proof.
  intros Hw Hws Hiff.
  assert (Hlt : (t < length (workers s))%nat) by (eapply lookup_lt_Some; eauto).
  assert (Hw' : workers s' !! t = Some w').
  { rewrite Hws. apply list_lookup_insert_eq. exact Hlt. }
  rewrite (finished_split s' t w' u Hw'), (finished_split s t w u Hw).
  assert (Hoth : forall t2 a b p, t2 <> t ->
            (workers s' !! t2 = Some (Work a b p) <->
             workers s !! t2 = Some (Work a b p))).
  { intros t2 a b p Hne. rewrite Hws, list_lookup_insert_ne by congruence.
    reflexivity. }
  split; intros (Hu & Hin & Hr).
  - destruct Hiff as [Hi _]. destruct (Hi (conj Hu Hin)) as [Hu' Hin'].
    split; [exact Hu'|]. split; [exact Hin'|].
    intros t2 a b p Hne Hw2. apply (Hr t2 a b p Hne). apply Hoth; auto.
  - destruct Hiff as [_ Hi]. destruct (Hi (conj Hu Hin)) as [Hu' Hin'].
    split; [exact Hu'|]. split; [exact Hin'|].
    intros t2 a b p Hne Hw2. apply (Hr t2 a b p Hne). apply Hoth; auto.
Qed.

Lemma claim_split (s : state K) t w u h_v :
  workers s !! t = Some w ->
  claim s u h_v <->
  (finished s u /\ has_slot s u h_v) \/ is_clearing w u h_v \/
  (exists t2 b i l, t2 <> t /\ workers s !! t2 = Some (Work u b (AtClear i h_v l))).
Proof.
  intros Hw. unfold claim. split.
  - intros [Hf|(t2 & b & i & l & Hw2)]; [left; exact Hf|right].
    destruct (decide (t2 = t)) as [->|Hne].
    + left. rewrite Hw in Hw2. injection Hw2 as ->. simpl. auto.
    + right. eauto 8.
  - intros [Hf|[Hc|(t2 & b & i & l & Hne & Hw2)]]; [left; exact Hf| |right; eauto 8].
    right. destruct w as [|a b p|]; simpl in Hc; try contradiction.
    destruct p; try contradiction. destruct Hc as [-> ->]. eauto 8.
Qed.

(** A step after which the same unitigs are through, with the same
    slots, and which neither begins nor ends with the worker about to
    release the flag of a slot it took. *)
Lemma inv_intro_quiet (s s' : state K) t w w' :
  Inv s -> workers s !! t = Some w ->
  workers s' = <[t := w']> (workers s) ->
  length (color_sets s') = length (color_sets s) ->
  length (cs_locks s') = length (cs_locks s) ->
  length (data s') = length (data s) ->
  (g_a s' <= length heads)%nat ->
  (0 <= last_empty_pos s' /\
   (last_empty_pos s' < nb_color_sets \/ heads = [])) ->
  (forall u head, pending s' u -> heads !! u = Some head -> absent s' head) ->
  local_ok s' w' ->
  (forall t2 w2, t2 <> t -> workers s !! t2 = Some w2 ->
     local_ok s' w2 /\ compat w' w2) ->
  (forall u, finished s' u <-> finished s u) ->
  (forall u h_v, finished s u -> (has_slot s' u h_v <-> has_slot s u h_v)) ->
  (forall u h_v, ~ is_clearing w u h_v) ->
  (forall u h_v, ~ is_clearing w' u h_v) ->
  Inv s'.
Proof.
  intros HI Hw Hws Hcs Hlk Hd Hga Hlep Hfr Hloc Hoth Hfin Hslot Hnc Hnc'.
  assert (Hlt : (t < length (workers s))%nat) by (eapply lookup_lt_Some; eauto).
  assert (Hw' : workers s' !! t = Some w').
  { rewrite Hws. apply list_lookup_insert_eq. exact Hlt. }
  assert (Hclaim : forall u h_v, claim s' u h_v -> claim s u h_v).
  { intros u h_v. rewrite (claim_split s' t w' u h_v Hw'), (claim_split s t w u h_v Hw).
    intros [[Hf Hs]|[Hc|(t2 & b & i & l & Hne & Hw2)]].
    - left. apply Hfin in Hf. split; [exact Hf|]. apply Hslot; auto.
    - destruct (Hnc' u h_v Hc).
    - right. right. exists t2, b, i, l. split; [exact Hne|].
      rewrite Hws, list_lookup_insert_ne in Hw2 by congruence. exact Hw2. }
  apply (inv_intro s s' t w w'); auto.
  - intros u Hf. apply Hfin in Hf. destruct (inv_done s HI u Hf) as [h_v Hs].
    exists h_v. apply Hslot; auto.
  - intros u1 u2 h_v H1 H2. apply (inv_inj s HI u1 u2 h_v); auto.
Qed.

(** *** Steps that move one worker and leave the unitigs as they are *)

Lemma finished_same (s s' : state K) t a b p p' :
  workers s !! t = Some (Work a b p) ->
  workers s' = <[t := Work a b p']> (workers s) ->
  g_a s' = g_a s ->
  forall u, finished s' u <-> finished s u.
Proof.
  intros Hw Hws Hg u.
  assert (Hlt : (t < length (workers s))%nat) by (eapply lookup_lt_Some; eauto).
  unfold finished. rewrite Hg, Hws. split; intros [Hu Hr]; (split; [exact Hu|]).
  - intros t2 a2 b2 p2 Hw2. destruct (decide (t2 = t)) as [->|Hne].
    + rewrite Hw in Hw2. injection Hw2 as <- <- <-.
      apply (Hr t a b p'). apply list_lookup_insert_eq. exact Hlt.
    + apply (Hr t2 a2 b2 p2). rewrite list_lookup_insert_ne by congruence.
      exact Hw2.
  - intros t2 a2 b2 p2. destruct (decide (t2 = t)) as [->|Hne].
    + rewrite list_lookup_insert_eq by exact Hlt. intros [= <- <- _].
      apply (Hr t a b p Hw).
    + rewrite list_lookup_insert_ne by congruence. apply Hr.
Qed.

Lemma has_slot_same (s s' : state K) :
  data s' = data s -> overflow s' = overflow s -> color_sets s' = color_sets s ->
  forall u h_v, has_slot s' u h_v <-> has_slot s u h_v.
Proof.
  intros Hd Ho Hc u h_v. unfold has_slot, slot_of. rewrite Hd, Ho, Hc. reflexivity.
Qed.

Lemma claim_same (s s' : state K) t a b p p' :
  workers s !! t = Some (Work a b p) ->
  workers s' = <[t := Work a b p']> (workers s) ->
  g_a s' = g_a s ->
  data s' = data s -> overflow s' = overflow s -> color_sets s' = color_sets s ->
  not_clear p -> not_clear p' ->
  forall u h_v, claim s' u h_v <-> claim s u h_v.
Proof.
  intros Hw Hws Hg Hd Ho Hc Hp Hp' u h_v.
  assert (Hlt : (t < length (workers s))%nat) by (eapply lookup_lt_Some; eauto).
  unfold claim.
  rewrite (finished_same s s' t a b p p' Hw Hws Hg).
  rewrite (has_slot_same s s' Hd Ho Hc).
  split; (intros [Hf|(t2 & b2 & i & l & Hw2)]; [left; exact Hf|right]).
  - rewrite Hws in Hw2. destruct (decide (t2 = t)) as [->|Hne].
    + rewrite list_lookup_insert_eq in Hw2 by exact Hlt.
      injection Hw2 as _ _ Hq. rewrite Hq in Hp'. destruct Hp'.
    + rewrite list_lookup_insert_ne in Hw2 by congruence. eauto.
  - destruct (decide (t2 = t)) as [->|Hne].
    + rewrite Hw in Hw2. injection Hw2 as _ _ Hq. rewrite Hq in Hp. destruct Hp.
    + exists t2, b2, i, l. rewrite Hws, list_lookup_insert_ne by congruence.
      exact Hw2.
Qed.

(** The form of [inv_intro] for such a step. *)
Lemma inv_intro_pc (s s' : state K) t a b p p' :
  Inv s -> workers s !! t = Some (Work a b p) ->
  workers s' = <[t := Work a b p']> (workers s) ->
  color_sets s' = color_sets s -> overflow s' = overflow s ->
  data s' = data s -> g_a s' = g_a s ->
  length (cs_locks s') = length (cs_locks s) ->
  (0 <= last_empty_pos s' /\
   (last_empty_pos s' < nb_color_sets \/ heads = [])) ->
  not_clear p -> not_clear p' ->
  (forall head, heads !! a = Some head -> pc_ok s head p -> pc_ok s' head p') ->
  (forall t2 w2, t2 <> t -> workers s !! t2 = Some w2 ->
     local_ok s w2 -> compat (Work a b p) w2 ->
     local_ok s' w2 /\ compat (Work a b p') w2) ->
  Inv s'.
Proof.
  intros HI Hw Hws Hc Ho Hd Hg Hlk Hlep Hp Hp' Hpc Hoth.
  pose proof (inv_local s HI t _ Hw) as (Hr & head & Hh & Hok).
  apply (inv_intro s s' t (Work a b p) (Work a b p')); auto.
  - rewrite Hc. reflexivity.
  - rewrite Hd. reflexivity.
  - rewrite Hg. apply HI.
  - intros u hd Hu Hhd. unfold absent. rewrite Ho.
    apply (inv_fresh s HI u hd); [|exact Hhd].
    destruct Hu as [Hu|(t2 & a2 & b2 & p2 & Hw2 & Hu)]; [left; lia|right].
    rewrite Hws in Hw2. destruct (decide (t2 = t)) as [->|Hne].
    + rewrite list_lookup_insert_eq in Hw2 by (eapply lookup_lt_Some; eauto).
      injection Hw2 as <- <- _. eauto 6.
    + rewrite list_lookup_insert_ne in Hw2 by congruence. eauto 6.
  - simpl. rewrite Hg. split; [exact Hr|]. exists head. auto.
  - intros t2 w2 Hne Hw2. apply (Hoth t2 w2); auto.
    + eapply (inv_local s HI); eauto.
    + apply (inv_compat s HI t t2); auto.
  - intros u Hf. rewrite (finished_same s s' t a b p p' Hw Hws Hg) in Hf.
    destruct (inv_done s HI u Hf) as [h_v Hs]. exists h_v.
    apply (has_slot_same s s' Hd Ho Hc). exact Hs.
  - intros u1 u2 h_v H1 H2.
    rewrite (claim_same s s' t a b p p') in H1, H2 by assumption.
    eapply (inv_inj s HI); eauto.
Qed.


Lemma held_flag (s : state K) head p l :
  pc_ok s head p -> lock_of p = Some l -> flag s l = Some true.
Proof.
  destruct p; simpl; intros Hok [= <-]; tauto.
Qed.

Lemma held_mutex (s : state K) head p :
  pc_ok s head p -> mutex_of p = true -> mutex_cs_overflow s = true.
Proof.
  destruct p; simpl; intros Hok Hm; try discriminate; tauto.
Qed.

Lemma worker_flag (s : state K) w l :
  local_ok s w -> lock_held w = Some l -> flag s l = Some true.
Proof.
  destruct w as [|a b p|]; simpl; try discriminate.
  intros (_ & head & _ & Hok). eapply held_flag; eauto.
Qed.

Lemma worker_mutex (s : state K) w :
  local_ok s w -> mutex_held w = true -> mutex_cs_overflow s = true.
Proof.
  destruct w as [|a b p|]; simpl; try discriminate.
  intros (_ & head & _ & Hok). eapply held_mutex; eauto.
Qed.

(** Another worker [w2] is not disturbed by a step of [w] to [w'] that
    leaves alone the flag [w2] holds and the slot behind it, the entry
    of its unitig in [overflow], and the mutex and the cursor when [w2]
    holds the mutex. *)
Lemma other_ok_gen (s s' : state K) w w' w2 :
  local_ok s w2 -> compat w w2 ->
  (g_a s <= g_a s')%nat ->
  (w2 = Returned -> g_a s' = g_a s) ->
  (forall a2 b2 p2 head2, w2 = Work a2 b2 p2 -> heads !! a2 = Some head2 ->
     ov_lookup (overflow s') head2 = ov_lookup (overflow s) head2) ->
  (forall h2, 0 <= h2 -> lock_held w2 = Some (h2 mod nb_locks) ->
     color_sets s' !! Z.to_nat h2 = color_sets s !! Z.to_nat h2) ->
  (forall l2, lock_held w2 = Some l2 -> flag s' l2 = Some true) ->
  (mutex_held w2 = true ->
     mutex_cs_overflow s' = mutex_cs_overflow s /\
     last_empty_pos s' = last_empty_pos s) ->
  (forall l, lock_held w' = Some l -> lock_held w = Some l \/ flag s l = Some false) ->
  (mutex_held w' = true -> mutex_held w = true \/ mutex_cs_overflow s = false) ->
  (forall a1 b1 p1, w' = Work a1 b1 p1 ->
     (exists a b p, w = Work a b p /\ (a <= a1 /\ b1 <= b)%nat) \/
     (g_a s <= a1)%nat) ->
  local_ok s' w2 /\ compat w' w2.
Proof.
  intros Hok (Hcl & Hcm & Hcr) Hg Hret Hov Hcs Hfl Hmx Hl' Hm' Hr'. split.
  - destruct w2 as [|a2 b2 p2|]; simpl in *; [exact I| |rewrite Hret; auto].
    destruct Hok as (Hr & head & Hh & Hpc). split; [lia|].
    exists head. split; [exact Hh|].
    specialize (Hov a2 b2 p2 head eq_refl Hh).
    destruct p2; simpl in *; unfold absent, chosen, absent in *;
      rewrite ?Hov;
      try (destruct (Hmx eq_refl) as [Hm1 Hm2]; rewrite ?Hm1, ?Hm2);
      repeat match goal with
        | |- _ /\ _ => split
        | |- flag s' _ = Some true => apply Hfl; reflexivity
        | |- color_sets s' !! _ = _ => rewrite Hcs; [|tauto|f_equal; tauto]
        end; tauto.
  - split; [|split].
    + intros l1 l2 H1 H2. destruct (Hl' l1 H1) as [Hp|Hf].
      * apply (Hcl l1 l2); auto.
      * pose proof (worker_flag s w2 l2 Hok H2). congruence.
    + intros H1 H2. destruct (Hm' H1) as [Hp|Hf].
      * apply Hcm; auto.
      * pose proof (worker_mutex s w2 Hok H2). congruence.
    + intros a1 b1 p1 a2 b2 p2 -> ->.
      destruct (Hr' a1 b1 p1 eq_refl) as [(a & b & p & -> & Ha & Hb)|Hga].
      * destruct (Hcr a b p a2 b2 p2 eq_refl eq_refl); [left|right]; lia.
      * simpl in Hok. right. lia.
Qed.

Lemma other_ok (s s' : state K) a b p p' w2 :
  local_ok s w2 -> compat (Work a b p) w2 ->
  g_a s' = g_a s -> overflow s' = overflow s -> color_sets s' = color_sets s ->
  (forall l2, lock_held w2 = Some l2 -> flag s' l2 = Some true) ->
  (mutex_held w2 = true ->
     mutex_cs_overflow s' = mutex_cs_overflow s /\
     last_empty_pos s' = last_empty_pos s) ->
  (forall l, lock_of p' = Some l -> lock_of p = Some l \/ flag s l = Some false) ->
  (mutex_of p' = true -> mutex_of p = true \/ mutex_cs_overflow s = false) ->
  local_ok s' w2 /\ compat (Work a b p') w2.
Proof.
  intros Hok Hc Hg Ho Hcs Hfl Hmx Hl' Hm'.
  apply (other_ok_gen s s' (Work a b p) (Work a b p') w2); auto.
  - lia.
  - intros. rewrite Ho. reflexivity.
  - intros. rewrite Hcs. reflexivity.
  - intros a1 b1 p1 [= <- <- <-]. left. exists a, b, p. split; [reflexivity|lia].
Qed.

(** *** Reads that are defined *)

Lemma heads_nonempty a (head : K) : heads !! a = Some head -> 1 <= nb_color_sets.
Proof.
  intros Hh. apply lookup_lt_Some in Hh. pose proof (as_sets HA). lia.
Qed.

Lemma slot_hash_range (head : K) i h_v :
  slot_hash head i = Some h_v -> 0 <= h_v < nb_color_sets.
Proof.
  unfold slot_hash. destruct (i <? 0); [discriminate|].
  destruct (seeds !! Z.to_nat i); [|discriminate]. simpl.
  destruct (nb_color_sets =? 0) eqn:E; [discriminate|].
  intros [= <-]. apply Z.eqb_neq in E. pose proof (as_sets HA).
  apply Z.mod_pos_bound. lia.
Qed.

Lemma slot_hash_defined a (head : K) i :
  heads !! a = Some head -> 0 <= i < max_nb_hash ->
  exists h_v, slot_hash head i = Some h_v.
Proof.
  intros Hh Hi. pose proof (heads_nonempty a head Hh) as Hn.
  unfold slot_hash. destruct (i <? 0) eqn:E; [lia|].
  destruct (seeds !! Z.to_nat i) as [seed|] eqn:Es.
  - simpl. destruct (nb_color_sets =? 0) eqn:E0; [lia|]. eauto.
  - apply lookup_ge_None in Es. pose proof (as_seeds HA). lia.
Qed.

Lemma flag_defined (s : state K) z :
  Inv s -> exists b, flag s (z mod nb_locks) = Some b.
Proof.
  intros HI. pose proof nb_locks_pos as HL.
  pose proof (Z.mod_pos_bound z nb_locks HL) as Hm.
  unfold flag. destruct (z mod nb_locks <? 0) eqn:E; [lia|].
  apply lookup_lt_is_Some. rewrite (inv_len_locks s HI). lia.
Qed.

Lemma occupancy_defined (s : state K) h_v :
  Inv s -> 0 <= h_v < nb_color_sets ->
  exists o, color_sets s !! Z.to_nat h_v = Some o /\
            isUnoccupied s h_v = Some (negb o).
Proof.
  intros HI Hh. unfold isUnoccupied. destruct (h_v <? 0) eqn:E; [lia|].
  destruct (color_sets s !! Z.to_nat h_v) as [o|] eqn:Eo.
  - exists o. split; reflexivity.
  - apply lookup_ge_None in Eo. rewrite (inv_len_cs s HI) in Eo. lia.
Qed.

(** *** The steps of the hashing loop *)

Lemma step_AtHash (s : state K) t a b i head :
  Inv s -> workers s !! t = Some (Work a b (AtHash i)) ->
  heads !! a = Some head ->
  exists s', step_work s t a b (AtHash i) = Some s' /\ Inv s'.
Proof.
  intros HI Hw Hh.
  pose proof (inv_local s HI t _ Hw) as (Hr & head' & Hh' & Hi & Habs).
  assert (head' = head) by congruence. subst head'.
  unfold step_work. rewrite Hh. cbn [mbind option_bind].
  destruct (i <? max_nb_hash) eqn:Ei.
  - apply Z.ltb_lt in Ei.
    destruct (slot_hash_defined a head i Hh) as [h_v Hs]; [lia|].
    rewrite Hs. cbn [mbind option_bind].
    pose proof nb_locks_pos as HL.
    pose proof (Z.mod_pos_bound h_v nb_locks HL) as Hm.
    destruct (nb_locks =? 0) eqn:E0; [lia|].
    destruct (flag_defined s h_v HI) as [locked Hf]. rewrite Hf.
    cbn [mbind option_bind]. destruct locked.
    + exists s. auto.
    + eexists. split; [reflexivity|].
      eapply (inv_intro_pc s _ t a b (AtHash i)); try reflexivity; try exact I; auto.
      * simpl. rewrite length_insert. reflexivity.
      * apply HI.
      * intros hd Hhd _. assert (hd = head) by congruence. subst hd.
        simpl. split; [lia|]. split; [exact Hs|]. split; [reflexivity|].
        split; [|exact Habs].
        eapply flag_set_eq; [reflexivity|exact Hf].
      * intros t2 w2 Hne Hw2 Hok2 Hc2.
        apply (other_ok s _ a b (AtHash i) _ w2); auto; try (simpl; intros; discriminate).
        -- intros l2 Hl2. pose proof (worker_flag s w2 l2 Hok2 Hl2) as Hf2.
           eapply flag_set_ne; [reflexivity| |lia|exact Hf2]. congruence.
        -- intros l [= <-]. right. exact Hf.
  - apply Z.ltb_ge in Ei. eexists. split; [reflexivity|].
    eapply (inv_intro_pc s _ t a b (AtHash i)); try reflexivity; try exact I; auto.
    + apply HI.
    + intros hd Hhd [_ Ha]. exact Ha.
    + intros t2 w2 Hne Hw2 Hok2 Hc2.
      apply (other_ok s _ a b (AtHash i) _ w2); auto; try (simpl; intros; discriminate).
      intros l2 Hl2. apply (worker_flag s w2 l2 Hok2 Hl2).
Qed.


Lemma step_AtProbe (s : state K) t a b i h_v l head :
  Inv s -> workers s !! t = Some (Work a b (AtProbe i h_v l)) ->
  heads !! a = Some head ->
  exists s', step_work s t a b (AtProbe i h_v l) = Some s' /\ Inv s'.
Proof.
  intros HI Hw Hh.
  pose proof (inv_compat s HI t) as Hcompat.
  pose proof (inv_local s HI t _ Hw) as (Hr & head' & Hh' & Hi & Hs & Hl & Hf & Habs).
  assert (head' = head) by congruence. subst head'.
  pose proof (slot_hash_range head i h_v Hs) as Hrange.
  destruct (occupancy_defined s h_v HI Hrange) as (o & Ho & Hu).
  unfold step_work. rewrite Hh. cbn [mbind option_bind].
  rewrite Hu. cbn [mbind option_bind].
  pose proof (flag_nonneg s l true Hf) as Hl0.
  destruct o; simpl negb; cbv iota.
  - eexists. split; [reflexivity|].
    eapply (inv_intro_pc s _ t a b (AtProbe i h_v l)); try reflexivity; try exact I; auto.
    + simpl. rewrite length_insert. reflexivity.
    + apply HI.
    + intros hd Hhd _. assert (hd = head) by congruence. subst hd.
      simpl. split; [lia|exact Habs].
    + intros t2 w2 Hne Hw2 Hok2 Hc2.
      apply (other_ok s _ a b (AtProbe i h_v l) _ w2); auto; try (simpl; intros; discriminate).
      intros l2 Hl2. pose proof (worker_flag s w2 l2 Hok2 Hl2) as Hf2.
      eapply flag_set_ne; [reflexivity| |lia|exact Hf2].
      destruct Hc2 as (Hcl & _). apply (Hcl l l2); auto.
  - eexists. split; [reflexivity|].
    eapply (inv_intro_pc s _ t a b (AtProbe i h_v l)); try reflexivity; try exact I; auto.
    + apply HI.
    + intros hd Hhd _. assert (hd = head) by congruence. subst hd.
      simpl. split; [lia|]. split; [exact Hl|]. split; [exact Hf|].
      split; [exact Ho|]. left. auto.
    + intros t2 w2 Hne Hw2 Hok2 Hc2.
      apply (other_ok s _ a b (AtProbe i h_v l) _ w2); auto; try (simpl; intros; discriminate).
      intros l2 Hl2. apply (worker_flag s w2 l2 Hok2 Hl2).
Qed.

(** *** The steps of the overflow path *)

Lemma step_AtMutex (s : state K) t a b head :
  Inv s -> workers s !! t = Some (Work a b AtMutex) ->
  heads !! a = Some head ->
  exists s', step_work s t a b AtMutex = Some s' /\ Inv s'.
Proof.
  intros HI Hw Hh.
  pose proof (inv_local s HI t _ Hw) as (Hr & head' & Hh' & Habs).
  assert (head' = head) by congruence. subst head'.
  unfold step_work. rewrite Hh. cbn [mbind option_bind].
  destruct (mutex_cs_overflow s) eqn:Em.
  - exists s. auto.
  - eexists. split; [reflexivity|].
    eapply (inv_intro_pc s _ t a b AtMutex); try reflexivity; try exact I; auto.
    + apply HI.
    + intros hd Hhd _. assert (hd = head) by congruence. subst hd.
      simpl. auto.
    + intros t2 w2 Hne Hw2 Hok2 Hc2.
      apply (other_ok s _ a b AtMutex _ w2); auto; try (simpl; intros; discriminate).
      * intros l2 Hl2. apply (worker_flag s w2 l2 Hok2 Hl2).
      * intros Hm2. pose proof (worker_mutex s w2 Hok2 Hm2). congruence.
Qed.

Lemma step_AtOvSpin (s : state K) t a b head :
  Inv s -> workers s !! t = Some (Work a b AtOvSpin) ->
  heads !! a = Some head ->
  exists s', step_work s t a b AtOvSpin = Some s' /\ Inv s'.
Proof.
  intros HI Hw Hh.
  pose proof (inv_local s HI t _ Hw) as (Hr & head' & Hh' & Hmx & Habs).
  assert (head' = head) by congruence. subst head'.
  unfold step_work. rewrite Hh. cbn [mbind option_bind].
  pose proof nb_locks_pos as HL.
  pose proof (Z.mod_pos_bound (last_empty_pos s) nb_locks HL) as Hm.
  destruct (nb_locks =? 0) eqn:E0; [lia|].
  destruct (flag_defined s (last_empty_pos s) HI) as [locked Hf]. rewrite Hf.
  cbn [mbind option_bind]. destruct locked.
  - exists s. auto.
  - eexists. split; [reflexivity|].
    eapply (inv_intro_pc s _ t a b AtOvSpin); try reflexivity; try exact I; auto.
    + simpl. rewrite length_insert. reflexivity.
    + apply HI.
    + intros hd Hhd _. assert (hd = head) by congruence. subst hd.
      simpl. split; [exact Hmx|]. split; [reflexivity|]. split; [|exact Habs].
      eapply flag_set_eq; [reflexivity|exact Hf].
    + intros t2 w2 Hne Hw2 Hok2 Hc2.
      apply (other_ok s _ a b AtOvSpin _ w2); auto; try (simpl; intros; discriminate).
      * intros l2 Hl2. pose proof (worker_flag s w2 l2 Hok2 Hl2) as Hf2.
        eapply flag_set_ne; [reflexivity| |lia|exact Hf2]. congruence.
      * intros l [= <-]. right. exact Hf.
Qed.

Lemma lep_range (s : state K) a head :
  Inv s -> heads !! a = Some head -> 0 <= last_empty_pos s < nb_color_sets.
Proof.
  intros HI Hh. destruct (inv_lep s HI) as [H0 [H1|H1]]; [lia|].
  rewrite H1 in Hh. discriminate.
Qed.

Lemma step_AtOvProbe (s : state K) t a b l head :
  Inv s -> workers s !! t = Some (Work a b (AtOvProbe l)) ->
  heads !! a = Some head ->
  exists s', step_work s t a b (AtOvProbe l) = Some s' /\ Inv s'.
Proof.
  intros HI Hw Hh.
  pose proof (inv_local s HI t _ Hw) as (Hr & head' & Hh' & Hmx & Hl & Hf & Habs).
  assert (head' = head) by congruence. subst head'.
  pose proof (lep_range s a head HI Hh) as Hrange.
  destruct (occupancy_defined s _ HI Hrange) as (o & Ho & Hu).
  unfold step_work. rewrite Hh. cbn [mbind option_bind].
  rewrite Hu. cbn [mbind option_bind].
  pose proof (flag_nonneg s l true Hf) as Hl0.
  destruct o; simpl negb; cbv iota.
  - eexists. split; [reflexivity|].
    eapply (inv_intro_pc s _ t a b (AtOvProbe l)); try reflexivity; try exact I; auto.
    + simpl. rewrite length_insert. reflexivity.
    + simpl. split.
      * destruct (wrap64 (last_empty_pos s + 1) =? nb_color_sets); [lia|].
        unfold wrap64. apply Z.mod_pos_bound. lia.
      * left. pose proof (as_sets HA) as Hn.
        rewrite wrap64_small by lia.
        destruct (last_empty_pos s + 1 =? nb_color_sets) eqn:E; lia.
    + intros hd Hhd _. assert (hd = head) by congruence. subst hd.
      simpl. split; [exact Hmx|exact Habs].
    + intros t2 w2 Hne Hw2 Hok2 Hc2.
      destruct Hc2 as (Hcl & Hcm & Hcr).
      apply (other_ok s _ a b (AtOvProbe l) _ w2); auto; try (simpl; intros; discriminate).
      * split; [exact Hcl|]. split; [exact Hcm|exact Hcr].
      * intros l2 Hl2. pose proof (worker_flag s w2 l2 Hok2 Hl2) as Hf2.
        eapply flag_set_ne; [reflexivity| |lia|exact Hf2].
        apply (Hcl l l2); auto.
      * intros Hm2. exfalso. apply Hcm; auto.
  - eexists. split; [reflexivity|].
    eapply (inv_intro_pc s _ t a b (AtOvProbe l)); try reflexivity; try exact I; auto.
    + apply HI.
    + intros hd Hhd _. assert (hd = head) by congruence. subst hd.
      simpl. split; [exact Hmx|]. split; [exact Hl|]. split; [exact Hf|].
      split; [lia|]. split; [exact Ho|exact Habs].
    + intros t2 w2 Hne Hw2 Hok2 Hc2.
      apply (other_ok s _ a b (AtOvProbe l) _ w2); auto; try (simpl; intros; discriminate).
      intros l2 Hl2. apply (worker_flag s w2 l2 Hok2 Hl2).
Qed.


(** *** Taking a chunk *)

Lemma step_Fetch (s : state K) t :
  Inv s -> workers s !! t = Some Fetch ->
  exists s', step s t = Some s' /\ Inv s'.
Proof.
  intros HI Hw. unfold step. rewrite Hw.
  destruct (decide (g_a s = length heads)) as [Hg|Hg].
  - eexists. split; [reflexivity|].
    apply (inv_intro_quiet s _ t Fetch Returned); auto; try apply HI.
    + intros u head Hp Hh. apply (inv_fresh s HI u head); [|exact Hh].
      destruct Hp as [Hp|(t2 & a & b & p & Hw2 & Hu)]; [left; exact Hp|right].
      simpl in Hw2. destruct (decide (t2 = t)) as [->|Hne].
      * rewrite list_lookup_insert_eq in Hw2 by (eapply lookup_lt_Some; eauto).
        discriminate.
      * rewrite list_lookup_insert_ne in Hw2 by congruence. eauto 6.
    + intros t2 w2 Hne Hw2.
      pose proof (inv_local s HI t2 w2 Hw2) as Hok2.
      pose proof (inv_compat s HI t t2 Fetch w2 ltac:(congruence) Hw Hw2) as Hc2.
      apply (other_ok_gen s _ Fetch Returned w2); auto;
        try (simpl; intros; discriminate).
      intros l2 Hl2. apply (worker_flag s w2 l2 Hok2 Hl2).
    + intros u. apply (finished_update s _ t Fetch Returned u Hw); [reflexivity|].
      simpl. tauto.
  - pose proof (inv_g_a s HI) as Hga.
    set (l_b := Nat.min (g_a s + chunk) (length heads)).
    assert (Hlb : (g_a s < l_b <= length heads)%nat) by (unfold l_b, chunk; lia).
    destruct (lookup_lt_is_Some_2 heads (g_a s)) as [head Hh]; [lia|].
    eexists. split; [reflexivity|].
    apply (inv_intro_quiet s _ t Fetch (Work (g_a s) l_b (AtHash 0)));
      auto; try apply HI.
    + simpl. lia.
    + intros u hd Hp Hhd. apply (inv_fresh s HI u hd); [|exact Hhd].
      destruct Hp as [Hp|(t2 & a & b & p & Hw2 & Hu)].
      * left. simpl in Hp. lia.
      * simpl in Hw2. destruct (decide (t2 = t)) as [->|Hne].
        -- rewrite list_lookup_insert_eq in Hw2 by (eapply lookup_lt_Some; eauto).
           injection Hw2 as <- <- _. left. lia.
        -- rewrite list_lookup_insert_ne in Hw2 by congruence. right. eauto 6.
    + simpl. split; [lia|]. exists head. split; [exact Hh|].
      split; [pose proof (as_max HA); lia|].
      apply (inv_fresh s HI (g_a s) head); [left; lia|exact Hh].
    + intros t2 w2 Hne Hw2.
      pose proof (inv_local s HI t2 w2 Hw2) as Hok2.
      pose proof (inv_compat s HI t t2 Fetch w2 ltac:(congruence) Hw Hw2) as Hc2.
      apply (other_ok_gen s _ Fetch (Work (g_a s) l_b (AtHash 0)) w2); auto;
        try (simpl; intros; discriminate).
      * simpl. lia.
      * intros ->. simpl in Hok2. contradiction.
      * intros l2 Hl2. apply (worker_flag s w2 l2 Hok2 Hl2).
      * intros a1 b1 p1 [= <- <- <-]. right. lia.
    + intros u.
      apply (finished_update s _ t Fetch (Work (g_a s) l_b (AtHash 0)) u Hw);
        [reflexivity|].
      simpl. lia.
Qed.


(** *** Slots *)

Lemma has_slot_fun (s : state K) u h1 h2 :
  has_slot s u h1 -> has_slot s u h2 -> h1 = h2.
Proof.
  intros (hd1 & b1 & Hh1 & Hd1 & _ & Hs1 & _) (hd2 & b2 & Hh2 & Hd2 & _ & Hs2 & _).
  congruence.
Qed.

Lemma has_slot_occupied (s : state K) u h_v :
  has_slot s u h_v -> 0 <= h_v /\ color_sets s !! Z.to_nat h_v = Some true.
Proof. intros (hd & b & _ & _ & _ & _ & H0 & Ho). auto. Qed.

Lemma claim_occupied (s : state K) u h_v :
  Inv s -> claim s u h_v ->
  0 <= h_v /\ color_sets s !! Z.to_nat h_v = Some true.
Proof.
  intros HI [[_ Hs]|(t & b & i & l & Hw)].
  - eapply has_slot_occupied; eauto.
  - pose proof (inv_local s HI t _ Hw) as (_ & head & _ & Hpc). simpl in Hpc. tauto.
Qed.

Lemma has_slot_iff (s s' : state K) u h_v :
  data s' !! u = data s !! u ->
  (forall head, heads !! u = Some head ->
     ov_lookup (overflow s') head = ov_lookup (overflow s) head) ->
  color_sets s' = color_sets s ->
  has_slot s' u h_v <-> has_slot s u h_v.
Proof.
  intros Hd Ho Hc. unfold has_slot, slot_of. rewrite Hd, Hc.
  split; intros (hd & b & Hh & Hdu & Hb & Hs & Hrest); exists hd, b;
    (split; [exact Hh|]); (split; [exact Hdu|]); (split; [exact Hb|]);
    (split; [|exact Hrest]); rewrite (Ho hd Hh) in *; exact Hs.
Qed.

(** The unitig a worker is at is neither pending nor through, and is
    no other worker's. *)
Lemma current_not_pending (s : state K) t a b p u :
  Inv s -> workers s !! t = Some (Work a b p) -> pending s u -> u <> a.
Proof.
  intros HI Hw Hp ->.
  pose proof (inv_local s HI t _ Hw) as (Hr & _).
  destruct Hp as [Hp|(t2 & a2 & b2 & p2 & Hw2 & Hu)]; [lia|].
  destruct (decide (t2 = t)) as [->|Hne].
  - rewrite Hw in Hw2. injection Hw2 as <- <- <-. lia.
  - destruct (inv_compat s HI t t2 _ _ ltac:(congruence) Hw Hw2) as (_ & _ & Hcr).
    destruct (Hcr a b p a2 b2 p2 eq_refl eq_refl); lia.
Qed.

Lemma current_not_finished (s : state K) t a b p :
  Inv s -> workers s !! t = Some (Work a b p) -> ~ finished s a.
Proof.
  intros HI Hw [_ Hf].
  pose proof (inv_local s HI t _ Hw) as (Hr & _).
  apply (Hf t a b p Hw). lia.
Qed.

Lemma current_not_other (s : state K) t a b p t2 a2 b2 p2 :
  Inv s -> workers s !! t = Some (Work a b p) -> t2 <> t ->
  workers s !! t2 = Some (Work a2 b2 p2) -> a2 <> a.
Proof.
  intros HI Hw Hne Hw2 ->.
  pose proof (inv_local s HI t _ Hw) as (Hr & _).
  pose proof (inv_local s HI t2 _ Hw2) as (Hr2 & _).
  destruct (inv_compat s HI t t2 _ _ ltac:(congruence) Hw Hw2) as (_ & _ & Hcr).
  destruct (Hcr a b p a b2 p2 eq_refl eq_refl); lia.
Qed.

Lemma pending_same (s s' : state K) t a b p p' u :
  workers s !! t = Some (Work a b p) ->
  workers s' = <[t := Work a b p']> (workers s) ->
  g_a s' = g_a s ->
  pending s' u -> pending s u.
Proof.
  intros Hw Hws Hg [Hp|(t2 & a2 & b2 & p2 & Hw2 & Hu)]; [left; lia|right].
  rewrite Hws in Hw2. destruct (decide (t2 = t)) as [->|Hne].
  - rewrite list_lookup_insert_eq in Hw2 by (eapply lookup_lt_Some; eauto).
    injection Hw2 as <- <- _. eauto 6.
  - rewrite list_lookup_insert_ne in Hw2 by congruence. eauto 6.
Qed.

(** *** Entering the unitig in [overflow] *)

Lemma step_AtOvInsert (s : state K) t a b l head :
  Inv s -> workers s !! t = Some (Work a b (AtOvInsert l)) ->
  heads !! a = Some head ->
  exists s', step_work s t a b (AtOvInsert l) = Some s' /\ Inv s'.
Proof.
  intros HI Hw Hh.
  pose proof (inv_local s HI t _ Hw)
    as (Hr & head' & Hh' & Hmx & Hl & Hf & Hlep & Ho & Habs).
  assert (head' = head) by congruence. subst head'.
  unfold step_work. rewrite Hh. cbn [mbind option_bind].
  eexists. split; [reflexivity|].
  set (s' := set_worker _ _ _).
  assert (Hov : forall u hd, u <> a -> heads !! u = Some hd ->
            ov_lookup (overflow s') hd = ov_lookup (overflow s) hd).
  { intros u hd Hne Hhd. simpl. apply ov_lookup_insert_ne.
    intros ->. apply Hne. eapply heads_inj; eauto. }
  assert (Hpend : forall u, pending s' u -> pending s u).
  { intros u. apply (pending_same s s' t a b (AtOvInsert l)
                       (AtSet max_nb_hash (last_empty_pos s) l) u Hw); reflexivity. }
  apply (inv_intro_quiet s s' t (Work a b (AtOvInsert l))
           (Work a b (AtSet max_nb_hash (last_empty_pos s) l)));
    auto; try apply HI.
  - intros u hd Hp Hhd. apply Hpend in Hp. unfold absent. rewrite (Hov u hd); auto.
    + apply (inv_fresh s HI u hd); auto.
    + apply (current_not_pending s t a b _ u HI Hw Hp).
  - simpl. split; [exact Hr|]. exists head. split; [exact Hh|].
    split; [exact Hlep|]. split; [exact Hl|]. split; [exact Hf|].
    split; [exact Ho|]. right. split; [reflexivity|].
    apply ov_lookup_insert_new. exact Habs.
  - intros t2 w2 Hne Hw2.
    pose proof (inv_local s HI t2 w2 Hw2) as Hok2.
    pose proof (inv_compat s HI t t2 _ w2 ltac:(congruence) Hw Hw2) as Hc2.
    apply (other_ok_gen s s' (Work a b (AtOvInsert l)) _ w2); auto;
      try (simpl; intros; discriminate).
    + intros a2 b2 p2 head2 He Hh2. subst w2. apply (Hov a2); auto.
      apply (current_not_other s t a b _ t2 a2 b2 p2 HI Hw Hne Hw2).
    + intros l2 Hl2. apply (worker_flag s w2 l2 Hok2 Hl2).
    + intros Hm2. exfalso. destruct Hc2 as (_ & Hcm & _). apply Hcm; auto.
    + intros a1 b1 p1 [= <- <- <-]. left. exists a, b, (AtOvInsert l).
      split; [reflexivity|lia].
  - intros u.
    apply (finished_update s s' t _ (Work a b (AtSet max_nb_hash (last_empty_pos s) l))
             u Hw); [reflexivity|].
    simpl. tauto.
  - intros u h_v Hfin. apply has_slot_iff; auto.
    intros hd Hhd. apply (Hov u); auto.
    intros ->. apply (current_not_finished s t a b _ HI Hw Hfin).
Qed.


(** *** Marking the slot *)

Lemma has_slot_mono (s s' : state K) u h_v :
  data s' = data s -> overflow s' = overflow s ->
  (forall x, color_sets s !! x = Some true -> color_sets s' !! x = Some true) ->
  has_slot s u h_v -> has_slot s' u h_v.
Proof.
  intros Hd Ho Hc (hd & b & Hh & Hdu & Hb & Hs & H0 & Hocc).
  exists hd, b. unfold slot_of in *. rewrite Hd, Ho. auto 10.
Qed.

Lemma step_AtSet (s : state K) t a b i h_v l head :
  Inv s -> workers s !! t = Some (Work a b (AtSet i h_v l)) ->
  heads !! a = Some head ->
  exists s', step_work s t a b (AtSet i h_v l) = Some s' /\ Inv s'.
Proof.
  intros HI Hw Hh.
  pose proof (inv_local s HI t _ Hw)
    as (Hr & head' & Hh' & H0 & Hl & Hf & Ho & Hch).
  assert (head' = head) by congruence. subst head'.
  assert (Hlen : (Z.to_nat h_v < length (color_sets s))%nat)
    by (eapply lookup_lt_Some; eauto).
  unfold step_work. rewrite Hh. cbn [mbind option_bind].
  destruct ((h_v <? 0) || (Z.of_nat (length (color_sets s)) <=? h_v)) eqn:Eb.
  { apply orb_true_iff in Eb as [Eb|Eb]; [apply Z.ltb_lt in Eb|apply Z.leb_le in Eb]; lia. }
  eexists. split; [reflexivity|].
  set (w' := Work a b (AtClear i h_v l)).
  set (s' := set_worker _ _ _).
  assert (Hws : workers s' = <[t := w']> (workers s)) by reflexivity.
  assert (Hmono : forall x, color_sets s !! x = Some true ->
                            color_sets s' !! x = Some true).
  { intros x Hx. simpl. destruct (decide (x = Z.to_nat h_v)) as [->|Hne].
    - apply list_lookup_insert_eq. exact Hlen.
    - rewrite list_lookup_insert_ne by congruence. exact Hx. }
  assert (Hfin : forall u, finished s' u <-> finished s u).
  { intros u. apply (finished_update s s' t _ w' u Hw Hws). simpl. tauto. }
  assert (Hold : forall u hv, claim s' u hv -> claim s u hv \/ (u = a /\ hv = h_v)).
  { intros u hv.
    assert (Hw' : workers s' !! t = Some w').
    { rewrite Hws. apply list_lookup_insert_eq. eapply lookup_lt_Some; eauto. }
    rewrite (claim_split s' t w' u hv Hw').
    intros [[Hfu Hsu]|[Hc|(t2 & b2 & i2 & l2 & Hne & Hw2)]].
    - left. left. apply Hfin in Hfu. split; [exact Hfu|].
      destruct (inv_done s HI u Hfu) as [hu Hhu].
      assert (hv = hu); [|subst; exact Hhu].
      eapply (has_slot_fun s'); [exact Hsu|].
      apply (has_slot_mono s s'); auto.
    - right. simpl in Hc. destruct Hc; auto.
    - left. right. exists t2, b2, i2, l2.
      rewrite Hws, list_lookup_insert_ne in Hw2 by congruence. exact Hw2. }
  assert (Hfree : forall u, ~ claim s u h_v).
  { intros u Hc. destruct (claim_occupied s u h_v HI Hc) as [_ Hocc]. congruence. }
  apply (inv_intro s s' t (Work a b (AtSet i h_v l)) w'); auto; try apply HI.
  - simpl. rewrite length_insert. reflexivity.
  - intros u hd Hp Hhd. apply (inv_fresh s HI u hd); auto.
    apply (pending_same s s' t a b (AtSet i h_v l) (AtClear i h_v l) u Hw); auto.
  - simpl. split; [exact Hr|]. exists head. split; [exact Hh|].
    split; [exact H0|]. split; [exact Hl|]. split; [exact Hf|].
    split; [|exact Hch]. apply list_lookup_insert_eq. exact Hlen.
  - intros t2 w2 Hne Hw2.
    pose proof (inv_local s HI t2 w2 Hw2) as Hok2.
    pose proof (inv_compat s HI t t2 _ w2 ltac:(congruence) Hw Hw2) as Hc2.
    apply (other_ok_gen s s' (Work a b (AtSet i h_v l)) w' w2); auto;
      try (simpl; intros; discriminate).
    + intros h2 Hh2 Hl2. simpl. apply list_lookup_insert_ne.
      destruct Hc2 as (Hcl & _). specialize (Hcl l _ eq_refl Hl2).
      intros He. apply Hcl. rewrite Hl. f_equal. lia.
    + intros l2 Hl2. apply (worker_flag s w2 l2 Hok2 Hl2).
    + intros a1 b1 p1 [= <- <- <-]. left. exists a, b, (AtSet i h_v l).
      split; [reflexivity|lia].
  - intros u Hfu. apply Hfin in Hfu. destruct (inv_done s HI u Hfu) as [hu Hhu].
    exists hu. apply (has_slot_mono s s'); auto.
  - intros u1 u2 hv H1 H2.
    destruct (Hold u1 hv H1) as [Hc1|[E1 E1']];
      destruct (Hold u2 hv H2) as [Hc2|[E2 E2']].
    + apply (inv_inj s HI u1 u2 hv); auto.
    + subst. destruct (Hfree u1 Hc1).
    + subst. destruct (Hfree u2 Hc2).
    + congruence.
Qed.


(** *** Releasing the flag and writing the accessor byte *)

(** The byte written for the hash number [i], and the slot it stands
    for. *)
Lemma byte_slot (s : state K) (head : K) i h_v :
  chosen s head i h_v ->
  let b := uint8 (if i =? max_nb_hash then 0 else i + 1) in
  0 <= b <= max_nb_hash /\ slot_of s head b = Some h_v.
Proof.
  pose proof (as_max HA) as Hmax. unfold uint8, slot_of.
  intros [(Hi & Hs & _)|(-> & Hov)]; cbv zeta.
  - destruct (i =? max_nb_hash) eqn:E; [lia|].
    rewrite Z.mod_small by lia. split; [lia|].
    destruct (0 <? i + 1) eqn:E1; [|lia].
    replace (i + 1 - 1) with i by lia. exact Hs.
  - rewrite Z.eqb_refl. change (0 mod 256) with 0. split; [lia|].
    exact Hov.
Qed.

Lemma step_AtClear (s : state K) t a b i h_v l head :
  Inv s -> workers s !! t = Some (Work a b (AtClear i h_v l)) ->
  heads !! a = Some head ->
  exists s', step_work s t a b (AtClear i h_v l) = Some s' /\ Inv s'.
Proof.
  intros HI Hw Hh.
  pose proof (inv_local s HI t _ Hw)
    as (Hr & head' & Hh' & H0 & Hl & Hf & Ho & Hch).
  assert (head' = head) by congruence. subst head'.
  pose proof (flag_nonneg s l true Hf) as Hl0.
  pose proof (inv_g_a s HI) as Hga.
  assert (Hda : (a < length (data s))%nat) by (rewrite (inv_len_data s HI); lia).
  unfold step_work. rewrite Hh. cbn [mbind option_bind].
  eexists. split; [reflexivity|].
  set (byte := uint8 (if i =? max_nb_hash then 0 else i + 1)).
  set (w' := if decide (S a = b) then Fetch else Work (S a) b (AtHash 0)).
  set (s' := set_worker _ _ _).
  destruct (byte_slot s head i h_v Hch) as [Hbyte Hslot]. fold byte in Hbyte, Hslot.
  assert (Hws : workers s' = <[t := w']> (workers s)) by reflexivity.
  assert (Hw' : workers s' !! t = Some w').
  { rewrite Hws. apply list_lookup_insert_eq. eapply lookup_lt_Some; eauto. }
  assert (Hrange : forall u, in_range w' u <-> (a < u < b)%nat).
  { intros u. unfold w'. destruct (decide (S a = b)); simpl; lia. }
  assert (Hnc : forall u hv, ~ is_clearing w' u hv).
  { intros u hv. unfold w'. destruct (decide (S a = b)); simpl; auto. }
  assert (Hfin : forall u, finished s' u <-> u = a \/ finished s u).
  { intros u. rewrite (finished_split s' t w' u Hw'), (finished_split s t _ u Hw).
    rewrite Hrange. simpl g_a. simpl in_range.
    assert (Hoth : forall t2 a2 b2 p2, t2 <> t ->
              (workers s' !! t2 = Some (Work a2 b2 p2) <->
               workers s !! t2 = Some (Work a2 b2 p2))).
    { intros t2 a2 b2 p2 Hne. rewrite Hws, list_lookup_insert_ne by congruence.
      reflexivity. }
    split.
    - intros (Hu & Hin & Hr'). destruct (decide (u = a)) as [->|Hne]; [left; auto|].
      right. split; [exact Hu|]. split; [lia|].
      intros t2 a2 b2 p2 Hne2 Hw2. apply (Hr' t2 a2 b2 p2 Hne2). apply Hoth; auto.
    - intros [->|(Hu & Hin & Hr')].
      + split; [lia|]. split; [lia|].
        intros t2 a2 b2 p2 Hne2 Hw2. apply Hoth in Hw2; [|exact Hne2].
        pose proof (inv_local s HI t2 _ Hw2) as (Hr2 & _).
        destruct (inv_compat s HI t t2 _ _ ltac:(congruence) Hw Hw2) as (_ & _ & Hcr).
        destruct (Hcr a b _ a2 b2 p2 eq_refl eq_refl); lia.
      + split; [exact Hu|]. split; [lia|].
        intros t2 a2 b2 p2 Hne2 Hw2. apply (Hr' t2 a2 b2 p2 Hne2). apply Hoth; auto. }
  assert (Hnew : has_slot s' a h_v).
  { exists head, byte. split; [exact Hh|]. split.
    - simpl. apply list_lookup_insert_eq. exact Hda.
    - split; [exact Hbyte|]. split; [exact Hslot|]. split; [exact H0|exact Ho]. }
  assert (Hkeep : forall u hv, u <> a -> (has_slot s' u hv <-> has_slot s u hv)).
  { intros u hv Hne. apply has_slot_iff; auto.
    simpl. apply list_lookup_insert_ne. congruence. }
  apply (inv_intro s s' t (Work a b (AtClear i h_v l)) w'); auto; try apply HI.
  - simpl. rewrite length_insert. reflexivity.
  - simpl. rewrite length_insert. reflexivity.
  - intros u hd Hp Hhd. apply (inv_fresh s HI u hd); auto.
    destruct Hp as [Hp|(t2 & a2 & b2 & p2 & Hw2 & Hu)]; [left; exact Hp|right].
    destruct (decide (t2 = t)) as [->|Hne].
    + rewrite Hw' in Hw2. injection Hw2 as Hw2.
      exists t, a, b, (AtClear i h_v l). split; [exact Hw|].
      assert (Hin : in_range w' u) by (rewrite Hw2; simpl; lia).
      apply Hrange in Hin. lia.
    + rewrite Hws, list_lookup_insert_ne in Hw2 by congruence. eauto 6.
  - unfold w'. destruct (decide (S a = b)) as [E|E]; simpl; [exact I|].
    split; [lia|].
    destruct (lookup_lt_is_Some_2 heads (S a)) as [hd Hhd]; [lia|].
    exists hd. split; [exact Hhd|]. split; [pose proof (as_max HA); lia|].
    apply (inv_fresh s HI (S a) hd); [|exact Hhd].
    right. exists t, a, b, (AtClear i h_v l). split; [exact Hw|lia].
  - intros t2 w2 Hne Hw2.
    pose proof (inv_local s HI t2 w2 Hw2) as Hok2.
    pose proof (inv_compat s HI t t2 _ w2 ltac:(congruence) Hw Hw2) as Hc2.
    apply (other_ok_gen s s' (Work a b (AtClear i h_v l)) w' w2); auto.
    + intros l2 Hl2. pose proof (worker_flag s w2 l2 Hok2 Hl2) as Hf2.
      eapply flag_set_ne; [reflexivity| |lia|exact Hf2].
      destruct Hc2 as (Hcl & _). apply (Hcl l l2); auto.
    + intros l0. unfold w'. destruct (decide (S a = b)); simpl; discriminate.
    + unfold w'. destruct (decide (S a = b)); simpl; discriminate.
    + intros a1 b1 p1 Hw1. left. exists a, b, (AtClear i h_v l).
      split; [reflexivity|].
      assert (Hin : in_range w' a1 /\ (b1 <= b)%nat).
      { rewrite Hw1. unfold w' in Hw1. destruct (decide (S a = b)); [discriminate|].
        injection Hw1 as <- <- _. simpl. lia. }
      destruct Hin as [Hin Hb]. apply Hrange in Hin. lia.
  - intros u Hfu. apply Hfin in Hfu. destruct Hfu as [->|Hfu]; [eauto|].
    destruct (inv_done s HI u Hfu) as [hu Hhu]. exists hu. apply Hkeep; auto.
    intros ->. apply (current_not_finished s t a b _ HI Hw Hfu).
  - assert (Hold : forall u hv, claim s' u hv -> claim s u hv).
    { intros u hv. rewrite (claim_split s' t w' u hv Hw').
      intros [[Hfu Hsu]|[Hc|(t2 & b2 & i2 & l2 & Hne & Hw2)]].
      - apply Hfin in Hfu. destruct Hfu as [->|Hfu].
        + assert (hv = h_v) by (eapply (has_slot_fun s'); eauto). subst hv.
          right. eauto 8.
        + left. split; [exact Hfu|]. apply Hkeep; auto.
          intros ->. apply (current_not_finished s t a b _ HI Hw Hfu).
      - destruct (Hnc u hv Hc).
      - right. exists t2, b2, i2, l2.
        rewrite Hws, list_lookup_insert_ne in Hw2 by congruence. exact Hw2. }
    intros u1 u2 hv H1 H2. apply (inv_inj s HI u1 u2 hv); auto.
Qed.


(** *** Runs *)

Lemma step_ok (s : state K) t :
  Inv s -> exists s', step s t = Some s' /\ Inv s'.
Proof.
  intros HI. destruct (workers s !! t) as [w|] eqn:Hw.
  2:{ exists s. unfold step. rewrite Hw. auto. }
  destruct w as [|a b p|].
  - apply step_Fetch; auto.
  - pose proof (inv_local s HI t _ Hw) as (_ & head & Hh & _).
    unfold step. rewrite Hw.
    destruct p.
    + eapply step_AtHash; eauto.
    + eapply step_AtProbe; eauto.
    + eapply step_AtMutex; eauto.
    + eapply step_AtOvSpin; eauto.
    + eapply step_AtOvProbe; eauto.
    + eapply step_AtOvInsert; eauto.
    + eapply step_AtSet; eauto.
    + eapply step_AtClear; eauto.
  - exists s. unfold step. rewrite Hw. auto.
Qed.

Lemma run_ok sched : forall s : state K,
  Inv s -> exists s', run sched s = Some s' /\ Inv s'.
Proof.
  induction sched as [|t rest IH]; intros s HI.
  - exists s. auto.
  - destruct (step_ok s t HI) as (s1 & Hs & HI1).
    destruct (IH s1 HI1) as (s' & Hr & HI').
    exists s'. split; [|exact HI']. simpl. rewrite Hs. exact Hr.
Qed.

Lemma init_inv : Inv init.
Proof.
  pose proof (as_sets HA) as Hn.
  assert (Hfetch : forall t w, workers init !! t = Some w -> w = Fetch).
  { intros t w Hw. simpl in Hw. apply lookup_replicate in Hw. tauto. }
  split; simpl.
  - apply length_replicate.
  - apply length_replicate.
  - apply length_replicate.
  - apply length_replicate.
  - lia.
  - split; [lia|]. destruct heads; [right; reflexivity|left]. simpl in Hn. lia.
  - intros u head _ _. reflexivity.
  - intros t w Hw. rewrite (Hfetch t w Hw). exact I.
  - intros t1 t2 w1 w2 _ H1 H2. rewrite (Hfetch t1 w1 H1), (Hfetch t2 w2 H2).
    split; [|split]; simpl; intros; discriminate.
  - intros u [Hu _]. simpl in Hu. lia.
  - intros u1 u2 h_v [[[Hu _] _]|(t & b & i & l & Hw)]; [simpl in Hu; lia|].
    apply Hfetch in Hw. discriminate.
Qed.

Lemma completed_workers (s : state K) t w :
  completed s = true -> workers s !! t = Some w -> w = Returned.
Proof.
  unfold completed. intros Hc Hw. rewrite forallb_forall in Hc.
  specialize (Hc w). destruct w; try reflexivity;
    (assert (In _ (workers s)) as Hin by
       (apply list_elem_of_In; eapply list_elem_of_lookup_2; eauto));
    specialize (Hc Hin); discriminate.
Qed.

Lemma completed_finished (s : state K) u head :
  Inv s -> completed s = true -> heads !! u = Some head -> finished s u.
Proof.
  intros HI Hc Hh. split.
  - destruct (lookup_lt_is_Some_2 (workers s) 0) as [w Hw].
    { rewrite (inv_len_workers s HI). pose proof (as_threads HA). lia. }
    pose proof (completed_workers s 0 w Hc Hw) as ->.
    pose proof (inv_local s HI 0%nat _ Hw) as Hg. simpl in Hg. rewrite Hg.
    eapply lookup_lt_Some; eauto.
  - intros t a b p Hw. pose proof (completed_workers s t _ Hc Hw). discriminate.
Qed.

(** C7, for at most 255 hash functions.  Whatever the schedule, the
    workers run without undefined behaviour; and when all have returned,
    every unitig has one slot: its accessor byte [b] lies in
    [0, max_nb_hash], the slot is [hash(head, seeds[b-1]) mod
    nb_color_sets] for [b > 0] and the entry of the head in [overflow]
    for [b = 0], it is occupied, and no two unitigs have the same
    slot. *)
Theorem initColorSets_slots (sched : list nat) :
  exists s : state K,
    run sched init = Some s /\
    (completed s = true ->
       (forall u head, heads !! u = Some head ->
          exists h_v, has_slot s u h_v /\
                      forall h', has_slot s u h' -> h' = h_v) /\
       (forall u1 u2 h_v, has_slot s u1 h_v -> has_slot s u2 h_v -> u1 = u2)).
Proof.
  destruct (run_ok sched init init_inv) as (s & Hr & HI).
  exists s. split; [exact Hr|]. intros Hc. split.
  - intros u head Hh.
    destruct (inv_done s HI u (completed_finished s u head HI Hc Hh)) as [h_v Hs].
    exists h_v. split; [exact Hs|]. intros h' Hs'. eapply has_slot_fun; eauto.
  - intros u1 u2 h_v H1 H2.
    assert (Hf : forall u, has_slot s u h_v -> claim s u h_v).
    { intros u Hs. left. split; [|exact Hs].
      destruct Hs as (hd & b & Hh & _). eapply completed_finished; eauto. }
    apply (inv_inj s HI u1 u2 h_v); auto.
Qed.

End Proofs.

Section TwoWorkers.
#[local] Existing Instance two_workers.

(** The run of two workers that take turns, on 1200 unitigs, ends
    with both returned and every unitig in a slot of its own. *)
Lemma initColorSets_slots_witness :
  exists s : state Z,
    run (turns) init = Some s /\
    completed s = true /\
    (forall u head, heads !! u = Some head ->
       exists h_v, has_slot s u h_v /\ forall h', has_slot s u h' -> h' = h_v) /\
    (forall u1 u2 h_v, has_slot s u1 h_v -> has_slot s u2 h_v -> u1 = u2).
Proof.
  assert (HA : Assumptions).
  { split; simpl; try lia. apply NoDup_seqZ. }
  destruct (initColorSets_slots HA (turns)) as (s & Hr & Hprops).
  assert (Hc : completed <$> run (turns) init = Some true)
    by (vm_compute; reflexivity).
  rewrite Hr in Hc. injection Hc as Hc.
  exists s. split; [exact Hr|]. split; [exact Hc|]. exact (Hprops Hc).
Defined.

End TwoWorkers.

Section Wide.
#[local] Existing Instance wide.

(** C7. With 256 hash functions the accessor byte wraps: the unitig
    255, whose first 255 slots are taken and which gets its slot by the
    last hash function, [i = 255], is given the byte
    [static_cast<uint8_t>(256) = 0], while [overflow] has no entry for
    it. *)
Lemma accessor_byte_wraps :
  exists s : state Z,
    run (alone) init = Some s /\
    completed s = true /\
    heads !! 255%nat = Some 255 /\
    data s !! 255%nat = Some (Some 0) /\
    color_sets s !! 255%nat = Some true /\
    slot_hash 255 255 = Some 255 /\
    overflow s = [] /\
    slot_of s 255 0 = None.
Proof.
  eexists. split; [vm_compute; reflexivity|].
  repeat (split; [vm_compute; reflexivity|]).
  vm_compute. reflexivity.
Qed.

End Wide.

End ColorInitFacts.

(** ** [initColorSets]: the locks *)

Module ColorInitMore.
Import ColorInit ColorInitSpec ColorInitUse ColorInitExample ColorInitFacts.

Section Proofs.
Context {K : Type} `{Setup K}.
Hypothesis HA : Assumptions.

(** *** Who holds what *)

Lemma owned_update (s s' : state K) t w w' :
  owned s -> workers s !! t = Some w ->
  workers s' = <[t := w']> (workers s) ->
  (forall n : nat, cs_locks s' !! n = Some true ->
     lock_held w' = Some (Z.of_nat n) \/
     (cs_locks s !! n = Some true /\ lock_held w <> Some (Z.of_nat n))) ->
  (mutex_cs_overflow s' = true ->
     mutex_held w' = true \/ (mutex_cs_overflow s = true /\ mutex_held w = false)) ->
  owned s'.
Proof.
  intros [Hl Hm] Hw Hws Hlocks Hmutex.
  pose proof (lookup_lt_Some _ _ _ Hw) as Hlt.
  split.
  - intros n Hn. destruct (Hlocks n Hn) as [Hmine|[Hold Hnot]].
    + exists t, w'. split; [|exact Hmine]. rewrite Hws.
      apply list_lookup_insert_eq. exact Hlt.
    + destruct (Hl n Hold) as (t1 & w1 & Hw1 & Hh1).
      exists t1, w1. split; [|exact Hh1]. rewrite Hws.
      rewrite list_lookup_insert_ne; [exact Hw1|].
      intros <-. rewrite Hw in Hw1. injection Hw1 as <-. contradiction.
  - intros Hmx. destruct (Hmutex Hmx) as [Hmine|[Hold Hnot]].
    + exists t, w'. split; [|exact Hmine]. rewrite Hws.
      apply list_lookup_insert_eq. exact Hlt.
    + destruct (Hm Hold) as (t1 & w1 & Hw1 & Hh1).
      exists t1, w1. split; [|exact Hh1]. rewrite Hws.
      rewrite list_lookup_insert_ne; [exact Hw1|].
      intros <-. rewrite Hw in Hw1. injection Hw1 as <-. congruence.
Qed.

(** Three shapes of a step: the flags stay, one is taken, one is
    released. *)
Lemma owned_keep (s s' : state K) t w w' :
  owned s -> workers s !! t = Some w ->
  workers s' = <[t := w']> (workers s) ->
  cs_locks s' = cs_locks s -> lock_held w' = lock_held w ->
  (mutex_cs_overflow s' = true ->
     mutex_held w' = true \/ (mutex_cs_overflow s = true /\ mutex_held w = false)) ->
  owned s'.
Proof.
  intros Ho Hw Hws Hcl Hlh Hmx. apply (owned_update s s' t w w' Ho Hw Hws); [|exact Hmx].
  intros n Hn. rewrite Hcl in Hn.
  destruct (decide (lock_held w = Some (Z.of_nat n))) as [He|Hne].
  - left. congruence.
  - right. auto.
Qed.

Lemma owned_take (s s' : state K) t w w' l :
  owned s -> workers s !! t = Some w ->
  workers s' = <[t := w']> (workers s) ->
  0 <= l -> cs_locks s' = <[Z.to_nat l := true]> (cs_locks s) ->
  lock_held w = None -> lock_held w' = Some l ->
  (mutex_cs_overflow s' = true ->
     mutex_held w' = true \/ (mutex_cs_overflow s = true /\ mutex_held w = false)) ->
  owned s'.
Proof.
  intros Ho Hw Hws Hl Hcl Hnone Hlh Hmx.
  apply (owned_update s s' t w w' Ho Hw Hws); [|exact Hmx].
  intros n Hn. rewrite Hcl in Hn.
  destruct (decide (n = Z.to_nat l)) as [->|Hne].
  - left. rewrite Hlh. f_equal. lia.
  - right. rewrite list_lookup_insert_ne in Hn by congruence.
    split; [exact Hn|]. rewrite Hnone. discriminate.
Qed.

Lemma owned_release (s s' : state K) t w w' l :
  owned s -> workers s !! t = Some w ->
  workers s' = <[t := w']> (workers s) ->
  cs_locks s' = <[Z.to_nat l := false]> (cs_locks s) ->
  lock_held w = Some l ->
  (mutex_cs_overflow s' = true ->
     mutex_held w' = true \/ (mutex_cs_overflow s = true /\ mutex_held w = false)) ->
  owned s'.
Proof.
  intros Ho Hw Hws Hcl Hlh Hmx.
  apply (owned_update s s' t w w' Ho Hw Hws); [|exact Hmx].
  intros n Hn. rewrite Hcl in Hn. right.
  destruct (decide (n = Z.to_nat l)) as [->|Hne].
  - exfalso. destruct (decide (Z.to_nat l < length (cs_locks s))%nat) as [Hlt|Hge].
    + rewrite list_lookup_insert_eq in Hn by exact Hlt. discriminate.
    + apply lookup_lt_Some in Hn. rewrite length_insert in Hn. lia.
  - rewrite list_lookup_insert_ne in Hn by congruence.
    split; [exact Hn|]. rewrite Hlh. intros [= ->]. apply Hne. lia.
Qed.

Lemma step_owned (s s' : state K) t :
  owned s -> step s t = Some s' -> owned s'.
Proof.
  intros Ho Hs. unfold step in Hs.
  destruct (workers s !! t) as [w|] eqn:Hw; [|injection Hs as <-; exact Ho].
  destruct w as [|a b p|]; [| |injection Hs as <-; exact Ho].
  - (* taking a chunk *)
    destruct (decide (g_a s = length heads)); injection Hs as <-.
    + eapply (owned_keep s _ t _ _ Ho Hw); try reflexivity.
      simpl. intros Hm. right. auto.
    + eapply (owned_keep s _ t _ _ Ho Hw); try reflexivity.
      simpl. intros Hm. right. auto.
  - unfold step_work in Hs.
    apply bind_Some in Hs as (head & _ & Hs).
    destruct p as [i|i h_v l| | |l|l|i h_v l|i h_v l].
    + (* AtHash *)
      destruct (i <? max_nb_hash).
      * apply bind_Some in Hs as (h_v & _ & Hs).
        destruct (nb_locks =? 0); [discriminate|].
        apply bind_Some in Hs as (locked & Hfl & Hs).
        destruct locked; injection Hs as <-; [exact Ho|].
        eapply (owned_take s _ t _ _ (h_v mod nb_locks) Ho Hw); try reflexivity.
        -- eapply flag_nonneg; eauto.
        -- simpl. intros Hm. right. auto.
      * injection Hs as <-.
        eapply (owned_keep s _ t _ _ Ho Hw); try reflexivity.
        simpl. intros Hm. right. auto.
    + (* AtProbe *)
      apply bind_Some in Hs as (free & _ & Hs).
      destruct free; injection Hs as <-.
      * eapply (owned_keep s _ t _ _ Ho Hw); try reflexivity.
        simpl. intros Hm. right. auto.
      * eapply (owned_release s _ t _ _ l Ho Hw); try reflexivity.
        simpl. intros Hm. right. auto.
    + (* AtMutex *)
      destruct (mutex_cs_overflow s) eqn:Em; injection Hs as <-; [exact Ho|].
      eapply (owned_keep s _ t _ _ Ho Hw); try reflexivity.
      simpl. intros _. left. reflexivity.
    + (* AtOvSpin *)
      destruct (nb_locks =? 0); [discriminate|].
      apply bind_Some in Hs as (locked & Hfl & Hs).
      destruct locked; injection Hs as <-; [exact Ho|].
      eapply (owned_take s _ t _ _ (last_empty_pos s mod nb_locks) Ho Hw); try reflexivity.
      * eapply flag_nonneg; eauto.
      * simpl. intros _. left. reflexivity.
    + (* AtOvProbe *)
      apply bind_Some in Hs as (free & _ & Hs).
      destruct free; injection Hs as <-.
      * eapply (owned_keep s _ t _ _ Ho Hw); try reflexivity.
        simpl. intros _. left. reflexivity.
      * eapply (owned_release s _ t _ _ l Ho Hw); try reflexivity.
        simpl. intros _. left. reflexivity.
    + (* AtOvInsert *)
      injection Hs as <-.
      eapply (owned_keep s _ t _ _ Ho Hw);
        try reflexivity.
      simpl. discriminate.
    + (* AtSet *)
      destruct ((h_v <? 0) || (Z.of_nat (length (color_sets s)) <=? h_v)); [discriminate|].
      injection Hs as <-.
      eapply (owned_keep s _ t _ _ Ho Hw); try reflexivity.
      simpl. intros Hm. right. auto.
    + (* AtClear *)
      injection Hs as <-.
      eapply (owned_release s _ t _ _ l Ho Hw);
        try reflexivity.
      simpl. intros Hm. right. auto.
Qed.

Lemma run_owned sched : forall s s' : state K,
  owned s -> run sched s = Some s' -> owned s'.
Proof.
  induction sched as [|t rest IH]; intros s s' Ho Hr.
  - injection Hr as <-. exact Ho.
  - cbn [run] in Hr. apply bind_Some in Hr as (s1 & Hs & Hr).
    apply (IH s1 s'); [|exact Hr]. eapply step_owned; eauto.
Qed.

Lemma init_owned : owned (init (K:=K)).
Proof.
  split.
  - intros n Hn. simpl in Hn. apply lookup_replicate in Hn as [Hn _]. discriminate.
  - simpl. discriminate.
Qed.

(** *** Who can move *)

Ltac moved Hw :=
  simpl; rewrite list_lookup_insert_eq by (eapply lookup_lt_Some; exact Hw);
  rewrite Hw; congruence.

(** A worker that holds a flag is never waiting. *)
Lemma holder_moves (s : state K) t a b p l :
  Inv s -> workers s !! t = Some (Work a b p) -> lock_of p = Some l ->
  moves s t.
Proof.
  intros HI Hw Hl. destruct (step_ok HA s t HI) as (s' & Hs & _).
  exists s'. split; [exact Hs|].
  unfold step in Hs. rewrite Hw in Hs. unfold step_work in Hs.
  apply bind_Some in Hs as (head & _ & Hs).
  destruct p as [i|i h_v l0| | |l0|l0|i h_v l0|i h_v l0]; try discriminate.
  - apply bind_Some in Hs as (free & _ & Hs).
    destruct free; injection Hs as <-; moved Hw.
  - apply bind_Some in Hs as (free & _ & Hs).
    destruct free; injection Hs as <-; moved Hw.
  - injection Hs as <-. moved Hw.
  - destruct ((h_v <? 0) || (Z.of_nat (length (color_sets s)) <=? h_v)); [discriminate|].
    injection Hs as <-. moved Hw.
  - injection Hs as <-. destruct (decide (S a = b)); moved Hw.
Qed.

Lemma flag_owner (s : state K) l :
  Inv s -> owned s -> flag s l = Some true -> exists t, moves s t.
Proof.
  intros HI [Ho _] Hfl. pose proof (flag_nonneg s l true Hfl) as Hl0.
  unfold flag in Hfl. replace (l <? 0) with false in Hfl by (symmetry; apply Z.ltb_ge; lia).
  destruct (Ho _ Hfl) as (t1 & w1 & Hw1 & Hh1).
  rewrite Z2Nat.id in Hh1 by lia.
  destruct w1 as [|a1 b1 p1|]; try discriminate. simpl in Hh1.
  exists t1. eapply holder_moves; eauto.
Qed.

(** A worker at the head of the scan of the overflow path takes the
    flag, or the worker that holds the flag moves. *)
Lemma spin_moves (s : state K) t a b :
  Inv s -> owned s -> workers s !! t = Some (Work a b AtOvSpin) ->
  exists t', moves s t'.
Proof.
  intros HI Ho Hw. destruct (step_ok HA s t HI) as (s' & Hs & _).
  pose proof Hs as Hs0.
  unfold step in Hs. rewrite Hw in Hs. unfold step_work in Hs.
  apply bind_Some in Hs as (head & _ & Hs).
  destruct (nb_locks =? 0); [discriminate|].
  apply bind_Some in Hs as (locked & Hfl & Hs).
  destruct locked.
  - eapply flag_owner; eauto.
  - exists t, s'. split; [exact Hs0|]. injection Hs as <-. moved Hw.
Qed.

Lemma mutex_owner (s : state K) :
  Inv s -> owned s -> mutex_cs_overflow s = true -> exists t, moves s t.
Proof.
  intros HI Ho Hm. pose proof Ho as [_ Hom].
  destruct (Hom Hm) as (t1 & w1 & Hw1 & Hh1).
  destruct w1 as [|a1 b1 p1|]; try discriminate. simpl in Hh1.
  destruct p1 as [i|i h_v l0| | |l0|l0|i h_v l0|i h_v l0]; try discriminate.
  - eapply spin_moves; eauto.
  - exists t1. eapply holder_moves; eauto; reflexivity.
  - exists t1. eapply holder_moves; eauto; reflexivity.
Qed.

Lemma forallb_false {A} (f : A -> bool) (l : list A) :
  forallb f l = false -> exists (i : nat) x, l !! i = Some x /\ f x = false.
Proof.
  induction l as [|a l IH]; [discriminate|]. simpl.
  destruct (f a) eqn:Ea.
  - simpl. intros Hf. destruct (IH Hf) as (i & x & Hi & Hx). exists (S i), x. auto.
  - intros _. exists 0%nat, a. auto.
Qed.

Lemma someone_moves (s : state K) :
  Inv s -> owned s -> completed s = false -> exists t, moves s t.
Proof.
  intros HI Ho Hc. unfold completed in Hc.
  apply forallb_false in Hc as (t & w & Hw & Hnr).
  destruct w as [|a b p|]; [| |discriminate].
  - (* about to take a chunk *)
    exists t. destruct (step_ok HA s t HI) as (s' & Hs & _).
    exists s'. split; [exact Hs|].
    unfold step in Hs. rewrite Hw in Hs.
    destruct (decide (g_a s = length heads)); injection Hs as <-; moved Hw.
  - destruct (step_ok HA s t HI) as (s' & Hs & _). pose proof Hs as Hs0.
    unfold step in Hs. rewrite Hw in Hs. unfold step_work in Hs.
    apply bind_Some in Hs as (head & _ & Hs).
    destruct p as [i|i h_v l0| | |l0|l0|i h_v l0|i h_v l0].
    + destruct (i <? max_nb_hash).
      * apply bind_Some in Hs as (h_v & _ & Hs).
        destruct (nb_locks =? 0); [discriminate|].
        apply bind_Some in Hs as (locked & Hfl & Hs).
        destruct locked.
        -- eapply flag_owner; eauto.
        -- exists t, s'. split; [exact Hs0|]. injection Hs as <-. moved Hw.
      * exists t, s'. split; [exact Hs0|]. injection Hs as <-. moved Hw.
    + exists t. eapply holder_moves; eauto; reflexivity.
    + destruct (mutex_cs_overflow s) eqn:Em.
      * eapply mutex_owner; eauto.
      * exists t, s'. split; [exact Hs0|]. injection Hs as <-. moved Hw.
    + eapply spin_moves; eauto.
    + exists t. eapply holder_moves; eauto; reflexivity.
    + exists t. eapply holder_moves; eauto; reflexivity.
    + exists t. eapply holder_moves; eauto; reflexivity.
    + exists t. eapply holder_moves; eauto; reflexivity.
Qed.

Lemma reached sched :
  exists s : state K, run sched init = Some s /\ Inv s /\ owned s.
Proof.
  destruct (run_ok HA sched init (init_inv HA)) as (s & Hr & HI).
  exists s. split; [exact Hr|]. split; [exact HI|].
  eapply run_owned; [apply init_owned|exact Hr].
Qed.

(** X9. Whatever the schedule, two workers of [initColorSets] never
    read or write the same colour set in their next steps, never both
    hold [mutex_cs_overflow], under which [overflow] and
    [last_empty_pos] are used, and never work on the same unitig. *)
Theorem initColorSets_exclusive (sched : list nat) :
  exists s : state K,
    run sched init = Some s /\
    forall t1 t2 w1 w2,
      t1 <> t2 -> workers s !! t1 = Some w1 -> workers s !! t2 = Some w2 ->
      (forall h_v, accesses s w1 = Some h_v -> accesses s w2 = Some h_v -> False) /\
      (mutex_held w1 = true -> mutex_held w2 = true -> False) /\
      (forall u, in_range w1 u -> in_range w2 u -> False).
Proof.
  destruct (reached sched) as (s & Hr & HI & _).
  exists s. split; [exact Hr|]. intros t1 t2 w1 w2 Hne H1 H2.
  pose proof (inv_compat s HI t1 t2 w1 w2 Hne H1 H2) as (Hlocks & Hmutex & Hranges).
  pose proof (inv_local s HI t1 w1 H1) as Hl1.
  pose proof (inv_local s HI t2 w2 H2) as Hl2.
  assert (Hacc : forall w h_v, local_ok s w -> accesses s w = Some h_v ->
            lock_held w = Some (h_v mod nb_locks)).
  { intros w h_v Hl Ha. destruct w as [|a b p|]; try discriminate.
    destruct Hl as (_ & head & _ & Hp).
    destruct p as [i|i h l| | |l|l|i h l|i h l]; try discriminate;
      simpl in Ha; injection Ha as <-; simpl in Hp; simpl; f_equal; tauto. }
  split; [|split].
  - intros h_v Ha1 Ha2.
    apply (Hlocks _ _ (Hacc w1 h_v Hl1 Ha1) (Hacc w2 h_v Hl2 Ha2)). reflexivity.
  - exact Hmutex.
  - intros u Hu1 Hu2. destruct w1 as [|a1 b1 p1|], w2 as [|a2 b2 p2|];
      simpl in Hu1, Hu2; try contradiction.
    destruct (Hranges a1 b1 p1 a2 b2 p2 eq_refl eq_refl); lia.
Qed.

(** X10. Whatever the schedule, every flag of [cs_locks] that is set is
    held by a worker and so is the mutex; when all workers have
    returned every flag is clear and the mutex is free. *)
Theorem initColorSets_releases (sched : list nat) :
  exists s : state K,
    run sched init = Some s /\ owned s /\
    (completed s = true ->
       Forall (fun b => b = false) (cs_locks s) /\ mutex_cs_overflow s = false).
Proof.
  destruct (reached sched) as (s & Hr & HI & Ho).
  exists s. split; [exact Hr|]. split; [exact Ho|]. intros Hc.
  assert (Hret : forall t w, workers s !! t = Some w -> w = Returned).
  { intros t w Hw. exact (completed_workers s t w Hc Hw). }
  destruct Ho as [Hl Hm]. split.
  - apply Forall_lookup. intros n b Hn. destruct b; [|reflexivity].
    destruct (Hl n Hn) as (t & w & Hw & Hh). rewrite (Hret t w Hw) in Hh. discriminate.
  - destruct (mutex_cs_overflow s); [|reflexivity].
    destruct (Hm eq_refl) as (t & w & Hw & Hh). rewrite (Hret t w Hw) in Hh. discriminate.
Qed.

(** X11. Whatever the schedule, as long as a worker has not returned
    there is a worker whose next step takes it on: the workers of
    [initColorSets] cannot all be spinning or waiting. *)
Theorem initColorSets_no_deadlock (sched : list nat) :
  exists s : state K,
    run sched init = Some s /\
    (completed s = false -> exists t, moves s t).
Proof.
  destruct (reached sched) as (s & Hr & HI & Ho).
  exists s. split; [exact Hr|]. intros Hc. exact (someone_moves s HI Ho Hc).
Qed.

End Proofs.

Section TwoWorkers.
#[local] Existing Instance two_workers.

Lemma two_workers_ok : Assumptions.
Proof. split; simpl; try lia. apply NoDup_seqZ. Qed.

(** After ten turns each of two workers. *)
Lemma initColorSets_exclusive_witness :
  exists s : state Z,
    run (alternate 10) init = Some s /\
    forall t1 t2 w1 w2,
      t1 <> t2 -> workers s !! t1 = Some w1 -> workers s !! t2 = Some w2 ->
      (forall h_v, accesses s w1 = Some h_v -> accesses s w2 = Some h_v -> False) /\
      (mutex_held w1 = true -> mutex_held w2 = true -> False) /\
      (forall u, in_range w1 u -> in_range w2 u -> False).
Proof. exact (initColorSets_exclusive two_workers_ok (alternate 10)). Defined.

(** The run of two workers that take turns ends with both returned,
    every flag clear and the mutex free. *)
Lemma initColorSets_releases_witness :
  exists s : state Z,
    run turns init = Some s /\ completed s = true /\
    Forall (fun b => b = false) (cs_locks s) /\ mutex_cs_overflow s = false.
Proof.
  destruct (initColorSets_releases two_workers_ok turns) as (s & Hr & _ & Hprops).
  assert (Hc : completed <$> run turns init = Some true)
    by (vm_compute; reflexivity).
  rewrite Hr in Hc. injection Hc as Hc.
  exists s. split; [exact Hr|]. split; [exact Hc|]. exact (Hprops Hc).
Defined.

(** After ten turns each the workers are busy, and one of them can
    move. *)
Lemma initColorSets_no_deadlock_witness :
  exists s : state Z,
    run (alternate 10) init = Some s /\ completed s = false /\
    exists t, moves s t.
Proof.
  destruct (initColorSets_no_deadlock two_workers_ok (alternate 10)) as (s & Hr & Hprops).
  assert (Hc : completed <$> run (alternate 10) init = Some false)
    by (vm_compute; reflexivity).
  rewrite Hr in Hc. injection Hc as Hc.
  exists s. split; [exact Hr|]. split; [exact Hc|]. exact (Hprops Hc).
Defined.

End TwoWorkers.

End ColorInitMore.

(** ** The unitig mapper: lookups, joins, removal, GFA output *)

Module UMFacts.
Import Dna UM UMSpec UMExample UMCases.
Import String.
Local Open Scope string_scope.
Local Open Scope Z_scope.
Local Abbreviation length := List.length.

(** C1. [find] on a short unitig whose minimizer sits in the middle of
    the k-mer: the graph holds the single short unitig [CTTTA], added as
    [TAAAG]; the lookup of [TAAAG], the reverse complement of what is
    stored, finds unitig 0 at offset 0 and reports the forward strand. *)
Theorem find_short_twin_strand :
  exists m cm,
    g_centre = Some m /\
    (v_kmers m).*1 = [km_of "CTTTA"] /\
    find m (km_of "TAAAG") false = Some cm /\
    isEmpty cm = false /\ isShort cm = true /\
    pos_unitig cm = 0 /\ dist cm = 0 /\ strand cm = true /\
    twin (km_of "TAAAG") = km_of "CTTTA" /\
    km_of "TAAAG" <> km_of "CTTTA".
Proof.
  eexists. eexists.
  split; [vm_compute; reflexivity|].
  split; [vm_compute; reflexivity|].
  split; [vm_compute; reflexivity|].
  repeat (split; [vm_compute; reflexivity|]).
  vm_compute. discriminate.
Qed.

(** The same lookup of the k-mer as stored reports the forward strand
    too. *)
Example find_short_stored_strand :
  (m ← g_centre; cm ← find m (km_of "CTTTA") false; Some (strand cm)) = Some true.
Proof. vm_compute. reflexivity. Qed.

(** C2. [writeGFA] on a graph of 1 long unitig, 13 short unitigs and 3
    abundant k-mers: the S-lines of the abundant k-mers carry the ids
    16, 17 and 18, and no S-line carries 15. *)
Theorem writeGFA_abundant_ids :
  exists m lines,
    g_abundant = Some m /\
    List.length (v_unitigs m) = 1%nat /\ List.length (v_kmers m) = 13%nat /\
    HT.size (h_kmers_ccov m) = 3 /\
    writeGFA m = Some lines /\
    map s_id (s_lines lines) =
      [1; 2; 3; 4; 5; 6; 7; 8; 9; 10; 11; 12; 13; 14; 16; 17; 18].
Proof.
  eexists. eexists.
  split; [vm_compute; reflexivity|].
  repeat (split; [vm_compute; reflexivity|]).
  vm_compute. reflexivity.
Qed.

(** C4. [checkJoin] on the short unitig [GTGGA], whose only forward
    extension in the graph is [TGGAC], the last k-mer of the long unitig
    [ACTGGAC]: [TGGAC] has one predecessor among the ends of unitigs,
    the heads differ, and the call returns [true] leaving [b] as it
    was. *)
Theorem checkJoin_true_leaves_b :
  exists m cm_a,
    g_tail = Some m /\
    find m (km_of "GTGGA") true = Some cm_a /\
    neighbours m (forwardBase (km_of "GTGGA")) alpha = Some [km_of "TGGAC"] /\
    neighbours m (forwardBase (twin (km_of "TGGAC"))) alpha
      = Some [twin (km_of "GTGGA")] /\
    forall b, checkJoin m (km_of "GTGGA") cm_a b = Some (true, b).
Proof.
  eexists. eexists.
  split; [vm_compute; reflexivity|].
  repeat (split; [vm_compute; reflexivity|]).
  intros b. vm_compute. reflexivity.
Qed.

(** *** [removeUnitigs]: what is removed *)

Section Removal.
Context `{Params}.




End Removal.


(** With both flags set it goes. *)
Example remove_isolated_and_clip :
  (m ← g_isolated; r ← removeUnitigs m true true [];
   Some (unitigCount r.1.1, r.1.2, r.2)) = Some (0, 1, []).
Proof. vm_compute. reflexivity. Qed.


(** On [g_tail], clipping alone removes the tip and keeps the long
    unitig, which has no neighbour at its ends; with both flags both
    go. *)
Example remove_tip :
  (m ← g_tail; r ← removeUnitigs m false true [];
   Some (List.length (v_unitigs r.1.1), v_kmers r.1.1, r.1.2, r.2))
  = Some (1%nat, [], 1, [km_of "TGGAC"]).
Proof. vm_compute. reflexivity. Qed.

Example remove_tip_and_isolated :
  (m ← g_tail; r ← removeUnitigs m true true [];
   Some (v_unitigs r.1.1, v_kmers r.1.1, r.1.2, r.2))
  = Some ([], [], 2, [km_of "TGGAC"]).
Proof. vm_compute. reflexivity. Qed.

End UMFacts.
(** ** The unitig mapper: splitting by coverage *)

Module UMSplitFacts.
Import Dna UM UMSpec.
Import HTSpec.
Local Open Scope Z_scope.

Section Splitting.
Context `{Params}.

Lemma kmer_sentinels : (HT.empty_val (K:=Kmer) (T:=CompressedCoverage)).1
                       <> (HT.deleted (K:=Kmer) (T:=CompressedCoverage)).1.
Proof. simpl. discriminate. Qed.

(** *** What the mutators do to the three containers *)

Lemma deleteUnitig_long m id m' :
  deleteUnitig m false false id = Some m' ->
  h_kmers_ccov m' = h_kmers_ccov m /\ v_kmers m' = v_kmers m /\
  v_unitigs m' = <[Z.to_nat id := None]> (v_unitigs m).
Proof.
  unfold deleteUnitig. intros Hd.
  apply bind_Some in Hd as (ou & _ & Hd).
  apply bind_Some in Hd as (u & _ & Hd).
  apply bind_Some in Hd as (hm & _ & Hd).
  injection Hd as <-. auto.
Qed.

Lemma deleteUnitig_short m id m' :
  deleteUnitig m true false id = Some m' ->
  h_kmers_ccov m' = h_kmers_ccov m /\ v_unitigs m' = v_unitigs m /\
  exists p, v_kmers m' = <[Z.to_nat id := p]> (v_kmers m).
Proof.
  unfold deleteUnitig. intros Hd.
  apply bind_Some in Hd as (p & _ & Hd).
  apply bind_Some in Hd as (hm & _ & Hd).
  injection Hd as <-. simpl. eauto.
Qed.

Lemma swap_entries_lookup {E} (v v' : list E) a b :
  swap_entries v a b = Some v' ->
  length v' = length v /\
  forall j : nat, j <> Z.to_nat a -> j <> Z.to_nat b -> v' !! j = v !! j.
Proof.
  unfold swap_entries. intros Hs.
  apply bind_Some in Hs as (x & _ & Hs).
  apply bind_Some in Hs as (y & _ & Hs).
  injection Hs as <-. split.
  - rewrite !length_insert. reflexivity.
  - intros j Ha Hb. rewrite !list_lookup_insert_ne by congruence. reflexivity.
Qed.

Lemma swap_entries_at {E} (v v' : list E) a b :
  swap_entries v a b = Some v' ->
  0 <= a -> 0 <= b ->
  v' !! Z.to_nat a = v !! Z.to_nat b /\ v' !! Z.to_nat b = v !! Z.to_nat a.
Proof.
  unfold swap_entries, at_. intros Hs Ha Hb.
  destruct (a <? 0) eqn:Ea; [lia|]. destruct (b <? 0) eqn:Eb; [lia|].
  apply bind_Some in Hs as (x & Hx & Hs).
  apply bind_Some in Hs as (y & Hy & Hs).
  injection Hs as <-.
  assert (Hla : (Z.to_nat a < length v)%nat) by (eapply lookup_lt_Some; eauto).
  assert (Hlb : (Z.to_nat b < length v)%nat) by (eapply lookup_lt_Some; eauto).
  destruct (decide (Z.to_nat a = Z.to_nat b)) as [Hab|Hab].
  - rewrite Hab in *. rewrite list_lookup_insert_eq by (rewrite length_insert; lia).
    split; congruence.
  - split.
    + rewrite list_lookup_insert_ne by congruence.
      rewrite list_lookup_insert_eq by lia. congruence.
    + rewrite list_lookup_insert_eq by (rewrite length_insert; lia). congruence.
Qed.

Lemma swapUnitigs_effect m isShort a b m' :
  swapUnitigs m isShort a b = Some m' ->
  h_kmers_ccov m' = h_kmers_ccov m /\
  if isShort
  then v_unitigs m' = v_unitigs m /\ swap_entries (v_kmers m) a b = Some (v_kmers m')
  else v_kmers m' = v_kmers m /\ swap_entries (v_unitigs m) a b = Some (v_unitigs m').
Proof.
  unfold swapUnitigs. intros Hs.
  apply bind_Some in Hs as ([vu vk] & Hv & Hs).
  apply bind_Some in Hs as (str & _ & Hs).
  apply bind_Some in Hs as (v_min_a & _ & Hs).
  apply bind_Some in Hs as (hm1 & _ & Hs).
  apply bind_Some in Hs as (str' & _ & Hs).
  apply bind_Some in Hs as (v_min_b & _ & Hs).
  apply bind_Some in Hs as (hm2 & _ & Hs).
  injection Hs as <-. simpl. split; [reflexivity|].
  destruct isShort.
  - apply bind_Some in Hv as (vk' & Hvk & Hv). injection Hv as <- <-. auto.
  - apply bind_Some in Hv as (vu' & Hvu & Hv). injection Hv as <- <-. auto.
Qed.

Lemma update_unitig_effect m id f m' :
  update_unitig m id f = Some m' ->
  h_kmers_ccov m' = h_kmers_ccov m /\ v_kmers m' = v_kmers m /\
  exists u, at_ (v_unitigs m) id = Some (Some u) /\
            v_unitigs m' = <[Z.to_nat id := Some (f u)]> (v_unitigs m).
Proof.
  unfold update_unitig. intros Hu.
  apply bind_Some in Hu as (ou & Hou & Hu).
  apply bind_Some in Hu as (u & Hou' & Hu).
  injection Hu as <-. simpl. split; [reflexivity|]. split; [reflexivity|].
  exists u. subst ou. auto.
Qed.


Lemma add_result_flags c_str p a r o s0 :
  flags_ok s0 a -> add_result c_str p a r = Some o ->
  flags_ok s0 (match o with Return a' => a' | Continue a' => a' end).
Proof.
  intros Hf Ha. unfold add_result in Ha.
  apply bind_Some in Ha as ([[hm h] b0] & _ & Ha).
  apply bind_Some in Ha as ([[hm1 h1] fb] & _ & Ha).
  apply bind_Some in Ha as (bin & _ & Ha).
  repeat match type of Ha with
         | (if ?c then _ else _) = Some _ => destruct c eqn:?
         | mbind _ _ = Some _ => apply bind_Some in Ha as (? & _ & Ha)
         end;
    injection Ha as <-; try exact Hf.
  right. simpl. split; [reflexivity|].
  match goal with E : a_isShort a && _ = true |- _ =>
    apply andb_true_iff in E as [E _] end.
  destruct Hf as [[_ <-]|[_ ->]]; auto.
Qed.

Lemma add_results_flags c_str p s0 results : forall a a',
  flags_ok s0 a -> add_results c_str p a results = Some a' -> flags_ok s0 a'.
Proof.
  induction results as [|r rest IH]; intros a a' Hf Ha.
  - injection Ha as <-. exact Hf.
  - cbn [add_results] in Ha. apply bind_Some in Ha as (o & Ho & Ha).
    pose proof (add_result_flags _ _ _ _ _ _ Hf Ho) as Hf'.
    destruct o; [injection Ha as <-; exact Hf'|eapply IH; eauto].
Qed.

Lemma add_positions_flags c_str s0 ps : forall a a',
  flags_ok s0 a -> add_positions c_str a ps = Some a' -> flags_ok s0 a'.
Proof.
  induction ps as [|p rest IH]; intros a a' Hf Ha.
  - injection Ha as <-. exact Hf.
  - cbn [add_positions] in Ha. destruct (a_done a); [injection Ha as <-; exact Hf|].
    destruct ((a_last_pos_min a <? getPosition c_str p) || a_isForbidden a).
    + apply bind_Some in Ha as (a1 & Ha1 & Ha).
      eapply IH; [|exact Ha]. eapply add_results_flags; [|exact Ha1]. exact Hf.
    + eapply IH; eauto.
Qed.


Lemma addUnitig_effect m str id m' (ab : bool) :
  addUnitig m str id = Some (m', ab) ->
  let x := (rep (Km str), newCov 1 false) in
  if ab then
    Z.of_nat (length str) = k /\ v_unitigs m' = v_unitigs m /\
    (exists vk p,
       assign_or_push (v_kmers m) id x = Some vk /\
       v_kmers m' =
         (let v2 := <[Z.to_nat id := p]> vk in
          if id =? wrap64 (Z.of_nat (length v2) - 1)
          then take (length v2 - 1) v2 else v2)) /\
    (exists it b0, HT.insert (h_kmers_ccov m) x = Some (h_kmers_ccov m', it, b0))
  else if Z.of_nat (length str) =? k then
    h_kmers_ccov m' = h_kmers_ccov m /\ v_unitigs m' = v_unitigs m /\
    assign_or_push (v_kmers m) id x = Some (v_kmers m')
  else
    h_kmers_ccov m' = h_kmers_ccov m /\ v_kmers m' = v_kmers m /\
    assign_or_push (v_unitigs m) id (Some (newUnitig str)) = Some (v_unitigs m').
Proof.
  unfold addUnitig. intros Ha. cbv zeta.
  apply bind_Some in Ha as (a & Hadd & Ha).
  assert (Hfl : flags_ok (Z.of_nat (length str) =? k) a).
  { eapply add_positions_flags; [|exact Hadd]. left. simpl. auto. }
  destruct (a_isAbundant a) eqn:Eab.
  - destruct Hfl as [[? _]|[_ Hk]]; [congruence|].
    apply bind_Some in Ha as (vk & Hvk & Ha).
    apply bind_Some in Ha as (m2 & Hdel & Ha).
    apply bind_Some in Ha as (hm & _ & Ha).
    apply bind_Some in Ha as ([[hk it] b0] & Hins & Ha).
    injection Ha as <- <-.
    apply deleteUnitig_short in Hdel as (Hh & Hvu & p & Hvk2). simpl in Hh, Hvu, Hvk2.
    simpl. split; [apply Z.eqb_eq; exact Hk|]. split; [exact Hvu|]. split.
    + exists vk, p. split; [exact Hvk|]. rewrite Hvk2. reflexivity.
    + exists it, b0. rewrite <- Hh. exact Hins.
  - destruct Hfl as [[_ Hs]|[? _]]; [|congruence]. rewrite Hs in Ha.
    destruct (Z.of_nat (length str) =? k) eqn:Ek.
    + apply bind_Some in Ha as (vk & Hvk & Ha). injection Ha as <- <-.
      simpl. auto.
    + apply bind_Some in Ha as (vu & Hvu & Ha). injection Ha as <- <-.
      simpl. auto.
Qed.


(** *** Vectors *)

Lemma vec_limit_val : vec_limit = 1152921504606846976.
Proof. reflexivity. Qed.

Lemma wrap64_vec z : 0 <= z <= vec_limit + 1 -> wrap64 z = z.
Proof.
  intros Hz. apply wrap64_small. rewrite vec_limit_val in Hz.
  change (2 ^ 64) with 18446744073709551616. lia.
Qed.

Lemma at_lookup {E} (v : list E) (i : Z) x :
  at_ v i = Some x <-> 0 <= i /\ v !! Z.to_nat i = Some x.
Proof.
  unfold at_. destruct (i <? 0) eqn:Ei.
  - split; [discriminate|]. intros [? _]. lia.
  - split; [intros ?; split; [lia|assumption]|tauto].
Qed.

Lemma assign_or_push_effect {E} (v v' : list E) id x :
  assign_or_push v id x = Some v' ->
  0 <= id <= Z.of_nat (length v) /\
  v' !! Z.to_nat id = Some x /\
  (forall j : nat, j <> Z.to_nat id -> (j < length v)%nat -> v' !! j = v !! j) /\
  (length v <= length v')%nat /\ Z.of_nat (length v') <= Z.max (Z.of_nat (length v)) (id + 1) /\
  id < Z.of_nat (length v') /\
  (Z.of_nat (length v) <= vec_limit -> Z.of_nat (length v') <= vec_limit).
Proof.
  unfold assign_or_push. destruct (id =? Z.of_nat (length v)) eqn:E1.
  - apply Z.eqb_eq in E1. destruct (Z.of_nat (length v) <? vec_limit) eqn:E2;
      [|discriminate].
    apply Z.ltb_lt in E2. intros [= <-]. rewrite length_app. simpl.
    split; [lia|]. split.
    + rewrite lookup_app_r by lia. replace (Z.to_nat id - length v)%nat with 0%nat by lia.
      reflexivity.
    + split; [|lia]. intros j _ Hj. apply lookup_app_l. exact Hj.
  - apply Z.eqb_neq in E1.
    destruct ((0 <=? id) && (id <? Z.of_nat (length v))) eqn:E2; [|discriminate].
    apply andb_true_iff in E2 as [E2 E3]. apply Z.leb_le in E2. apply Z.ltb_lt in E3.
    intros [= <-]. rewrite length_insert. split; [lia|]. split.
    + apply list_lookup_insert_eq. lia.
    + split; [|lia]. intros j Hj _. apply list_lookup_insert_ne. congruence.
Qed.

Lemma short_ok_keep vk vk' ksz :
  short_ok vk ksz ->
  (forall j : nat, Z.of_nat j < ksz -> vk' !! j = vk !! j) ->
  ksz <= Z.of_nat (length vk') <= vec_limit ->
  short_ok vk' ksz.
Proof.
  intros (Hk & Hl & Hf) Hsame Hlen. split; [lia|]. split; [lia|].
  intros j p Hj Hp. rewrite Hsame in Hp by exact Hj. eapply Hf; eauto.
Qed.

Lemma short_ok_extend vk vk' ksz x p :
  short_ok vk ksz -> assign_or_push vk ksz x = Some vk' ->
  isFull p.2 = true ->
  short_ok (<[Z.to_nat ksz := p]> vk') (ksz + 1).
Proof.
  intros (Hk & Hl & Hf) Ha Hp.
  apply assign_or_push_effect in Ha as (Hid & Hat & Hoth & Hlen & Hmax & Hlt & Hlim).
  split; [rewrite length_insert; lia|]. split; [rewrite length_insert; lia|].
  intros j q Hj Hq. destruct (decide (j = Z.to_nat ksz)) as [->|Hne].
  - rewrite list_lookup_insert_eq in Hq by lia. congruence.
  - rewrite list_lookup_insert_ne in Hq by congruence.
    rewrite Hoth in Hq by lia. apply (Hf j q); [lia|exact Hq].
Qed.

(** The long unitigs: a new vector and new cursors are in order when
    every position of the new regions is an old one left alone, or
    holds a full unitig. *)
Lemma long_ok_agree vu vu' c c' :
  long_ok vu c ->
  0 <= pos_v_unitigs c' <= v_unitigs_sz c' ->
  v_unitigs_sz c' <= nxt_pos_insert_v_unitigs c' <= Z.of_nat (length vu') ->
  Z.of_nat (length vu') <= vec_limit ->
  (forall j : nat,
     Z.of_nat j < pos_v_unitigs c' \/
     v_unitigs_sz c' <= Z.of_nat j < nxt_pos_insert_v_unitigs c' ->
     ((Z.of_nat j < pos_v_unitigs c \/
       v_unitigs_sz c <= Z.of_nat j < nxt_pos_insert_v_unitigs c) /\
      vu' !! j = vu !! j) \/
     exists u, vu' !! j = Some (Some u) /\ isFull (ccov u) = true) ->
  long_ok vu' c'.
Proof.
  intros (H1 & H2 & H3 & Hf) H1' H2' H3' Hreg.
  split; [exact H1'|]. split; [exact H2'|]. split; [exact H3'|].
  intros j Hj. destruct (Hreg j Hj) as [[Hold Hsame]|Hnew]; [|exact Hnew].
  rewrite Hsame. apply Hf. exact Hold.
Qed.


(** *** The table of the abundant k-mers *)

Lemma set_value_keys {K V} (t : HT.HashTable K V) h v :
  (HT.table (set_value t h v)).*1 = (HT.table t).*1 /\
  HT.size_ (set_value t h v) = HT.size_ t /\
  HT.num_empty (set_value t h v) = HT.num_empty t.
Proof.
  unfold set_value. destruct (HT.table t !! Z.to_nat h) as [[key v0]|] eqn:E;
    [|auto].
  simpl. split; [|auto]. rewrite list_fmap_insert. simpl.
  apply list_insert_id. rewrite list_lookup_fmap, E. reflexivity.
Qed.

Lemma set_value_ok (t : HT.HashTable Kmer CompressedCoverage) h v :
  table_ok t -> table_ok (set_value t h v).
Proof.
  intros Hok. destruct (set_value_keys t h v) as (Hk & Hs & Hn).
  eapply HTContent.same_keys_ok; eauto.
Qed.

Lemma set_value_lookup {K V} (t : HT.HashTable K V) h v (i : nat) e k0 v0 :
  HT.table t !! Z.to_nat h = Some (k0, v0) ->
  HT.table (set_value t h v) !! i = Some e ->
  (i = Z.to_nat h /\ e = (k0, v)) \/
  (i <> Z.to_nat h /\ HT.table t !! i = Some e).
Proof.
  intros E. unfold set_value. rewrite E. simpl. intros Hl.
  destruct (decide (i = Z.to_nat h)) as [->|Hne].
  - rewrite list_lookup_insert_eq in Hl by (eapply lookup_lt_Some; eauto).
    injection Hl as <-. left. auto.
  - rewrite list_lookup_insert_ne in Hl by congruence. auto.
Qed.

Lemma is_live_rep str : is_live (T:=CompressedCoverage) (rep (Km str)) = true.
Proof. reflexivity. Qed.

Lemma abundant_full_dead e :
  is_live (T:=CompressedCoverage) e.1 = false -> abundant_full e = true.
Proof. intros Hd. unfold abundant_full. rewrite Hd. reflexivity. Qed.

(** The abundant k-mer a piece has become is set full: all are full
    again. *)
Lemma abundant_insert_full t x t1 it b0 it' entry :
  abundant_ok t -> is_live (T:=CompressedCoverage) x.1 = true ->
  HT.insert t x = Some (t1, it, b0) ->
  HT.find t1 x.1 = Some it' -> slot_at t1 it' = Some entry ->
  abundant_ok (set_value t1 it' (setFull entry.2)).
Proof.
  intros [Hok Hfull] Hlive Hins Hfind Hentry.
  destruct (HTContent.insert_ok kmer_sentinels t x t1 it b0 Hok Hlive Hins)
    as (Hok1 & Hfound & Hit & _ & Hothers).
  assert (it' = it) by congruence. subst it'.
  split; [apply set_value_ok; exact Hok1|].
  apply Forall_lookup. intros i e Hl.
  unfold slot_at in Hentry. destruct entry as [k0 v0].
  apply (set_value_lookup t1 it _ i e k0 v0 Hentry) in Hl as [[-> ->]|[Hne Hl]].
  - unfold abundant_full, isFull. simpl. apply orb_true_r.
  - destruct (is_live (T:=CompressedCoverage) e.1) eqn:El;
      [|apply abundant_full_dead; exact El].
    rewrite Forall_forall in Hfull. apply Hfull.
    eapply Hothers; eauto. lia.
Qed.


(** *** One piece *)

Lemma full_with_full cov u : isFull (ccov (full_with cov u)) = true.
Proof. reflexivity. Qed.

Lemma split_piece_inv str tc cs lc m c fl range m' c' fl' :
  piece_inv m c fl ->
  split_piece str tc cs lc (m, c, fl) range = Some (m', c', fl') ->
  piece_inv m' c' fl' /\
  pos_v_unitigs c' = pos_v_unitigs c /\ v_unitigs_sz c' = v_unitigs_sz c.
Proof.
  intros ((Hab & Hsh & Hlo) & Hpos & Hfl) Hsp.
  unfold split_piece in Hsp.
  apply bind_Some in Hsp as (split_str & _ & Hsp).
  destruct (wrap64 (cs - lc) =? 0); [discriminate|].
  pose proof Hlo as (Hl1 & Hl2 & Hl3 & Hlf).
  pose proof Hsh as (Hs1 & Hs2 & Hsf).
  destruct (Z.of_nat (length split_str) =? k) eqn:Ek.
  - (* a piece of one k-mer *)
    apply bind_Some in Hsp as ([m1 abundant] & Hadd & Hsp).
    pose proof (addUnitig_effect _ _ _ _ _ Hadd) as Heff. cbv zeta in Heff.
    destruct abundant.
    + destruct Heff as (_ & Hvu & (vk & p & Hvk & Hvk1) & (it & b0 & Hins)).
      apply bind_Some in Hsp as (it' & Hfind & Hsp).
      destruct (it' =? HT.it_end (h_kmers_ccov m1)); [discriminate|].
      apply bind_Some in Hsp as (entry & Hentry & Hsp).
      injection Hsp as <- <- <-.
      split; [|auto]. split; [|split; [exact Hpos|simpl; rewrite Hvu; exact Hfl]].
      split; [|split]; simpl.
      * apply (abundant_insert_full (h_kmers_ccov m)
                 (rep (Km split_str), newCov 1 false) _ it b0 it' entry Hab
                 (is_live_rep split_str) Hins Hfind Hentry).
      * apply assign_or_push_effect in Hvk
          as (Hid & Hat & Hoth & Hlen & Hmax & Hlt & Hlim).
        set (v2 := <[Z.to_nat (v_kmers_sz c) := p]> vk) in *.
        assert (Hlen2 : length v2 = length vk) by apply length_insert.
        assert (Hv2 : forall j : nat, Z.of_nat j < v_kmers_sz c ->
                        v2 !! j = v_kmers m !! j).
        { intros j Hj. unfold v2. rewrite list_lookup_insert_ne by lia.
          apply Hoth; lia. }
        rewrite Hvk1. cbv zeta.
        rewrite wrap64_vec by lia.
        destruct (v_kmers_sz c =? Z.of_nat (length v2) - 1) eqn:Elast.
        -- apply Z.eqb_eq in Elast.
           apply (short_ok_keep (v_kmers m)); auto.
           ++ intros j Hj. rewrite lookup_take_lt by lia. apply Hv2. exact Hj.
           ++ rewrite length_take. lia.
        -- apply (short_ok_keep (v_kmers m)); auto. lia.
      * rewrite Hvu. exact Hlo.
    + rewrite Ek in Heff. destruct Heff as (Hh & Hvu & Hvk).
      apply bind_Some in Hsp as (p & Hp & Hsp).
      injection Hsp as <- <- <-.
      split; [|auto]. split; [|split; [exact Hpos|simpl; rewrite Hvu; exact Hfl]].
      split; [|split]; simpl.
      * rewrite Hh. exact Hab.
      * rewrite wrap64_vec by lia.
        eapply short_ok_extend; eauto.
      * rewrite Hvu. exact Hlo.
  - destruct fl.
    + (* the first long piece takes the place of the unitig *)
      apply bind_Some in Hsp as (m1 & Hdel & Hsp).
      apply bind_Some in Hsp as ([m2 ab] & Hadd & Hsp).
      apply bind_Some in Hsp as (m3 & Hupd & Hsp).
      injection Hsp as <- <- <-.
      apply deleteUnitig_long in Hdel as (Hh1 & Hk1 & Hv1).
      pose proof (addUnitig_effect _ _ _ _ _ Hadd) as Heff. cbv zeta in Heff.
      destruct ab.
      { destruct Heff as (Hk' & _). apply Z.eqb_neq in Ek. contradiction. }
      rewrite Ek in Heff. destruct Heff as (Hh2 & Hk2 & Hv2).
      apply update_unitig_effect in Hupd as (Hh3 & Hk3 & u & Hu & Hv3).
      apply assign_or_push_effect in Hv2
        as (Hid & Hat & Hoth & Hlen & Hmax & Hlt & Hlim).
      rewrite Hv1, length_insert in *.
      assert (Hlen3 : length (v_unitigs m3) = length (v_unitigs m2))
        by (rewrite Hv3; apply length_insert).
      assert (Hlen2 : length (v_unitigs m2) = length (v_unitigs m)) by lia.
      assert (Hat3 : v_unitigs m3 !! Z.to_nat (pos_v_unitigs c)
                     = Some (Some (full_with
                          (wrap64 (tc * wrap64 (range.2 - wrap64 range.1))
                           / wrap64 (cs - lc)) u))).
      { rewrite Hv3. apply list_lookup_insert_eq. lia. }
      split; [|auto]. split; [|split; [exact Hpos|]].
      * split; [|split].
        -- rewrite Hh3, Hh2, Hh1. exact Hab.
        -- rewrite Hk3, Hk2, Hk1. exact Hsh.
        -- apply (long_ok_agree (v_unitigs m) _ c); auto; try lia.
           intros j Hj. left. split; [exact Hj|].
           rewrite Hv3, list_lookup_insert_ne by lia.
           rewrite Hoth by lia.
           rewrite list_lookup_insert_ne by lia. reflexivity.
      * intros _. eexists. split; [exact Hat3|reflexivity].
    + (* a further long piece goes to the end *)
      apply bind_Some in Hsp as ([m1 ab] & Hadd & Hsp).
      apply bind_Some in Hsp as (m2 & Hupd & Hsp).
      injection Hsp as <- <- <-.
      pose proof (addUnitig_effect _ _ _ _ _ Hadd) as Heff. cbv zeta in Heff.
      destruct ab.
      { destruct Heff as (Hk' & _). apply Z.eqb_neq in Ek. contradiction. }
      rewrite Ek in Heff. destruct Heff as (Hh1 & Hk1 & Hv1).
      apply update_unitig_effect in Hupd as (Hh2 & Hk2 & u & Hu & Hv2).
      apply assign_or_push_effect in Hv1
        as (Hid & Hat & Hoth & Hlen & Hmax & Hlt & Hlim).
      assert (Hlen2 : length (v_unitigs m2) = length (v_unitigs m1))
        by (rewrite Hv2; apply length_insert).
      set (nxt := nxt_pos_insert_v_unitigs c) in *.
      assert (Hat2 : v_unitigs m2 !! Z.to_nat nxt
                     = Some (Some (full_with
                          (wrap64 (tc * wrap64 (range.2 - wrap64 range.1))
                           / wrap64 (cs - lc)) u))).
      { rewrite Hv2. apply list_lookup_insert_eq. lia. }
      split; [|auto]. split; [|split; [exact Hpos|]].
      * split; [|split]; simpl.
        -- rewrite Hh2, Hh1. exact Hab.
        -- rewrite Hk2, Hk1. exact Hsh.
        -- rewrite wrap64_vec by lia.
           apply (long_ok_agree (v_unitigs m) _ c); auto; simpl; try lia.
           intros j Hj. destruct (decide (j = Z.to_nat nxt)) as [->|Hne].
           ++ right. eexists. split; [exact Hat2|reflexivity].
           ++ left. fold nxt. split; [lia|].
              rewrite Hv2, list_lookup_insert_ne by lia.
              apply Hoth; lia.
      * intros _. simpl. destruct (Hfl eq_refl) as (u0 & Hu0 & Hfull0).
        exists u0. split; [|exact Hfull0].
        rewrite Hv2, list_lookup_insert_ne by lia.
        rewrite Hoth; [exact Hu0|lia|].
        apply lookup_lt_Some in Hu0. exact Hu0.
Qed.


Lemma split_pieces_inv str tc cs lc sp : forall m c fl m' c' fl',
  piece_inv m c fl ->
  split_pieces str tc cs lc (m, c, fl) sp = Some (m', c', fl') ->
  piece_inv m' c' fl' /\
  pos_v_unitigs c' = pos_v_unitigs c /\ v_unitigs_sz c' = v_unitigs_sz c.
Proof.
  induction sp as [|range rest IH]; intros m c fl m' c' fl' Hinv Hsp.
  - injection Hsp as <- <- <-. auto.
  - cbn [split_pieces] in Hsp.
    apply bind_Some in Hsp as ([[m1 c1] fl1] & Hone & Hsp).
    destruct (split_piece_inv _ _ _ _ _ _ _ _ _ _ _ Hinv Hone) as (Hinv1 & Hp1 & Hs1).
    destruct (IH _ _ _ _ _ _ Hinv1 Hsp) as (Hinv' & Hp' & Hs').
    split; [exact Hinv'|]. split; congruence.
Qed.

(** *** One unitig *)

Lemma splitUnitig_inv m c sp m' c' del :
  split_inv m c -> pos_v_unitigs c < v_unitigs_sz c ->
  splitUnitig m c sp = Some (m', c', del) ->
  split_inv m' c' /\
  v_unitigs_sz c' - pos_v_unitigs c' = v_unitigs_sz c - pos_v_unitigs c - 1.
Proof.
  intros Hinv Hpos Hsp. unfold splitUnitig in Hsp.
  apply bind_Some in Hsp as (ou & _ & Hsp).
  apply bind_Some in Hsp as (unitig & _ & Hsp).
  apply bind_Some in Hsp as ([[[m1 c1] fl] deleted] & Hpieces & Hsp).
  assert (Hp : piece_inv m1 c1 fl /\
               pos_v_unitigs c1 = pos_v_unitigs c /\
               v_unitigs_sz c1 = v_unitigs_sz c).
  { destruct sp as [|r rest].
    - injection Hpieces as <- <- <- <-. split; [|auto].
      split; [exact Hinv|]. split; [exact Hpos|discriminate].
    - apply bind_Some in Hpieces as ([[m1' c1'] fl'] & Hpieces & Hret).
      injection Hret as <- <- <- <-.
      eapply split_pieces_inv; [|exact Hpieces].
      split; [exact Hinv|]. split; [exact Hpos|discriminate]. }
  destruct Hp as (((Hab & Hsh & Hlo) & Hpos1 & Hfl) & Hp1 & Hs1).
  pose proof Hlo as (Hl1 & Hl2 & Hl3 & Hlf).
  destruct fl.
  - (* no long piece: the unitig goes, the last one takes its place *)
    rewrite (wrap64_vec (nxt_pos_insert_v_unitigs c1 - 1)) in Hsp by lia.
    set (nxt := nxt_pos_insert_v_unitigs c1 - 1) in *.
    apply bind_Some in Hsp as ([[m2 pos'] sz'] & Hswap & Hsp).
    apply bind_Some in Hsp as (m3 & Hdel & Hsp).
    injection Hsp as <- <- <-.
    apply deleteUnitig_long in Hdel as (Hh3 & Hk3 & Hv3).
    destruct (negb (pos_v_unitigs c1 =? nxt)) eqn:Eeq.
    + apply negb_true_iff, Z.eqb_neq in Eeq.
      apply bind_Some in Hswap as (m2' & Hsw & Hswap).
      apply swapUnitigs_effect in Hsw as (Hh2 & Hk2 & Hv2).
      pose proof (swap_entries_lookup _ _ _ _ Hv2) as (Hlen2 & Hoth2).
      pose proof (swap_entries_at _ _ _ _ Hv2 ltac:(lia) ltac:(lia)) as (Hat_a & Hat_b).
      destruct (nxt >=? v_unitigs_sz c1) eqn:Ege; injection Hswap as <- <- <-.
      * (* the last one is a piece added before: it is full *)
        rewrite Z.geb_leb in Ege. apply Z.leb_le in Ege.
        rewrite wrap64_vec by lia.
        split; [|simpl; lia].
        split; [|split]; simpl.
        -- rewrite Hh3, Hh2. exact Hab.
        -- rewrite Hk3, Hk2. exact Hsh.
        -- apply (long_ok_agree (v_unitigs m1) _ c1 _ Hlo); simpl;
             rewrite ?Hv3, ?length_insert, ?Hlen2; try lia.
           intros j Hj. rewrite list_lookup_insert_ne by lia.
           destruct (decide (j = Z.to_nat (pos_v_unitigs c1))) as [->|Hne].
           ++ right. rewrite Hat_a. apply Hlf. right. lia.
           ++ left. split; [lia|]. apply Hoth2; lia.
      * rewrite Z.geb_leb in Ege. apply Z.leb_gt in Ege.
        rewrite wrap64_vec by lia.
        split; [|simpl; lia].
        split; [|split]; simpl.
        -- rewrite Hh3, Hh2. exact Hab.
        -- rewrite Hk3, Hk2. exact Hsh.
        -- apply (long_ok_agree (v_unitigs m1) _ c1 _ Hlo); simpl;
             rewrite ?Hv3, ?length_insert, ?Hlen2; try lia.
           intros j Hj. rewrite list_lookup_insert_ne by lia.
           left. split; [lia|]. apply Hoth2; lia.
    + apply negb_false_iff, Z.eqb_eq in Eeq.
      injection Hswap as <- <- <-.
      rewrite wrap64_vec by lia.
      split; [|simpl; lia].
      split; [|split]; simpl.
      * rewrite Hh3. exact Hab.
      * rewrite Hk3. exact Hsh.
      * apply (long_ok_agree (v_unitigs m1) _ c1 _ Hlo); simpl;
          rewrite ?Hv3, ?length_insert; try lia.
        intros j Hj. rewrite list_lookup_insert_ne by lia.
        left. split; [lia|reflexivity].
  - injection Hsp as <- <- <-.
    rewrite wrap64_vec by lia.
    split; [|simpl; lia].
    split; [exact Hab|]. split; [exact Hsh|].
    apply (long_ok_agree (v_unitigs m1) _ c1 _ Hlo); simpl; try lia; auto.
    intros j Hj. destruct (decide (j = Z.to_nat (pos_v_unitigs c1))) as [->|Hne].
    + right. apply Hfl. reflexivity.
    + left. split; [lia|reflexivity].
Qed.


(** *** The three loops *)

Lemma split_long_inv fuel : forall m c split deleted m' c' s' d',
  split_inv m c ->
  split_long fuel m c split deleted = Some (m', c', s', d') ->
  split_inv m' c' /\ v_unitigs_sz c' <= pos_v_unitigs c' /\
  forall n : nat, v_unitigs_sz c - pos_v_unitigs c <= Z.of_nat n ->
    split_long n m c split deleted = Some (m', c', s', d').
Proof.
  induction fuel as [|fuel IH]; intros m c split deleted m' c' s' d' Hinv Hsl.
  - simpl in Hsl. destruct (pos_v_unitigs c <? v_unitigs_sz c) eqn:E; [discriminate|].
    injection Hsl as <- <- <- <-. pose proof E as E'. apply Z.ltb_ge in E'.
    split; [exact Hinv|]. split; [exact E'|].
    intros n _. destruct n; cbn [split_long]; rewrite E; reflexivity.
  - cbn [split_long] in Hsl.
    destruct (pos_v_unitigs c <? v_unitigs_sz c) eqn:E.
    2:{ injection Hsl as <- <- <- <-. pose proof E as E'. apply Z.ltb_ge in E'.
        split; [exact Hinv|]. split; [exact E'|].
        intros n _. destruct n; cbn [split_long]; rewrite E; reflexivity. }
    pose proof E as E'. apply Z.ltb_lt in E'.
    apply bind_Some in Hsl as (ou & Hou & Hsl).
    apply bind_Some in Hsl as (u & Hu & Hsl). subst ou.
    destruct (negb (isFull (ccov u))) eqn:Efull.
    + apply bind_Some in Hsl as ([[m1 c1] del] & Hsp & Hsl).
      destruct (splitUnitig_inv _ _ _ _ _ _ Hinv E' Hsp) as [Hinv1 Hmeasure].
      assert (Hrest : split_inv m' c' /\ v_unitigs_sz c' <= pos_v_unitigs c' /\
                forall n : nat, v_unitigs_sz c1 - pos_v_unitigs c1 <= Z.of_nat n ->
                (if del then split_long n m1 c1 split (wrap64 (deleted + 1))
                 else split_long n m1 c1 (wrap64 (split + 1)) deleted)
                = Some (m', c', s', d')).
      { destruct del; exact (IH _ _ _ _ _ _ _ _ Hinv1 Hsl). }
      destruct Hrest as (Hinv' & Hend & Hfuel).
      split; [exact Hinv'|]. split; [exact Hend|].
      intros n Hn. destruct n as [|n]; [lia|].
      cbn [split_long]. rewrite E, Hou. cbn [mbind option_bind].
      rewrite Efull, Hsp. cbn [mbind option_bind].
      apply Hfuel. lia.
    + pose proof Efull as Efull'. apply negb_false_iff in Efull'.
      assert (Hinv1 : split_inv m
                {| pos_v_unitigs := wrap64 (pos_v_unitigs c + 1);
                   nxt_pos_insert_v_unitigs := nxt_pos_insert_v_unitigs c;
                   v_unitigs_sz := v_unitigs_sz c; v_kmers_sz := v_kmers_sz c |}).
      { destruct Hinv as (Hab & Hsh & Hlo).
        pose proof Hlo as (Hl1 & Hl2 & Hl3 & Hlf).
        apply at_lookup in Hou as [_ Hou].
        split; [exact Hab|]. split; [exact Hsh|].
        apply (long_ok_agree (v_unitigs m) _ c _ Hlo); simpl;
          rewrite ?wrap64_vec by lia; try lia.
        intros j Hj. destruct (decide (j = Z.to_nat (pos_v_unitigs c))) as [->|Hne].
        * right. eauto.
        * left. split; [lia|reflexivity]. }
      destruct (IH _ _ _ _ _ _ _ _ Hinv1 Hsl) as (Hinv' & Hend & Hfuel).
      split; [exact Hinv'|]. split; [exact Hend|].
      intros n Hn. destruct n as [|n]; [lia|].
      cbn [split_long]. rewrite E, Hou. cbn [mbind option_bind].
      rewrite Efull. apply Hfuel. simpl.
      destruct Hinv as (_ & _ & Hl1 & Hl2 & Hl3 & _).
      rewrite wrap64_vec by lia. lia.
Qed.

Lemma split_short_inv fuel : forall m i sz deleted m' sz' d',
  short_ok (v_kmers m) i -> i <= sz <= Z.of_nat (length (v_kmers m)) ->
  split_short fuel m i sz deleted = Some (m', sz', d') ->
  short_ok (v_kmers m') sz' /\
  h_kmers_ccov m' = h_kmers_ccov m /\ v_unitigs m' = v_unitigs m /\
  forall n : nat, sz - i <= Z.of_nat n ->
    split_short n m i sz deleted = Some (m', sz', d').
Proof.
  induction fuel as [|fuel IH]; intros m i sz deleted m' sz' d' Hsh Hsz Hss.
  - simpl in Hss. destruct (i <? sz) eqn:E; [discriminate|].
    injection Hss as <- <- <-. pose proof E as E'. apply Z.ltb_ge in E'.
    replace sz with i in * by lia. split; [exact Hsh|].
    split; [reflexivity|]. split; [reflexivity|].
    intros n _. destruct n; cbn [split_short]; rewrite E; reflexivity.
  - cbn [split_short] in Hss. destruct (i <? sz) eqn:E.
    2:{ injection Hss as <- <- <-. pose proof E as E'. apply Z.ltb_ge in E'.
        replace sz with i in * by lia. split; [exact Hsh|].
        split; [reflexivity|]. split; [reflexivity|].
        intros n _. destruct n; cbn [split_short]; rewrite E; reflexivity. }
    pose proof E as E'. apply Z.ltb_lt in E'. pose proof Hsh as (Hs1 & Hs2 & Hsf).
    apply bind_Some in Hss as (p & Hp & Hss).
    pose proof Hp as Hp'. apply at_lookup in Hp' as [_ Hp'].
    destruct (negb (isFull p.2)) eqn:Efull.
    + pose proof Hss as Hss0.
      rewrite (wrap64_vec (sz - 1)) in Hss by lia.
      apply bind_Some in Hss as (m1 & Hswap & Hss).
      apply bind_Some in Hss as (m2 & Hdel & Hss).
      pose proof Hdel as Hdel0.
      apply deleteUnitig_short in Hdel as (Hh2 & Hu2 & q & Hk2).
      assert (Hm1 : h_kmers_ccov m1 = h_kmers_ccov m /\ v_unitigs m1 = v_unitigs m /\
                    length (v_kmers m1) = length (v_kmers m) /\
                    forall j : nat, Z.of_nat j < i -> v_kmers m1 !! j = v_kmers m !! j).
      { destruct (negb (i =? sz - 1)) eqn:Ei.
        - apply swapUnitigs_effect in Hswap as (Hh1 & Hu1 & Hk1).
          destruct (swap_entries_lookup _ _ _ _ Hk1) as (Hl1 & Ho1).
          split; [exact Hh1|]. split; [exact Hu1|]. split; [exact Hl1|].
          intros j Hj. apply Ho1; lia.
        - injection Hswap as <-. auto. }
      destruct Hm1 as (Hh1 & Hu1 & Hl1 & Ho1).
      assert (Hsh2 : short_ok (v_kmers m2) i).
      { rewrite Hk2. apply (short_ok_keep (v_kmers m)); auto.
        - intros j Hj. rewrite list_lookup_insert_ne by lia. apply Ho1. exact Hj.
        - rewrite length_insert. lia. }
      assert (Hsz2 : i <= sz - 1 <= Z.of_nat (length (v_kmers m2))).
      { rewrite Hk2, length_insert. lia. }
      destruct (IH _ _ _ _ _ _ _ Hsh2 Hsz2 Hss) as (Hsh' & Hh' & Hu' & Hfuel).
      split; [exact Hsh'|]. split; [congruence|]. split; [congruence|].
      intros n Hn. destruct n as [|n]; [lia|].
      cbn [split_short]. rewrite E, Hp. cbn [mbind option_bind].
      rewrite Efull. rewrite (wrap64_vec (sz - 1)) by lia.
      rewrite Hswap. cbn [mbind option_bind]. rewrite Hdel0. cbn [mbind option_bind].
      apply Hfuel. lia.
    + pose proof Efull as Efull'. apply negb_false_iff in Efull'.
      rewrite (wrap64_vec (i + 1)) in Hss by lia.
      assert (Hsh1 : short_ok (v_kmers m) (i + 1)).
      { split; [lia|]. split; [lia|].
        intros j q Hj Hq. destruct (decide (j = Z.to_nat i)) as [->|Hne].
        * congruence.
        * apply (Hsf j q); [lia|exact Hq]. }
      assert (Hsz1 : i + 1 <= sz <= Z.of_nat (length (v_kmers m))) by lia.
      destruct (IH _ _ _ _ _ _ _ Hsh1 Hsz1 Hss) as (Hsh' & Hh' & Hu' & Hfuel).
      split; [exact Hsh'|]. split; [exact Hh'|]. split; [exact Hu'|].
      intros n Hn. destruct n as [|n]; [lia|].
      cbn [split_short]. rewrite E, Hp. cbn [mbind option_bind].
      rewrite Efull. rewrite (wrap64_vec (i + 1)) by lia.
      apply Hfuel. lia.
Qed.

Lemma find_h_live (t : HT.HashTable Kmer CompressedCoverage) (h : nat) key cov :
  wf_upto 60 t -> HT.table t !! h = Some (key, cov) ->
  is_live (T:=CompressedCoverage) key = true ->
  HT.find_h t (Z.of_nat h) = Z.of_nat h.
Proof.
  intros (_ & Hlen & _) Hl Hlive. unfold HT.find_h. rewrite Nat2Z.id, Hl.
  apply lookup_lt_Some in Hl.
  replace (Z.of_nat h <? HT.size_ t) with true by (symmetry; apply Z.ltb_lt; lia).
  unfold is_live in Hlive. apply andb_true_iff in Hlive as [H1 H2].
  rewrite H1, H2. reflexivity.
Qed.

Lemma deleteUnitig_abundant m (h : nat) key cov m' :
  table_ok (h_kmers_ccov m) ->
  HT.table (h_kmers_ccov m) !! h = Some (key, cov) ->
  is_live (T:=CompressedCoverage) key = true ->
  deleteUnitig m false true (Z.of_nat h) = Some m' ->
  v_unitigs m' = v_unitigs m /\ v_kmers m' = v_kmers m /\
  table_ok (h_kmers_ccov m') /\
  HT.table (h_kmers_ccov m') = <[h := HT.deleted]> (HT.table (h_kmers_ccov m)).
Proof.
  intros [Hwf Hf] Hl Hlive Hd. unfold deleteUnitig in Hd.
  rewrite (find_h_live _ h key cov Hwf Hl Hlive) in Hd.
  pose proof (lookup_lt_Some _ _ _ Hl) as Hlt.
  pose proof Hwf as (_ & Hlen & _).
  destruct (Z.of_nat h =? HT.it_end (h_kmers_ccov m)) eqn:Eend.
  { apply Z.eqb_eq in Eend. unfold HT.it_end in Eend. lia. }
  unfold slot_at in Hd. rewrite Nat2Z.id, Hl in Hd. cbn [mbind option_bind] in Hd.
  apply bind_Some in Hd as (hm & _ & Hd).
  apply bind_Some in Hd as (hk & Hk & Hd).
  injection Hd as <-. simpl.
  apply fmap_Some in Hk as ([t' n] & Her & ->). simpl.
  unfold HT.erase_key in Her. simpl fst in Her.
  rewrite (Hf h key cov Hl Hlive) in Her. rewrite Eend in Her.
  injection Her as <- _. unfold HT.erase_it. rewrite Eend. simpl.
  rewrite Nat2Z.id.
  split; [reflexivity|]. split; [reflexivity|]. split; [|reflexivity].
  eapply (HTContent.erased_ok kmer_sentinels); eauto. split; assumption.
Qed.


Lemma abundant_full_deleted :
  abundant_full (HT.deleted (K:=Kmer) (T:=CompressedCoverage)) = true.
Proof. reflexivity. Qed.

Lemma split_abundant_inv slots : forall m d m' d',
  table_ok (h_kmers_ccov m) ->
  split_abundant m d slots = Some (m', d') ->
  table_ok (h_kmers_ccov m') /\
  v_unitigs m' = v_unitigs m /\ v_kmers m' = v_kmers m /\
  length (HT.table (h_kmers_ccov m')) = length (HT.table (h_kmers_ccov m)) /\
  forall (i : nat) e, HT.table (h_kmers_ccov m') !! i = Some e ->
    abundant_full e = true \/
    ((i ∉ slots) /\ HT.table (h_kmers_ccov m) !! i = Some e).
Proof.
  induction slots as [|h rest IH]; intros m d m' d' Hok Hsa.
  - injection Hsa as <- <-. split; [exact Hok|]. split; [reflexivity|].
    split; [reflexivity|]. split; [reflexivity|].
    intros i e Hl. right. split; [apply not_elem_of_nil|exact Hl].
  - cbn [split_abundant] in Hsa.
    destruct (HT.table (h_kmers_ccov m) !! h) as [[key cov]|] eqn:Eh; [|discriminate].
    destruct (is_live (T:=CompressedCoverage) key && negb (isFull cov)) eqn:Ec.
    + apply andb_true_iff in Ec as [Hlive Hnf].
      apply bind_Some in Hsa as (m1 & Hdel & Hsa).
      destruct (deleteUnitig_abundant m h key cov m1 Hok Eh Hlive Hdel)
        as (Hu1 & Hk1 & Hok1 & Ht1).
      destruct (IH _ _ _ _ Hok1 Hsa) as (Hok' & Hu' & Hk' & Hlen' & Hent).
      split; [exact Hok'|]. split; [congruence|]. split; [congruence|].
      split; [rewrite Hlen', Ht1; apply length_insert|].
      intros i e Hl. destruct (Hent i e Hl) as [Hfull|[Hni Hl1]]; [left; exact Hfull|].
      rewrite Ht1 in Hl1. destruct (decide (i = h)) as [->|Hne].
      * rewrite list_lookup_insert_eq in Hl1 by (eapply lookup_lt_Some; eauto).
        injection Hl1 as <-. left. apply abundant_full_deleted.
      * rewrite list_lookup_insert_ne in Hl1 by congruence.
        right. split; [|exact Hl1]. apply not_elem_of_cons. auto.
    + destruct (IH _ _ _ _ Hok Hsa) as (Hok' & Hu' & Hk' & Hlen' & Hent).
      split; [exact Hok'|]. split; [exact Hu'|]. split; [exact Hk'|].
      split; [exact Hlen'|].
      intros i e Hl. destruct (Hent i e Hl) as [Hfull|[Hni Hl1]]; [left; exact Hfull|].
      destruct (decide (i = h)) as [->|Hne].
      * left. rewrite Eh in Hl1. injection Hl1 as <-.
        unfold abundant_full. simpl.
        destruct (is_live (T:=CompressedCoverage) key); simpl in *; [|reflexivity].
        apply negb_false_iff in Ec. exact Ec.
      * right. split; [|exact Hl1]. apply not_elem_of_cons. auto.
Qed.

(** *** The whole *)



(** A mapper whose unitigs are all full is left as it is. *)







(** The loops are run with all the fuel they can use: more would give
    the same. *)
Lemma splitAllUnitigs_fuel m (f1 f2 : nat) ma da mb ksz db r :
  mapper_ok m ->
  split_abundant m 0 (List.seq 0 (length (HT.table (h_kmers_ccov m)))) = Some (ma, da) ->
  split_short f1 ma 0 (Z.of_nat (length (v_kmers m))) da = Some (mb, ksz, db) ->
  split_long f2 mb
    {| pos_v_unitigs := 0;
       nxt_pos_insert_v_unitigs := Z.of_nat (length (v_unitigs m));
       v_unitigs_sz := Z.of_nat (length (v_unitigs m));
       v_kmers_sz := ksz |} 0 db = Some r ->
  exists res, splitAllUnitigs m = Some res.
Proof.
  intros (Hok & Hlu & Hlk) Ha Hb Hc.
  destruct (split_abundant_inv _ _ _ _ _ Hok Ha) as (Hoka & Hua & Hka & Hlena & Henta).
  assert (Haba : abundant_ok (h_kmers_ccov ma)).
  { split; [exact Hoka|]. apply Forall_lookup. intros i e Hl.
    destruct (Henta i e Hl) as [Hf|[Hni _]]; [exact Hf|].
    exfalso. apply Hni. apply list_elem_of_In, in_seq.
    apply lookup_lt_Some in Hl. lia. }
  assert (Hsha : short_ok (v_kmers ma) 0).
  { rewrite Hka. split; [lia|]. split; [exact Hlk|]. intros j p Hj. lia. }
  assert (Hrng : 0 <= Z.of_nat (length (v_kmers m)) <= Z.of_nat (length (v_kmers ma)))
    by (rewrite Hka; lia).
  destruct (split_short_inv _ _ _ _ _ _ _ _ Hsha Hrng Hb) as (Hshb & Hhb & Hub & Hfb).
  assert (Hinvb : split_inv mb
            {| pos_v_unitigs := 0;
               nxt_pos_insert_v_unitigs := Z.of_nat (length (v_unitigs m));
               v_unitigs_sz := Z.of_nat (length (v_unitigs m));
               v_kmers_sz := ksz |}).
  { split; [rewrite Hhb; exact Haba|]. split; [exact Hshb|].
    rewrite Hub, Hua. split; [simpl; lia|]. split; [simpl; lia|].
    split; [exact Hlu|]. simpl. intros j Hj. lia. }
  destruct r as [[[mc c] sc] dc].
  destruct (split_long_inv _ _ _ _ _ _ _ _ _ Hinvb Hc) as (_ & _ & Hfc).
  unfold splitAllUnitigs. rewrite Ha. cbn [mbind option_bind].
  rewrite (Hfb (length (v_kmers m))) by lia. cbn [mbind option_bind].
  rewrite (Hfc (length (v_unitigs m))) by (simpl; lia). cbn [mbind option_bind].
  eexists. reflexivity.
Qed.




End Splitting.

End UMSplitFacts.

(** *** [splitAllUnitigs] on the graph [g_covered] *)

Module UMSplitCases.
Import Dna UM UMSpec UMExample UMCases.
Import HTSpec.
Import String.
Local Open Scope string_scope.
Local Open Scope Z_scope.

(** The long unitig falls into the two long pieces around its fourth
    and sixth k-mer and the short piece between them; the short unitig
    and the abundant k-mer that were seen twice stay; the other sixteen
    unitigs go. *)
Example splitAllUnitigs_covered :
  (m ← g_covered; r ← splitAllUnitigs m; Some (content r.1, r.2))
  = Some ([Some {| seq := dna_of "ACTGGAC"; ccov := full 3; coveragesum := 0 |};
           Some {| seq := dna_of "CGTTCAG"; ccov := full 3; coveragesum := 0 |}],
          [(km_of "GTGGA", {| cc_counts := [2]; cc_full := true |});
           (km_of "ACGTC", full 1)],
          [(km_of "AAAAG", {| cc_counts := [2]; cc_full := true |})],
          (1, 16)).
Proof. vm_compute. reflexivity. Qed.


End UMSplitCases.

(** ** The unitig mapper: what lookups name, emptying, removal, joins and
    the segments of the GFA output *)

Module UMMore.
Import Dna UM UMSpec UMUse.
Import HTSpec.
Local Abbreviation length := List.length.

Section More.
Context `{Params}.

(** *** [find] *)

Lemma find_entry_sound m km km_tmp ext it_h mhr sc x um :
  find_entry m km (twin km) (km_rep_of km) km_tmp ext it_h mhr sc x = Some (Return um) ->
  isEmpty um = false /\ found_ok m km ext um.
Proof.
  unfold find_entry. intros Hf.
  destruct (Z.shiftr x 32 =? RESERVED_ID).
  - apply bind_Some in Hf as (it_km & Hit & Hf).
    destruct (negb (it_km =? HT.it_end (h_kmers_ccov m))) eqn:Eend.
    + injection Hf as <-. split; [reflexivity|].
      unfold found_ok. simpl. split; [reflexivity|]. split; [reflexivity|].
      apply negb_true_iff, Z.eqb_neq in Eend.
      destruct (negb (Z.land x RESERVED_ID =? 0)).
      * split; [exact Hit|]. split; [exact Eend|]. auto.
      * injection Hit as Hit. congruence.
    + destruct (Z.land x MASK_CONTIG_TYPE =? MASK_CONTIG_TYPE); [|discriminate].
      cbv zeta in Hf. destruct (negb (mhr_hash _ =? _)); [|discriminate].
      apply bind_Some in Hf as (it & _ & Hf). discriminate.
  - destruct (negb (Z.land x MASK_CONTIG_TYPE =? 0)).
    + (* a short unitig *)
      destruct (mhr_pos mhr =? Z.land x MASK_CONTIG_POS).
      * apply bind_Some in Hf as (p & Hp & Hf).
        destruct (bool_decide (p.1 = km_rep_of km)) eqn:Ep; [|discriminate].
        injection Hf as <-. apply bool_decide_eq_true in Ep.
        split; [reflexivity|]. unfold found_ok. simpl. split; [reflexivity|]. eauto.
      * destruct (mhr_pos mhr =? k - g - Z.land x MASK_CONTIG_POS); [|discriminate].
        apply bind_Some in Hf as (p & Hp & Hf).
        destruct (bool_decide (p.1 = km_rep_of km)) eqn:Ep; [|discriminate].
        injection Hf as <-. apply bool_decide_eq_true in Ep.
        split; [reflexivity|]. unfold found_ok. simpl. split; [reflexivity|]. eauto.
    + (* a long unitig *)
      apply bind_Some in Hf as (ou & Hou & Hf).
      apply bind_Some in Hf as (u & -> & Hf).
      assert (Hsz : Z.of_nat (length (seq u)) - k + k = Z.of_nat (length (seq u))) by lia.
      destruct ext.
      * destruct (_ && compareKmer (seq u) _ km) eqn:E1.
        -- injection Hf as <-. apply andb_true_iff in E1 as [Hpos Hcmp].
           apply bool_decide_eq_true in Hcmp.
           split; [reflexivity|]. unfold found_ok. simpl. split; [reflexivity|].
           exists u. split; [exact Hou|]. split; [exact Hsz|]. split; [exact Hcmp|].
           apply orb_true_iff in Hpos as [Hp|Hp]; apply Z.eqb_eq in Hp; lia.
        -- destruct (_ && compareKmer (seq u) _ (twin km)) eqn:E2; [|discriminate].
           injection Hf as <-. apply andb_true_iff in E2 as [Hpos Hcmp].
           apply bool_decide_eq_true in Hcmp.
           split; [reflexivity|]. unfold found_ok. simpl. split; [reflexivity|].
           exists u. split; [exact Hou|]. split; [exact Hsz|]. split; [exact Hcmp|].
           apply orb_true_iff in Hpos as [Hp|Hp]; apply Z.eqb_eq in Hp; lia.
      * destruct (_ && compareKmer (seq u) _ km) eqn:E1.
        -- injection Hf as <-. apply andb_true_iff in E1 as [Hpos Hcmp].
           apply andb_true_iff in Hpos as [Hp1 Hp2].
           apply Z.leb_le in Hp1, Hp2. apply bool_decide_eq_true in Hcmp.
           split; [reflexivity|]. unfold found_ok. simpl. split; [reflexivity|].
           exists u. split; [exact Hou|]. split; [exact Hsz|]. split; [exact Hcmp|]. lia.
        -- destruct (_ && compareKmer (seq u) _ (twin km)) eqn:E2; [|discriminate].
           injection Hf as <-. apply andb_true_iff in E2 as [Hpos Hcmp].
           apply andb_true_iff in Hpos as [Hp1 Hp2].
           apply Z.leb_le in Hp1, Hp2. apply bool_decide_eq_true in Hcmp.
           split; [reflexivity|]. unfold found_ok. simpl. split; [reflexivity|].
           exists u. split; [exact Hou|]. split; [exact Hsz|]. split; [exact Hcmp|]. lia.
Qed.

Lemma find_bin_sound m km km_tmp ext it_h mhr (v : list Z) : forall sc um,
  find_bin m km (twin km) (km_rep_of km) km_tmp ext it_h mhr sc v = Some (Return um) ->
  isEmpty um = false /\ found_ok m km ext um.
Proof.
  induction v as [|x v IH]; intros sc um Hf; [discriminate|].
  cbn [find_bin] in Hf. apply bind_Some in Hf as (r & Hr & Hf).
  destruct r as [um'|sc'].
  - injection Hf as <-. eapply find_entry_sound; eauto.
  - eapply IH; eauto.
Qed.

Lemma find_bins_sound m km km_tmp ext mhr (fuel : nat) : forall it_h sc um,
  find_bins fuel m km (twin km) (km_rep_of km) km_tmp ext it_h mhr sc = Some (Return um) ->
  isEmpty um = false /\ found_ok m km ext um.
Proof.
  induction fuel as [|fuel IH]; intros it_h sc um Hf.
  - cbn [find_bins] in Hf. destruct (_ =? _); discriminate.
  - cbn [find_bins] in Hf. destruct (_ =? _); [discriminate|].
    apply bind_Some in Hf as (bin & _ & Hf).
    apply bind_Some in Hf as (r & Hr & Hf).
    destruct r as [um'|sc'].
    + injection Hf as <-. eapply find_bin_sound; eauto.
    + eapply IH; eauto.
Qed.

Lemma find_results_sound m km km_tmp ext (results : list minHashResult) : forall it_h um,
  find_results m km (twin km) (km_rep_of km) km_tmp ext it_h results = Some um ->
  found_ok m km ext um.
Proof.
  induction results as [|mhr results IH]; intros it_h um Hf.
  - injection Hf as <-. exact I.
  - cbn [find_results] in Hf.
    apply bind_Some in Hf as (it & _ & Hf).
    apply bind_Some in Hf as (r & Hr & Hf).
    destruct r as [um'|it_h'].
    + injection Hf as <-. eapply find_bins_sound; eauto.
    + eapply IH; eauto.
Qed.

(** X14. Whatever [find(km, extremities_only)] returns other than the
    empty mapping names a place of the graph that holds [km]: an
    abundant slot or a short unitig with the canonical form of [km], or
    a position of a long unitig where [km] (forward strand) or its
    reverse complement (reverse strand) is read, at an end of the unitig
    when only extremities are asked for; the mapping has length 1. *)
Theorem find_names_kmer m km ext cm :
  find m km ext = Some cm -> found_ok m km ext cm.
Proof.
  unfold find. intros Hf. exact (find_results_sound _ _ _ _ _ _ _ Hf).
Qed.

(** *** [empty()] *)

Lemma find_cleared {K T} `{HT.TableOps K T} (t : HT.HashTable K T) key :
  HTSpec.wf_upto 60 t -> HT.find (HT.clear t) key = Some (HT.it_end (HT.clear t)).
Proof.
  intros Hwf.
  assert (Hwf' : HTSpec.wf_upto 60 (HT.clear t)).
  { destruct Hwf as [Hs [Hl Hc]]. split; [exact Hs|]. split.
    - simpl. rewrite length_replicate. exact Hl.
    - unfold HT.clear. rewrite HTFacts.count_empty_fresh. simpl. lia. }
  pose proof (HTFacts.find_read 60 (HT.clear t) key ltac:(lia) Hwf') as Hfind.
  rewrite Hfind. f_equal.
  destruct (Z.eq_dec (HTRead.find_result (HT.clear t) key (HTSpec.probe_path (HT.clear t) key))
                     (HT.it_end (HT.clear t))) as [E|E]; [exact E|].
  destruct (HTMore.find_hit 60 _ key _ ltac:(lia) Hwf' Hfind E) as (_ & Hk & v & Hv).
  exfalso. apply Hk.
  apply list_elem_of_lookup_2 in Hv. simpl in Hv.
  apply elem_of_replicate in Hv as [Hv _]. inversion Hv. reflexivity.
Qed.

Lemma find_results_cleared m km km_tmp ext (results : list minHashResult) :
  (forall key, HT.find (hmap_min_unitigs m) key
               = Some (HT.it_end (hmap_min_unitigs m))) ->
  forall it_h,
    find_results m km (twin km) (km_rep_of km) km_tmp ext it_h results
    = Some (UnitigMap_empty it_h).
Proof.
  intros Hnone. induction results as [|r results IH]; intros it_h; [reflexivity|].
  cbn [find_results]. rewrite Hnone. cbn [mbind option_bind].
  assert (Hb : find_bins window_fuel m km (twin km) (km_rep_of km) km_tmp ext it_h r
                 {| sc_mhr := r; sc_it := HT.it_end (hmap_min_unitigs m) |}
               = Some (Continue it_h)).
  { destruct window_fuel; cbn [find_bins sc_it]; rewrite Z.eqb_refl; reflexivity. }
  rewrite Hb. cbn [mbind option_bind]. apply IH.
Qed.

(** X15. [empty()] forgets the graph and keeps the capacity of the two
    tables: afterwards [unitigCount()] is 0 and [find] returns the empty
    mapping for every k-mer. *)
Theorem empty_forgets m km ext :
  HTSpec.wf_upto 60 (hmap_min_unitigs m) ->
  find (empty m) km ext = Some (UnitigMap_empty 0) /\
  unitigCount (empty m) = 0 /\
  HT.size_ (hmap_min_unitigs (empty m)) = HT.size_ (hmap_min_unitigs m) /\
  HT.size_ (h_kmers_ccov (empty m)) = HT.size_ (h_kmers_ccov m).
Proof.
  intros Hwf. split; [|split; [reflexivity|split; reflexivity]].
  unfold find. apply find_results_cleared.
  intros key. apply find_cleared. exact Hwf.
Qed.


(** *** [writeGFA] *)

Lemma gfa_long_lines (vu : list (option Unitig)) : forall labelA lines,
  gfa_long vu labelA = Some lines ->
  exists us, vu = Some <$> us /\ lines = imap (s_long labelA) us.
Proof.
  induction vu as [|ou vu IH]; intros labelA lines Hg.
  - injection Hg as <-. exists []. split; reflexivity.
  - cbn [gfa_long] in Hg.
    apply bind_Some in Hg as (u & -> & Hg).
    apply bind_Some in Hg as (rest & Hr & Hg). injection Hg as <-.
    destruct (IH _ _ Hr) as (us & -> & ->).
    exists (u :: us). split; [reflexivity|].
    cbn [imap]. f_equal.
    + unfold s_long. f_equal. lia.
    + apply imap_ext. intros i x _. unfold s_long, compose. f_equal. lia.
Qed.

Lemma gfa_short_lines (vk : list (Kmer * CompressedCoverage)) : forall label,
  gfa_short vk label = imap (s_kmer label) vk.
Proof.
  induction vk as [|p vk IH]; intros label; [reflexivity|].
  cbn [gfa_short imap]. f_equal.
  - unfold s_kmer. f_equal. lia.
  - rewrite IH. apply imap_ext. intros i x _. unfold s_kmer, compose. f_equal. lia.
Qed.

Lemma gfa_abundant_lines (slots : list (Kmer * CompressedCoverage)) :
  forall id idmap lines idmap',
    gfa_abundant slots id idmap = Some (lines, idmap') ->
    0 <= id -> id + Z.of_nat (length slots) < 2 ^ 64 ->
    lines = imap (s_kmer (id + 1))
              (filter (fun e => is_live (T:=CompressedCoverage) e.1 = true) slots).
Proof.
  induction slots as [|[key cov] slots IH]; intros id idmap lines idmap' Hg Hid Hlt.
  - injection Hg as <- _. reflexivity.
  - cbn [gfa_abundant] in Hg. cbn [List.length] in Hlt.
    rewrite filter_cons. cbn [fst].
    destruct (is_live (T:=CompressedCoverage) key) eqn:Elive.
    + rewrite decide_True by reflexivity.
      assert (Hw : wrap64 (id + 1) = id + 1).
      { unfold wrap64. apply Z.mod_small. lia. }
      rewrite Hw in Hg.
      apply bind_Some in Hg as ([[idmap1 h] b] & _ & Hg).
      apply bind_Some in Hg as ([rest idmap2] & Hr & Hg). injection Hg as <- _.
      apply IH in Hr; [|lia|lia]. subst rest.
      cbn [imap]. f_equal.
      * unfold s_kmer. cbn [fst snd]. f_equal. lia.
      * apply imap_ext. intros i x _. unfold s_kmer, compose. f_equal. lia.
    + rewrite decide_False by discriminate.
      eapply IH; eauto. lia.
Qed.

Lemma s_lines_links (l : list gfa_line) : Forall is_link l -> UMCases.s_lines l = [].
Proof.
  induction 1 as [|x l Hx _ IH]; [reflexivity|].
  unfold UMCases.s_lines in *. rewrite filter_cons.
  destruct x; try contradiction. rewrite decide_False by discriminate. exact IH.
Qed.

Lemma gfa_links_links m idmap sz labelA signA next (bases : list base) : forall lines,
  gfa_links m idmap sz labelA signA next bases = Some lines -> Forall is_link lines.
Proof.
  induction bases as [|c bases IH]; intros lines Hg.
  - injection Hg as <-. constructor.
  - cbn [gfa_links] in Hg.
    apply bind_Some in Hg as (cand & _ & Hg).
    apply bind_Some in Hg as (rest & Hr & Hg).
    destruct (negb (isEmpty cand)).
    + apply bind_Some in Hg as (labelB & _ & Hg). injection Hg as <-.
      constructor; [exact I|eauto].
    + injection Hg as <-. eauto.
Qed.

Lemma gfa_unitig_links_links m idmap sz labelA head tail lines :
  gfa_unitig_links m idmap sz labelA head tail = Some lines -> Forall is_link lines.
Proof.
  unfold gfa_unitig_links. intros Hg.
  apply bind_Some in Hg as (bw & Hb & Hg).
  apply bind_Some in Hg as (fw & Hf & Hg). injection Hg as <-.
  apply Forall_app. split; eapply gfa_links_links; eauto.
Qed.

Lemma gfa_long_links_links m idmap sz (vu : list (option Unitig)) : forall labelA lines,
  gfa_long_links m idmap sz vu labelA = Some lines -> Forall is_link lines.
Proof.
  induction vu as [|ou vu IH]; intros labelA lines Hg.
  - injection Hg as <-. constructor.
  - cbn [gfa_long_links] in Hg.
    apply bind_Some in Hg as (u & _ & Hg).
    apply bind_Some in Hg as (here & Hh & Hg).
    apply bind_Some in Hg as (more & Hm & Hg). injection Hg as <-.
    apply Forall_app. split; [eapply gfa_unitig_links_links; eauto|eauto].
Qed.

Lemma gfa_short_links_links m idmap sz (vk : list (Kmer * CompressedCoverage)) :
  forall labelA lines,
  gfa_short_links m idmap sz vk labelA = Some lines -> Forall is_link lines.
Proof.
  induction vk as [|p vk IH]; intros labelA lines Hg.
  - injection Hg as <-. constructor.
  - cbn [gfa_short_links] in Hg.
    apply bind_Some in Hg as (here & Hh & Hg).
    apply bind_Some in Hg as (more & Hm & Hg). injection Hg as <-.
    apply Forall_app. split; [eapply gfa_unitig_links_links; eauto|eauto].
Qed.

Lemma gfa_abundant_links_links m idmap sz (slots : list (Kmer * Z)) : forall lines,
  gfa_abundant_links m idmap sz slots = Some lines -> Forall is_link lines.
Proof.
  induction slots as [|[key labelA] slots IH]; intros lines Hg.
  - injection Hg as <-. constructor.
  - cbn [gfa_abundant_links] in Hg.
    destruct (is_live (T:=Z) key); [|eauto].
    apply bind_Some in Hg as (here & Hh & Hg).
    apply bind_Some in Hg as (more & Hm & Hg). injection Hg as <-.
    apply Forall_app. split; [eapply gfa_unitig_links_links; eauto|eauto].
Qed.

Lemma s_lines_app (l1 l2 : list gfa_line) : UMCases.s_lines (l1 ++ l2) = UMCases.s_lines l1 ++ UMCases.s_lines l2.
Proof. unfold UMCases.s_lines. apply filter_app. Qed.

Lemma s_lines_imap {A} (f : nat -> A -> gfa_line) (l : list A) :
  (forall i x, exists id s ln xc, f i x = SLine id s ln xc) ->
  UMCases.s_lines (imap f l) = imap f l.
Proof.
  revert f. induction l as [|x l IH]; intros f Hf; [reflexivity|].
  cbn [imap]. unfold UMCases.s_lines in *. rewrite filter_cons.
  destruct (Hf 0%nat x) as (id & s & ln & xc & ->).
  rewrite decide_True by reflexivity. f_equal.
  apply IH. intros i y. apply Hf.
Qed.

Lemma s_id_imap_long label (us : list Unitig) :
  UMCases.s_id <$> imap (s_long label) us = seqZ label (Z.of_nat (length us)).
Proof.
  revert label. induction us as [|u us IH]; intros label; [reflexivity|].
  cbn [imap fmap list_fmap List.length].
  rewrite Nat2Z.inj_succ, seqZ_cons by lia.
  f_equal; [simpl; lia|].
  replace (Z.pred (Z.succ (Z.of_nat (length us)))) with (Z.of_nat (length us)) by lia.
  rewrite <- IH. f_equal. apply imap_ext. intros i x _.
  unfold s_long, compose. f_equal. lia.
Qed.

Lemma s_id_imap_kmer label (ps : list (Kmer * CompressedCoverage)) :
  UMCases.s_id <$> imap (s_kmer label) ps = seqZ label (Z.of_nat (length ps)).
Proof.
  revert label. induction ps as [|u us IH]; intros label; [reflexivity|].
  cbn [imap fmap list_fmap List.length].
  rewrite Nat2Z.inj_succ, seqZ_cons by lia.
  f_equal; [simpl; lia|].
  replace (Z.pred (Z.succ (Z.of_nat (length us)))) with (Z.of_nat (length us)) by lia.
  rewrite <- IH. f_equal. apply imap_ext. intros i x _.
  unfold s_kmer, compose. f_equal. lia.
Qed.

(** X16. The S-lines of [writeGFA], when the counts stay below [2^64]:
    one for each long unitig, with the ids 1, 2, ... in the order of
    [v_unitigs]; one for each short unitig, with the ids that follow;
    one for each abundant k-mer in the order of the slots, with ids that
    start two after the last short one.  No two S-lines carry the same
    id. *)
Theorem writeGFA_segments_listed m lines :
  writeGFA m = Some lines ->
  Z.of_nat (length (v_unitigs m)) + Z.of_nat (length (v_kmers m))
    + Z.of_nat (length (HT.table (h_kmers_ccov m))) + 1 < 2 ^ 64 ->
  let n := Z.of_nat (length (v_unitigs m)) in
  let s := Z.of_nat (length (v_kmers m)) in
  exists us,
    v_unitigs m = Some <$> us /\
    UMCases.s_lines lines = imap (s_long 1) us ++ imap (s_kmer (n + 1)) (v_kmers m)
                    ++ imap (s_kmer (n + s + 2)) (abundant_kmers m) /\
    NoDup (UMCases.s_id <$> UMCases.s_lines lines).
Proof.
  intros Hw Hlt n s. unfold writeGFA in Hw.
  apply bind_Some in Hw as ([segments idmap] & Hseg & Hw).
  apply bind_Some in Hw as (l1 & Hl1 & Hw).
  apply bind_Some in Hw as (l2 & Hl2 & Hw).
  apply bind_Some in Hw as (l3 & Hl3 & Hw). injection Hw as <-.
  unfold writeGFA_segments in Hseg.
  apply bind_Some in Hseg as (long & Hlong & Hseg).
  apply bind_Some in Hseg as ([abundant idmap'] & Hab & Hseg).
  injection Hseg as <- <-.
  destruct (gfa_long_lines _ _ _ Hlong) as (us & Hus & ->).
  fold n s in Hab.
  assert (Hid : wrap64 (n + s + 1) = n + s + 1).
  { unfold wrap64. apply Z.mod_small. lia. }
  rewrite Hid in Hab.
  apply gfa_abundant_lines in Hab; [|lia|lia].
  replace (n + s + 1 + 1) with (n + s + 2) in Hab by lia.
  fold (abundant_kmers m) in Hab. subst abundant.
  rewrite gfa_short_lines. fold n.
  exists us. split; [exact Hus|].
  assert (Hs : UMCases.s_lines (HLine :: (imap (s_long 1) us ++ imap (s_kmer (n + 1)) (v_kmers m)
                 ++ imap (s_kmer (n + s + 2)) (abundant_kmers m)) ++ l1 ++ l2 ++ l3)
               = imap (s_long 1) us ++ imap (s_kmer (n + 1)) (v_kmers m)
                 ++ imap (s_kmer (n + s + 2)) (abundant_kmers m)).
  { change (HLine :: ?l) with ([HLine] ++ l).
    rewrite !s_lines_app.
    rewrite (s_lines_links l1) by (eapply gfa_long_links_links; eauto).
    rewrite (s_lines_links l2) by (eapply gfa_short_links_links; eauto).
    rewrite (s_lines_links l3) by (eapply gfa_abundant_links_links; eauto).
    rewrite !app_nil_r.
    rewrite !s_lines_imap by (intros; unfold s_long, s_kmer; eauto).
    reflexivity. }
  rewrite Hs. split; [reflexivity|].
  rewrite !fmap_app, s_id_imap_long, !s_id_imap_kmer.
  assert (Hn : n = Z.of_nat (length us)).
  { unfold n. rewrite Hus, length_fmap. reflexivity. }
  rewrite <- Hn. fold s.
  apply NoDup_app. split; [apply NoDup_seqZ|]. split.
  - intros x Hx Hx'. apply elem_of_seqZ in Hx.
    apply elem_of_app in Hx' as [Hx'|Hx']; apply elem_of_seqZ in Hx'; lia.
  - apply NoDup_app. split; [apply NoDup_seqZ|]. split; [|apply NoDup_seqZ].
    intros x Hx Hx'. apply elem_of_seqZ in Hx, Hx'. lia.
Qed.


(** *** [removeUnitigs] *)

Lemma swap_entries_perm {E} (v v' : list E) a b :
  swap_entries v a b = Some v' -> 0 <= a -> 0 <= b -> v' ≡ₚ v.
Proof.
  intros Hs Ha Hb.
  destruct (UMSplitFacts.swap_entries_lookup _ _ _ _ Hs) as [Hlen Hother].
  destruct (UMSplitFacts.swap_entries_at _ _ _ _ Hs Ha Hb) as [Hat_a Hat_b].
  apply Permutation_inj. split; [exact Hlen|].
  exists (fun i => if decide (i = Z.to_nat a) then Z.to_nat b
                   else if decide (i = Z.to_nat b) then Z.to_nat a else i).
  split.
  - intros i j Hij. repeat destruct (decide _); congruence.
  - intros i. repeat destruct (decide _); subst; auto.
Qed.

Lemma examine_push m rmIsolated clipTips head tail km rm push km' :
  examine m rmIsolated clipTips head tail km = Some (rm, push, km') ->
  clipTips = false -> push = false.
Proof.
  unfold examine. intros He ->.
  apply bind_Some in He as ([nb_pred km1] & _ & He).
  destruct (nb_pred <=? _).
  - apply bind_Some in He as ([nb_succ km2] & _ & He).
    destruct (_ || _); injection He as _ <- _; reflexivity.
  - injection He as _ <- _; reflexivity.
Qed.

Lemma grows_refl clipTips v : grows clipTips v v.
Proof. exists []. rewrite app_nil_r. auto. Qed.

Lemma grows_trans clipTips v1 v2 v3 :
  grows clipTips v1 v2 -> grows clipTips v2 v3 -> grows clipTips v1 v3.
Proof.
  intros (a1 & -> & H1) (a2 & -> & H2). exists (a1 ++ a2).
  rewrite app_assoc. split; [reflexivity|].
  intros Hc. rewrite H1, H2 by exact Hc. reflexivity.
Qed.

Lemma grows_push m rmIsolated clipTips head tail km rm (push : bool) km' v :
  examine m rmIsolated clipTips head tail km = Some (rm, push, km') ->
  grows clipTips v (if push then v ++ [km'] else v).
Proof.
  intros He. destruct push; [|apply grows_refl].
  exists [km']. split; [reflexivity|].
  intros Hc. pose proof (examine_push _ _ _ _ _ _ _ _ _ He Hc). discriminate.
Qed.

Lemma remove_long_inv (fuel : nat) rmIsolated clipTips : forall j r r',
  remove_long fuel rmIsolated clipTips j r = Some r' ->
  0 <= j ->
  0 <= r_sz r <= Z.of_nat (length (v_unitigs (r_m r))) -> r_sz r < 2 ^ 64 ->
  Forall small (drop (Z.to_nat (r_sz r)) (v_unitigs (r_m r))) ->
  v_unitigs (r_m r') ≡ₚ v_unitigs (r_m r) /\
  v_kmers (r_m r') = v_kmers (r_m r) /\
  0 <= r_sz r' /\
  Forall small (drop (Z.to_nat (r_sz r')) (v_unitigs (r_m r'))) /\
  grows clipTips (r_v r) (r_v r').
Proof.
  induction fuel as [|fuel IH]; intros j r r' Hr Hj Hsz Hlt Hgone;
    cbn [remove_long] in Hr.
  - destruct (j <? r_sz r) eqn:E; [discriminate|]. injection Hr as <-.
    apply Z.ltb_ge in E.
    split; [reflexivity|]. split; [reflexivity|]. split; [lia|].
    split; [exact Hgone|apply grows_refl].
  - destruct (j <? r_sz r) eqn:E.
    2:{ injection Hr as <-. apply Z.ltb_ge in E.
        split; [reflexivity|]. split; [reflexivity|]. split; [lia|].
        split; [exact Hgone|apply grows_refl]. }
    apply Z.ltb_lt in E.
    apply bind_Some in Hr as (ou & Hou & Hr).
    apply bind_Some in Hr as (unitig & -> & Hr).
    destruct (numKmers unitig <? k) eqn:Esmall.
    2:{ apply IH in Hr; auto. lia. }
    apply Z.ltb_lt in Esmall.
    apply bind_Some in Hr as ([[rm push] km] & Hex & Hr).
    pose proof (grows_push _ _ _ _ _ _ _ _ _ (r_v r) Hex) as Hgrow.
    destruct rm.
    2:{ apply IH in Hr; cbn [r_m r_sz r_v] in *; auto. lia. }
    assert (Hw : wrap64 (r_sz r - 1) = r_sz r - 1).
    { unfold wrap64. apply Z.mod_small. lia. }
    rewrite Hw in Hr.
    apply bind_Some in Hr as (m' & Hm' & Hr).
    assert (Hat : v_unitigs (r_m r) !! Z.to_nat j = Some (Some unitig)).
    { unfold at_ in Hou. destruct (j <? 0) eqn:E0; [discriminate|exact Hou]. }
    destruct (negb (j =? r_sz r - 1)) eqn:Ej.
    + apply negb_true_iff, Z.eqb_neq in Ej.
      destruct (UMSplitFacts.swapUnitigs_effect _ _ _ _ _ Hm') as (_ & Hvk & Hsw).
      pose proof (swap_entries_perm _ _ _ _ Hsw Hj ltac:(lia)) as Hperm.
      destruct (UMSplitFacts.swap_entries_lookup _ _ _ _ Hsw) as [Hlen Hother].
      destruct (UMSplitFacts.swap_entries_at _ _ _ _ Hsw Hj ltac:(lia)) as [_ Hat_b].
      apply IH in Hr; cbn [r_m r_sz r_v] in *; auto; try lia.
      * destruct Hr as (Hp & Hk & Hs' & Hg' & Hv').
        split; [etransitivity; eauto|]. split; [congruence|].
        split; [exact Hs'|]. split; [exact Hg'|].
        eapply grows_trans; eauto.
      * rewrite Hat in Hat_b.
        replace (Z.to_nat (r_sz r - 1)) with (Z.to_nat (r_sz r) - 1)%nat in * by lia.
        rewrite (drop_S _ _ _ Hat_b).
        constructor; [exists unitig; split; [reflexivity|exact Esmall]|].
        replace (S (Z.to_nat (r_sz r) - 1)) with (Z.to_nat (r_sz r)) by lia.
        assert (Hd : drop (Z.to_nat (r_sz r)) (v_unitigs m')
                     = drop (Z.to_nat (r_sz r)) (v_unitigs (r_m r))).
        { apply list_eq. intros i. rewrite !lookup_drop. apply Hother; lia. }
        rewrite Hd. exact Hgone.
    + apply negb_false_iff, Z.eqb_eq in Ej. injection Hm' as <-.
      apply IH in Hr; cbn [r_m r_sz r_v] in *; auto; try lia.
      * destruct Hr as (Hp & Hk & Hs' & Hg' & Hv').
        split; [exact Hp|]. split; [exact Hk|].
        split; [exact Hs'|]. split; [exact Hg'|].
        eapply grows_trans; eauto.
      * rewrite Ej in Hat.
        replace (Z.to_nat (r_sz r - 1)) with (Z.to_nat (r_sz r) - 1)%nat in * by lia.
        rewrite (drop_S _ _ _ Hat).
        constructor; [exists unitig; split; [reflexivity|exact Esmall]|].
        replace (S (Z.to_nat (r_sz r) - 1)) with (Z.to_nat (r_sz r)) by lia.
        exact Hgone.
Qed.

Lemma remove_short_inv (fuel : nat) rmIsolated clipTips : forall j r r',
  remove_short fuel rmIsolated clipTips j r = Some r' ->
  0 <= j ->
  0 <= r_sz r <= Z.of_nat (length (v_kmers (r_m r))) -> r_sz r < 2 ^ 64 ->
  v_kmers (r_m r') ≡ₚ v_kmers (r_m r) /\
  v_unitigs (r_m r') = v_unitigs (r_m r) /\
  0 <= r_sz r' /\
  grows clipTips (r_v r) (r_v r').
Proof.
  induction fuel as [|fuel IH]; intros j r r' Hr Hj Hsz Hlt;
    cbn [remove_short] in Hr.
  - destruct (j <? r_sz r) eqn:E; [discriminate|]. injection Hr as <-.
    split; [reflexivity|]. split; [reflexivity|]. split; [lia|apply grows_refl].
  - destruct (j <? r_sz r) eqn:E.
    2:{ injection Hr as <-.
        split; [reflexivity|]. split; [reflexivity|]. split; [lia|apply grows_refl]. }
    apply Z.ltb_lt in E.
    apply bind_Some in Hr as (p & Hp & Hr).
    apply bind_Some in Hr as ([[rm push] km] & Hex & Hr).
    pose proof (grows_push _ _ _ _ _ _ _ _ _ (r_v r) Hex) as Hgrow.
    destruct rm.
    2:{ apply IH in Hr; cbn [r_m r_sz r_v] in *; auto. lia. }
    assert (Hw : wrap64 (r_sz r - 1) = r_sz r - 1).
    { unfold wrap64. apply Z.mod_small. lia. }
    rewrite Hw in Hr.
    apply bind_Some in Hr as (m' & Hm' & Hr).
    destruct (negb (j =? r_sz r - 1)) eqn:Ej.
    + apply negb_true_iff, Z.eqb_neq in Ej.
      destruct (UMSplitFacts.swapUnitigs_effect _ _ _ _ _ Hm') as (_ & Hvu & Hsw).
      pose proof (swap_entries_perm _ _ _ _ Hsw Hj ltac:(lia)) as Hperm.
      destruct (UMSplitFacts.swap_entries_lookup _ _ _ _ Hsw) as [Hlen _].
      apply IH in Hr; cbn [r_m r_sz r_v] in *; auto; try lia.
      destruct Hr as (Hp' & Hu & Hs' & Hv').
      split; [etransitivity; eauto|]. split; [congruence|].
      split; [exact Hs'|]. eapply grows_trans; eauto.
    + injection Hm' as <-.
      apply IH in Hr; cbn [r_m r_sz r_v] in *; auto; try lia.
      destruct Hr as (Hp' & Hu & Hs' & Hv').
      split; [exact Hp'|]. split; [exact Hu|].
      split; [exact Hs'|]. eapply grows_trans; eauto.
Qed.

Lemma remove_abundant_inv rmIsolated clipTips (slots : list nat) : forall r r',
  remove_abundant rmIsolated clipTips r slots = Some r' ->
  v_unitigs (r_m r') = v_unitigs (r_m r) /\
  v_kmers (r_m r') = v_kmers (r_m r) /\
  r_sz r' = r_sz r /\
  grows clipTips (r_v r) (r_v r').
Proof.
  induction slots as [|h slots IH]; intros r r' Hr; cbn [remove_abundant] in Hr.
  - injection Hr as <-. repeat (split; [reflexivity|]). apply grows_refl.
  - destruct (HT.table (h_kmers_ccov (r_m r)) !! h) as [[key cov]|]; [|discriminate].
    destruct (is_live (T:=CompressedCoverage) key); [|eauto].
    apply bind_Some in Hr as ([[rm push] km] & Hex & Hr).
    pose proof (grows_push _ _ _ _ _ _ _ _ _ (r_v r) Hex) as Hgrow.
    destruct rm; apply IH in Hr; cbn [r_m r_sz r_v v_unitigs v_kmers] in Hr;
      destruct Hr as (Hu & Hk & Hs & Hv).
    + repeat (split; [assumption|]). eapply grows_trans; eauto.
    + repeat (split; [assumption|]). exact Hv.
Qed.

Lemma delete_from_long (ids : list Z) (sz : Z) : forall m m',
  delete_from m false ids = Some m' ->
  Forall (fun j => sz <= j) ids -> 0 <= sz ->
  v_kmers m' = v_kmers m /\
  take (Z.to_nat sz) (v_unitigs m') = take (Z.to_nat sz) (v_unitigs m).
Proof.
  induction ids as [|j ids IH]; intros m m' Hd Hall Hsz; cbn [delete_from] in Hd.
  - injection Hd as <-. split; reflexivity.
  - apply bind_Some in Hd as (m1 & Hm1 & Hd).
    apply Forall_cons in Hall as [Hj Hall].
    destruct (UMSplitFacts.deleteUnitig_long _ _ _ Hm1) as (_ & Hk & Hu).
    destruct (IH _ _ Hd Hall Hsz) as [Hk' Hu'].
    split; [congruence|]. rewrite Hu', Hu. apply take_insert_ge. lia.
Qed.

Lemma delete_from_short (ids : list Z) (sz : Z) : forall m m',
  delete_from m true ids = Some m' ->
  Forall (fun j => sz <= j) ids -> 0 <= sz ->
  v_unitigs m' = v_unitigs m /\
  take (Z.to_nat sz) (v_kmers m') = take (Z.to_nat sz) (v_kmers m).
Proof.
  induction ids as [|j ids IH]; intros m m' Hd Hall Hsz; cbn [delete_from] in Hd.
  - injection Hd as <-. split; reflexivity.
  - apply bind_Some in Hd as (m1 & Hm1 & Hd).
    apply Forall_cons in Hall as [Hj Hall].
    destruct (UMSplitFacts.deleteUnitig_short _ _ _ Hm1) as (_ & Hu & p & Hk).
    destruct (IH _ _ Hd Hall Hsz) as [Hu' Hk'].
    split; [congruence|]. rewrite Hk', Hk. apply take_insert_ge. lia.
Qed.

Lemma delete_marked_vectors (slots : list nat) : forall m m',
  delete_marked m slots = Some m' ->
  v_unitigs m' = v_unitigs m /\ v_kmers m' = v_kmers m.
Proof.
  induction slots as [|h slots IH]; intros m m' Hd; cbn [delete_marked] in Hd.
  - injection Hd as <-. split; reflexivity.
  - destruct (HT.table (h_kmers_ccov m) !! h) as [[key cov]|]; [|discriminate].
    destruct (_ && _); [|eauto].
    apply bind_Some in Hd as (m1 & Hm1 & Hd).
    destruct (IH _ _ Hd) as [Hu Hk].
    unfold deleteUnitig in Hm1.
    destruct (_ =? _); [discriminate|].
    apply bind_Some in Hm1 as (entry & _ & Hm1).
    apply bind_Some in Hm1 as (hm & _ & Hm1).
    apply bind_Some in Hm1 as (hk & _ & Hm1). injection Hm1 as <-.
    split; [exact Hu|exact Hk].
Qed.

Lemma seqZ_from (a n : Z) : Forall (fun j => a <= j) (seqZ a n).
Proof. apply Forall_forall. intros j Hj. apply elem_of_seqZ in Hj. lia. Qed.

(** X17. [removeUnitigs] removes, it does not alter: the long unitigs
    it leaves are those of the graph, in some order, without some that
    have fewer than [k] k-mers, so a long unitig of [k] k-mers or more
    is never removed; the short unitigs it leaves are among those of the
    graph; [v] keeps what it held, and is unchanged when tips are not
    clipped. *)
Theorem removeUnitigs_keeps m rmIsolated clipTips v m' removed v' :
  removeUnitigs m rmIsolated clipTips v = Some (m', removed, v') ->
  Z.of_nat (length (v_unitigs m)) < 2 ^ 64 ->
  Z.of_nat (length (v_kmers m)) < 2 ^ 64 ->
  (exists gone, v_unitigs m ≡ₚ v_unitigs m' ++ gone /\ Forall small gone) /\
  (exists gone, v_kmers m ≡ₚ v_kmers m' ++ gone) /\
  grows clipTips v v'.
Proof.
  unfold removeUnitigs. intros Hr Hn Hs.
  destruct (negb rmIsolated && negb clipTips).
  { injection Hr as <- _ <-.
    split; [exists []; rewrite app_nil_r; split; [reflexivity|constructor]|].
    split; [exists []; rewrite app_nil_r; reflexivity|apply grows_refl]. }
  apply bind_Some in Hr as (r1 & Hr1 & Hr).
  apply bind_Some in Hr as (r2 & Hr2 & Hr).
  apply bind_Some in Hr as (r3 & Hr3 & Hr).
  apply bind_Some in Hr as (m4 & Hm4 & Hr).
  apply bind_Some in Hr as (m5 & Hm5 & Hr).
  apply bind_Some in Hr as (m6 & Hm6 & Hr). injection Hr as <- _ <-.
  apply remove_long_inv in Hr1; cbn [r_m r_sz r_v] in *; try lia.
  2:{ rewrite Nat2Z.id, drop_all. constructor. }
  destruct Hr1 as (Hp1 & Hk1 & Hs1 & Hg1 & Hv1).
  apply remove_short_inv in Hr2; cbn [r_m r_sz r_v] in *; try lia.
  2:{ rewrite Hk1. lia. }
  destruct Hr2 as (Hp2 & Hu2 & Hs2 & Hv2).
  apply remove_abundant_inv in Hr3. destruct Hr3 as (Hu3 & Hk3 & _ & Hv3).
  destruct (delete_from_long _ (r_sz r1) _ _ Hm4 (seqZ_from _ _) Hs1) as [Hk4 Hu4].
  destruct (delete_from_short _ (r_sz r2) _ _ Hm5 (seqZ_from _ _) Hs2) as [Hu5 Hk5].
  destruct (delete_marked_vectors _ _ _ Hm6) as [Hu6 Hk6].
  cbn [v_unitigs v_kmers] in *.
  split; [|split].
  - exists (drop (Z.to_nat (r_sz r1)) (v_unitigs (r_m r1))).
    split; [|exact Hg1].
    rewrite Hu6, Hu5, Hu4, Hu3, Hu2, take_drop. symmetry. exact Hp1.
  - exists (drop (Z.to_nat (r_sz r2)) (v_kmers (r_m r2))).
    rewrite Hk6, Hk5, Hk4, Hk3, take_drop, <- Hk1. symmetry. exact Hp2.
  - eapply grows_trans; [exact Hv1|]. eapply grows_trans; [exact Hv2|exact Hv3].
Qed.


(** *** [checkJoin] *)

Lemma count_fw_spec m a (bases : list base) : forall c cand n cand' l,
  count_fw m a bases c cand = Some (n, cand') ->
  neighbours m (forwardBase a) bases = Some l ->
  0 <= c <= 1 ->
  (n = 1 <-> c + Z.of_nat (length l) = 1) /\
  (n = 1 -> c = 0 -> l = [cand'.1]).
Proof.
  induction bases as [|x bases IH]; intros c cand n cand' l Hc Hn Hr.
  - injection Hc as <- <-. injection Hn as <-. simpl. split; [lia|lia].
  - cbn [count_fw] in Hc. cbn [neighbours] in Hn.
    apply bind_Some in Hn as (p & Hp & Hn).
    apply bind_Some in Hn as (l' & Hl' & Hn). injection Hn as <-.
    unfold present in Hp. apply bind_Some in Hp as (cm & Hcm & Hp).
    injection Hp as <-. rewrite Hcm in Hc. cbn [mbind option_bind] in Hc.
    destruct (negb (isEmpty cm)).
    + destruct (c + 1 >? 1) eqn:E.
      * injection Hc as <- <-. rewrite Z.gtb_ltb in E; apply Z.ltb_lt in E. cbn [length].
        split; [lia|lia].
      * assert (c = 0) as -> by (rewrite Z.gtb_ltb in E; apply Z.ltb_ge in E; lia).
        destruct (IH _ _ _ _ _ Hc Hl' ltac:(lia)) as [H1 H2].
        cbn [length]. split; [lia|].
        intros Hn1 _. 
        assert (Hl0 : l' = []).
        { destruct l'; [reflexivity|]. cbn [length] in H1. lia. }
        subst l'. clear H1 H2 IH Hl'.
        f_equal.
        assert (Hkeep : forall (more : list base) c0 cd n0 cd',
                  count_fw m a more c0 cd = Some (n0, cd') -> c0 = 1 -> n0 = 1 -> cd' = cd).
        { clear. intros more. induction more as [|y more IHb]; intros c0 cd n0 cd' Hc0 -> ->.
          - injection Hc0 as <-. reflexivity.
          - cbn [count_fw] in Hc0. apply bind_Some in Hc0 as (cm0 & _ & Hc0).
            destruct (negb (isEmpty cm0)).
            + simpl in Hc0. injection Hc0 as Hc0 _. lia.
            + eapply IHb; eauto. }
        rewrite (Hkeep _ _ _ _ _ Hc eq_refl Hn1). reflexivity.
    + destruct (IH _ _ _ _ _ Hc Hl' Hr) as [H1 H2]. split; assumption.
Qed.

Lemma count_bw_spec m a (bases : list base) : forall c n l,
  count_bw m a bases c = Some n ->
  neighbours m (forwardBase a) bases = Some l ->
  0 <= c <= 1 ->
  (n = 1 <-> c + Z.of_nat (length l) = 1).
Proof.
  induction bases as [|x bases IH]; intros c n l Hc Hn Hr.
  - injection Hc as <-. injection Hn as <-. simpl. lia.
  - cbn [count_bw] in Hc. cbn [neighbours] in Hn.
    apply bind_Some in Hn as (p & Hp & Hn).
    apply bind_Some in Hn as (l' & Hl' & Hn). injection Hn as <-.
    unfold present in Hp. apply bind_Some in Hp as (cm & Hcm & Hp).
    injection Hp as <-. rewrite Hcm in Hc. cbn [mbind option_bind] in Hc.
    destruct (negb (isEmpty cm)).
    + destruct (c + 1 >? 1) eqn:E.
      * injection Hc as <-. rewrite Z.gtb_ltb in E; apply Z.ltb_lt in E. cbn [length]. lia.
      * assert (c = 0) as -> by (rewrite Z.gtb_ltb in E; apply Z.ltb_ge in E; lia).
        pose proof (IH _ _ _ Hc Hl' ltac:(lia)) as H1.
        cbn [length]. lia.
    + eapply IH; eauto.
Qed.

(** X18. [checkJoin(a, cm_a, b)] answers [true] only when [a] has
    exactly one successor among the ends of unitigs and that successor
    has exactly one predecessor; [b] is then left as it was or set to
    that successor, and on [false] it is left as it was. *)
Theorem checkJoin_single_link m a cm_a b r b' fs :
  checkJoin m a cm_a b = Some (r, b') ->
  neighbours m (forwardBase a) alpha = Some fs ->
  if r then
    exists fw, fs = [fw] /\ (b' = b \/ b' = fw) /\
      forall bs, neighbours m (forwardBase (twin fw)) alpha = Some bs ->
                 length bs = 1%nat
  else b' = b.
Proof.
  unfold checkJoin. intros Hc Hfs.
  apply bind_Some in Hc as ([fw_count [fw_cand cm_cand]] & Hfw & Hc).
  destruct (count_fw_spec _ _ _ _ _ _ _ _ Hfw Hfs ltac:(lia)) as [H1 H2].
  destruct (fw_count =? 1) eqn:E1.
  2:{ injection Hc as <- <-. reflexivity. }
  apply Z.eqb_eq in E1.
  apply bind_Some in Hc as (cand_head & _ & Hc).
  apply bind_Some in Hc as (ac_head & _ & Hc).
  destruct (negb (bool_decide (cand_head = ac_head))).
  2:{ injection Hc as <- <-. reflexivity. }
  apply bind_Some in Hc as (bw_count & Hbw & Hc).
  destruct (bw_count =? 1) eqn:E2.
  2:{ injection Hc as <- <-. reflexivity. }
  apply Z.eqb_eq in E2.
  assert (Hres : r = true /\ (b' = b \/ b' = fw_cand)).
  { destruct (bool_decide (cand_head = fw_cand)).
    - injection Hc as <- <-. auto.
    - apply bind_Some in Hc as (candLast & _ & Hc).
      destruct (bool_decide (twin candLast = fw_cand)); injection Hc as <- <-; auto. }
  destruct Hres as [-> Hb].
  exists fw_cand. split; [exact (H2 E1 eq_refl)|]. split; [exact Hb|].
  intros bs Hbs.
  pose proof (count_bw_spec _ _ _ _ _ _ Hbw Hbs ltac:(lia)) as H3. lia.
Qed.


(** *** [mapRead] *)

Lemma at_fst {A B} (v v' : list (A * B)) (i : Z) :
  v'.*1 = v.*1 ->
  (at_ v' i = None /\ at_ v i = None) \/
  (exists p' p, at_ v' i = Some p' /\ at_ v i = Some p /\ p'.1 = p.1).
Proof.
  intros Hk. unfold at_. destruct (i <? 0); [auto|].
  pose proof (f_equal (fun l => l !! Z.to_nat i) Hk) as Hi. simpl in Hi.
  rewrite !list_lookup_fmap in Hi.
  destruct (v' !! Z.to_nat i) as [p'|], (v !! Z.to_nat i) as [p|];
    simpl in *; try discriminate; [|auto].
  injection Hi as Hi. right. eauto.
Qed.

Lemma at_seq (v v' : list (option Unitig)) (i : Z) :
  seqs v' = seqs v ->
  (at_ v' i = None /\ at_ v i = None) \/
  (at_ v' i = Some None /\ at_ v i = Some None) \/
  (exists u' u, at_ v' i = Some (Some u') /\ at_ v i = Some (Some u) /\ seq u' = seq u).
Proof.
  intros Hk. unfold at_. destruct (i <? 0); [auto|].
  pose proof (f_equal (fun l => l !! Z.to_nat i) Hk) as Hi. simpl in Hi.
  unfold seqs in Hi. rewrite !list_lookup_fmap in Hi.
  destruct (v' !! Z.to_nat i) as [[u'|]|], (v !! Z.to_nat i) as [[u|]|];
    simpl in *; try discriminate; auto.
  injection Hi as Hi. right. right. eauto.
Qed.

Lemma find_entry_same m m' km km_twin km_rep km_tmp ext it_h mhr sc x :
  wf_upto 61 (h_kmers_ccov m) -> same_index m m' ->
  find_entry m' km km_twin km_rep km_tmp ext it_h mhr sc x
  = find_entry m km km_twin km_rep km_tmp ext it_h mhr sc x.
Proof.
  intros Hwf (Hh & Hk & Hs & Hn & _ & Hvk & Hvu). unfold find_entry.
  rewrite Hh. unfold HT.it_end. rewrite Hs.
  rewrite (HTContent.same_keys_find 61 _ _ km_rep ltac:(lia) Hk Hs Hn Hwf).
  destruct (_ =? RESERVED_ID); [reflexivity|].
  destruct (negb (_ =? 0)).
  - destruct (at_fst _ _ (Z.shiftr x 32) Hvk)
      as [[E1 E2]|(p' & p & E1 & E2 & E3)]; rewrite E1, E2;
      cbn [mbind option_bind]; try rewrite E3; reflexivity.
  - destruct (at_seq _ _ (Z.shiftr x 32) Hvu)
      as [[E1 E2]|[[E1 E2]|(u' & u & E1 & E2 & E3)]]; rewrite E1, E2;
      cbn [mbind option_bind]; try rewrite E3; reflexivity.
Qed.

Lemma find_bin_same m m' km km_twin km_rep km_tmp ext it_h mhr (v : list Z) :
  wf_upto 61 (h_kmers_ccov m) -> same_index m m' ->
  forall sc,
    find_bin m' km km_twin km_rep km_tmp ext it_h mhr sc v
    = find_bin m km km_twin km_rep km_tmp ext it_h mhr sc v.
Proof.
  intros Hwf Hsame. induction v as [|x v IH]; intros sc; [reflexivity|].
  cbn [find_bin]. rewrite (find_entry_same m m') by assumption.
  destruct (find_entry m _ _ _ _ _ _ _ _ _) as [[um|sc']|]; cbn [mbind option_bind];
    auto.
Qed.

Lemma find_bins_same m m' km km_twin km_rep km_tmp ext mhr (fuel : nat) :
  wf_upto 61 (h_kmers_ccov m) -> same_index m m' ->
  forall it_h sc,
    find_bins fuel m' km km_twin km_rep km_tmp ext it_h mhr sc
    = find_bins fuel m km km_twin km_rep km_tmp ext it_h mhr sc.
Proof.
  intros Hwf Hsame. pose proof Hsame as (Hh & _).
  induction fuel as [|fuel IH]; intros it_h sc; cbn [find_bins]; rewrite Hh;
    [reflexivity|].
  destruct (_ =? _); [reflexivity|].
  destruct (slot_at _ _) as [bin|]; [|reflexivity]. cbn [mbind option_bind].
  rewrite (find_bin_same m m') by assumption.
  destruct (find_bin m _ _ _ _ _ _ _ _ _) as [[um|sc']|]; cbn [mbind option_bind];
    auto.
Qed.

Lemma find_results_same m m' km km_twin km_rep km_tmp ext (results : list minHashResult) :
  wf_upto 61 (h_kmers_ccov m) -> same_index m m' ->
  forall it_h,
    find_results m' km km_twin km_rep km_tmp ext it_h results
    = find_results m km km_twin km_rep km_tmp ext it_h results.
Proof.
  intros Hwf Hsame. pose proof Hsame as (Hh & _).
  induction results as [|r results IH]; intros it_h; [reflexivity|].
  cbn [find_results]. rewrite Hh.
  destruct (HT.find _ _) as [it|]; [|reflexivity]. cbn [mbind option_bind].
  rewrite (find_bins_same m m') by assumption.
  destruct (find_bins _ m _ _ _ _ _ _ _ _) as [[um|it']|]; cbn [mbind option_bind];
    auto.
Qed.

Lemma mapRead_same m cc m' :
  mapRead m cc = Some m' -> same_index m m'.
Proof.
  unfold mapRead, same_index. intros Hm.
  destruct (isEmpty cc).
  { injection Hm as <-. repeat (split; [reflexivity|]). reflexivity. }
  destruct (isShort cc).
  { apply bind_Some in Hm as (p & Hp & Hm). injection Hm as <-. simpl.
    repeat (split; [reflexivity|]). split; [|reflexivity].
    rewrite list_fmap_insert. simpl. apply list_insert_id.
    rewrite list_lookup_fmap. unfold at_ in Hp.
    destruct (_ <? 0); [discriminate|]. rewrite Hp. reflexivity. }
  destruct (isAbundant cc).
  { destruct (_ =? _); [discriminate|].
    apply bind_Some in Hm as (entry & He & Hm). injection Hm as <-. simpl.
    destruct (UMSplitFacts.set_value_keys (h_kmers_ccov m)
                (HT.find_h (h_kmers_ccov m) (pos_unitig cc))
                (cover entry.2 (dist cc) (dist cc + len cc - 1))) as (Hk & Hs & Hn).
    split; [reflexivity|]. split; [exact Hk|]. split; [exact Hs|].
    split; [exact Hn|]. split; [|split; reflexivity].
    unfold set_value. destruct (_ !! _) as [[? ?]|]; reflexivity. }
  destruct (UMSplitFacts.update_unitig_effect _ _ _ _ Hm)
    as (Hk & Hvk & u & Hu & Hvu).
  unfold update_unitig in Hm.
  apply bind_Some in Hm as (ou & _ & Hm).
  apply bind_Some in Hm as (u0 & _ & Hm).
  assert (Hh : hmap_min_unitigs m' = hmap_min_unitigs m) by (injection Hm as <-; reflexivity).
  split; [exact Hh|]. rewrite Hk, Hvk. repeat (split; [reflexivity|]).
  rewrite Hvu. unfold seqs. rewrite list_fmap_insert. simpl. apply list_insert_id.
  rewrite list_lookup_fmap. unfold at_ in Hu.
  destruct (_ <? 0); [discriminate|]. rewrite Hu. reflexivity.
Qed.

(** X19. Mapping a read changes coverage only: after [mapRead(cc)]
    every lookup [find(km, extremities_only)] gives what it gave before,
    and [unitigCount()] is the same. *)
Theorem mapRead_keeps_lookups m cc m' km ext :
  wf_upto 61 (h_kmers_ccov m) ->
  mapRead m cc = Some m' ->
  find m' km ext = find m km ext /\ unitigCount m' = unitigCount m.
Proof.
  intros Hwf Hm. pose proof (mapRead_same _ _ _ Hm) as Hsame. split.
  - unfold find. apply find_results_same; assumption.
  - destruct Hsame as (_ & _ & _ & _ & Hp & Hvk & Hvu). unfold unitigCount, HT.size.
    rewrite Hp.
    apply (f_equal length) in Hvk. rewrite !length_fmap in Hvk.
    unfold seqs in Hvu. apply (f_equal length) in Hvu. rewrite !length_fmap in Hvu.
    rewrite Hvk, Hvu. reflexivity.
Qed.

End More.
End UMMore.

Module UMMoreCases.
Import Dna UM UMSpec UMUse UMExample UMCases UMMore.
Import String.
Local Open Scope string_scope.
Local Open Scope Z_scope.


Lemma find_names_kmer_witness :
  exists m cm,
    g_tail = Some m /\
    find m (km_of "GTCCA") false = Some cm /\
    isEmpty cm = false /\ isShort cm = false /\ strand cm = false /\
    dist cm = 2 /\
    found_ok m (km_of "GTCCA") false cm.
Proof.
  eexists. eexists.
  split; [vm_compute; reflexivity|].
  split; [vm_compute; reflexivity|].
  do 4 (split; [vm_compute; reflexivity|]).
  apply find_names_kmer. vm_compute. reflexivity.
Defined.

Lemma empty_forgets_witness :
  exists m,
    g_tail = Some m /\
    unitigCount m = 2 /\
    find (empty m) (km_of "GTCCA") false = Some (UnitigMap_empty 0) /\
    unitigCount (empty m) = 0.
Proof.
  eexists.
  split; [vm_compute; reflexivity|].
  split; [vm_compute; reflexivity|].
  match goal with
  | |- find (empty ?m) ?km ?e = _ /\ _ =>
      destruct (empty_forgets m km e) as (Hf & Hc & _)
  end.
  - split; [exists 10; split; [lia|reflexivity]|].
    split; vm_compute; reflexivity.
  - split; [exact Hf|exact Hc].
Defined.


(** On the graph of one long unitig, 13 short ones and 3 abundant
    k-mers. *)
Lemma writeGFA_segments_listed_witness :
  exists m lines,
    g_abundant = Some m /\
    writeGFA m = Some lines /\
    NoDup (s_id <$> s_lines lines).
Proof.
  eexists. eexists.
  split; [vm_compute; reflexivity|].
  match goal with
  | |- writeGFA ?m = Some ?l /\ _ =>
      assert (Hw : writeGFA m = Some l) by (vm_compute; reflexivity);
      split; [exact Hw|];
      destruct (writeGFA_segments_listed m _ Hw) as (us & _ & _ & Hnd);
      [vm_compute; reflexivity|exact Hnd]
  end.
Defined.

(** Clipping the tip [GTGGA] of [g_tail]. *)
Lemma removeUnitigs_keeps_witness :
  exists m m' removed v',
    g_tail = Some m /\
    removeUnitigs m false true [] = Some (m', removed, v') /\
    (exists gone, v_unitigs m ≡ₚ v_unitigs m' ++ gone /\ Forall small gone) /\
    (exists gone, v_kmers m ≡ₚ v_kmers m' ++ gone) /\
    grows true [] v'.
Proof.
  eexists. eexists. eexists. eexists.
  split; [vm_compute; reflexivity|].
  match goal with
  | |- removeUnitigs ?m ?i ?c ?v = Some ?r /\ _ =>
      assert (Hr : removeUnitigs m i c v = Some r) by (vm_compute; reflexivity);
      split; [exact Hr|];
      apply (removeUnitigs_keeps m i c v _ _ _ Hr); vm_compute; reflexivity
  end.
Defined.

(** The short unitig [GTGGA] of [g_tail] and its successor [TGGAC]. *)
Lemma checkJoin_single_link_witness :
  exists m cm_a,
    g_tail = Some m /\
    find m (km_of "GTGGA") true = Some cm_a /\
    checkJoin m (km_of "GTGGA") cm_a (Km []) = Some (true, Km []) /\
    neighbours m (forwardBase (km_of "GTGGA")) alpha = Some [km_of "TGGAC"] /\
    exists fw, [km_of "TGGAC"] = [fw] /\ (Km [] = Km [] \/ Km [] = fw) /\
      forall bs, neighbours m (forwardBase (twin fw)) alpha = Some bs ->
                 List.length bs = 1%nat.
Proof.
  eexists. eexists.
  split; [vm_compute; reflexivity|].
  split; [vm_compute; reflexivity|].
  match goal with
  | |- checkJoin ?m ?a ?cm ?b = Some (?r, ?b') /\ neighbours _ _ _ = Some ?fs /\ _ =>
      assert (Hc : checkJoin m a cm b = Some (r, b')) by (vm_compute; reflexivity);
      assert (Hn : neighbours m (forwardBase a) alpha = Some fs)
        by (vm_compute; reflexivity);
      split; [exact Hc|]; split; [exact Hn|];
      exact (checkJoin_single_link m a cm b r b' fs Hc Hn)
  end.
Defined.

(** One read on the first k-mer of the long unitig of [g_tail]. *)
Lemma mapRead_keeps_lookups_witness :
  exists m m',
    g_tail = Some m /\
    mapRead m (hit 0 0 1 7 false false) = Some m' /\
    m' <> m /\
    find m' (km_of "GTCCA") false = find m (km_of "GTCCA") false /\
    unitigCount m' = unitigCount m.
Proof.
  eexists. eexists.
  split; [vm_compute; reflexivity|].
  match goal with
  | |- mapRead ?m ?cc = Some ?r /\ _ =>
      assert (Hm : mapRead m cc = Some r) by (vm_compute; reflexivity);
      split; [exact Hm|]; split; [vm_compute; discriminate|];
      apply (mapRead_keeps_lookups m cc _ (km_of "GTCCA") false); [|exact Hm]
  end.
  split; [exists 10; split; [lia|reflexivity]|].
  split; vm_compute; reflexivity.
Defined.

End UMMoreCases.
